(** * conv2ascii: the image-to-ASCII conversion engine

    A shallow embedding of the two copies of the engine kept in the repository,

    - [Public]: [src/public/conv2ascii.js], the script the pages load, and
    - [Esm]:    [src/unnamed/part_008], the ES-module copy ([export default]),

    and the properties of the specification that can be decided on them.

    Numbers.  A JavaScript number is an IEEE 754 binary64 value; it is modelled by
    Rocq's primitive [float], whose [+ - * /] and comparisons are the same
    round-to-nearest-even operations.  Numbers that the code only ever uses as
    integers (array indices, string lengths, stored bytes, loop counters, the results
    of [Math.round] and [Math.floor] used as indices) are kept as [Z]; all of them stay
    far below 2^53, where binary64 arithmetic on integers is exact.

    Buffers.  A [Uint8ClampedArray] is a [list Z] of bytes.  Reading past the end gives
    [undefined] ([None]); a store converts the number with [ToUint8Clamp] and is
    dropped when the index is past the end.

    Strings.  A JavaScript string is the list of its UTF-16 code units. *)

From Stdlib Require Import ZArith Lia List Bool String Ascii Floats.
From stdpp Require Import list.

Set Warnings "-inexact-float".
Local Open Scope Z_scope.

(** ** JavaScript numbers *)

Module Js.

(** An integer-valued number, or one of the three values that are not finite. *)
Inductive jsint :=
| Int (z : Z)
| NaN
| PInf
| NInf.

(** The number denoted by an integer (exact below 2^53). *)
Definition of_int (z : Z) : float :=
  if z <? 0 then (- of_uint63 (Uint63.of_Z (- z)))%float
  else of_uint63 (Uint63.of_Z z).

(** ToNumber of an array element: [undefined] becomes NaN. *)
Definition to_number (v : option Z) : float :=
  match v with
  | Some z => of_int z
  | None => nan
  end.

Definition signed (s : bool) (m : positive) : Z :=
  if s then Z.neg m else Z.pos m.

(** [Math.floor]: the greatest integer below the value [m * 2^e]. *)
Definition Math_floor_int (x : float) : jsint :=
  match Prim2SF x with
  | S754_zero _ => Int 0
  | S754_infinity false => PInf
  | S754_infinity true => NInf
  | S754_nan => NaN
  | S754_finite s m e => Int (Z.shiftl (signed s m) e)
  end.

(** [Math.round]: the integer nearest to the value, ties towards +infinity,
    that is floor (x + 1/2) computed exactly. *)
Definition Math_round_int (x : float) : jsint :=
  match Prim2SF x with
  | S754_zero _ => Int 0
  | S754_infinity false => PInf
  | S754_infinity true => NInf
  | S754_nan => NaN
  | S754_finite s m e =>
      if 0 <=? e then Int (Z.shiftl (signed s m) e)
      else Int (Z.shiftr (signed s m + Z.shiftl 1 (- e - 1)) (- e))
  end.

(** [Math.round] as a number again: a value that is already an integer (or not
    finite) is returned as it is; a zero result keeps the sign of the argument. *)
Definition Math_round (x : float) : float :=
  match Prim2SF x with
  | S754_finite s m e =>
      if 0 <=? e then x
      else match Math_round_int x with
           | Int 0 => if s then neg_zero else zero
           | Int z => of_int z
           | _ => x
           end
  | _ => x
  end.

(** [Math.max] and [Math.min] of two numbers: NaN when either is NaN, and
    +0 above -0. *)
Definition Math_max (a b : float) : float :=
  if is_nan a || is_nan b then nan
  else if (a <? b)%float then b
  else if (b <? a)%float then a
  else if get_sign a then b else a.

Definition Math_min (a b : float) : float :=
  if is_nan a || is_nan b then nan
  else if (b <? a)%float then b
  else if (a <? b)%float then a
  else if get_sign a then a else b.

(** The remainder operator [%] on numbers: the sign of the dividend, the
    quotient truncated; always exactly representable. *)
Definition js_mod (x y : float) : float :=
  match Prim2SF x, Prim2SF y with
  | S754_nan, _ | _, S754_nan => nan
  | S754_infinity _, _ => nan
  | _, S754_zero _ => nan
  | S754_zero _, _ => x
  | S754_finite _ _ _, S754_infinity _ => x
  | S754_finite sx mx ex, S754_finite _ my ey =>
      let e := Z.min ex ey in
      let X := Z.shiftl (Z.pos mx) (ex - e) in
      let Y := Z.shiftl (Z.pos my) (ey - e) in
      let R := Z.rem X Y in
      if R =? 0 then (if sx then neg_zero else zero)
      else
        let f := Z.ldexp (of_uint63 (Uint63.of_Z R)) e in
        if sx then (- f)%float else f
  end.

(** Round to the nearest integer, ties to even, of the positive value [m * 2^e]. *)
Definition round_half_even (m : positive) (e : Z) : Z :=
  if 0 <=? e then Z.shiftl (Z.pos m) e
  else
    let k := - e in
    let q := Z.shiftr (Z.pos m) k in
    let r := Z.pos m - Z.shiftl q k in
    let h := Z.shiftl 1 (k - 1) in
    if r <? h then q
    else if h <? r then q + 1
    else if Z.even q then q else q + 1.

(** The conversion a [Uint8ClampedArray] applies to a stored number: NaN is 0,
    the value is clamped to [0,255] and rounded to the nearest integer, ties to
    even. *)
Definition ToUint8Clamp (x : float) : Z :=
  match Prim2SF x with
  | S754_nan => 0
  | S754_zero _ => 0
  | S754_infinity s => if s then 0 else 255
  | S754_finite true _ _ => 0
  | S754_finite false m e => Z.min 255 (round_half_even m e)
  end.

(** The truth value of a number in a condition: 0, -0 and NaN are false. *)
Definition truthy (x : float) : bool := negb (is_zero x || is_nan x).

End Js.

Import Js.

(** ** Strings, results and the browser *)

(** A string is the list of its UTF-16 code units. *)
Definition jsstring := list Z.

(** The code units of an ASCII literal. *)
Fixpoint str (s : string) : jsstring :=
  match s with
  | EmptyString => []
  | String c s' => Z.of_N (N_of_ascii c) :: str s'
  end.

Definition newline : Z := 10.

Definition str_length (s : jsstring) : Z := Z.of_nat (length s).

(** [s[i]]: the code unit at an index, [undefined] anywhere else. *)
Definition string_get (s : jsstring) (i : jsint) : option Z :=
  match i with
  | Int z => if z <? 0 then None else s !! Z.to_nat z
  | _ => None
  end.

(** ToString of what indexing a string gives: the one-character string, or the
    text of [undefined]. *)
Definition to_string (v : option Z) : jsstring :=
  match v with
  | Some c => [c]
  | None => str "undefined"
  end.

(** [a += v] *)
Definition append_value (a : jsstring) (v : option Z) : jsstring :=
  a ++ to_string v.

(** [s.split('\n')]. *)
Fixpoint split_lines (s : jsstring) : list jsstring :=
  match s with
  | [] => [[]]
  | c :: s' =>
      if c =? newline then [] :: split_lines s'
      else match split_lines s' with
           | l :: ls => (c :: l) :: ls
           | [] => [[c]]
           end
  end.

Definition is_high_surrogate (c : Z) : bool := (55296 <=? c) && (c <=? 56319).
Definition is_low_surrogate (c : Z) : bool := (56320 <=? c) && (c <=? 57343).

(** [Array.from(s)]: the string cut into code points, a surrogate pair being one
    element. *)
Fixpoint Array_from (s : jsstring) : list jsstring :=
  match s with
  | [] => []
  | c :: s' =>
      match s' with
      | d :: s'' =>
          if is_high_surrogate c && is_low_surrogate d
          then [c; d] :: Array_from s''
          else [c] :: Array_from s'
      | [] => [[c]]
      end
  end.

(** [for (let i = 0; i < n; i++) body], started at [i]. *)
Fixpoint for_loop {S : Type} (n : nat) (i : Z) (body : Z -> S -> S) (s : S) : S :=
  match n with
  | O => s
  | S n' => for_loop n' (i + 1) body (body i s)
  end.

(** How a call ends. *)
Inductive error :=
| LoadError        (* the promise of [img.onerror]: 'Failed to load image' *)
| CanvasError      (* an exception of the canvas read *)
| RangeError.      (* [Array(n)] with an invalid length *)

Inductive outcome (A : Type) :=
| Return (a : A)
| Throw (e : error).
Arguments Return {A} a.
Arguments Throw {A} e.

(** A loaded image element.  The canvas is the browser's: [drawn w h] is the buffer
    [ctx.getImageData(0, 0, w, h)] hands back after [ctx.drawImage(img, 0, 0, w, h)]
    on a canvas of that size, and [None] when the canvas call throws. *)
Record HTMLImageElement := {
  naturalWidth : Z;
  naturalHeight : Z;
  img_width : Z;
  img_height : Z;
  drawn : Z -> Z -> option (list Z)
}.

(** The first argument of [convertToAscii]: an element, or a URL which the browser
    loads (or fails to). *)
Inductive ImageSource :=
| Element (img : HTMLImageElement)
| Url (loaded : option HTMLImageElement).

(** A colour of the colour map: three array elements, each possibly [undefined]. *)
Record Color := { c_r : option Z; c_g : option Z; c_b : option Z }.

Inductive FillStyle :=
| White
| Black
| Rgb (c : Color).

(** What [createAsciiImage] does to its canvas, in order; the data URL it returns
    encodes the canvas after these calls. *)
Inductive CanvasOp :=
| Resize (w h : float)
| Font (px : float)
| FillRect (style : FillStyle) (x y w h : float)
| FillText (style : FillStyle) (text : jsstring) (x y : float).

Record Result := { text : jsstring; image : list CanvasOp }.

(** [Array(n)] throws a RangeError unless [n] is an integer in [0, 2^32). *)
Definition valid_array_length (n : Z) : bool := (0 <=? n) && (n <? 4294967296).

(** ** Options and settings *)

Definition CHAR_SETS_standard : jsstring := [9608; 9619; 9618; 9617].
Definition CHAR_SETS_extended : jsstring := str "@%#*+=-:. ".
Definition CHAR_SETS_blocks : jsstring :=
  [9608; 9619; 9618; 9617; 9604; 9600; 9632; 9633; 9642; 9643].
Definition CHAR_SETS_simple : jsstring := str "#. ".

(** What [chars], [settings.charSet] or an entry of the table [CHAR_SETS] can
    be: a string, or one of the things a property read on the table finds on
    [Object.prototype], namely a function, whose [length] is the number of its
    parameters, or the prototype itself, which has no [length].  Neither has a
    property at an index. *)
Inductive Chars :=
| Ramp (s : jsstring)
| Inherited (length : option Z).

(** [chars.length]; [None] is [undefined]. *)
Definition chars_length (chars : Chars) : option Z :=
  match chars with
  | Ramp s => Some (str_length s)
  | Inherited length => length
  end.

(** [chars[i]] *)
Definition chars_get (chars : Chars) (i : jsint) : option Z :=
  match chars with
  | Ramp s => string_get s i
  | Inherited _ => None
  end.

(** The truth value of [chars] in a condition: only the empty string is false. *)
Definition chars_truthy (chars : Chars) : bool :=
  match chars with
  | Ramp [] => false
  | _ => true
  end.

(** An index computed from [chars.length]: NaN when the length is [undefined]. *)
Definition index_from (length : option Z) (index : Z -> jsint) : jsint :=
  match length with
  | Some len => index len
  | None => NaN
  end.

(** The value of the key [name] among the properties of an object. *)
Fixpoint property {A : Type} (name : jsstring) (properties : list (string * A))
    : option A :=
  match properties with
  | (key, v) :: rest =>
      if decide (str key = name) then Some v else property name rest
  | [] => None
  end.

(** The four own properties of the table. *)
Definition CHAR_SETS_own : list (string * jsstring) :=
  [("standard", CHAR_SETS_standard); ("extended", CHAR_SETS_extended);
   ("blocks", CHAR_SETS_blocks); ("simple", CHAR_SETS_simple)]%string.

(** The properties of [Object.prototype], which the table inherits: for each
    function the number of its parameters; [None] for '__proto__', whose getter
    gives the prototype itself. *)
Definition Object_prototype : list (string * option Z) :=
  [("constructor", Some 1); ("__defineGetter__", Some 2);
   ("__defineSetter__", Some 2); ("hasOwnProperty", Some 1);
   ("__lookupGetter__", Some 1); ("__lookupSetter__", Some 1);
   ("isPrototypeOf", Some 1); ("propertyIsEnumerable", Some 1);
   ("toString", Some 0); ("valueOf", Some 0); ("__proto__", None);
   ("toLocaleString", Some 0)]%string.

(** [CHAR_SETS[name]]: an own property, else an inherited one, else [undefined]
    ([None]). *)
Definition CHAR_SETS (name : jsstring) : option Chars :=
  match property name CHAR_SETS_own with
  | Some s => Some (Ramp s)
  | None => Inherited <$> property name Object_prototype
  end.

(** The options object a caller passes; an absent key is [None]. *)
Module Options.
Record t := {
  width : option float;
  height : option float;
  brightness : option float;
  contrast : option float;
  saturation : option float;
  grayscale : option float;
  invert : option float;
  hue : option float;
  sepia : option float;
  colorized : option bool;
  charSet : option Chars;
  customChars : option jsstring;
  stretchWidth : option float;
  stretchHeight : option float;
  charSetType : option jsstring;
  _highResolutionConfirmed : bool
}.

Definition empty : t :=
  {| width := None; height := None; brightness := None; contrast := None;
     saturation := None; grayscale := None; invert := None; hue := None;
     sepia := None; colorized := None; charSet := None; customChars := None;
     stretchWidth := None; stretchHeight := None; charSetType := None;
     _highResolutionConfirmed := false |}.

Definition set_width (w : float) (o : t) : t :=
  {| width := Some w; height := height o; brightness := brightness o;
     contrast := contrast o; saturation := saturation o; grayscale := grayscale o;
     invert := invert o; hue := hue o; sepia := sepia o; colorized := colorized o;
     charSet := charSet o; customChars := customChars o;
     stretchWidth := stretchWidth o; stretchHeight := stretchHeight o;
     charSetType := charSetType o;
     _highResolutionConfirmed := _highResolutionConfirmed o |}.

Definition set_confirmed (o : t) : t :=
  {| width := width o; height := height o; brightness := brightness o;
     contrast := contrast o; saturation := saturation o; grayscale := grayscale o;
     invert := invert o; hue := hue o; sepia := sepia o; colorized := colorized o;
     charSet := charSet o; customChars := customChars o;
     stretchWidth := stretchWidth o; stretchHeight := stretchHeight o;
     charSetType := charSetType o;
     _highResolutionConfirmed := true |}.

Definition set_colorized (c : bool) (o : t) : t :=
  {| width := width o; height := height o; brightness := brightness o;
     contrast := contrast o; saturation := saturation o; grayscale := grayscale o;
     invert := invert o; hue := hue o; sepia := sepia o; colorized := Some c;
     charSet := charSet o; customChars := customChars o;
     stretchWidth := stretchWidth o; stretchHeight := stretchHeight o;
     charSetType := charSetType o;
     _highResolutionConfirmed := _highResolutionConfirmed o |}.

Definition set_charSet (c : option Chars) (o : t) : t :=
  {| width := width o; height := height o; brightness := brightness o;
     contrast := contrast o; saturation := saturation o; grayscale := grayscale o;
     invert := invert o; hue := hue o; sepia := sepia o; colorized := colorized o;
     charSet := c; customChars := customChars o;
     stretchWidth := stretchWidth o; stretchHeight := stretchHeight o;
     charSetType := charSetType o;
     _highResolutionConfirmed := _highResolutionConfirmed o |}.
End Options.

(** The settings of one conversion: [{ ...defaults, ...options }]. *)
Module Settings.
Record t := {
  width : float;
  height : float;
  brightness : float;
  contrast : float;
  saturation : float;
  grayscale : float;
  invert : float;
  hue : float;
  sepia : float;
  colorized : bool;
  charSet : Chars;
  customChars : jsstring;
  stretchWidth : float;
  stretchHeight : float;
  charSetType : option jsstring
}.

Definition set_colorized (c : bool) (s : t) : t :=
  {| width := width s; height := height s; brightness := brightness s;
     contrast := contrast s; saturation := saturation s; grayscale := grayscale s;
     invert := invert s; hue := hue s; sepia := sepia s; colorized := c;
     charSet := charSet s; customChars := customChars s;
     stretchWidth := stretchWidth s; stretchHeight := stretchHeight s;
     charSetType := charSetType s |}.

Definition set_height (h : float) (s : t) : t :=
  {| width := width s; height := h; brightness := brightness s;
     contrast := contrast s; saturation := saturation s; grayscale := grayscale s;
     invert := invert s; hue := hue s; sepia := sepia s; colorized := colorized s;
     charSet := charSet s; customChars := customChars s;
     stretchWidth := stretchWidth s; stretchHeight := stretchHeight s;
     charSetType := charSetType s |}.
End Settings.

Definition defaults : Settings.t :=
  {| Settings.width := 100;
     Settings.height := 0;
     Settings.brightness := 100;
     Settings.contrast := 100;
     Settings.saturation := 100;
     Settings.grayscale := 0;
     Settings.invert := 0;
     Settings.hue := 0;
     Settings.sepia := 0;
     Settings.colorized := false;
     Settings.charSet := Ramp CHAR_SETS_standard;
     Settings.customChars := [];
     Settings.stretchWidth := 100;
     Settings.stretchHeight := 100;
     Settings.charSetType := None |}.

(** [{ ...defaults, ...options }] *)
Definition spread (d : Settings.t) (o : Options.t) : Settings.t :=
  {| Settings.width := default (Settings.width d) (Options.width o);
     Settings.height := default (Settings.height d) (Options.height o);
     Settings.brightness := default (Settings.brightness d) (Options.brightness o);
     Settings.contrast := default (Settings.contrast d) (Options.contrast o);
     Settings.saturation := default (Settings.saturation d) (Options.saturation o);
     Settings.grayscale := default (Settings.grayscale d) (Options.grayscale o);
     Settings.invert := default (Settings.invert d) (Options.invert o);
     Settings.hue := default (Settings.hue d) (Options.hue o);
     Settings.sepia := default (Settings.sepia d) (Options.sepia o);
     Settings.colorized := default (Settings.colorized d) (Options.colorized o);
     Settings.charSet := default (Settings.charSet d) (Options.charSet o);
     Settings.customChars := default (Settings.customChars d) (Options.customChars o);
     Settings.stretchWidth := default (Settings.stretchWidth d) (Options.stretchWidth o);
     Settings.stretchHeight := default (Settings.stretchHeight d) (Options.stretchHeight o);
     Settings.charSetType :=
       match Options.charSetType o with
       | Some c => Some c
       | None => Settings.charSetType d
       end |}.

(** The high-resolution prompt at the head of [convertToAscii]; [confirm] is the
    user's answer to the dialog. *)
Definition high_resolution_check (confirm : bool) (o : Options.t) : Options.t :=
  match Options.width o with
  | Some w =>
      if (500 <? w)%float && negb (Options._highResolutionConfirmed o) then
        if confirm then Options.set_confirmed o
        else Options.set_width (Math_min w 500) o
      else o
  | None => o
  end.

(** ** What the two copies share *)

(** [truncate(value)]: [Math.min(255, Math.max(0, value))]. *)
Definition truncate (value : float) : float := Math_min 255 (Math_max 0 value).

Definition rgb := (float * float * float)%type.

(** The local function [hue2rgb] of [hslToRgb]. *)
Definition hue2rgb (p q t : float) : float :=
  let t := if (t <? 0)%float then (t + 1)%float else t in
  let t := if (1 <? t)%float then (t - 1)%float else t in
  if (t <? 1 / 6)%float then (p + (q - p) * 6 * t)%float
  else if (t <? 1 / 2)%float then q
  else if (t <? 2 / 3)%float then (p + (q - p) * (2 / 3 - t) * 6)%float
  else p.

(** [Math.max(r, g, b)] and [Math.min(r, g, b)]. *)
Definition Math_max3 (r g b : float) : float := Math_max (Math_max r g) b.
Definition Math_min3 (r g b : float) : float := Math_min (Math_min r g) b.

(** A pixel read for the adjustments: the three numbers at [i], [i+1], [i+2]. *)
Definition pixel_at (pixels : list Z) (i : nat) : rgb :=
  (to_number (pixels !! i), to_number (pixels !! (i + 1)%nat),
   to_number (pixels !! (i + 2)%nat)).

(** [pixels[i] = r; pixels[i + 1] = g; pixels[i + 2] = b]. *)
Definition store_pixel (pixels : list Z) (i : nat) (p : rgb) : list Z :=
  let '(r, g, b) := p in
  <[(i + 2)%nat := ToUint8Clamp b]>
    (<[(i + 1)%nat := ToUint8Clamp g]> (<[i := ToUint8Clamp r]> pixels)).

(** [for (let i = 0; i < pixels.length; i += 4)] with a body that rewrites the
    pixel at [i]; [n] is the number of rounds left. *)
Fixpoint pixel_loop (f : rgb -> rgb) (n : nat) (i : nat) (pixels : list Z) : list Z :=
  match n with
  | O => pixels
  | S n' => pixel_loop f n' (i + 4)%nat (store_pixel pixels i (f (pixel_at pixels i)))
  end.

Definition rounds (pixels : list Z) : nat := Nat.div (length pixels + 3) 4.

(** *** The head of [convertToAscii]

    Both copies start the same way: the high-resolution prompt, the merge with the
    defaults, the loading of the image, the height derived from the aspect ratio,
    the stretch factors, and the canvas read. *)

(** The settings after the height has been derived from the aspect ratio. *)
Definition with_height (img : HTMLImageElement) (settings : Settings.t) : Settings.t :=
  if negb (truthy (Settings.height settings)) then
    let aspectRatio :=
      (of_int (naturalHeight img) / of_int (naturalWidth img) * 0.5)%float in
    Settings.set_height (Math_round (Settings.width settings * aspectRatio)%float)
      settings
  else settings.

Definition effectiveWidth (settings : Settings.t) : jsint :=
  Math_round_int (Settings.width settings * (Settings.stretchWidth settings / 100))%float.

Definition effectiveHeight (settings : Settings.t) : jsint :=
  Math_round_int
    (Settings.height settings * (Settings.stretchHeight settings / 100))%float.

(** What the head hands to the rest of the function. *)
Record Prepared := {
  p_img : HTMLImageElement;
  p_settings : Settings.t;
  p_width : Z;
  p_height : Z;
  p_pixels : list Z
}.

(** A width or height that is not a finite number never reaches the loops: the
    canvas takes its sizes as integers, NaN and the infinities count as 0 there,
    and reading a canvas of size 0 throws. *)
Definition prepare (confirm : bool) (imgSource : ImageSource)
    (options : Options.t) : outcome Prepared :=
  let options := high_resolution_check confirm options in
  let settings := spread defaults options in
  match (match imgSource with Element img => Some img | Url loaded => loaded end) with
  | None => Throw LoadError
  | Some img =>
      let settings := with_height img settings in
      match effectiveWidth settings, effectiveHeight settings with
      | Int w, Int h =>
          match drawn img w h with
          | Some pixels =>
              Return {| p_img := img; p_settings := settings; p_width := w;
                        p_height := h; p_pixels := pixels |}
          | None => Throw CanvasError
          end
      | _, _ => Throw CanvasError
      end
  end.

(** ** [src/public/conv2ascii.js] *)

Module Public.

(** *** [applyImageAdjustments] *)

Definition contrastFactor (settings : Settings.t) : float :=
  ((259 * (Settings.contrast settings / 100 + 255))
   / (255 * (259 - Settings.contrast settings / 100)))%float.

(** [rgbToHsl(r, g, b)] *)
Definition rgbToHsl (r g b : float) : float * float * float :=
  let r := (r / 255)%float in
  let g := (g / 255)%float in
  let b := (b / 255)%float in
  let max := Math_max3 r g b in
  let min := Math_min3 r g b in
  let l := ((max + min) / 2)%float in
  if (max =? min)%float then (0%float, 0%float, l)
  else
    let d := (max - min)%float in
    let s := if (0.5 <? l)%float then (d / (2 - max - min))%float
             else (d / (max + min))%float in
    let h :=
      if (max =? r)%float then ((g - b) / d + (if (g <? b)%float then 6 else 0))%float
      else if (max =? g)%float then ((b - r) / d + 2)%float
      else if (max =? b)%float then ((r - g) / d + 4)%float
      else nan in
    ((h / 6)%float, s, l).

(** [hslToRgb(h, s, l)] *)
Definition hslToRgb (h s l : float) : rgb :=
  let '(r, g, b) :=
    if (s =? 0)%float then (l, l, l)
    else
      let q := if (l <? 0.5)%float then (l * (1 + s))%float
               else (l + s - l * s)%float in
      let p := (2 * l - q)%float in
      (hue2rgb p q (h + 1 / 3)%float, hue2rgb p q h, hue2rgb p q (h - 1 / 3)%float) in
  (truncate (r * 255)%float, truncate (g * 255)%float, truncate (b * 255)%float).

(** The seven blocks of the loop body, one function each. *)

Definition apply_brightness (settings : Settings.t) (p : rgb) : rgb :=
  let '(r, g, b) := p in
  if negb (Settings.brightness settings =? 100)%float then
    let factor := (Settings.brightness settings / 100)%float in
    (truncate (r * factor)%float, truncate (g * factor)%float,
     truncate (b * factor)%float)
  else p.

Definition apply_contrast (settings : Settings.t) (contrastFactor : float)
    (p : rgb) : rgb :=
  let '(r, g, b) := p in
  if negb (Settings.contrast settings =? 100)%float then
    (truncate (contrastFactor * (r - 128) + 128)%float,
     truncate (contrastFactor * (g - 128) + 128)%float,
     truncate (contrastFactor * (b - 128) + 128)%float)
  else p.

Definition apply_saturation (settings : Settings.t) (p : rgb) : rgb :=
  let '(r, g, b) := p in
  if negb (Settings.saturation settings =? 100)%float then
    let factor := (Settings.saturation settings / 100)%float in
    let gray := (0.2989 * r + 0.5870 * g + 0.1140 * b)%float in
    (truncate (gray + (r - gray) * factor)%float,
     truncate (gray + (g - gray) * factor)%float,
     truncate (gray + (b - gray) * factor)%float)
  else p.

Definition apply_grayscale (settings : Settings.t) (p : rgb) : rgb :=
  let '(r, g, b) := p in
  if (0 <? Settings.grayscale settings)%float then
    let gray := (0.2989 * r + 0.5870 * g + 0.1140 * b)%float in
    let factor := (Settings.grayscale settings / 100)%float in
    (truncate (r * (1 - factor) + gray * factor)%float,
     truncate (g * (1 - factor) + gray * factor)%float,
     truncate (b * (1 - factor) + gray * factor)%float)
  else p.

Definition apply_invert (settings : Settings.t) (p : rgb) : rgb :=
  let '(r, g, b) := p in
  if (0 <? Settings.invert settings)%float then
    let factor := (Settings.invert settings / 100)%float in
    (truncate (r * (1 - factor) + (255 - r) * factor)%float,
     truncate (g * (1 - factor) + (255 - g) * factor)%float,
     truncate (b * (1 - factor) + (255 - b) * factor)%float)
  else p.

Definition apply_sepia (settings : Settings.t) (p : rgb) : rgb :=
  let '(r, g, b) := p in
  if (0 <? Settings.sepia settings)%float then
    let factor := (Settings.sepia settings / 100)%float in
    let sepiaR := (0.393 * r + 0.769 * g + 0.189 * b)%float in
    let sepiaG := (0.349 * r + 0.686 * g + 0.168 * b)%float in
    let sepiaB := (0.272 * r + 0.534 * g + 0.131 * b)%float in
    (truncate (r * (1 - factor) + sepiaR * factor)%float,
     truncate (g * (1 - factor) + sepiaG * factor)%float,
     truncate (b * (1 - factor) + sepiaB * factor)%float)
  else p.

Definition apply_hue (settings : Settings.t) (p : rgb) : rgb :=
  let '(r, g, b) := p in
  if negb (Settings.hue settings =? 0)%float then
    let '(h, s, l) := rgbToHsl r g b in
    let newHue := js_mod (h + Settings.hue settings / 360)%float 1 in
    hslToRgb newHue s l
  else p.

(** The body of the loop between the reads and the stores. *)
Definition adjust (settings : Settings.t) (contrastFactor : float) (p : rgb) : rgb :=
  let p := apply_brightness settings p in
  let p := apply_contrast settings contrastFactor p in
  let p := apply_saturation settings p in
  let p := apply_grayscale settings p in
  let p := apply_invert settings p in
  let p := apply_sepia settings p in
  let p := apply_hue settings p in
  p.

(** [applyImageAdjustments(pixels, settings)]; the result is the buffer after the
    call. *)
Definition applyImageAdjustments (pixels : list Z) (settings : Settings.t) : list Z :=
  pixel_loop (adjust settings (contrastFactor settings)) (rounds pixels) 0 pixels.

(** *** [createAsciiImage] *)

Definition ColorMap := list (list (option Color)).

Definition createAsciiImage (ascii : jsstring) (originalWidth originalHeight : Z)
    (options : Settings.t) (colorMap : ColorMap) : list CanvasOp :=
  let lines := split_lines ascii in
  let asciiWidth := match lines with l :: _ => str_length l | [] => 0 end in
  let asciiHeight := Z.of_nat (length lines) in
  let fontSize := Z.min 12 (asciiWidth * 12 / asciiHeight) in
  let charWidth := (of_int fontSize * 0.6)%float in
  let charHeight := of_int fontSize in
  let canvasWidth := (of_int asciiWidth * charWidth)%float in
  let canvasHeight := (of_int asciiHeight * charHeight)%float in
  [Resize canvasWidth canvasHeight; Font (of_int fontSize);
   FillRect White 0 0 canvasWidth canvasHeight]
  ++ (if Settings.colorized options && negb (Nat.eqb (length colorMap) 0) then
        concat (imap (fun y line =>
          concat (imap (fun x char =>
            match colorMap !! y with
            | Some row =>
                match row !! x with
                | Some (Some color) =>
                    [FillText (Rgb color) char
                       (of_int (Z.of_nat x) * charWidth)%float
                       (of_int (Z.of_nat y) * charHeight)%float]
                | _ => []
                end
            | None => []
            end) (Array_from line))) lines)
      else
        imap (fun i line =>
          FillText Black line 0 (of_int (Z.of_nat i) * charHeight)%float) lines).

(** *** [convertToAscii] *)

(** [Math.round(0.299 * r + 0.587 * g + 0.114 * b)] *)
Definition brightness_of (r g b : float) : jsint :=
  Math_round_int (0.299 * r + 0.587 * g + 0.114 * b)%float.

(** [Math.min(chars.length - 1, Math.floor(chars.length * brightness / 256))] for
    an integer-valued [brightness]. *)
Definition charIndex (len : Z) (brightness : jsint) : jsint :=
  match brightness with
  | Int L => Int (Z.min (len - 1) (len * L / 256))
  | NaN => NaN
  | PInf => if len =? 0 then NaN else Int (len - 1)
  | NInf => if len =? 0 then NaN else NInf
  end.

(** The body of the inner loop at column [x] of row [y]. *)
Definition cell (chars : Chars) (pixels originalPixels : list Z)
    (colorized : bool) (effectiveWidth y x : Z)
    (st : jsstring * ColorMap) : jsstring * ColorMap :=
  let '(ascii, colorMap) := st in
  let idx := Z.to_nat ((y * effectiveWidth + x) * 4) in
  let r := to_number (pixels !! idx) in
  let g := to_number (pixels !! (idx + 1)%nat) in
  let b := to_number (pixels !! (idx + 2)%nat) in
  let brightness := brightness_of r g b in
  let charIndex :=
    index_from (chars_length chars) (fun length => charIndex length brightness) in
  let ascii := append_value ascii (chars_get chars charIndex) in
  let colorMap :=
    if colorized then
      alter (fun row =>
               <[Z.to_nat x := Some {| c_r := originalPixels !! idx;
                                       c_g := originalPixels !! (idx + 1)%nat;
                                       c_b := originalPixels !! (idx + 2)%nat |}]> row)
            (Z.to_nat y) colorMap
    else colorMap in
  (ascii, colorMap).

(** The body of the outer loop at row [y]. *)
Definition row (chars : Chars) (pixels originalPixels : list Z)
    (colorized : bool) (effectiveWidth y : Z)
    (st : jsstring * ColorMap) : jsstring * ColorMap :=
  let '(ascii, colorMap) :=
    for_loop (Z.to_nat effectiveWidth) 0
      (cell chars pixels originalPixels colorized effectiveWidth y) st in
  (ascii ++ [newline], colorMap).

(** [settings.customChars && settings.customChars.length > 0
      ? settings.customChars : settings.charSet] *)
Definition active_chars (settings : Settings.t) : Chars :=
  match Settings.customChars settings with
  | [] => Settings.charSet settings
  | _ :: _ => Ramp (Settings.customChars settings)
  end.

(** The conversion once the image is loaded and the canvas has been read. *)
Definition convert (img : HTMLImageElement) (settings : Settings.t)
    (effectiveWidth effectiveHeight : Z) (pixels : list Z) : outcome Result :=
  let originalPixels := pixels in
  let pixels := applyImageAdjustments pixels settings in
  let chars := active_chars settings in
  let colorized := Settings.colorized settings in
  if colorized
     && (negb (valid_array_length effectiveHeight)
         || ((0 <? effectiveHeight) && negb (valid_array_length effectiveWidth)))
  then Throw RangeError
  else
    let colorMap : ColorMap :=
      if colorized
      then replicate (Z.to_nat effectiveHeight)
             (replicate (Z.to_nat effectiveWidth) None)
      else [] in
    let '(ascii, colorMap) :=
      for_loop (Z.to_nat effectiveHeight) 0
        (row chars pixels originalPixels colorized effectiveWidth) ([], colorMap) in
    let asciiImage :=
      createAsciiImage ascii (img_width img) (img_height img) settings colorMap in
    Return {| text := ascii; image := asciiImage |}.

(** [convertToAscii(imgSource, options)] *)
Definition convertToAscii (confirm : bool) (imgSource : ImageSource)
    (options : Options.t) : outcome Result :=
  match prepare confirm imgSource options with
  | Throw e => Throw e
  | Return c =>
      convert (p_img c) (p_settings c) (p_width c) (p_height c) (p_pixels c)
  end.

End Public.

(** ** [src/unnamed/part_008], the ES-module copy *)

Module Esm.

(** *** [applyImageAdjustments] *)

(** [rgbToHsl(r, g, b)]: hue in degrees, saturation and lightness in percent. *)
Definition rgbToHsl (r g b : float) : float * float * float :=
  let r := (r / 255)%float in
  let g := (g / 255)%float in
  let b := (b / 255)%float in
  let max := Math_max3 r g b in
  let min := Math_min3 r g b in
  let l := ((max + min) / 2)%float in
  if (max =? min)%float then (0%float, (0 * 100)%float, (l * 100)%float)
  else
    let d := (max - min)%float in
    let s := if (0.5 <? l)%float then (d / (2 - max - min))%float
             else (d / (max + min))%float in
    let h :=
      if (max =? r)%float then ((g - b) / d + (if (g <? b)%float then 6 else 0))%float
      else if (max =? g)%float then ((b - r) / d + 2)%float
      else if (max =? b)%float then ((r - g) / d + 4)%float
      else nan in
    ((h * 60)%float, (s * 100)%float, (l * 100)%float).

(** [hslToRgb(h, s, l)] *)
Definition hslToRgb (h s l : float) : rgb :=
  let s := (s / 100)%float in
  let l := (l / 100)%float in
  if (s =? 0)%float then
    let value := Math_round (l * 255)%float in
    (value, value, value)
  else
    let q := if (l <? 0.5)%float then (l * (1 + s))%float
             else (l + s - l * s)%float in
    let p := (2 * l - q)%float in
    let r := hue2rgb p q (js_mod (h / 360 + 1 / 3)%float 1) in
    let g := hue2rgb p q (js_mod (h / 360)%float 1) in
    let b := hue2rgb p q (js_mod (h / 360 - 1 / 3)%float 1) in
    (Math_round (r * 255)%float, Math_round (g * 255)%float,
     Math_round (b * 255)%float).

(** The constants computed before the loop. *)
Record Levels := {
  brightness : float;
  contrast : float;
  saturation : float;
  grayscaleLevel : float;
  invertLevel : float;
  hueRotation : float;
  sepiaLevel : float
}.

Definition levels (settings : Settings.t) : Levels :=
  {| brightness := ((Settings.brightness settings - 100) * 2.55)%float;
     contrast := (Settings.contrast settings / 100)%float;
     saturation := (Settings.saturation settings / 100)%float;
     grayscaleLevel := (Settings.grayscale settings / 100)%float;
     invertLevel := (Settings.invert settings / 100)%float;
     hueRotation := (Settings.hue settings * 3.6)%float;
     sepiaLevel := (Settings.sepia settings / 100)%float |}.

(** The seven blocks of the loop body, one function each. *)

Definition apply_brightness (c : Levels) (p : rgb) : rgb :=
  let '(r, g, b) := p in
  (truncate (r + brightness c)%float, truncate (g + brightness c)%float,
   truncate (b + brightness c)%float).

Definition apply_contrast (c : Levels) (p : rgb) : rgb :=
  let '(r, g, b) := p in
  (truncate (((r / 255 - 0.5) * contrast c + 0.5) * 255)%float,
   truncate (((g / 255 - 0.5) * contrast c + 0.5) * 255)%float,
   truncate (((b / 255 - 0.5) * contrast c + 0.5) * 255)%float).

Definition apply_saturation (c : Levels) (p : rgb) : rgb :=
  let '(r, g, b) := p in
  let gray := (0.2989 * r + 0.5870 * g + 0.1140 * b)%float in
  (truncate (gray + saturation c * (r - gray))%float,
   truncate (gray + saturation c * (g - gray))%float,
   truncate (gray + saturation c * (b - gray))%float).

Definition apply_grayscale (c : Levels) (p : rgb) : rgb :=
  let '(r, g, b) := p in
  if (0 <? grayscaleLevel c)%float then
    let grayPixel := (0.2989 * r + 0.5870 * g + 0.1140 * b)%float in
    (truncate (r * (1 - grayscaleLevel c) + grayPixel * grayscaleLevel c)%float,
     truncate (g * (1 - grayscaleLevel c) + grayPixel * grayscaleLevel c)%float,
     truncate (b * (1 - grayscaleLevel c) + grayPixel * grayscaleLevel c)%float)
  else p.

Definition apply_invert (c : Levels) (p : rgb) : rgb :=
  let '(r, g, b) := p in
  if (0 <? invertLevel c)%float then
    (truncate (r * (1 - invertLevel c) + (255 - r) * invertLevel c)%float,
     truncate (g * (1 - invertLevel c) + (255 - g) * invertLevel c)%float,
     truncate (b * (1 - invertLevel c) + (255 - b) * invertLevel c)%float)
  else p.

Definition apply_hue (c : Levels) (p : rgb) : rgb :=
  let '(r, g, b) := p in
  if negb (hueRotation c =? 0)%float then
    let '(h, s, l) := rgbToHsl r g b in
    let h := js_mod (h + hueRotation c)%float 360 in
    let h := if (h <? 0)%float then (h + 360)%float else h in
    hslToRgb h s l
  else p.

Definition apply_sepia (c : Levels) (p : rgb) : rgb :=
  let '(r, g, b) := p in
  if (0 <? sepiaLevel c)%float then
    let sepiaR := (0.393 * r + 0.769 * g + 0.189 * b)%float in
    let sepiaG := (0.349 * r + 0.686 * g + 0.168 * b)%float in
    let sepiaB := (0.272 * r + 0.534 * g + 0.131 * b)%float in
    (truncate (r * (1 - sepiaLevel c) + sepiaR * sepiaLevel c)%float,
     truncate (g * (1 - sepiaLevel c) + sepiaG * sepiaLevel c)%float,
     truncate (b * (1 - sepiaLevel c) + sepiaB * sepiaLevel c)%float)
  else p.

(** The body of the loop between the reads and the stores. *)
Definition adjust (c : Levels) (p : rgb) : rgb :=
  let p := apply_brightness c p in
  let p := apply_contrast c p in
  let p := apply_saturation c p in
  let p := apply_grayscale c p in
  let p := apply_invert c p in
  let p := apply_hue c p in
  let p := apply_sepia c p in
  p.

(** [applyImageAdjustments(pixels, settings)]; the result is the buffer after the
    call. *)
Definition applyImageAdjustments (pixels : list Z) (settings : Settings.t) : list Z :=
  pixel_loop (adjust (levels settings)) (rounds pixels) 0 pixels.

(** *** [createAsciiImage] *)

Definition ColorMap := list (list Color).

Definition createAsciiImage (ascii : jsstring) (originalWidth originalHeight : Z)
    (options : Settings.t) (colorMap : ColorMap) : list CanvasOp :=
  let lines := split_lines ascii in
  let width := (Settings.width options * 2)%float in
  let height := Settings.height options in
  let fontSize := (height / of_int (Z.of_nat (length lines)))%float in
  [Resize width height; FillRect White 0 0 width height; Font fontSize]
  ++ concat (imap (fun y line =>
       match (if Settings.colorized options then colorMap !! y else None) with
       | Some rowColors =>
           imap (fun x cc =>
                   FillText (Rgb (snd cc)) [fst cc]
                     (of_int (Z.of_nat x) * fontSize / 2)%float
                     (of_int (Z.of_nat y + 1) * fontSize)%float)
                (zip line rowColors)
       | None =>
           [FillText Black line 0 (of_int (Z.of_nat y + 1) * fontSize)%float]
       end) lines).

(** *** [convertToAscii] *)

(** [Math.min(chars.length - 1, charIdx)] for an integer-valued [charIdx]. *)
Definition min_index (len : Z) (charIdx : jsint) : jsint :=
  match charIdx with
  | Int k => Int (Z.min (len - 1) k)
  | NaN => NaN
  | PInf => Int (len - 1)
  | NInf => NInf
  end.

(** [(r + g + b) / 3] *)
Definition brightness_of (r g b : float) : float := ((r + g + b) / 3)%float.

(** [Math.floor(brightness / 256 * chars.length)] *)
Definition charIdx_of (len : Z) (brightness : float) : jsint :=
  Math_floor_int (brightness / 256 * of_int len)%float.

(** The body of the inner loop at column [x] of row [y]. *)
Definition cell (chars : Chars) (pixels : list Z) (colorized : bool)
    (effectiveWidth y x : Z) (st : jsstring * list Color) : jsstring * list Color :=
  let '(row, rowColors) := st in
  let idx := Z.to_nat ((y * effectiveWidth + x) * 4) in
  let r := pixels !! idx in
  let g := pixels !! (idx + 1)%nat in
  let b := pixels !! (idx + 2)%nat in
  let brightness := brightness_of (to_number r) (to_number g) (to_number b) in
  let charIdx :=
    index_from (chars_length chars) (fun length => charIdx_of length brightness) in
  let char :=
    chars_get chars
      (index_from (chars_length chars) (fun length => min_index length charIdx)) in
  let row := append_value row char in
  let rowColors :=
    if colorized then rowColors ++ [{| c_r := r; c_g := g; c_b := b |}]
    else rowColors in
  (row, rowColors).

(** The body of the outer loop at row [y]. *)
Definition row (chars : Chars) (pixels : list Z) (colorized : bool)
    (effectiveWidth y : Z) (st : jsstring * ColorMap) : jsstring * ColorMap :=
  let '(ascii, colorMap) := st in
  let '(row, rowColors) :=
    for_loop (Z.to_nat effectiveWidth) 0
      (cell chars pixels colorized effectiveWidth y) ([], []) in
  (ascii ++ (row ++ [newline]),
   if colorized then colorMap ++ [rowColors] else colorMap).

(** The character set selection: [customChars] when it is not empty, else
    [CHAR_SETS[settings.charSetType] || CHAR_SETS.standard] when there is a
    [charSetType], else [settings.charSet || CHAR_SETS.standard]. *)
Definition active_chars (settings : Settings.t) : Chars :=
  match Settings.customChars settings with
  | _ :: _ => Ramp (Settings.customChars settings)
  | [] =>
      match Settings.charSetType settings with
      | Some (c :: t) => default (Ramp CHAR_SETS_standard) (CHAR_SETS (c :: t))
      | _ =>
          if chars_truthy (Settings.charSet settings)
          then Settings.charSet settings
          else Ramp CHAR_SETS_standard
      end
  end.

(** The conversion once the image is loaded and the canvas has been read. *)
Definition convert (settings : Settings.t) (effectiveWidth effectiveHeight : Z)
    (pixels : list Z) : outcome Result :=
  let pixels := applyImageAdjustments pixels settings in
  let chars := active_chars settings in
  let '(ascii, colorMap) :=
    for_loop (Z.to_nat effectiveHeight) 0
      (row chars pixels (Settings.colorized settings) effectiveWidth) ([], []) in
  let asciiImage :=
    createAsciiImage ascii effectiveWidth effectiveHeight settings colorMap in
  Return {| text := ascii; image := asciiImage |}.

(** [convertToAscii(imgSource, options)] *)
Definition convertToAscii (confirm : bool) (imgSource : ImageSource)
    (options : Options.t) : outcome Result :=
  match prepare confirm imgSource options with
  | Throw e => Throw e
  | Return c => convert (p_settings c) (p_width c) (p_height c) (p_pixels c)
  end.

End Esm.

(** * Properties *)

(** ** The pixel loop *)

Definition channel (c : nat) (p : rgb) : float :=
  match c with
  | O => p.1.1
  | S O => p.1.2
  | _ => p.2
  end.

Definition byte (z : Z) : Prop := 0 <= z <= 255.

Section PixelLoop.

Local Open Scope nat_scope.

Lemma store_pixel_length pixels i p :
  length (store_pixel pixels i p) = length pixels.
Proof.
  destruct p as [[r g] b]. unfold store_pixel.
  by rewrite !length_insert.
Qed.

(** A store writes the three colour bytes of its pixel and nothing else. *)
Lemma store_pixel_lookup pixels i p j :
  store_pixel pixels i p !! j =
    if decide (i <= j < i + 3)
    then (fun _ => ToUint8Clamp (channel (j - i) p)) <$> pixels !! j
    else pixels !! j.
Proof.
  destruct p as [[r g] b]. unfold store_pixel.
  rewrite !list_lookup_insert, !length_insert.
  repeat case_decide; try lia.
  - destruct (pixels !! j) eqn:E.
    + replace (j - i) with 2 by lia. done.
    + apply lookup_ge_None in E. lia.
  - destruct (pixels !! j) eqn:E.
    + replace (j - i) with 1 by lia. done.
    + apply lookup_ge_None in E. lia.
  - destruct (pixels !! j) eqn:E.
    + replace (j - i) with 0 by lia. done.
    + apply lookup_ge_None in E. lia.
  - assert (length pixels <= j) as E by lia.
    apply lookup_ge_None in E. by rewrite E.
  - done.
Qed.

Lemma pixel_at_store pixels i p k :
  i + 4 <= k -> pixel_at (store_pixel pixels i p) k = pixel_at pixels k.
Proof.
  intros Hk. unfold pixel_at.
  rewrite !store_pixel_lookup.
  repeat case_decide; try lia. done.
Qed.

Lemma pixel_loop_length f n i pixels :
  length (pixel_loop f n i pixels) = length pixels.
Proof.
  revert i pixels. induction n as [|n IH]; intros i pixels; simpl; [done|].
  by rewrite IH, store_pixel_length.
Qed.

(** The buffer after [n] rounds started at index [i]: byte [j] of a pixel the
    loop visited is the clamped colour the body computed from that pixel as it
    was before the loop; the fourth byte of every pixel, and every byte outside
    the visited range, is the one that was there. *)
Lemma pixel_loop_lookup f n i pixels j :
  pixel_loop f n i pixels !! j =
    if decide (i <= j < i + 4 * n /\ (j - i) mod 4 <> 3)
    then (fun _ => ToUint8Clamp
                     (channel ((j - i) mod 4)
                              (f (pixel_at pixels (j - (j - i) mod 4)))))
           <$> pixels !! j
    else pixels !! j.
Proof.
  revert i pixels. induction n as [|n IH]; intros i pixels; cbn [pixel_loop].
  - case_decide; [lia|done].
  - rewrite IH. rewrite !store_pixel_lookup.
    destruct (decide (i + 4 <= j)) as [Hj|Hj].
    + assert ((j - (i + 4)) mod 4 = (j - i) mod 4) as Hm.
      { replace (j - i) with ((j - (i + 4)) + 1 * 4) by lia.
        by rewrite Nat.Div0.mod_add. }
      rewrite Hm.
      assert (i + 4 <= j - (j - i) mod 4) as Hb.
      { pose proof (Nat.mod_upper_bound (j - i) 4).
        pose proof (Nat.Div0.div_mod (j - i) 4) as Hd.
        assert (1 <= (j - i) / 4) by (apply Nat.div_le_lower_bound; lia).
        lia. }
      rewrite pixel_at_store by done.
      repeat case_decide; try lia; done.
    + repeat case_decide; try lia; try done.
      * assert ((j - i) mod 4 = j - i) as Hm by (apply Nat.mod_small; lia).
        rewrite Hm. replace (j - (j - i)) with i by lia. done.
      * assert ((j - i) mod 4 = j - i) as Hm by (apply Nat.mod_small; lia).
        rewrite Hm in *. lia.
      * assert ((j - i) mod 4 = j - i) as Hm by (apply Nat.mod_small; lia).
        assert (j < i \/ j = i + 3) as [?|?] by lia; lia.
Qed.

End PixelLoop.

(** ** Stored bytes *)

Lemma round_half_even_nonneg m e : 0 <= round_half_even m e.
Proof.
  unfold round_half_even.
  assert (0 <= Z.shiftr (Z.pos m) (- e)) by (apply Z.shiftr_nonneg; lia).
  destruct (0 <=? e).
  - apply Z.shiftl_nonneg. lia.
  - repeat match goal with |- context [if ?c then _ else _] => destruct c end; lia.
Qed.

(** Whatever number is stored, the byte in the buffer lies in [0,255]. *)
Lemma ToUint8Clamp_byte x : byte (ToUint8Clamp x).
Proof.
  unfold ToUint8Clamp, byte.
  destruct (Prim2SF x) as [s|s| |s m e]; try (destruct s); try lia.
  pose proof (round_half_even_nonneg m e). lia.
Qed.

(** A property decided on the 256 bytes holds of every byte. *)
Lemma byte_cases (P : Z -> bool) :
  forallb P (seqZ 0 256) = true -> forall z, byte z -> P z = true.
Proof.
  intros H z Hz. rewrite forallb_forall in H. apply H.
  apply list_elem_of_In, elem_of_seqZ. unfold byte in Hz. lia.
Qed.

(** Reading a byte as a number and storing it again gives the byte back. *)
Lemma ToUint8Clamp_of_int z : byte z -> ToUint8Clamp (of_int z) = z.
Proof.
  intros Hz. apply Z.eqb_eq.
  revert z Hz. apply (byte_cases (fun z => ToUint8Clamp (of_int z) =? z)).
  vm_compute. reflexivity.
Qed.

Section Adjusted.

Local Open Scope nat_scope.

Variable f : rgb -> rgb.

(** The whole loop of [applyImageAdjustments], for a body [f]. *)
Lemma adjusted_lookup pixels j :
  pixel_loop f (rounds pixels) 0 pixels !! j =
    if decide (j mod 4 <> 3)
    then (fun _ => ToUint8Clamp
                     (channel (j mod 4) (f (pixel_at pixels (j - j mod 4)))))
           <$> pixels !! j
    else pixels !! j.
Proof.
  rewrite pixel_loop_lookup. rewrite Nat.sub_0_r.
  destruct (decide (j < length pixels)) as [Hj|Hj].
  - assert (j < 0 + 4 * rounds pixels).
    { unfold rounds.
      pose proof (Nat.Div0.div_mod (length pixels + 3) 4).
      pose proof (Nat.mod_upper_bound (length pixels + 3) 4). lia. }
    repeat case_decide; try lia; done.
  - assert (pixels !! j = None) as -> by (apply lookup_ge_None; lia).
    repeat case_decide; done.
Qed.

Lemma adjusted_alpha pixels k :
  pixel_loop f (rounds pixels) 0 pixels !! (4 * k + 3) = pixels !! (4 * k + 3).
Proof.
  rewrite adjusted_lookup.
  assert ((4 * k + 3) mod 4 = 3) as ->.
  { replace (4 * k + 3) with (3 + k * 4) by lia.
    by rewrite Nat.Div0.mod_add. }
  case_decide; done.
Qed.

Lemma adjusted_bytes pixels :
  Forall byte pixels -> Forall byte (pixel_loop f (rounds pixels) 0 pixels).
Proof.
  intros Hb. apply Forall_lookup. intros j z.
  rewrite adjusted_lookup. case_decide.
  - destruct (pixels !! j); simpl; [|done].
    intros [= <-]. apply ToUint8Clamp_byte.
  - apply (Forall_lookup_1 _ _ _ _ Hb).
Qed.

(** A body that gives back, up to the store, every pixel of bytes leaves a
    buffer of whole pixels as it was. *)
Lemma adjusted_fixed pixels :
  Forall byte pixels ->
  (length pixels) mod 4 = 0 ->
  (forall r g b c, byte r -> byte g -> byte b -> c < 3 ->
     ToUint8Clamp (channel c (f (of_int r, of_int g, of_int b)))
     = match c with O => r | S O => g | _ => b end) ->
  pixel_loop f (rounds pixels) 0 pixels = pixels.
Proof.
  intros Hb Hlen Hf. apply list_eq. intros j.
  rewrite adjusted_lookup. case_decide as Hc; [|done].
  destruct (pixels !! j) as [z|] eqn:Hz; [|done].
  cbn [fmap option_fmap option_map]. f_equal.
  pose proof (lookup_lt_Some _ _ _ Hz) as Hj.
  pose proof (Nat.mod_upper_bound j 4) as Hm.
  pose proof (Nat.Div0.div_mod j 4) as Hd.
  pose proof (Nat.Div0.div_mod (length pixels) 4) as Hl.
  set (base := j - j mod 4) in *.
  assert (base + 3 < length pixels) as Hbase by (unfold base; lia).
  destruct (lookup_lt_is_Some_2 pixels base) as [r Hr]; [lia|].
  destruct (lookup_lt_is_Some_2 pixels (base + 1)) as [g Hg]; [lia|].
  destruct (lookup_lt_is_Some_2 pixels (base + 2)) as [b Hbl]; [lia|].
  unfold pixel_at. rewrite Hr, Hg, Hbl. cbn [to_number].
  pose proof (Forall_lookup_1 _ _ _ _ Hb Hr).
  pose proof (Forall_lookup_1 _ _ _ _ Hb Hg).
  pose proof (Forall_lookup_1 _ _ _ _ Hb Hbl).
  rewrite Hf by (done || lia).
  assert (j = base + j mod 4) as Hjj by (unfold base; lia).
  destruct (j mod 4) as [|[|[|?]]] eqn:E; try lia.
  - rewrite Nat.add_0_r in Hjj. congruence.
  - congruence.
  - congruence.
Qed.

End Adjusted.

(** ** The order of numbers *)

Section FloatOrder.

Local Open Scope float_scope.

Lemma SFcompare_antisym a b :
  SFcompare b a = option_map CompOpp (SFcompare a b).
Proof.
  destruct a as [sa|sa| |sa ma ea], b as [sb|sb| |sb mb eb]; simpl;
    try (destruct sa); try (destruct sb); try reflexivity;
    rewrite (Z.compare_antisym ea eb); destruct (ea ?= eb)%Z; simpl;
    try reflexivity;
    change (Pos.compare_cont Eq mb ma)
      with (Pos.compare_cont (CompOpp Eq) mb ma);
    rewrite <- (Pos.compare_cont_antisym ma mb Eq); reflexivity.
Qed.




Lemma ltb_is_nan a b : (a <? b) = true -> is_nan a = false /\ is_nan b = false.
Proof.
  unfold is_nan. rewrite FloatAxioms.ltb_spec, !FloatAxioms.eqb_spec. unfold SFltb, SFeqb.
  destruct (Prim2SF a) as [sa|sa| |sa ma ea], (Prim2SF b) as [sb|sb| |sb mb eb];
    simpl; try discriminate; intros _;
    try (destruct sa); try (destruct sb); simpl;
    rewrite ?Z.compare_refl, ?Pos.compare_cont_refl; auto.
Qed.





End FloatOrder.
(** ** The adjustment stage *)

(** The buffer in which every pixel went through [f] on its own: the colour bytes
    of a pixel are the clamped channels of [f] at that pixel, the fourth byte
    stays. *)
Definition per_pixel (f : rgb -> rgb) (pixels : list Z) : list Z :=
  imap (fun j z =>
          if decide (j mod 4 <> 3)%nat
          then ToUint8Clamp (channel (j mod 4) (f (pixel_at pixels (j - j mod 4))))
          else z) pixels.

Lemma pixel_loop_per_pixel f pixels :
  pixel_loop f (rounds pixels) 0 pixels = per_pixel f pixels.
Proof.
  apply list_eq. intros j. unfold per_pixel.
  rewrite adjusted_lookup, list_lookup_imap.
  destruct (pixels !! j); simpl; case_decide; done.
Qed.

(** The order of the transforms the specification fixes. *)
Definition spec_order
    (brightness contrast saturation grayscale invert sepia hue : rgb -> rgb)
    (p : rgb) : rgb :=
  hue (sepia (invert (grayscale (saturation (contrast (brightness p)))))).

(** The order of the ES-module copy: the hue rotation comes before sepia. *)
Definition esm_order
    (brightness contrast saturation grayscale invert sepia hue : rgb -> rgb)
    (p : rgb) : rgb :=
  sepia (hue (invert (grayscale (saturation (contrast (brightness p)))))).

Definition public_steps (order : (rgb -> rgb) -> (rgb -> rgb) -> (rgb -> rgb) ->
      (rgb -> rgb) -> (rgb -> rgb) -> (rgb -> rgb) -> (rgb -> rgb) -> rgb -> rgb)
    (settings : Settings.t) : rgb -> rgb :=
  order (Public.apply_brightness settings)
        (Public.apply_contrast settings (Public.contrastFactor settings))
        (Public.apply_saturation settings)
        (Public.apply_grayscale settings)
        (Public.apply_invert settings)
        (Public.apply_sepia settings)
        (Public.apply_hue settings).

Definition esm_steps (order : (rgb -> rgb) -> (rgb -> rgb) -> (rgb -> rgb) ->
      (rgb -> rgb) -> (rgb -> rgb) -> (rgb -> rgb) -> (rgb -> rgb) -> rgb -> rgb)
    (settings : Settings.t) : rgb -> rgb :=
  let c := Esm.levels settings in
  order (Esm.apply_brightness c) (Esm.apply_contrast c) (Esm.apply_saturation c)
        (Esm.apply_grayscale c) (Esm.apply_invert c) (Esm.apply_sepia c)
        (Esm.apply_hue c).

(** The neutral settings of the adjustment stage. *)
Definition neutral (settings : Settings.t) : Prop :=
  Settings.brightness settings = 100%float /\
  Settings.contrast settings = 100%float /\
  Settings.saturation settings = 100%float /\
  Settings.grayscale settings = 0%float /\
  Settings.invert settings = 0%float /\
  Settings.hue settings = 0%float /\
  Settings.sepia settings = 0%float.

Lemma Public_adjust_neutral settings contrastFactor p :
  neutral settings -> Public.adjust settings contrastFactor p = p.
Proof.
  intros (Hb & Hc & Hs & Hg & Hi & Hh & Hse). destruct p as [[r g] b].
  unfold Public.adjust, Public.apply_brightness, Public.apply_contrast,
    Public.apply_saturation, Public.apply_grayscale, Public.apply_invert,
    Public.apply_sepia, Public.apply_hue.
  rewrite Hb, Hc, Hs, Hg, Hi, Hh, Hse. reflexivity.
Qed.





(** ** The text of a conversion *)

(** The text of a result, when there is one. *)
Definition result_text (o : outcome Result) : option jsstring :=
  match o with
  | Return r => Some (text r)
  | Throw _ => None
  end.

(** The text of a grid of [w] columns and [h] rows, row by row, each row closed
    by a newline. *)
Definition grid_text (glyph : Z -> Z -> jsstring) (w h : Z) : jsstring :=
  concat (map (fun y => concat (map (fun x => glyph x y) (seqZ 0 w)) ++ [newline])
              (seqZ 0 h)).

(** The weighted luminance of the specification and the plain mean. *)
Definition weighted_luminance (r g b : float) : float :=
  (0.299 * r + 0.587 * g + 0.114 * b)%float.

Definition mean (r g b : float) : float := ((r + g + b) / 3)%float.

(** The three colour numbers of cell [(x, y)] in a buffer [w] cells wide. *)
Definition cell_rgb (pixels : list Z) (w x y : Z) : rgb :=
  pixel_at pixels (Z.to_nat ((y * w + x) * 4)).

(** The glyph each copy appends for a cell. *)
Definition Public_glyph (chars : Chars) (pixels : list Z) (w x y : Z) : jsstring :=
  let '(r, g, b) := cell_rgb pixels w x y in
  to_string
    (chars_get chars
       (index_from (chars_length chars)
          (fun length =>
             Public.charIndex length (Math_round_int (weighted_luminance r g b))))).

Definition Esm_glyph (chars : Chars) (pixels : list Z) (w x y : Z) : jsstring :=
  let '(r, g, b) := cell_rgb pixels w x y in
  to_string
    (chars_get chars
       (index_from (chars_length chars)
          (fun length =>
             Esm.min_index length
               (index_from (chars_length chars)
                  (fun length =>
                     Math_floor_int (mean r g b / 256 * of_int length)%float))))).

(** A ramp that is not a string has no glyph: the cell is the text of
    [undefined]. *)
Lemma Public_glyph_Inherited length pixels w x y :
  Public_glyph (Inherited length) pixels w x y = str "undefined".
Proof. unfold Public_glyph. by destruct (cell_rgb pixels w x y) as [[r g] b]. Qed.

Lemma Esm_glyph_Inherited length pixels w x y :
  Esm_glyph (Inherited length) pixels w x y = str "undefined".
Proof. unfold Esm_glyph. by destruct (cell_rgb pixels w x y) as [[r g] b]. Qed.

Lemma seqZ_of_to_nat m n : seqZ m (Z.of_nat (Z.to_nat n)) = seqZ m n.
Proof. unfold seqZ. by rewrite Nat2Z.id. Qed.

(** A loop whose body appends [g i] to the first component of its state. *)
Lemma for_loop_append {C : Type} (g : Z -> jsstring)
    (body : Z -> jsstring * C -> jsstring * C) :
  (forall i s, (body i s).1 = s.1 ++ g i) ->
  forall n i s,
    (for_loop n i body s).1 = s.1 ++ concat (map g (seqZ i (Z.of_nat n))).
Proof.
  intros Hbody. induction n as [|n IH]; intros i s.
  - simpl. by rewrite app_nil_r.
  - cbn [for_loop]. rewrite IH, Hbody.
    rewrite (seqZ_cons i (Z.of_nat (S n))) by lia.
    replace (Z.pred (Z.of_nat (S n))) with (Z.of_nat n) by lia.
    replace (Z.succ i) with (i + 1) by lia.
    simpl. by rewrite app_assoc.
Qed.

Ltac loop_text g Hbody :=
  match goal with
  | |- context [for_loop ?n ?i ?b ?s] =>
      let H := fresh "H" in
      pose proof (for_loop_append g b Hbody n i s) as H;
      destruct (for_loop n i b s) as [? ?];
      cbn [fst snd] in H; subst
  end.

Lemma Public_cell_fst chars pixels originalPixels colorized w y x s :
  (Public.cell chars pixels originalPixels colorized w y x s).1
  = s.1 ++ Public_glyph chars pixels w x y.
Proof. by destruct s. Qed.

Lemma Public_row_fst chars pixels originalPixels colorized w y s :
  (Public.row chars pixels originalPixels colorized w y s).1
  = s.1 ++ (concat (map (fun x => Public_glyph chars pixels w x y) (seqZ 0 w))
            ++ [newline]).
Proof.
  unfold Public.row.
  loop_text (fun x => Public_glyph chars pixels w x y)
            (Public_cell_fst chars pixels originalPixels colorized w y).
  cbn [fst]. by rewrite seqZ_of_to_nat, app_assoc.
Qed.

(** The text of the public copy: the grid of its glyphs over the adjusted
    buffer, unless the colour map cannot be allocated. *)
Lemma Public_convert_text img settings w h pixels :
  result_text (Public.convert img settings w h pixels) =
    if Settings.colorized settings
       && (negb (valid_array_length h)
           || ((0 <? h) && negb (valid_array_length w)))
    then None
    else Some (grid_text
                 (Public_glyph (Public.active_chars settings)
                    (Public.applyImageAdjustments pixels settings) w) w h).
Proof.
  unfold Public.convert.
  destruct (Settings.colorized settings && _); [done|].
  loop_text (fun y => concat (map (fun x =>
                 Public_glyph (Public.active_chars settings)
                   (Public.applyImageAdjustments pixels settings) w x y) (seqZ 0 w))
               ++ [newline])
            (Public_row_fst (Public.active_chars settings)
               (Public.applyImageAdjustments pixels settings) pixels
               (Settings.colorized settings) w).
  cbn [result_text text]. by rewrite seqZ_of_to_nat.
Qed.

Lemma Esm_cell_fst chars pixels colorized w y x s :
  (Esm.cell chars pixels colorized w y x s).1
  = s.1 ++ Esm_glyph chars pixels w x y.
Proof. by destruct s. Qed.

Lemma Esm_row_fst chars pixels colorized w y s :
  (Esm.row chars pixels colorized w y s).1
  = s.1 ++ (concat (map (fun x => Esm_glyph chars pixels w x y) (seqZ 0 w))
            ++ [newline]).
Proof.
  unfold Esm.row. destruct s as [ascii colorMap].
  loop_text (fun x => Esm_glyph chars pixels w x y)
            (Esm_cell_fst chars pixels colorized w y).
  cbn [fst]. by rewrite seqZ_of_to_nat.
Qed.

(** The text of the ES-module copy. *)
Lemma Esm_convert_text settings w h pixels :
  result_text (Esm.convert settings w h pixels) =
    Some (grid_text
            (Esm_glyph (Esm.active_chars settings)
               (Esm.applyImageAdjustments pixels settings) w) w h).
Proof.
  unfold Esm.convert.
  loop_text (fun y => concat (map (fun x =>
                 Esm_glyph (Esm.active_chars settings)
                   (Esm.applyImageAdjustments pixels settings) w x y) (seqZ 0 w))
               ++ [newline])
            (Esm_row_fst (Esm.active_chars settings)
               (Esm.applyImageAdjustments pixels settings)
               (Settings.colorized settings) w).
  cbn [result_text text]. by rewrite seqZ_of_to_nat.
Qed.

(** ** Signs *)

Section Sign.

(** Not NaN and not below zero. *)
Definition nonneg (x : spec_float) : Prop :=
  match x with
  | S754_zero _ | S754_infinity false | S754_finite false _ _ => True
  | _ => False
  end.

(** Finite and above zero. *)
Definition pos_fin (x : spec_float) : Prop :=
  match x with
  | S754_finite false _ _ => True
  | _ => False
  end.

Lemma pos_fin_nonneg x : pos_fin x -> nonneg x.
Proof. destruct x as [s|s| |s m e]; simpl; try done. Qed.

Lemma shr_1_nonneg mrs : 0 <= shr_m mrs -> 0 <= shr_m (shr_1 mrs).
Proof.
  destruct mrs as [m r s]. simpl.
  destruct m as [|[p|p|]|[p|p|]]; simpl; lia.
Qed.

Lemma iter_shr_1_nonneg p mrs :
  0 <= shr_m mrs -> 0 <= shr_m (SpecFloat.iter_pos shr_1 p mrs).
Proof.
  revert mrs. induction p as [p IH|p IH|]; intros mrs H; simpl;
    auto using shr_1_nonneg.
Qed.

Lemma shr_fexp_nonneg m e l :
  0 <= m -> 0 <= shr_m (shr_fexp prec emax m e l).1.
Proof.
  intros Hm. unfold shr_fexp, shr.
  assert (shr_m (shr_record_of_loc m l) = m) as Hr by (by destruct l as [|[]]).
  destruct (_ - e) as [|p|p]; simpl; rewrite ?Hr; try done.
  apply iter_shr_1_nonneg. by rewrite Hr.
Qed.

Lemma round_nearest_even_nonneg m l : 0 <= m -> 0 <= round_nearest_even m l.
Proof.
  destruct l as [|[]]; simpl; try destruct (Z.even m); lia.
Qed.

Lemma binary_round_aux_nonneg m e l :
  0 <= m -> nonneg (binary_round_aux prec emax false m e l).
Proof.
  intros Hm. unfold binary_round_aux.
  pose proof (shr_fexp_nonneg m e l Hm) as H1.
  destruct (shr_fexp prec emax m e l) as [mrs' e']. simpl in H1.
  pose proof (shr_fexp_nonneg
                (round_nearest_even (shr_m mrs') (loc_of_shr_record mrs'))
                e' loc_Exact (round_nearest_even_nonneg _ _ H1)) as H2.
  destruct (shr_fexp prec emax _ e' loc_Exact) as [mrs'' e'']. simpl in H2.
  destruct (shr_m mrs''); simpl; try done; try lia.
  by destruct (_ <=? _).
Qed.

Lemma binary_normalize_nonneg m e :
  0 <= m -> nonneg (binary_normalize prec emax m e false).
Proof.
  intros Hm. destruct m as [|p|p]; simpl; [done| |lia].
  unfold binary_round. destruct (shl_align _ _ _) as [mz ez].
  apply binary_round_aux_nonneg. lia.
Qed.

Lemma SFadd_nonneg x y : nonneg x -> nonneg y -> nonneg (SF64add x y).
Proof.
  destruct x as [sx|sx| |sx mx ex], y as [sy|sy| |sy my ey];
    try (destruct sx); try (destruct sy); try done.
  intros _ _. cbv [SF64add SFadd cond_Zopp].
  apply binary_normalize_nonneg. lia.
Qed.

Lemma SFmul_nonneg_l x y : pos_fin x -> nonneg y -> nonneg (SF64mul x y).
Proof.
  destruct x as [sx|sx| |sx mx ex], y as [sy|sy| |sy my ey]; simpl;
    try (destruct sx); try (destruct sy); simpl; try done.
  intros _ _. apply binary_round_aux_nonneg. lia.
Qed.

Lemma SFmul_nonneg_r x y : nonneg x -> pos_fin y -> nonneg (SF64mul x y).
Proof.
  destruct x as [sx|sx| |sx mx ex], y as [sy|sy| |sy my ey]; simpl;
    try (destruct sx); try (destruct sy); simpl; try done.
  intros _ _. apply binary_round_aux_nonneg. lia.
Qed.

Lemma SFdiv_nonneg x y : nonneg x -> pos_fin y -> nonneg (SF64div x y).
Proof.
  destruct x as [sx|sx| |sx mx ex], y as [sy|sy| |sy my ey]; simpl;
    try (destruct sx); try (destruct sy); simpl; try done.
  intros _ _. unfold SFdiv_core_binary.
  match goal with |- context [Z.div_eucl ?a ?b] =>
    pose proof (Z.div_pos a b) as Hq; unfold Z.div in Hq;
    destruct (Z.div_eucl a b) as [q r] end.
  apply binary_round_aux_nonneg. simpl in Hq. apply Hq; [|lia].
  destruct (_ - _ - _) as [|p|p]; try lia.
  apply Z.shiftl_nonneg. lia.
Qed.

Local Open Scope float_scope.

Lemma add_nonneg x y :
  nonneg (Prim2SF x) -> nonneg (Prim2SF y) -> nonneg (Prim2SF (x + y)).
Proof. rewrite add_spec. apply SFadd_nonneg. Qed.

Lemma mul_nonneg_l x y :
  pos_fin (Prim2SF x) -> nonneg (Prim2SF y) -> nonneg (Prim2SF (x * y)).
Proof. rewrite mul_spec. apply SFmul_nonneg_l. Qed.

Lemma mul_nonneg_r x y :
  nonneg (Prim2SF x) -> pos_fin (Prim2SF y) -> nonneg (Prim2SF (x * y)).
Proof. rewrite mul_spec. apply SFmul_nonneg_r. Qed.

Lemma div_nonneg x y :
  nonneg (Prim2SF x) -> pos_fin (Prim2SF y) -> nonneg (Prim2SF (x / y)).
Proof. rewrite div_spec. apply SFdiv_nonneg. Qed.

(** A byte read from the buffer is a number that is not below zero. *)
Lemma of_int_byte_nonneg z : byte z -> nonneg (Prim2SF (of_int z)).
Proof.
  intros Hz.
  assert ((fun z => match Prim2SF (of_int z) with
                    | S754_zero _ | S754_finite false _ _ => true
                    | _ => false
                    end) z = true) as H.
  { revert z Hz. apply byte_cases. vm_compute. reflexivity. }
  simpl in H. destruct (Prim2SF (of_int z)) as [s|s| |[] m e]; simpl; done.
Qed.

(** Rounding and flooring such a number gives an index that is not below zero,
    or +infinity. *)
Definition index_nonneg (i : jsint) : Prop :=
  match i with
  | Int k => (0 <= k)%Z
  | PInf => True
  | _ => False
  end.

Lemma Math_round_int_nonneg x :
  nonneg (Prim2SF x) -> index_nonneg (Math_round_int x).
Proof.
  unfold Math_round_int.
  destruct (Prim2SF x) as [s|s| |s m e]; try (destruct s); try done.
  intros _. cbn [signed]. destruct (0 <=? e)%Z; cbn [index_nonneg].
  - apply Z.shiftl_nonneg. lia.
  - apply Z.shiftr_nonneg.
    assert (0 <= Z.shiftl 1 (- e - 1))%Z by (apply Z.shiftl_nonneg; lia). lia.
Qed.

Lemma Math_floor_int_nonneg x :
  nonneg (Prim2SF x) -> index_nonneg (Math_floor_int x).
Proof.
  unfold Math_floor_int.
  destruct (Prim2SF x) as [s|s| |s m e]; try (destruct s); try done.
  intros _. cbn [signed index_nonneg]. apply Z.shiftl_nonneg. lia.
Qed.

End Sign.

(** ** Integers as numbers *)

Section OfInt.

Lemma digits2_pos_lower p : 2 ^ (Z.pos (digits2_pos p) - 1) <= Z.pos p.
Proof.
  induction p as [p IH|p IH|]; cbn [digits2_pos]; [| |done];
    rewrite Pos2Z.inj_succ;
    replace (Z.succ (Z.pos (digits2_pos p)) - 1)
      with (Z.succ (Z.pos (digits2_pos p) - 1)) by lia;
    rewrite Z.pow_succ_r by lia; lia.
Qed.

Lemma digits2_pos_iter_xO p k :
  digits2_pos (Pos.iter xO p k) = (digits2_pos p + k)%positive.
Proof.
  induction k as [|k IH] using Pos.peano_ind.
  - simpl. lia.
  - rewrite Pos.iter_succ. cbn [digits2_pos]. rewrite IH. lia.
Qed.

(** An integer in [1, 2^53) is a finite number above zero. *)
Lemma binary_normalize_pos_fin p :
  Z.pos p < 2 ^ 53 -> pos_fin (binary_normalize prec emax (Z.pos p) 0 false).
Proof.
  intros Hp. cbn [binary_normalize]. unfold binary_round.
  pose proof (digits2_pos_lower p) as Hd.
  set (d := Z.pos (digits2_pos p)) in *.
  assert (1 <= d <= 53) as Hd53.
  { split; [unfold d; lia|].
    destruct (decide (d <= 53)); [done|].
    assert (2 ^ 53 <= 2 ^ (d - 1)) by (apply Z.pow_le_mono_r; lia). lia. }
  assert (fexp prec emax (d + 0) = d - 53) as Hf.
  { unfold fexp, emin, prec, emax. lia. }
  rewrite Hf.
  assert (exists mz, shl_align p 0 (d - 53) = (mz, d - 53)
                     /\ Z.pos (digits2_pos mz) = 53) as (mz & -> & Hmz).
  { unfold shl_align. destruct (d - 53 - 0) as [|k|k] eqn:E; try lia.
    - exists p. split; [f_equal; lia|fold d; lia].
    - exists (Pos.iter xO p k). split; [done|].
      rewrite digits2_pos_iter_xO, Pos2Z.inj_add. fold d. lia. }
  unfold binary_round_aux.
  assert (shr_fexp prec emax (Z.pos mz) (d - 53) loc_Exact
          = ({| shr_m := Z.pos mz; shr_r := false; shr_s := false |}, d - 53))
    as Hs.
  { unfold shr_fexp. cbn [Zdigits2]. rewrite Hmz.
    replace (fexp prec emax (53 + (d - 53)) - (d - 53)) with 0
      by (unfold fexp, emin, prec, emax; lia).
    reflexivity. }
  rewrite Hs. cbn [shr_m loc_of_shr_record round_nearest_even]. rewrite Hs.
  cbn [shr_m]. unfold emax, prec.
  destruct (d - 53 <=? 1024 - 53) eqn:E; [done|]. lia.
Qed.

Lemma of_int_pos_fin n : 1 <= n < 2 ^ 53 -> pos_fin (Prim2SF (of_int n)).
Proof.
  intros Hn. unfold of_int.
  destruct (n <? 0) eqn:E; [lia|].
  rewrite of_uint63_spec, Uint63.of_Z_spec.
  rewrite Z.mod_small.
  - destruct n as [|p|p]; try lia. apply binary_normalize_pos_fin. lia.
  - change Uint63.wB with (2 ^ 63).
    assert (2 ^ 53 < 2 ^ 63) by reflexivity. lia.
Qed.

End OfInt.

(** ** Glyphs *)

Section Glyphs.

Local Open Scope float_scope.

(** The rounded weighted luminance of three bytes is an index not below zero. *)
Lemma Public_brightness_nonneg r g b :
  byte r -> byte g -> byte b ->
  index_nonneg (Math_round_int (weighted_luminance (of_int r) (of_int g) (of_int b))).
Proof.
  intros Hr Hg Hb. apply Math_round_int_nonneg. unfold weighted_luminance.
  repeat apply add_nonneg; apply mul_nonneg_l;
    first [exact I | by apply of_int_byte_nonneg].
Qed.

(** So is the floor of the scaled mean. *)
Lemma Esm_charIdx_nonneg r g b len :
  byte r -> byte g -> byte b -> (1 <= len < 2 ^ 53)%Z ->
  index_nonneg
    (Math_floor_int (mean (of_int r) (of_int g) (of_int b) / 256 * of_int len)).
Proof.
  intros Hr Hg Hb Hlen. apply Math_floor_int_nonneg. unfold mean.
  apply mul_nonneg_r; [|by apply of_int_pos_fin].
  repeat apply div_nonneg; try exact I.
  repeat apply add_nonneg; by apply of_int_byte_nonneg.
Qed.

Local Open Scope Z_scope.

(** An index not below zero selects a character of a non-empty ramp. *)
Lemma Public_glyph_in_ramp chars i :
  chars <> [] -> index_nonneg i ->
  exists c, string_get chars (Public.charIndex (str_length chars) i) = Some c
            /\ c ∈ chars.
Proof.
  intros Hne Hi. unfold str_length.
  assert (0 < Z.of_nat (length chars)) as Hlen by (destruct chars; [done|simpl; lia]).
  set (len := Z.of_nat (length chars)) in *.
  assert (forall k, 0 <= k < len ->
            exists c, string_get chars (Int k) = Some c /\ c ∈ chars) as Hget.
  { intros k Hk. cbn [string_get]. destruct (k <? 0) eqn:E; [lia|].
    destruct (lookup_lt_is_Some_2 chars (Z.to_nat k)) as [c Hc]; [lia|].
    exists c. split; [done|]. by eapply list_elem_of_lookup_2. }
  destruct i as [k| | |]; cbn [index_nonneg Public.charIndex] in *; try done.
  - apply Hget.
    assert (0 <= len * k / 256) by (apply Z.div_pos; lia). lia.
  - destruct (len =? 0) eqn:E; [lia|]. apply Hget. lia.
Qed.

Lemma Esm_glyph_in_ramp chars i :
  chars <> [] -> index_nonneg i ->
  exists c, string_get chars (Esm.min_index (str_length chars) i) = Some c
            /\ c ∈ chars.
Proof.
  intros Hne Hi. unfold str_length.
  assert (0 < Z.of_nat (length chars)) as Hlen by (destruct chars; [done|simpl; lia]).
  set (len := Z.of_nat (length chars)) in *.
  assert (forall k, 0 <= k < len ->
            exists c, string_get chars (Int k) = Some c /\ c ∈ chars) as Hget.
  { intros k Hk. cbn [string_get]. destruct (k <? 0) eqn:E; [lia|].
    destruct (lookup_lt_is_Some_2 chars (Z.to_nat k)) as [c Hc]; [lia|].
    exists c. split; [done|]. by eapply list_elem_of_lookup_2. }
  destruct i as [k| | |]; cbn [index_nonneg Esm.min_index] in *; try done.
  - apply Hget. lia.
  - apply Hget. lia.
Qed.

End Glyphs.

(** * The claims *)

(** ** Inputs used in the examples *)

(** An image of [w] by [h] pixels that the canvas hands back as the buffer [data]
    when it is drawn at its own size. *)
Definition image_of (w h : Z) (data : list Z) : HTMLImageElement :=
  {| naturalWidth := w; naturalHeight := h; img_width := w; img_height := h;
     drawn := fun w' h' => if (w' =? w) && (h' =? h) then Some data else None |}.

(** One white pixel on the left, one black pixel on the right. *)
Definition white_black : HTMLImageElement :=
  image_of 2 1 [255; 255; 255; 255; 0; 0; 0; 255].

Definition green_pixel : HTMLImageElement := image_of 1 1 [0; 255; 0; 255].

Definition red_pixel : list Z := [255; 0; 0; 255].

(** Default settings but for the width and the ramp. *)
Definition with_ramp (width : float) (ramp : jsstring) : Options.t :=
  Options.set_charSet (Some (Ramp ramp)) (Options.set_width width Options.empty).

(** ** C10: the alpha channel *)

(** C10.  The adjustment stage never modifies the alpha channel: in both copies,
    for every buffer and every settings record, the byte at index 4k+3 of every
    pixel is the same before and after [applyImageAdjustments], and the buffer
    keeps its length; only the bytes of R, G and B can change. *)
Theorem alpha_channel_unchanged (pixels : list Z) (settings : Settings.t) (k : nat) :
  Public.applyImageAdjustments pixels settings !! (4 * k + 3)%nat
    = pixels !! (4 * k + 3)%nat
  /\ Esm.applyImageAdjustments pixels settings !! (4 * k + 3)%nat
    = pixels !! (4 * k + 3)%nat
  /\ length (Public.applyImageAdjustments pixels settings) = length pixels
  /\ length (Esm.applyImageAdjustments pixels settings) = length pixels.
Proof.
  unfold Public.applyImageAdjustments, Esm.applyImageAdjustments.
  rewrite !adjusted_alpha, !pixel_loop_length. done.
Qed.

(** ** C5: the order of the transforms *)

(** C5, as stated, fails on the ES-module copy: with hue 50 and sepia 100 the red
    pixel does not come out as the order of the specification (sepia, then hue)
    would have it. *)
Lemma esm_hue_precedes_sepia :
  let settings :=
    spread defaults
      {| Options.width := None; Options.height := None;
         Options.brightness := None; Options.contrast := None;
         Options.saturation := None; Options.grayscale := None;
         Options.invert := None; Options.hue := Some 50%float;
         Options.sepia := Some 100%float; Options.colorized := None;
         Options.charSet := None; Options.customChars := None;
         Options.stretchWidth := None; Options.stretchHeight := None;
         Options.charSetType := None;
         Options._highResolutionConfirmed := false |} in
  Esm.applyImageAdjustments red_pixel settings = [244; 218; 170; 255]
  /\ per_pixel (esm_steps spec_order settings) red_pixel = [69; 81; 100; 255].
Proof. vm_compute. done. Qed.

(** C5 (amended).  Both copies pass every pixel on its own through seven
    transforms in a fixed order.  In [public/conv2ascii.js] the order is the one of
    the specification: brightness, contrast, saturation, grayscale, invert, sepia,
    and the hue rotation last.  In the ES-module copy the hue rotation comes
    before sepia, which is last. *)
Theorem transforms_in_fixed_order (pixels : list Z) (settings : Settings.t) :
  Public.applyImageAdjustments pixels settings
    = per_pixel (public_steps spec_order settings) pixels
  /\ Esm.applyImageAdjustments pixels settings
    = per_pixel (esm_steps esm_order settings) pixels.
Proof.
  unfold Public.applyImageAdjustments, Esm.applyImageAdjustments.
  rewrite !pixel_loop_per_pixel. done.
Qed.

(** ** C7: clamping *)












(** Brightness 200 and contrast 200 on a near-white pixel. *)
Definition extreme_settings : Settings.t :=
  spread defaults
    {| Options.width := None; Options.height := None;
       Options.brightness := Some 200%float; Options.contrast := Some 200%float;
       Options.saturation := None; Options.grayscale := None;
       Options.invert := None; Options.hue := None;
       Options.sepia := None; Options.colorized := None;
       Options.charSet := None; Options.customChars := None;
       Options.stretchWidth := None; Options.stretchHeight := None;
       Options.charSetType := None;
       Options._highResolutionConfirmed := false |}.



(** ** C9: the colorized flag *)

Definition with_colorized (c : bool) (p : Prepared) : Prepared :=
  {| p_img := p_img p; p_settings := Settings.set_colorized c (p_settings p);
     p_width := p_width p; p_height := p_height p; p_pixels := p_pixels p |}.

(** The flag goes through the head of the function untouched and changes nothing
    else there. *)
Lemma prepare_set_colorized c confirm imgSource options :
  prepare confirm imgSource (Options.set_colorized c options)
  = match prepare confirm imgSource (Options.set_colorized false options) with
    | Return p => Return (with_colorized c p)
    | Throw e => Throw e
    end.
Proof.
  unfold prepare, high_resolution_check.
  destruct options as [w h br co sa gr iv hu se cz cs cc sw sh ct hr].
  cbn [Options.width Options._highResolutionConfirmed Options.set_colorized].
  assert (forall o o' : Options.t,
            Options.width o' = Options.width o ->
            Options.height o' = Options.height o ->
            Options.brightness o' = Options.brightness o ->
            Options.contrast o' = Options.contrast o ->
            Options.saturation o' = Options.saturation o ->
            Options.grayscale o' = Options.grayscale o ->
            Options.invert o' = Options.invert o ->
            Options.hue o' = Options.hue o ->
            Options.sepia o' = Options.sepia o ->
            Options.colorized o' = Some false ->
            Options.colorized o = Some c ->
            Options.charSet o' = Options.charSet o ->
            Options.customChars o' = Options.customChars o ->
            Options.stretchWidth o' = Options.stretchWidth o ->
            Options.stretchHeight o' = Options.stretchHeight o ->
            Options.charSetType o' = Options.charSetType o ->
            match imgSource with Element img => Some img | Url loaded => loaded end
              ≫= (fun img => Some (with_height img (spread defaults o)))
            = match imgSource with Element img => Some img | Url loaded => loaded end
              ≫= (fun img => Some (Settings.set_colorized c
                                     (with_height img (spread defaults o'))))) as Hs.
  { intros o o' H1 H2 H3 H4 H5 H6 H7 H8 H9 H10 H11 H12 H13 H14 H15 H16.
    destruct imgSource as [img|[img|]]; cbn; [| |done];
      unfold with_height, spread, Settings.set_colorized, Settings.set_height;
      cbn; rewrite H1, H2, H3, H4, H5, H6, H7, H8, H9, H10, H11, H12, H13, H14,
             H15, H16; cbn; by destruct (negb _). }
  set (src := match imgSource with Element img => Some img | Url loaded => loaded end)
    in *.
  assert (forall o o' : Options.t,
            src ≫= (fun img => Some (with_height img (spread defaults o)))
            = src ≫= (fun img => Some (Settings.set_colorized c
                                         (with_height img (spread defaults o')))) ->
            match src with
            | Some img =>
                match effectiveWidth (with_height img (spread defaults o)),
                      effectiveHeight (with_height img (spread defaults o)) with
                | Int w0, Int h0 =>
                    match drawn img w0 h0 with
                    | Some pixels =>
                        Return {| p_img := img;
                                  p_settings := with_height img (spread defaults o);
                                  p_width := w0; p_height := h0; p_pixels := pixels |}
                    | None => Throw CanvasError
                    end
                | _, _ => Throw CanvasError
                end
            | None => Throw LoadError
            end
            = match
                match src with
                | Some img =>
                    match effectiveWidth (with_height img (spread defaults o')),
                          effectiveHeight (with_height img (spread defaults o')) with
                    | Int w0, Int h0 =>
                        match drawn img w0 h0 with
                        | Some pixels =>
                            Return {| p_img := img;
                                      p_settings := with_height img (spread defaults o');
                                      p_width := w0; p_height := h0;
                                      p_pixels := pixels |}
                        | None => Throw CanvasError
                        end
                    | _, _ => Throw CanvasError
                    end
                | None => Throw LoadError
                end
              with
              | Return p => Return (with_colorized c p)
              | Throw e => Throw e
              end) as Hm.
  { intros o o' Heq. destruct src as [img|]; [|done]. cbn in Heq.
    injection Heq as Heq. rewrite Heq.
    change (effectiveWidth (Settings.set_colorized c ?s)) with (effectiveWidth s).
    change (effectiveHeight (Settings.set_colorized c ?s)) with (effectiveHeight s).
    destruct (effectiveWidth _) as [w0| | |]; try done.
    destruct (effectiveHeight _) as [h0| | |]; try done.
    destruct (drawn img w0 h0); done. }
  destruct w as [w|]; [|by apply Hm, Hs].
  destruct ((500 <? w)%float && negb hr); [|by apply Hm, Hs].
  destruct confirm; by apply Hm, Hs.
Qed.

Lemma Public_text_grid img settings w h pixels t :
  result_text (Public.convert img settings w h pixels) = Some t ->
  t = grid_text
        (Public_glyph (Public.active_chars settings)
           (Public.applyImageAdjustments pixels settings) w) w h.
Proof.
  rewrite Public_convert_text. destruct (_ && _); [done|].
  by intros [= <-].
Qed.

(** An image the canvas hands back white at whatever size it is read: a negative
    width or height is read as its absolute value. *)
Definition white_image : HTMLImageElement :=
  {| naturalWidth := 2; naturalHeight := 1; img_width := 2; img_height := 1;
     drawn := fun w h =>
       Some (concat (replicate (Z.to_nat (Z.abs w * Z.abs h)) [255; 255; 255; 255])) |}.

(** A width of 2 and a height of -1. *)
Definition negative_height : Options.t :=
  {| Options.width := Some 2%float; Options.height := Some (-1)%float;
     Options.brightness := None; Options.contrast := None;
     Options.saturation := None; Options.grayscale := None;
     Options.invert := None; Options.hue := None;
     Options.sepia := None; Options.colorized := None;
     Options.charSet := None; Options.customChars := None;
     Options.stretchWidth := None; Options.stretchHeight := None;
     Options.charSetType := None;
     Options._highResolutionConfirmed := false |}.

(** C9, as stated, fails on [public/conv2ascii.js]: with a height of -1 the run
    that is not colorized returns a result, whose text is empty, while the
    colorized run, on the same image and with the other options the same, throws
    a RangeError at [Array(effectiveHeight)] and has no text at all. *)
Lemma colorized_run_throws_where_plain_returns :
  result_text (Public.convertToAscii false (Element white_image)
                 (Options.set_colorized false negative_height)) = Some []
  /\ Public.convertToAscii false (Element white_image)
       (Options.set_colorized true negative_height) = Throw RangeError.
Proof. split; vm_compute; reflexivity. Qed.

(** The sizes with which the colour map of a colorized run of
    [public/conv2ascii.js] cannot be allocated. *)
Definition no_colour_map (p : Prepared) : bool :=
  negb (valid_array_length (p_height p))
  || ((0 <? p_height p) && negb (valid_array_length (p_width p))).

(** C9 (amended).  On the same image and with all other options the same, a run
    with colorized=true and a run with colorized=false of the ES-module copy
    fail together, with the same error, or return the same text.  In
    [public/conv2ascii.js] the run that is not colorized returns whenever the head
    of the conversion succeeds; the colorized run then returns the same text,
    unless a grid size is not a valid array length (a negative height, for one),
    in which case it throws a RangeError; when the head fails, both runs fail
    with its error. *)
Theorem text_independent_of_colorized
    (confirm : bool) (imgSource : ImageSource) (options : Options.t) :
  let coloured := Options.set_colorized true options in
  let plain := Options.set_colorized false options in
  result_text (Esm.convertToAscii confirm imgSource coloured)
    = result_text (Esm.convertToAscii confirm imgSource plain)
  /\ (forall e, Esm.convertToAscii confirm imgSource coloured = Throw e
                <-> Esm.convertToAscii confirm imgSource plain = Throw e)
  /\ match prepare confirm imgSource plain with
     | Throw e =>
         Public.convertToAscii confirm imgSource plain = Throw e
         /\ Public.convertToAscii confirm imgSource coloured = Throw e
     | Return p =>
         exists t,
           result_text (Public.convertToAscii confirm imgSource plain) = Some t
           /\ if no_colour_map p
              then Public.convertToAscii confirm imgSource coloured
                   = Throw RangeError
              else result_text (Public.convertToAscii confirm imgSource coloured)
                   = Some t
     end.
Proof.
  cbv zeta. unfold Public.convertToAscii, Esm.convertToAscii.
  rewrite (prepare_set_colorized true).
  destruct (prepare confirm imgSource (Options.set_colorized false options))
    as [p|e] eqn:Hp.
  - assert (Settings.colorized (p_settings p) = false) as Hc.
    { pose proof (prepare_set_colorized false confirm imgSource options) as H.
      rewrite Hp in H. injection H as H. rewrite H. reflexivity. }
    split; [|split].
    + by rewrite !Esm_convert_text.
    + intros e. split; intros H; apply (f_equal result_text) in H;
        by rewrite Esm_convert_text in H.
    + eexists. split.
      * rewrite Public_convert_text, Hc. reflexivity.
      * unfold no_colour_map.
        destruct (negb (valid_array_length (p_height p)) || _) eqn:E.
        -- unfold Public.convert. cbn [with_colorized p_settings p_height p_width
             Settings.colorized Settings.set_colorized andb].
           by rewrite E.
        -- rewrite Public_convert_text.
           cbn [with_colorized p_settings p_height p_width p_pixels
                Settings.colorized Settings.set_colorized andb].
           rewrite E. reflexivity.
  - split; [done|]. split; [|done].
    intros e'. split; by intros [= ->].
Qed.

(** ** C1: the luminance that selects the glyph *)

(** C1, as stated, fails on the ES-module copy: for one pure green pixel and the
    ramp "#. " it writes '#', the glyph of the plain mean 85, where the weighted
    luminance 150 (rounded) selects '.', which is what [public/conv2ascii.js]
    writes. *)
Lemma esm_uses_plain_mean :
  result_text (Esm.convertToAscii false (Element green_pixel)
                 (with_ramp 1 CHAR_SETS_simple))
    = Some (str "#" ++ [newline])
  /\ result_text (Public.convertToAscii false (Element green_pixel)
                    (with_ramp 1 CHAR_SETS_simple))
    = Some (str "." ++ [newline])
  /\ mean 0 255 0 = 85%float
  /\ Math_round_int (weighted_luminance 0 255 0) = Int 150.
Proof. vm_compute. done. Qed.

(** C1 (amended).  When the head of the conversion succeeds, the text is the grid
    of the glyphs of the cells of the adjusted buffer, row by row.  In
    [public/conv2ascii.js] the glyph of a cell is selected by
    [Math.round(0.299 R + 0.587 G + 0.114 B)], the weighted luminance rounded to
    an integer ([Public_glyph]), unless the colour map cannot be allocated; in the
    ES-module copy it is selected by the plain mean [(R + G + B) / 3]
    ([Esm_glyph]). *)
Theorem glyph_selected_by_luminance
    (confirm : bool) (imgSource : ImageSource) (options : Options.t) :
  match prepare confirm imgSource options with
  | Throw e =>
      Public.convertToAscii confirm imgSource options = Throw e
      /\ Esm.convertToAscii confirm imgSource options = Throw e
  | Return p =>
      (Public.convertToAscii confirm imgSource options = Throw RangeError
       \/ result_text (Public.convertToAscii confirm imgSource options)
          = Some (grid_text
                    (Public_glyph (Public.active_chars (p_settings p))
                       (Public.applyImageAdjustments (p_pixels p) (p_settings p))
                       (p_width p))
                    (p_width p) (p_height p)))
      /\ result_text (Esm.convertToAscii confirm imgSource options)
         = Some (grid_text
                   (Esm_glyph (Esm.active_chars (p_settings p))
                      (Esm.applyImageAdjustments (p_pixels p) (p_settings p))
                      (p_width p))
                   (p_width p) (p_height p))
  end.
Proof.
  unfold Public.convertToAscii, Esm.convertToAscii.
  destruct (prepare confirm imgSource options) as [p|e]; [|done].
  split; [|apply Esm_convert_text].
  rewrite Public_convert_text. unfold Public.convert.
  destruct (_ && _); auto.
Qed.

(** ** C2: the ramp index *)

(** C2, as stated, fails on its example: the text is not "# " and a newline. *)
Lemma white_black_text_is_not_hash_space :
  result_text (Public.convertToAscii false (Element white_black)
                 (with_ramp 2 CHAR_SETS_simple))
    <> Some (str "# " ++ [newline])
  /\ result_text (Esm.convertToAscii false (Element white_black)
                    (with_ramp 2 CHAR_SETS_simple))
    <> Some (str "# " ++ [newline]).
Proof. split; vm_compute; discriminate. Qed.

(** The amended claim is proved with the values of numbers, at the end of the
    file. *)

(** ** C3: invalid input *)

(** C3, as stated, fails on [public/conv2ascii.js]: with an empty ramp the
    conversion of a one-pixel image returns a result, whose text is
    "undefined" and a newline. *)
Lemma empty_ramp_gives_undefined :
  result_text (Public.convertToAscii false (Element green_pixel) (with_ramp 1 []))
    = Some (str "undefined" ++ [newline]).
Proof. vm_compute. done. Qed.

(** A ramp without a glyph: the empty string, or something that is not a
    string. *)
Definition no_glyph (chars : Chars) : Prop :=
  match chars with
  | Ramp s => s = []
  | Inherited _ => True
  end.

Lemma Public_glyph_empty chars pixels w x y :
  no_glyph chars -> Public_glyph chars pixels w x y = str "undefined".
Proof.
  destruct chars as [s|length]; [|intros _; apply Public_glyph_Inherited].
  cbn [no_glyph]. intros ->.
  unfold Public_glyph. destruct (cell_rgb pixels w x y) as [[r g] b].
  cbn [chars_length chars_get index_from].
  destruct (Public.charIndex _ _) as [k| | |]; cbn [string_get]; try done.
  destruct (k <? 0); reflexivity.
Qed.

Lemma grid_text_ext glyph glyph' w h :
  (forall x y, glyph x y = glyph' x y) -> grid_text glyph w h = grid_text glyph' w h.
Proof.
  intros H. unfold grid_text. f_equal. apply map_ext. intros y. f_equal. f_equal.
  apply map_ext. intros x. apply H.
Qed.

Lemma grid_text_no_rows glyph w h : h <= 0 -> grid_text glyph w h = [].
Proof.
  intros Hh. unfold grid_text, seqZ.
  by replace (Z.to_nat h) with 0%nat by lia.
Qed.

(** Every entry of the table is true in a condition. *)
Lemma CHAR_SETS_truthy name chars :
  CHAR_SETS name = Some chars -> chars <> Ramp [].
Proof.
  unfold CHAR_SETS, CHAR_SETS_own. cbn [property].
  repeat case_decide; try (by intros [= <-]).
  destruct (property name Object_prototype); [|done]. by intros [= <-].
Qed.

(** The ramp of the ES-module copy is never the empty string. *)
Lemma Esm_active_chars_nonempty settings : Esm.active_chars settings <> Ramp [].
Proof.
  unfold Esm.active_chars.
  destruct (Settings.customChars settings) as [|c0 cs] eqn:Ec; [|done].
  assert ((if chars_truthy (Settings.charSet settings)
           then Settings.charSet settings else Ramp CHAR_SETS_standard)
          <> Ramp []) as Hs.
  { destruct (Settings.charSet settings) as [[|c s]|length]; done. }
  destruct (Settings.charSetType settings) as [[|c t]|]; try done.
  destruct (CHAR_SETS (c :: t)) as [chars|] eqn:E; [|done].
  cbn [default from_option id]. by apply (CHAR_SETS_truthy (c :: t)).
Qed.

Lemma Public_convert_throw img settings w h pixels e :
  Public.convert img settings w h pixels = Throw e <->
  e = RangeError
  /\ Settings.colorized settings = true
  /\ negb (valid_array_length h) || ((0 <? h) && negb (valid_array_length w)) = true.
Proof.
  unfold Public.convert.
  destruct (Settings.colorized settings); cbn [andb].
  - destruct (negb _ || _).
    + split; [by intros [= <-]|by intros (-> & _)].
    + destruct (for_loop _ _ _ _). split; [done|by intros (_ & _ & ?)].
  - destruct (for_loop _ _ _ _). split; [done|by intros (_ & ? & _)].
Qed.

(** The options of a conversion by the ES-module copy whose [charSetType] names
    [toString], a function the table inherits. *)
Definition named_toString : Options.t :=
  {| Options.width := Some 1%float; Options.height := None;
     Options.brightness := None; Options.contrast := None;
     Options.saturation := None; Options.grayscale := None;
     Options.invert := None; Options.hue := None;
     Options.sepia := None; Options.colorized := None;
     Options.charSet := None; Options.customChars := None;
     Options.stretchWidth := None; Options.stretchHeight := None;
     Options.charSetType := Some (str "toString");
     Options._highResolutionConfirmed := false |}.

(** C3 (amended).  Neither copy checks the grid sizes or the ramp.  The ES-module
    copy fails exactly when the head of the conversion does (the image does not
    load, a size is not a finite number, or the canvas read throws), and
    [public/conv2ascii.js] besides exactly when the colour map of a colorized run
    cannot be allocated; no failure leaves a partial result.  In every other case
    a result is returned.  With a ramp that has no glyph, the empty string or
    something that is not a string, every cell of the text is the word
    "undefined": [public/conv2ascii.js] takes an empty [charSet] as it is; the
    ES-module copy never has the empty string as its ramp (it falls back on the
    standard set), but takes what [CHAR_SETS[charSetType]] gives, which for
    'toString' is a function.  With a height that is negative the text is
    empty, and a colorized run of [public/conv2ascii.js] throws a RangeError. *)
Theorem no_input_validation
    (confirm : bool) (imgSource : ImageSource) (options : Options.t) :
  (forall e, Esm.convertToAscii confirm imgSource options = Throw e
             <-> prepare confirm imgSource options = Throw e)
  /\ (forall e, Public.convertToAscii confirm imgSource options = Throw e
                <-> prepare confirm imgSource options = Throw e
                    \/ (e = RangeError
                        /\ exists p, prepare confirm imgSource options = Return p
                                     /\ Settings.colorized (p_settings p) = true
                                     /\ no_colour_map p = true))
  /\ (forall p, prepare confirm imgSource options = Return p ->
        (no_glyph (Public.active_chars (p_settings p)) ->
         forall t, result_text (Public.convertToAscii confirm imgSource options)
                   = Some t ->
                   t = grid_text (fun _ _ => str "undefined") (p_width p) (p_height p))
        /\ (no_glyph (Esm.active_chars (p_settings p)) ->
            result_text (Esm.convertToAscii confirm imgSource options)
            = Some (grid_text (fun _ _ => str "undefined") (p_width p) (p_height p)))
        /\ Esm.active_chars (p_settings p) <> Ramp []
        /\ (p_height p < 0 ->
            result_text (Esm.convertToAscii confirm imgSource options) = Some []
            /\ (Settings.colorized (p_settings p) = false ->
                result_text (Public.convertToAscii confirm imgSource options)
                = Some [])
            /\ (Settings.colorized (p_settings p) = true ->
                Public.convertToAscii confirm imgSource options
                = Throw RangeError)))
  /\ Esm.active_chars (spread defaults named_toString) = Inherited (Some 0)
  /\ result_text (Esm.convertToAscii false (Element green_pixel) named_toString)
     = Some (str "undefined" ++ [newline]).
Proof.
  unfold Public.convertToAscii, Esm.convertToAscii.
  split; [|split; [|split; [|split]]].
  - intros e. destruct (prepare confirm imgSource options) as [p|e0];
      [|split; by intros [= ->]].
    split; [|done]. intros H. apply (f_equal result_text) in H.
    by rewrite Esm_convert_text in H.
  - intros e. destruct (prepare confirm imgSource options) as [p|e0].
    + rewrite Public_convert_throw. split.
      * intros (-> & Hc & Hn). right. split; [done|]. by exists p.
      * intros [?|(-> & p' & [= <-] & Hc & Hn)]; done.
    + split; [intros [= ->]; by left|].
      by intros [[= ->]|(_ & p' & ? & _)].
  - intros p Hp. rewrite Hp. split; [|split; [|split]].
    + intros Hg t Ht. apply Public_text_grid in Ht. subst t.
      apply grid_text_ext. intros x y. by apply Public_glyph_empty.
    + intros Hg. rewrite Esm_convert_text. f_equal.
      apply grid_text_ext. intros x y.
      pose proof (Esm_active_chars_nonempty (p_settings p)) as Hne.
      destruct (Esm.active_chars (p_settings p)) as [s|length].
      * cbn [no_glyph] in Hg. by subst s.
      * apply Esm_glyph_Inherited.
    + apply Esm_active_chars_nonempty.
    + intros Hh. split; [|split].
      * rewrite Esm_convert_text. f_equal. apply grid_text_no_rows. lia.
      * intros Hc. rewrite Public_convert_text, Hc. cbn [andb]. f_equal.
        apply grid_text_no_rows. lia.
      * intros Hc. apply Public_convert_throw. split; [done|]. split; [done|].
        unfold valid_array_length.
        destruct (0 <=? p_height p) eqn:E; [apply Z.leb_le in E; lia|done].
  - vm_compute. reflexivity.
  - vm_compute. reflexivity.
Qed.

(** ** C6: the active ramp *)

Lemma grid_text_Forall (P : Z -> Prop) glyph w h :
  P newline ->
  (forall x y, 0 <= x < w -> 0 <= y < h -> Forall P (glyph x y)) ->
  Forall P (grid_text glyph w h).
Proof.
  intros Hn Hg. unfold grid_text.
  apply List.Forall_concat, List.Forall_map, List.Forall_forall.
  intros y Hy%list_elem_of_In%elem_of_seqZ.
  apply Forall_app. split; [|by repeat constructor].
  apply List.Forall_concat, List.Forall_map, List.Forall_forall.
  intros x Hx%list_elem_of_In%elem_of_seqZ.
  apply Hg; lia.
Qed.

(** In a buffer of bytes that covers the grid, a cell holds three bytes. *)
Lemma cell_rgb_bytes pixels w h x y :
  Forall byte pixels ->
  4 * w * h <= Z.of_nat (length pixels) ->
  0 <= x < w -> 0 <= y < h ->
  exists r g b, byte r /\ byte g /\ byte b
                /\ cell_rgb pixels w x y = (of_int r, of_int g, of_int b).
Proof.
  intros Hb Hlen Hx Hy. unfold cell_rgb, pixel_at.
  set (idx := Z.to_nat ((y * w + x) * 4)).
  assert (idx + 3 < length pixels)%nat as Hidx by (unfold idx; nia).
  destruct (lookup_lt_is_Some_2 pixels idx) as [r Hr]; [lia|].
  destruct (lookup_lt_is_Some_2 pixels (idx + 1)) as [g Hg]; [lia|].
  destruct (lookup_lt_is_Some_2 pixels (idx + 2)) as [b Hbl]; [lia|].
  exists r, g, b. rewrite Hr, Hg, Hbl.
  pose proof (Forall_lookup_1 _ _ _ _ Hb Hr).
  pose proof (Forall_lookup_1 _ _ _ _ Hb Hg).
  pose proof (Forall_lookup_1 _ _ _ _ Hb Hbl). done.
Qed.

Lemma Public_glyph_of_ramp chars pixels w h x y :
  chars <> [] -> Forall byte pixels -> 4 * w * h <= Z.of_nat (length pixels) ->
  0 <= x < w -> 0 <= y < h ->
  Forall (fun c => c = newline \/ c ∈ chars) (Public_glyph (Ramp chars) pixels w x y).
Proof.
  intros Hne Hb Hlen Hx Hy. unfold Public_glyph.
  destruct (cell_rgb_bytes pixels w h x y) as (r & g & b & Hr & Hg & Hbb & ->);
    try done.
  cbn [chars_length chars_get index_from].
  destruct (Public_glyph_in_ramp chars
              (Math_round_int (weighted_luminance (of_int r) (of_int g) (of_int b))))
    as (c & Hc & Hin); [done|by apply Public_brightness_nonneg|].
  rewrite Hc. cbn [to_string]. constructor; [by right|constructor].
Qed.

Lemma Esm_glyph_of_ramp chars pixels w h x y :
  chars <> [] -> str_length chars < 2 ^ 53 ->
  Forall byte pixels -> 4 * w * h <= Z.of_nat (length pixels) ->
  0 <= x < w -> 0 <= y < h ->
  Forall (fun c => c = newline \/ c ∈ chars) (Esm_glyph (Ramp chars) pixels w x y).
Proof.
  intros Hne Hlt Hb Hlen Hx Hy. unfold Esm_glyph.
  destruct (cell_rgb_bytes pixels w h x y) as (r & g & b & Hr & Hg & Hbb & ->);
    try done.
  cbn [chars_length chars_get index_from].
  destruct (Esm_glyph_in_ramp chars
              (Math_floor_int (mean (of_int r) (of_int g) (of_int b) / 256
                               * of_int (str_length chars))%float))
    as (c & Hc & Hin); [done| |].
  - apply Esm_charIdx_nonneg; try done.
    unfold str_length in *. destruct chars; [done|]. simpl length in *. lia.
  - rewrite Hc. cbn [to_string]. constructor; [by right|constructor].
Qed.

(** The text of each copy over a buffer of bytes that covers the grid, for a
    ramp that is a string and not empty: only characters of the ramp, and the
    newline that closes each row. *)
Lemma Public_text_of_ramp img settings w h pixels chars t :
  Public.active_chars settings = Ramp chars -> chars <> [] ->
  Forall byte pixels -> 4 * w * h <= Z.of_nat (length pixels) ->
  result_text (Public.convert img settings w h pixels) = Some t ->
  Forall (fun c => c = newline \/ c ∈ chars) t.
Proof.
  intros Ha Hne Hb Hlen Ht. apply Public_text_grid in Ht. subst t. rewrite Ha.
  apply grid_text_Forall; [by left|]. intros x y Hx Hy.
  apply (Public_glyph_of_ramp _ _ _ h); try done.
  - by apply adjusted_bytes.
  - unfold Public.applyImageAdjustments. by rewrite pixel_loop_length.
Qed.

Lemma Esm_text_of_ramp settings w h pixels chars :
  Esm.active_chars settings = Ramp chars -> str_length chars < 2 ^ 53 ->
  Forall byte pixels -> 4 * w * h <= Z.of_nat (length pixels) ->
  exists t, result_text (Esm.convert settings w h pixels) = Some t
            /\ Forall (fun c => c = newline \/ c ∈ chars) t.
Proof.
  intros Ha Hlt Hb Hlen. rewrite Esm_convert_text. eexists. split; [done|].
  pose proof (Esm_active_chars_nonempty settings) as Hne. rewrite Ha in *.
  apply grid_text_Forall; [by left|]. intros x y Hx Hy.
  apply (Esm_glyph_of_ramp _ _ _ h); try done.
  - congruence.
  - by apply adjusted_bytes.
  - unfold Esm.applyImageAdjustments. by rewrite pixel_loop_length.
Qed.

(** The settings of a conversion with another named set. *)
Definition with_named (charSet : Chars) (charSetType : option jsstring)
    (s : Settings.t) : Settings.t :=
  {| Settings.width := Settings.width s; Settings.height := Settings.height s;
     Settings.brightness := Settings.brightness s;
     Settings.contrast := Settings.contrast s;
     Settings.saturation := Settings.saturation s;
     Settings.grayscale := Settings.grayscale s;
     Settings.invert := Settings.invert s; Settings.hue := Settings.hue s;
     Settings.sepia := Settings.sepia s; Settings.colorized := Settings.colorized s;
     Settings.charSet := charSet; Settings.customChars := Settings.customChars s;
     Settings.stretchWidth := Settings.stretchWidth s;
     Settings.stretchHeight := Settings.stretchHeight s;
     Settings.charSetType := charSetType |}.

(** With custom characters neither [charSet] nor [charSetType] is read. *)
Lemma custom_ignores_named img charSet charSetType settings w h pixels :
  Settings.customChars settings <> [] ->
  Public.convert img (with_named charSet charSetType settings) w h pixels
  = Public.convert img settings w h pixels
  /\ Esm.convert (with_named charSet charSetType settings) w h pixels
     = Esm.convert settings w h pixels.
Proof.
  intros Hne.
  assert (Public.active_chars (with_named charSet charSetType settings)
          = Public.active_chars settings) as HP.
  { unfold Public.active_chars. cbn [with_named Settings.customChars].
    by destruct (Settings.customChars settings). }
  assert (Esm.active_chars (with_named charSet charSetType settings)
          = Esm.active_chars settings) as HE.
  { unfold Esm.active_chars. cbn [with_named Settings.customChars].
    by destruct (Settings.customChars settings). }
  split.
  - unfold Public.convert. by rewrite HP.
  - unfold Esm.convert. by rewrite HE.
Qed.

(** The strings of the table. *)
Lemma CHAR_SETS_Ramp name ramp :
  CHAR_SETS name = Some (Ramp ramp) -> ramp <> [] /\ str_length ramp <= 10.
Proof.
  unfold CHAR_SETS, CHAR_SETS_own. cbn [property].
  repeat case_decide; try (by intros [= <-]).
  by destruct (property name Object_prototype).
Qed.

(** C6.  One ramp is active per conversion, for every image whose canvas buffer
    is made of bytes and covers the grid.  When [customChars] is a non-empty
    string, the named set is ignored, in that the result is the same whatever
    [charSet] and [charSetType] are, and the text holds only characters of
    [customChars] (and the newline that closes each row), in both copies.  Only
    when [customChars] is empty is the named set used: then the text holds only
    characters of [charSet] in [public/conv2ascii.js]; in the ES-module copy
    only characters of the set [charSetType] names in the table, or without a
    [charSetType] of [charSet] (for sets that are non-empty strings). *)
Theorem custom_ramp_precedence
    (confirm : bool) (imgSource : ImageSource) (options : Options.t) (p : Prepared) :
  prepare confirm imgSource options = Return p ->
  Forall byte (p_pixels p) ->
  4 * p_width p * p_height p <= Z.of_nat (length (p_pixels p)) ->
  let settings := p_settings p in
  let custom := Settings.customChars settings in
  let only (chars : jsstring) (t : jsstring) :=
    Forall (fun c => c = newline \/ c ∈ chars) t in
  (custom <> [] -> str_length custom < 2 ^ 53 ->
     (forall charSet charSetType,
        Public.convert (p_img p) (with_named charSet charSetType settings)
          (p_width p) (p_height p) (p_pixels p)
        = Public.convert (p_img p) settings (p_width p) (p_height p) (p_pixels p)
        /\ Esm.convert (with_named charSet charSetType settings)
             (p_width p) (p_height p) (p_pixels p)
           = Esm.convert settings (p_width p) (p_height p) (p_pixels p))
     /\ (forall t, result_text (Public.convertToAscii confirm imgSource options)
                   = Some t -> only custom t)
     /\ (exists t, result_text (Esm.convertToAscii confirm imgSource options)
                   = Some t /\ only custom t))
  /\ (custom = [] ->
     (forall ramp t,
        Settings.charSet settings = Ramp ramp -> ramp <> [] ->
        result_text (Public.convertToAscii confirm imgSource options) = Some t ->
        only ramp t)
     /\ (forall c name ramp,
           Settings.charSetType settings = Some (c :: name) ->
           CHAR_SETS (c :: name) = Some (Ramp ramp) ->
           exists t, result_text (Esm.convertToAscii confirm imgSource options)
                     = Some t /\ only ramp t)
     /\ (forall ramp,
           Settings.charSetType settings = None
           \/ Settings.charSetType settings = Some [] ->
           Settings.charSet settings = Ramp ramp ->
           ramp <> [] -> str_length ramp < 2 ^ 53 ->
           exists t, result_text (Esm.convertToAscii confirm imgSource options)
                     = Some t /\ only ramp t)).
Proof.
  intros Hp Hb Hlen settings custom only.
  unfold Public.convertToAscii, Esm.convertToAscii. rewrite Hp.
  fold settings. split.
  - intros Hne Hlt. split; [|split].
    + intros charSet charSetType. by apply custom_ignores_named.
    + intros t. apply Public_text_of_ramp; try done.
      unfold Public.active_chars. fold custom. by destruct custom.
    + apply Esm_text_of_ramp; try done.
      unfold Esm.active_chars. fold custom. by destruct custom.
  - intros He. split; [|split].
    + intros ramp t Hr Hne. apply Public_text_of_ramp; try done.
      unfold Public.active_chars. fold custom. by rewrite He.
    + intros c name ramp Ht Hr.
      destruct (CHAR_SETS_Ramp _ _ Hr) as [Hne Hl].
      apply Esm_text_of_ramp; try done; [|lia].
      unfold Esm.active_chars. fold custom. by rewrite He, Ht, Hr.
    + intros ramp Ht Hr Hne Hl.
      apply Esm_text_of_ramp; try done.
      unfold Esm.active_chars. fold custom. rewrite He, Hr.
      destruct Ht as [-> | ->]; by destruct ramp.
Qed.

(** Custom characters "AB" with the named set "blocks". *)
Definition custom_AB : Options.t :=
  {| Options.width := Some 2%float; Options.height := None;
     Options.brightness := None; Options.contrast := None;
     Options.saturation := None; Options.grayscale := None;
     Options.invert := None; Options.hue := None;
     Options.sepia := None; Options.colorized := None;
     Options.charSet := Some (Ramp CHAR_SETS_blocks);
     Options.customChars := Some (str "AB");
     Options.stretchWidth := None; Options.stretchHeight := None;
     Options.charSetType := Some (str "blocks");
     Options._highResolutionConfirmed := false |}.

Lemma custom_ramp_precedence_witness :
  Forall (fun c => c = newline \/ c ∈ str "AB") (str "BA" ++ [newline]).
Proof.
  refine (proj1 (proj2 (proj1 (custom_ramp_precedence false (Element white_black)
            custom_AB
            {| p_img := white_black;
               p_settings := with_height white_black (spread defaults custom_AB);
               p_width := 2; p_height := 1;
               p_pixels := [255; 255; 255; 255; 0; 0; 0; 255] |} _ _ _) _ _))
            (str "BA" ++ [newline]) _).
  - vm_compute. reflexivity.
  - repeat constructor; unfold byte; lia.
  - vm_compute. discriminate.
  - vm_compute. discriminate.
  - vm_compute. reflexivity.
  - vm_compute. reflexivity.
Defined.

(** ** The order of numbers, exactly *)

Section ExactOrder.

(** The value of a finite number, scaled by 2^1074 so that it is an integer. *)
Definition scaled (x : spec_float) : Z :=
  match x with
  | S754_finite s m e => signed s m * 2 ^ (e + 1074)
  | _ => 0
  end.

Definition finite (x : spec_float) : Prop :=
  match x with
  | S754_zero _ | S754_finite _ _ _ => True
  | _ => False
  end.

Lemma digits2_pos_upper p : Z.pos p < 2 ^ Z.pos (digits2_pos p).
Proof.
  induction p as [p IH|p IH|]; cbn [digits2_pos]; [| |done];
    rewrite Pos2Z.inj_succ, Z.pow_succ_r by lia; lia.
Qed.

(** What [valid_binary] says of a mantissa and its exponent. *)
Lemma valid_finite s m e :
  valid_binary (S754_finite s m e) = true ->
  -1074 <= e /\ Z.pos m < 2 ^ 53 /\ (-1074 < e -> 2 ^ 52 <= Z.pos m).
Proof.
  cbn [SpecFloat.valid_binary]. unfold bounded, canonical_mantissa, fexp, emin, prec, emax.
  intros [Hc _]%andb_prop. apply Z.eqb_eq in Hc.
  pose proof (digits2_pos_upper m). pose proof (digits2_pos_lower m).
  set (d := Z.pos (digits2_pos m)) in *.
  split; [lia|]. split.
  - assert (2 ^ d <= 2 ^ 53) by (apply Z.pow_le_mono_r; lia). lia.
  - intros He. replace (d - 1) with 52 in * by lia. done.
Qed.

Lemma scaled_lt_by_exponent m1 e1 m2 e2 :
  -1074 <= e1 -> Z.pos m1 < 2 ^ 53 -> 2 ^ 52 <= Z.pos m2 -> e1 < e2 ->
  Z.pos m1 * 2 ^ (e1 + 1074) < Z.pos m2 * 2 ^ (e2 + 1074).
Proof.
  intros He1 Hm1 Hm2 He.
  replace (e2 + 1074) with ((e2 - e1 - 1) + 1 + (e1 + 1074)) by lia.
  rewrite (Z.pow_add_r 2 (e2 - e1 - 1 + 1) (e1 + 1074)) by lia.
  rewrite (Z.pow_add_r 2 (e2 - e1 - 1) 1) by lia. change (2 ^ 1) with 2.
  assert (0 < 2 ^ (e1 + 1074)) by (apply Z.pow_pos_nonneg; lia).
  assert (1 <= 2 ^ (e2 - e1 - 1)).
  { change 1 with (2 ^ 0). apply Z.pow_le_mono_r; lia. }
  change (2 ^ 53) with (2 * 2 ^ 52) in Hm1.
  set (A := 2 ^ (e1 + 1074)) in *. set (D := 2 ^ (e2 - e1 - 1)) in *.
  set (P := 2 ^ 52) in *.
  assert (Z.pos m1 * A < 2 * P * A) by nia.
  assert (P <= Z.pos m2 * D) by nia.
  assert (2 * P * A <= Z.pos m2 * D * (2 * A)) by nia.
  lia.
Qed.

Lemma scaled_sign (s : bool) m e :
  -1074 <= e ->
  if s return Prop then signed s m * 2 ^ (e + 1074) < 0
  else 0 < signed s m * 2 ^ (e + 1074).
Proof.
  intros He. assert (0 < 2 ^ (e + 1074)) by (apply Z.pow_pos_nonneg; lia).
  destruct s; cbn [signed].
  - apply Z.mul_neg_pos; lia.
  - apply Z.mul_pos_pos; lia.
Qed.

(** On finite numbers the comparison is the comparison of the values. *)
Lemma SFcompare_scaled x y :
  valid_binary x = true -> valid_binary y = true ->
  finite x -> finite y ->
  SFcompare x y = Some (scaled x ?= scaled y).
Proof.
  destruct x as [sx|sx| |sx mx ex], y as [sy|sy| |sy my ey]; try done;
    intros Hx Hy _ _; cbn [SFcompare scaled].
  - apply valid_finite in Hy as (He & _).
    pose proof (scaled_sign sy my ey He) as Hs.
    f_equal. symmetry. destruct sy.
    + apply Z.compare_gt_iff. lia.
    + apply Z.compare_lt_iff. lia.
  - apply valid_finite in Hx as (He & _).
    pose proof (scaled_sign sx mx ex He) as Hs.
    f_equal. symmetry. destruct sx.
    + apply Z.compare_lt_iff. lia.
    + apply Z.compare_gt_iff. lia.
  - apply valid_finite in Hx as (Hex & Hmx & Hnx).
    apply valid_finite in Hy as (Hey & Hmy & Hny).
    pose proof (scaled_sign sx mx ex Hex) as Hsx.
    pose proof (scaled_sign sy my ey Hey) as Hsy.
    assert (0 < 2 ^ (ex + 1074)) by (apply Z.pow_pos_nonneg; lia).
    f_equal. symmetry.
    destruct sx, sy; cbn [signed] in *.
    + destruct (ex ?= ey) eqn:E.
      * apply Z.compare_eq in E. subst ey.
        rewrite <- Zmult_compare_compat_r by lia. reflexivity.
      * apply (proj1 (Z.compare_lt_iff _ _)) in E.
        pose proof (scaled_lt_by_exponent mx ex my ey Hex Hmx (Hny ltac:(lia)) E).
        apply Z.compare_gt_iff. rewrite <- !Pos2Z.opp_pos, !Z.mul_opp_l. lia.
      * apply (proj1 (Z.compare_gt_iff _ _)) in E.
        pose proof (scaled_lt_by_exponent my ey mx ex Hey Hmy (Hnx ltac:(lia)) E).
        apply Z.compare_lt_iff. rewrite <- !Pos2Z.opp_pos, !Z.mul_opp_l. lia.
    + apply Z.compare_lt_iff. lia.
    + apply Z.compare_gt_iff. lia.
    + destruct (ex ?= ey) eqn:E.
      * apply Z.compare_eq in E. subst ey.
        rewrite <- Zmult_compare_compat_r by lia. reflexivity.
      * apply (proj1 (Z.compare_lt_iff _ _)) in E.
        pose proof (scaled_lt_by_exponent mx ex my ey Hex Hmx (Hny ltac:(lia)) E).
        apply Z.compare_lt_iff. lia.
      * apply (proj1 (Z.compare_gt_iff _ _)) in E.
        pose proof (scaled_lt_by_exponent my ey mx ex Hey Hmy (Hnx ltac:(lia)) E).
        apply Z.compare_gt_iff. lia.
Qed.

Local Open Scope float_scope.

(** A number strictly between two finite numbers is finite, and so are the
    values. *)
Lemma between_finite lo hi x :
  finite (Prim2SF lo) -> finite (Prim2SF hi) ->
  (lo <? x) = true -> (x <? hi) = true ->
  finite (Prim2SF x)
  /\ (scaled (Prim2SF lo) < scaled (Prim2SF x) < scaled (Prim2SF hi))%Z.
Proof.
  intros Hlo Hhi. rewrite !FloatAxioms.ltb_spec. unfold SFltb.
  pose proof (Prim2SF_valid lo). pose proof (Prim2SF_valid hi).
  pose proof (Prim2SF_valid x).
  assert (finite (Prim2SF x) ->
          SFcompare (Prim2SF lo) (Prim2SF x)
            = Some (scaled (Prim2SF lo) ?= scaled (Prim2SF x))%Z
          /\ SFcompare (Prim2SF x) (Prim2SF hi)
            = Some (scaled (Prim2SF x) ?= scaled (Prim2SF hi))%Z) as Hc.
  { intros Hx. split; by apply SFcompare_scaled. }
  assert (forall c, match Some c with Some Lt => true | _ => false end = true ->
                    c = Lt) as Hlt by (by intros []).
  destruct (Prim2SF x) as [sx|sx| |sx mx ex] eqn:Ex.
  - destruct (Hc I) as [-> ->]. intros Ha%Hlt Hb%Hlt. split; [done|].
    split; by apply Z.compare_lt_iff.
  - destruct (Prim2SF lo) as [s|s| |s m e], (Prim2SF hi) as [s'|s'| |s' m' e'];
      try done; cbn [SFcompare]; destruct sx; done.
  - destruct (Prim2SF lo) as [s|s| |s m e]; done.
  - destruct (Hc I) as [-> ->]. intros Ha%Hlt Hb%Hlt. split; [done|].
    split; by apply Z.compare_lt_iff.
Qed.

End ExactOrder.

(** ** Numbers that are stored as a given byte *)

Section Near.

Local Open Scope float_scope.

(** [x] lies strictly between [z - 0.5] and [z + 0.5]. *)
Definition near (z : Z) (x : float) : bool :=
  (of_int z - 0.5 <? x) && (x <? of_int z + 0.5).

Local Open Scope Z_scope.

(** For a byte the two bounds are finite and are what they say. *)
Lemma near_bounds z :
  byte z ->
  finite (Prim2SF (of_int z - 0.5)) /\ finite (Prim2SF (of_int z + 0.5))
  /\ scaled (Prim2SF (of_int z - 0.5)) = (2 * z - 1) * 2 ^ 1073
  /\ scaled (Prim2SF (of_int z + 0.5)) = (2 * z + 1) * 2 ^ 1073.
Proof.
  intros Hz.
  assert ((fun z =>
             match Prim2SF (of_int z - 0.5), Prim2SF (of_int z + 0.5) with
             | S754_finite _ _ _ as lo, S754_finite _ _ _ as hi =>
                 (scaled lo =? (2 * z - 1) * 2 ^ 1073)
                 && (scaled hi =? (2 * z + 1) * 2 ^ 1073)
             | _, _ => false
             end) z = true) as H.
  { revert z Hz. apply byte_cases. vm_compute. reflexivity. }
  cbv beta in H.
  destruct (Prim2SF (of_int z - 0.5)) as [| | |s m e]; try done.
  destruct (Prim2SF (of_int z + 0.5)) as [| | |s' m' e']; try done.
  apply andb_prop in H as [H1%Z.eqb_eq H2%Z.eqb_eq]. done.
Qed.

Lemma round_half_even_between m e z :
  -1074 <= e ->
  (2 * z - 1) * 2 ^ 1073 < Z.pos m * 2 ^ (e + 1074) < (2 * z + 1) * 2 ^ 1073 ->
  round_half_even m e = z.
Proof.
  intros He Hb. unfold round_half_even.
  destruct (0 <=? e) eqn:E.
  - apply Z.leb_le in E. rewrite Z.shiftl_mul_pow2 by lia.
    replace (e + 1074) with (e + 1 + 1073) in Hb by lia.
    rewrite Z.pow_add_r, (Z.pow_add_r 2 e 1) in Hb by lia.
    change (2 ^ 1) with 2 in Hb.
    assert (0 < 2 ^ 1073) by (apply Z.pow_pos_nonneg; lia).
    set (P := 2 ^ 1073) in *. set (N := Z.pos m * 2 ^ e) in *.
    rewrite (Z.mul_assoc (Z.pos m)) in Hb. fold N in Hb.
    rewrite Z.mul_assoc in Hb. nia.
  - apply Z.leb_gt in E.
    set (k := - e) in *.
    assert (1 <= k <= 1074) as Hk by (unfold k; lia).
    replace (e + 1074) with (1074 - k) in Hb by (unfold k; lia).
    assert (2 ^ 1073 = 2 ^ (k - 1) * 2 ^ (1074 - k)) as HP.
    { rewrite <- Z.pow_add_r by lia. f_equal. lia. }
    rewrite HP in Hb.
    assert (0 < 2 ^ (1074 - k)) by (apply Z.pow_pos_nonneg; lia).
    assert (0 < 2 ^ (k - 1)) as Hh by (apply Z.pow_pos_nonneg; lia).
    rewrite Z.shiftr_div_pow2 by lia.
    rewrite !Z.shiftl_mul_pow2 by lia. rewrite Z.mul_1_l.
    replace (2 ^ k) with (2 * 2 ^ (k - 1)).
    2:{ replace k with (1 + (k - 1)) at 2 by lia.
        rewrite Z.pow_add_r by lia. done. }
    set (h := 2 ^ (k - 1)) in *. set (S := 2 ^ (1074 - k)) in *.
    rewrite !Z.mul_assoc in Hb.
    assert ((2 * z - 1) * h < Z.pos m < (2 * z + 1) * h) as Hm by nia.
    pose proof (Z.div_mod (Z.pos m) (2 * h) ltac:(lia)) as Hdm.
    pose proof (Z.mod_pos_bound (Z.pos m) (2 * h) ltac:(lia)) as Hr.
    set (q := Z.pos m / (2 * h)) in *. set (r := Z.pos m mod (2 * h)) in *.
    replace (Z.pos m - q * (2 * h)) with r by lia.
    assert (forall a b, a * h < b * h -> a < b) as Hcancel.
    { intros a b. by apply Z.mul_lt_mono_pos_r. }
    destruct (r <? h) eqn:E1.
    { apply Z.ltb_lt in E1.
      assert (2 * q < 2 * z + 1) by (apply Hcancel; lia).
      assert (2 * z - 1 < 2 * q + 1) by (apply Hcancel; lia). lia. }
    apply Z.ltb_ge in E1.
    destruct (h <? r) eqn:E2.
    { apply Z.ltb_lt in E2.
      assert (2 * q + 1 < 2 * z + 1) by (apply Hcancel; lia).
      assert (2 * z - 1 < 2 * q + 2) by (apply Hcancel; lia). lia. }
    apply Z.ltb_ge in E2. assert (r = h) by lia.
    assert (2 * q + 1 < 2 * z + 1) by (apply Hcancel; lia).
    assert (2 * z - 1 < 2 * q + 1) by (apply Hcancel; lia). lia.
Qed.

(** A number near a byte is stored as that byte. *)
Lemma ToUint8Clamp_near z x : byte z -> near z x = true -> ToUint8Clamp x = z.
Proof.
  intros Hz [H1 H2]%andb_prop.
  destruct (near_bounds z Hz) as (Hlo & Hhi & Hslo & Hshi).
  destruct (between_finite _ _ _ Hlo Hhi H1 H2) as [Hf Hb].
  rewrite Hslo, Hshi in Hb. pose proof (Prim2SF_valid x) as Hv.
  assert (0 < 2 ^ 1073) by (apply Z.pow_pos_nonneg; lia).
  unfold ToUint8Clamp, byte in *.
  destruct (Prim2SF x) as [s|s| |s m e]; try done; cbn [scaled] in Hb.
  - nia.
  - apply valid_finite in Hv as (He & _).
    pose proof (scaled_sign s m e He) as Hs.
    destruct s; cbn [signed] in *.
    + nia.
    + rewrite (round_half_even_between m e z); [lia|done|done].
Qed.

End Near.

(** ** Rounding, coarsely

    How far the result of an addition, a subtraction or a multiplication by one
    can be from the exact value, for numbers of moderate size. *)

Section Rounding.

Lemma shr_1_div mrs : 0 <= shr_m mrs -> shr_m (shr_1 mrs) = shr_m mrs / 2.
Proof.
  destruct mrs as [m r s]. cbn [shr_m shr_1].
  destruct m as [|[p|p|]|p]; cbn [shr_m]; intros H; try done; try lia.
  - rewrite Pos2Z.inj_xI. apply (Z.div_unique _ _ _ 1); lia.
  - rewrite Pos2Z.inj_xO. apply (Z.div_unique _ _ _ 0); lia.
Qed.

Lemma iter_shr_1_div p mrs :
  0 <= shr_m mrs ->
  shr_m (SpecFloat.iter_pos shr_1 p mrs) = shr_m mrs / 2 ^ Z.pos p.
Proof.
  revert mrs. induction p as [p IH|p IH|]; intros mrs H; cbn [SpecFloat.iter_pos].
  - rewrite IH by auto using iter_shr_1_nonneg, shr_1_nonneg.
    rewrite IH by auto using shr_1_nonneg. rewrite shr_1_div by done.
    assert (0 < 2 ^ Z.pos p) by (apply Z.pow_pos_nonneg; lia).
    rewrite !Z.div_div by lia. f_equal.
    replace (Z.pos p~1) with (1 + Z.pos p + Z.pos p) by lia.
    rewrite !Z.pow_add_r by lia. change (2 ^ 1) with 2. lia.
  - rewrite IH by auto using iter_shr_1_nonneg. rewrite IH by done.
    assert (0 < 2 ^ Z.pos p) by (apply Z.pow_pos_nonneg; lia).
    rewrite !Z.div_div by lia. f_equal.
    replace (Z.pos p~0) with (Z.pos p + Z.pos p) by lia.
    rewrite Z.pow_add_r by lia. lia.
  - rewrite shr_1_div by done. done.
Qed.

Lemma round_nearest_even_cases m l :
  round_nearest_even m l = m \/ round_nearest_even m l = m + 1.
Proof. destruct l as [|[]]; cbn; try destruct (Z.even m); auto. Qed.

(** The shape of a rounded result. *)
Definition rounded (s : bool) (m e : Z) : spec_float :=
  match m with
  | Z0 => S754_zero s
  | Z.pos p => S754_finite s p e
  | Z.neg _ => S754_nan
  end.

Lemma pow2_lt_inv a b : 0 <= a -> 2 ^ a < 2 ^ b -> a < b.
Proof.
  intros Ha H. destruct (decide (a < b)); [done|].
  assert (2 ^ b <= 2 ^ a) by (apply Z.pow_le_mono_r; lia). lia.
Qed.

Lemma digits_le p n : 0 <= n -> Z.pos p < 2 ^ n -> Z.pos (digits2_pos p) <= n.
Proof.
  intros Hn H. pose proof (digits2_pos_lower p).
  assert (Z.pos (digits2_pos p) - 1 < n); [|lia].
  apply pow2_lt_inv; lia.
Qed.

Lemma shr_fexp_stay m e :
  fexp prec emax (Zdigits2 m + e) <= e ->
  shr_fexp prec emax m e loc_Exact
  = ({| shr_m := m; shr_r := false; shr_s := false |}, e).
Proof.
  intros H. unfold shr_fexp, shr. cbn [shr_record_of_loc].
  destruct (_ - e) as [|p|p] eqn:E; try done. lia.
Qed.

Lemma shr_fexp_shift m e l :
  0 <= m -> e < fexp prec emax (Zdigits2 m + e) ->
  exists mrs,
    shr_fexp prec emax m e l = (mrs, fexp prec emax (Zdigits2 m + e))
    /\ shr_m mrs = m / 2 ^ (fexp prec emax (Zdigits2 m + e) - e).
Proof.
  intros Hm H. unfold shr_fexp, shr.
  assert (shr_m (shr_record_of_loc m l) = m) as Hr by (by destruct l as [|[]]).
  destruct (_ - e) as [|p|p] eqn:E; try lia.
  eexists. split; [f_equal; lia|].
  rewrite iter_shr_1_div by (rewrite Hr; done). by rewrite Hr.
Qed.

Lemma fexp_bounds k :
  fexp prec emax k = Z.max (k - 53) (-1074).
Proof. reflexivity. Qed.

(** The rounding of [m * 2^e], a value below [2^B]: the result is zero or finite,
    its exponent is [e] when nothing is lost and at most that of [2^B] otherwise,
    and its distance from [m * 2^e] is below two units of its last place. *)
Lemma binary_round_aux_crude s m e B :
  -1074 <= B <= 971 -> Z.pos m < 2 ^ (B - e) ->
  exists mf ef,
    binary_round_aux prec emax s (Z.pos m) e loc_Exact = rounded s mf ef
    /\ 0 <= mf /\ e <= ef /\ -1074 <= ef /\ ef <= Z.max e (fexp prec emax (B + 1))
    /\ Z.abs (mf * 2 ^ (ef - e) - Z.pos m) <= 2 * (2 ^ (ef - e) - 1).
Proof.
  intros HB Hm.
  assert (e < B) as HeB.
  { destruct (decide (e < B)); [done|].
    assert (2 ^ (B - e) <= 2 ^ 0); [|change (2 ^ 0) with 1 in *; lia].
    destruct (decide (B - e = 0)) as [->|]; [done|].
    rewrite Z.pow_neg_r by lia. done. }
  pose proof (digits_le m (B - e) ltac:(lia) Hm) as Hd.
  unfold binary_round_aux.
  set (fe := fexp prec emax (Zdigits2 (Z.pos m) + e)).
  assert (fe = Z.max (Z.pos (digits2_pos m) + e - 53) (-1074)) as Hfe by done.
  rewrite !fexp_bounds.
  destruct (Z_lt_le_dec e fe) as [Hlt|Hle].
  - destruct (shr_fexp_shift (Z.pos m) e loc_Exact ltac:(lia) Hlt)
      as (mrs' & -> & Hm1). fold fe in Hm1 |- *.
    set (N := 2 ^ (fe - e)) in *.
    assert (2 <= N) as HN.
    { change 2 with (2 ^ 1). apply Z.pow_le_mono_r; lia. }
    pose proof (Z.div_mod (Z.pos m) N ltac:(lia)) as Hdm.
    pose proof (Z.mod_pos_bound (Z.pos m) N ltac:(lia)) as Hb.
    rewrite <- Hm1 in Hdm.
    assert (0 <= shr_m mrs') as Hm1pos.
    { rewrite Hm1. apply Z.div_pos; lia. }
    set (m1 := shr_m mrs') in *. set (b := Z.pos m mod N) in *.
    set (m2 := round_nearest_even m1 (loc_of_shr_record mrs')).
    assert (m2 = m1 \/ m2 = m1 + 1) as Hm2 by apply round_nearest_even_cases.
    set (f2 := fexp prec emax (Zdigits2 m2 + fe)).
    assert (f2 = Z.max (Zdigits2 m2 + fe - 53) (-1074)) as Hf2 by done.
    assert (N <= 2 ^ (B - e)) as HNB.
    { apply Z.pow_le_mono_r; lia. }
    assert (2 ^ (B + 1 - fe) * N = 2 * 2 ^ (B - e)) as Hsplit.
    { unfold N. rewrite <- Z.pow_add_r by lia.
      replace (B + 1 - fe + (fe - e)) with (1 + (B - e)) by lia.
      rewrite Z.pow_add_r by lia. done. }
    assert (m2 < 2 ^ (B + 1 - fe)) as Hm2B.
    { apply (Z.mul_lt_mono_pos_r N); [lia|]. rewrite Hsplit. nia. }
    assert (Zdigits2 m2 + fe <= B + 1) as Hd2.
    { destruct m2 as [|q|q] eqn:Eq; cbn [Zdigits2]; [lia| |lia].
      pose proof (digits_le q (B + 1 - fe) ltac:(lia) Hm2B). lia. }
    destruct (Z_lt_le_dec fe f2) as [Hlt2|Hle2].
    + destruct (shr_fexp_shift m2 fe loc_Exact ltac:(lia) Hlt2)
        as (mrs'' & -> & Hm3). fold f2 in Hm3 |- *.
      set (N2 := 2 ^ (f2 - fe)) in *.
      assert (2 <= N2) as HN2.
      { change 2 with (2 ^ 1). apply Z.pow_le_mono_r; lia. }
      pose proof (Z.div_mod m2 N2 ltac:(lia)) as Hdm2.
      pose proof (Z.mod_pos_bound m2 N2 ltac:(lia)) as Hb2.
      rewrite <- Hm3 in Hdm2.
      assert (0 <= shr_m mrs'') as Hm3pos.
      { rewrite Hm3. apply Z.div_pos; lia. }
      set (m3 := shr_m mrs'') in *. set (a := m2 mod N2) in *.
      exists m3, f2.
      assert (2 ^ (f2 - e) = N2 * N) as Hpow.
      { unfold N2, N. rewrite <- Z.pow_add_r by lia. f_equal. lia. }
      split; [|split; [done|split; [lia|split; [lia|split; [lia|]]]]].
      * destruct m3 as [|q|q]; cbn [rounded]; [done| |lia].
        replace (f2 <=? emax - prec) with true; [done|].
        symmetry. apply Z.leb_le. unfold emax, prec. lia.
      * rewrite Hpow.
        assert (m3 * (N2 * N) - Z.pos m = (m2 - a - m1) * N - b) as -> by nia.
        assert (4 <= N2 * N) by nia.
        assert (- (N2 * N) < (m2 - a - m1) * N - b <= N) by nia.
        nia.
    + rewrite (shr_fexp_stay m2 fe) by (fold f2; done). cbn [shr_m].
      exists m2, fe.
      split; [|split; [lia|split; [lia|split; [lia|split; [lia|]]]]].
      * destruct m2 as [|q|q]; cbn [rounded]; [done| |lia].
        replace (fe <=? emax - prec) with true; [done|].
        symmetry. apply Z.leb_le. unfold emax, prec. lia.
      * fold N. nia.
  - rewrite (shr_fexp_stay (Z.pos m) e) by done.
    cbn [shr_m loc_of_shr_record round_nearest_even].
    rewrite (shr_fexp_stay (Z.pos m) e) by done. cbn [shr_m].
    exists (Z.pos m), e.
    split; [|split; [lia|split; [lia|split; [lia|split; [lia|]]]]].
    + cbn [rounded]. replace (e <=? emax - prec) with true; [done|].
      symmetry. apply Z.leb_le. unfold emax, prec. lia.
    + rewrite Z.sub_diag. change (2 ^ 0) with 1. lia.
Qed.

Lemma iter_xO_value m d : Z.pos (Pos.iter xO m d) = Z.pos m * 2 ^ Z.pos d.
Proof.
  induction d as [|d IH] using Pos.peano_ind.
  - cbn [Pos.iter]. change (2 ^ 1) with 2. lia.
  - rewrite Pos.iter_succ, Pos2Z.inj_succ, Z.pow_succ_r by lia.
    replace (Z.pos (Pos.iter xO m d)~0) with (2 * Z.pos (Pos.iter xO m d)) by lia.
    rewrite IH. lia.
Qed.

Lemma shl_align_value m e e' :
  (shl_align m e e').2 = Z.min e e'
  /\ Z.pos (shl_align m e e').1 = Z.pos m * 2 ^ (e - Z.min e e').
Proof.
  unfold shl_align. destruct (e' - e) as [|d|d] eqn:E; cbn [fst snd].
  - replace (Z.min e e') with e by lia. rewrite Z.sub_diag. lia.
  - replace (Z.min e e') with e by lia. rewrite Z.sub_diag. lia.
  - replace (Z.min e e') with e' by lia. rewrite iter_xO_value.
    split; [done|]. do 2 f_equal. lia.
Qed.

Lemma rounded_finite s mf ef : 0 <= mf -> finite (rounded s mf ef).
Proof. by destruct mf. Qed.

Lemma rounded_scaled (s : bool) mf ef :
  0 <= mf ->
  scaled (rounded s mf ef) = (if s then - mf else mf) * 2 ^ (ef + 1074).
Proof. destruct mf as [|p|p], s; cbn [rounded scaled signed]; lia. Qed.

(** How far a rounded result of moderate size can be from the exact value, in
    units of 2^-1074. *)
Definition slack (B : Z) : Z := 2 ^ (fexp prec emax (B + 1) + 1075).

Lemma binary_round_aux_scaled s m e k B :
  0 <= k -> -1074 - k <= e -> -1074 <= B <= 971 ->
  Z.pos m * 2 ^ (e + 1074 + k) < 2 ^ (B + 1074 + k) ->
  finite (binary_round_aux prec emax s (Z.pos m) e loc_Exact)
  /\ Z.abs (scaled (binary_round_aux prec emax s (Z.pos m) e loc_Exact) * 2 ^ k
            - signed s m * 2 ^ (e + 1074 + k)) < slack B * 2 ^ k.
Proof.
  intros Hk He HB Hm.
  assert (0 < 2 ^ (e + 1074 + k)) as HU by (apply Z.pow_pos_nonneg; lia).
  assert (e < B) as HeB.
  { assert (e + 1074 + k < B + 1074 + k); [|lia].
    apply pow2_lt_inv; [lia|]. nia. }
  assert (Z.pos m < 2 ^ (B - e)) as Hm'.
  { apply (Z.mul_lt_mono_pos_r (2 ^ (e + 1074 + k))); [done|].
    rewrite <- Z.pow_add_r by lia.
    replace (B - e + (e + 1074 + k)) with (B + 1074 + k) by lia. done. }
  destruct (binary_round_aux_crude s m e B HB Hm')
    as (mf & ef & -> & Hmf & Hef & Hef' & Hmax & Herr).
  split; [by apply rounded_finite|].
  rewrite rounded_scaled by done. unfold slack.
  set (U := 2 ^ (e + 1074 + k)) in *.
  set (F := fexp prec emax (B + 1)) in *.
  assert (-1074 <= F) as HF by (unfold F; rewrite fexp_bounds; lia).
  rewrite <- Z.pow_add_r by lia.
  assert (2 ^ (ef + 1074) * 2 ^ k = 2 ^ (ef - e) * U) as HW.
  { unfold U. rewrite <- !Z.pow_add_r by lia. f_equal. lia. }
  set (W := 2 ^ (ef - e)) in *.
  assert (1 <= W) as HW1.
  { change 1 with (2 ^ 0). apply Z.pow_le_mono_r; lia. }
  assert (forall v, v * 2 ^ (ef + 1074) * 2 ^ k = v * W * U) as Hv.
  { intros v. rewrite <- Z.mul_assoc, HW. lia. }
  rewrite Hv.
  assert (Z.abs ((if s then - mf else mf) * W * U - signed s m * U)
          = Z.abs (mf * W - Z.pos m) * U) as ->.
  { destruct s; cbn [signed]; nia. }
  destruct (decide (ef = e)) as [->|Hne].
  - unfold W in *. rewrite Z.sub_diag in *. change (2 ^ 0) with 1 in *.
    assert (Z.abs (mf * 1 - Z.pos m) = 0) as -> by lia.
    rewrite Z.mul_0_l. apply Z.pow_pos_nonneg; lia.
  - assert (2 * W * U <= 2 ^ (F + 1075 + k)).
    { rewrite <- Z.mul_assoc, <- HW, <- Z.pow_add_r by lia.
      change 2 with (2 ^ 1) at 1. rewrite <- Z.pow_add_r by lia.
      apply Z.pow_le_mono_r; lia. }
    nia.
Qed.

Lemma binary_round_scaled s m e B :
  -1074 <= e -> -1074 <= B <= 971 ->
  Z.pos m * 2 ^ (e + 1074) < 2 ^ (B + 1074) ->
  finite (binary_round prec emax s m e)
  /\ Z.abs (scaled (binary_round prec emax s m e) - signed s m * 2 ^ (e + 1074))
     < slack B.
Proof.
  intros He HB Hm. unfold binary_round.
  set (fe := fexp prec emax (Z.pos (digits2_pos m) + e)).
  assert (-1074 <= fe) by (unfold fe; rewrite fexp_bounds; lia).
  destruct (shl_align_value m e fe) as [H1 H2].
  destruct (shl_align m e fe) as [mz ez]. cbn [fst snd] in H1, H2.
  assert (Z.pos mz * 2 ^ (ez + 1074) = Z.pos m * 2 ^ (e + 1074)) as Hval.
  { rewrite H2, <- H1, <- Z.mul_assoc, <- Z.pow_add_r by lia.
    do 2 f_equal. lia. }
  destruct (binary_round_aux_scaled s mz ez 0 B) as [Hf Hb]; try lia.
  { rewrite !Z.add_0_r, Hval. done. }
  split; [done|].
  rewrite !Z.add_0_r in Hb. change (2 ^ 0) with 1 in Hb.
  rewrite !Z.mul_1_r in Hb.
  assert (signed s mz * 2 ^ (ez + 1074) = signed s m * 2 ^ (e + 1074)) as <-;
    [|done].
  destruct s; cbn [signed]; rewrite <- ?Pos2Z.opp_pos, ?Z.mul_opp_l; lia.
Qed.

Lemma binary_normalize_scaled M e B :
  -1074 <= e -> -1074 <= B <= 971 ->
  Z.abs M * 2 ^ (e + 1074) < 2 ^ (B + 1074) ->
  finite (binary_normalize prec emax M e false)
  /\ Z.abs (scaled (binary_normalize prec emax M e false) - M * 2 ^ (e + 1074))
     < slack B.
Proof.
  intros He HB HM. destruct M as [|p|p]; cbn [binary_normalize].
  - split; [done|]. cbn [scaled]. rewrite Z.mul_0_l. cbn [Z.sub Z.opp Z.abs Z.add].
    apply Z.pow_pos_nonneg; [lia|]. rewrite fexp_bounds. lia.
  - by apply (binary_round_scaled false p e B).
  - by apply (binary_round_scaled true p e B).
Qed.

Lemma aligned_scaled (s : bool) m e e' :
  -1074 <= e' -> e' <= e ->
  cond_Zopp s (Z.pos (shl_align m e e').1) * 2 ^ (e' + 1074)
  = scaled (S754_finite s m e).
Proof.
  intros He' He. destruct (shl_align_value m e e') as [_ H].
  replace (Z.min e e') with e' in H by lia. cbn [scaled].
  assert (Z.pos (shl_align m e e').1 * 2 ^ (e' + 1074)
          = Z.pos m * 2 ^ (e + 1074)) as Hv.
  { rewrite H, <- Z.mul_assoc, <- Z.pow_add_r by lia. do 2 f_equal. lia. }
  destruct s; cbn [cond_Zopp signed]; rewrite <- ?Pos2Z.opp_pos, ?Z.mul_opp_l; lia.
Qed.

Lemma SFadd_scaled x y B :
  valid_binary x = true -> valid_binary y = true -> finite x -> finite y ->
  -1074 <= B <= 971 ->
  Z.abs (scaled x + scaled y) < 2 ^ (B + 1074) ->
  finite (SF64add x y)
  /\ Z.abs (scaled (SF64add x y) - (scaled x + scaled y)) < slack B.
Proof.
  intros Hx Hy Fx Fy HB Hs.
  assert (0 < slack B) as Hpos.
  { apply Z.pow_pos_nonneg; [lia|]. rewrite fexp_bounds. lia. }
  destruct x as [sx|sx| |sx mx ex], y as [sy|sy| |sy my ey]; try done.
  - split; [by destruct sx, sy|]. destruct sx, sy; cbn; lia.
  - split; [done|]. cbn [SF64add SFadd scaled]. lia.
  - split; [done|]. cbn [SF64add SFadd scaled]. lia.
  - apply valid_finite in Hx as (Hex & _). apply valid_finite in Hy as (Hey & _).
    cbv [SF64add SFadd].
    set (ez := Z.min ex ey).
    rewrite <- (aligned_scaled sx mx ex ez), <- (aligned_scaled sy my ey ez) in *
      by lia.
    rewrite <- Z.mul_add_distr_r in *.
    apply binary_normalize_scaled; lia.
Qed.

Lemma SFsub_scaled x y B :
  valid_binary x = true -> valid_binary y = true -> finite x -> finite y ->
  -1074 <= B <= 971 ->
  Z.abs (scaled x - scaled y) < 2 ^ (B + 1074) ->
  finite (SF64sub x y)
  /\ Z.abs (scaled (SF64sub x y) - (scaled x - scaled y)) < slack B.
Proof.
  intros Hx Hy Fx Fy HB Hs.
  assert (0 < slack B) as Hpos.
  { apply Z.pow_pos_nonneg; [lia|]. rewrite fexp_bounds. lia. }
  destruct x as [sx|sx| |sx mx ex], y as [sy|sy| |sy my ey]; try done.
  - split; [by destruct sx, sy|]. destruct sx, sy; cbn; lia.
  - split; [done|]. cbn [SF64sub SFsub scaled].
    destruct sy; cbn [negb signed]; rewrite <- ?Pos2Z.opp_pos, ?Z.mul_opp_l; lia.
  - split; [done|]. cbn [SF64sub SFsub scaled]. lia.
  - apply valid_finite in Hx as (Hex & _). apply valid_finite in Hy as (Hey & _).
    cbv [SF64sub SFsub].
    set (ez := Z.min ex ey).
    rewrite <- (aligned_scaled sx mx ex ez), <- (aligned_scaled sy my ey ez) in *
      by lia.
    rewrite <- Z.mul_sub_distr_r in *.
    apply binary_normalize_scaled; lia.
Qed.

(** The number one. *)
Definition SF_one : spec_float := S754_finite false 4503599627370496 (-52).

Lemma SFmul_one_scaled y B :
  valid_binary y = true -> finite y -> -1074 <= B <= 971 ->
  Z.abs (scaled y) < 2 ^ (B + 1074) ->
  finite (SF64mul SF_one y)
  /\ Z.abs (scaled (SF64mul SF_one y) - scaled y) < slack B.
Proof.
  intros Hy Fy HB Hs.
  assert (0 < slack B) as Hpos.
  { apply Z.pow_pos_nonneg; [lia|]. rewrite fexp_bounds. lia. }
  destruct y as [sy|sy| |sy my ey]; try done.
  apply valid_finite in Hy as (Hey & _).
  cbv [SF64mul SFmul SF_one]. cbn [xorb].
  assert (0 < 2 ^ (ey + 1074)) by (apply Z.pow_pos_nonneg; lia).
  assert (Z.abs (scaled (S754_finite sy my ey)) = Z.pos my * 2 ^ (ey + 1074))
    as Habs.
  { cbn [scaled]. destruct sy; cbn [signed];
      rewrite <- ?Pos2Z.opp_pos, ?Z.mul_opp_l; lia. }
  rewrite Habs in Hs.
  assert (forall s : bool,
            signed s (4503599627370496 * my) * 2 ^ (-52 + ey + 1074 + 52)
            = scaled (S754_finite s my ey) * 2 ^ 52) as Hval.
  { intros s. cbn [scaled].
    replace (-52 + ey + 1074 + 52) with (ey + 1074) by lia.
    destruct s; cbn [signed]; rewrite <- ?Pos2Z.opp_pos, ?Z.mul_opp_l;
      rewrite Pos2Z.inj_mul; change (Z.pos 4503599627370496) with (2 ^ 52);
      lia. }
  destruct (binary_round_aux_scaled sy (4503599627370496 * my) (-52 + ey) 52 B)
    as [Hf Hb]; try lia.
  { rewrite (Z.pow_add_r 2 (B + 1074) 52) by lia. pose proof (Hval false) as Hv.
    cbn [signed scaled] in Hv. rewrite Hv.
    apply Z.mul_lt_mono_pos_r; [done|]. done. }
  split; [done|]. rewrite Hval in Hb. rewrite <- Z.mul_sub_distr_r in Hb.
  rewrite Z.abs_mul, (Z.abs_eq (2 ^ 52)) in Hb by done.
  apply (Z.mul_lt_mono_pos_r (2 ^ 52)); done.
Qed.

End Rounding.

Section NearTruncate.

Local Open Scope float_scope.

(** Clamping a number near a byte does not change the byte it is stored as. *)
Lemma ToUint8Clamp_truncate_near z x :
  byte z -> near z x = true -> ToUint8Clamp (truncate x) = z.
Proof.
  intros Hz Hnear. pose proof Hnear as [H1 H2]%andb_prop.
  destruct (near_bounds z Hz) as (Hlo & Hhi & Hslo & Hshi).
  destruct (between_finite _ _ _ Hlo Hhi H1 H2) as [Hf Hb].
  rewrite Hslo, Hshi in Hb.
  destruct (ltb_is_nan _ _ H1) as [_ Hn].
  pose proof (Prim2SF_valid x) as Hv.
  assert (0 < 2 ^ 1073)%Z as HP by (apply Z.pow_pos_nonneg; lia).
  assert (forall c : float, finite (Prim2SF c) ->
            SFcompare (Prim2SF c) (Prim2SF x)
            = Some (scaled (Prim2SF c) ?= scaled (Prim2SF x))%Z) as Hcmp.
  { intros c Hc. apply SFcompare_scaled; try done. apply Prim2SF_valid. }
  unfold truncate, Math_max. change (is_nan 0) with false. rewrite Hn.
  cbn [orb]. unfold byte in Hz.
  destruct (0 <? x) eqn:E0.
  - unfold Math_min. change (is_nan 255) with false. rewrite Hn. cbn [orb].
    destruct (x <? 255) eqn:E1; [by apply ToUint8Clamp_near|].
    destruct (255 <? x) eqn:E2.
    + rewrite FloatAxioms.ltb_spec in E2. unfold SFltb in E2.
      rewrite (Hcmp 255 I) in E2.
      change (scaled (Prim2SF 255)) with (510 * 2 ^ 1073)%Z in E2.
      destruct (_ ?= _)%Z eqn:E; try done.
      apply (proj1 (Z.compare_lt_iff _ _)) in E.
      assert (z = 255%Z) as -> by nia. reflexivity.
    + change (get_sign 255) with false. cbn match.
      by apply ToUint8Clamp_near.
  - assert (z = 0%Z) as ->.
    { rewrite FloatAxioms.ltb_spec in E0. unfold SFltb in E0.
      rewrite (Hcmp 0 I) in E0. change (scaled (Prim2SF 0)) with 0%Z in E0.
      destruct (_ ?= _)%Z eqn:E; try done.
      - apply Z.compare_eq in E. nia.
      - apply (proj1 (Z.compare_gt_iff _ _)) in E. nia. }
    destruct (x <? 0); [reflexivity|]. change (get_sign 0) with false.
    reflexivity.
Qed.

End NearTruncate.


Section RoundedOperations.

Local Open Scope float_scope.

Lemma add_scaled x y B :
  finite (Prim2SF x) -> finite (Prim2SF y) -> (-1074 <= B <= 971)%Z ->
  (Z.abs (scaled (Prim2SF x) + scaled (Prim2SF y)) < 2 ^ (B + 1074))%Z ->
  finite (Prim2SF (x + y))
  /\ (Z.abs (scaled (Prim2SF (x + y)) - (scaled (Prim2SF x) + scaled (Prim2SF y)))
      < slack B)%Z.
Proof. rewrite add_spec. apply SFadd_scaled; apply Prim2SF_valid. Qed.

Lemma sub_scaled x y B :
  finite (Prim2SF x) -> finite (Prim2SF y) -> (-1074 <= B <= 971)%Z ->
  (Z.abs (scaled (Prim2SF x) - scaled (Prim2SF y)) < 2 ^ (B + 1074))%Z ->
  finite (Prim2SF (x - y))
  /\ (Z.abs (scaled (Prim2SF (x - y)) - (scaled (Prim2SF x) - scaled (Prim2SF y)))
      < slack B)%Z.
Proof. rewrite sub_spec. apply SFsub_scaled; apply Prim2SF_valid. Qed.

Lemma mul_one_scaled y B :
  finite (Prim2SF y) -> (-1074 <= B <= 971)%Z ->
  (Z.abs (scaled (Prim2SF y)) < 2 ^ (B + 1074))%Z ->
  finite (Prim2SF (1 * y))
  /\ (Z.abs (scaled (Prim2SF (1 * y)) - scaled (Prim2SF y)) < slack B)%Z.
Proof.
  rewrite mul_spec. change (Prim2SF 1) with SF_one.
  apply SFmul_one_scaled. apply Prim2SF_valid.
Qed.

(** Two finite numbers compare as their values do. *)
Lemma ltb_scaled x y :
  finite (Prim2SF x) -> finite (Prim2SF y) ->
  (scaled (Prim2SF x) < scaled (Prim2SF y))%Z -> (x <? y) = true.
Proof.
  intros Hx Hy H. rewrite FloatAxioms.ltb_spec. unfold SFltb.
  rewrite SFcompare_scaled by (done || apply Prim2SF_valid).
  by apply Z.compare_lt_iff in H as ->.
Qed.

End RoundedOperations.

(** ** C4: neutral settings *)

Section Neutral.

Local Open Scope float_scope.

(** The constants of the ES-module copy at the neutral settings. *)
Definition neutral_levels : Esm.Levels := Esm.levels defaults.

Lemma Esm_levels_neutral settings :
  neutral settings -> Esm.levels settings = neutral_levels.
Proof.
  intros (Hb & Hc & Hs & Hg & Hi & Hh & Hse). unfold Esm.levels.
  rewrite Hb, Hc, Hs, Hg, Hi, Hh, Hse. reflexivity.
Qed.

(** A channel after the brightness and the contrast blocks at the neutral
    settings; they work on each channel by itself. *)
Definition after_contrast (x : float) : float :=
  truncate (((truncate (x + 0) / 255 - 0.5) * 1 + 0.5) * 255).

(** At the neutral settings the ES-module copy runs three blocks. *)
Lemma Esm_adjust_neutral r g b :
  Esm.adjust neutral_levels (r, g, b)
  = let gray := 0.2989 * after_contrast r + 0.5870 * after_contrast g
                + 0.1140 * after_contrast b in
    (truncate (gray + 1 * (after_contrast r - gray)),
     truncate (gray + 1 * (after_contrast g - gray)),
     truncate (gray + 1 * (after_contrast b - gray))).
Proof. reflexivity. Qed.

Local Open Scope Z_scope.

Definition finiteb (x : spec_float) : bool :=
  match x with
  | S754_zero _ | S754_finite _ _ _ => true
  | _ => false
  end.

Lemma finiteb_finite x : finiteb x = true -> finite x.
Proof. by destruct x. Qed.

(** A weighted channel is finite and below [k]. *)
Definition weight_below (w c : float) (k : Z) : bool :=
  finiteb (Prim2SF (w * c)) && (Z.abs (scaled (Prim2SF (w * c))) <? k * 2 ^ 1074).

(** A byte after the first two blocks is within a quarter of itself, and its
    three weighted values are of moderate size. *)
Definition after_contrast_ok (z : Z) : bool :=
  let c := after_contrast (of_int z) in
  finiteb (Prim2SF c)
  && ((4 * z - 1) * 2 ^ 1072 <? scaled (Prim2SF c))
  && (scaled (Prim2SF c) <? (4 * z + 1) * 2 ^ 1072)
  && weight_below 0.2989 c 77 && weight_below 0.5870 c 150
  && weight_below 0.1140 c 30.

Lemma after_contrast_bytes z : byte z -> after_contrast_ok z = true.
Proof. revert z. apply byte_cases. vm_compute. reflexivity. Qed.

Lemma after_contrast_quarter z :
  byte z ->
  finite (Prim2SF (after_contrast (of_int z)))
  /\ (4 * z - 1) * 2 ^ 1072 < scaled (Prim2SF (after_contrast (of_int z)))
     < (4 * z + 1) * 2 ^ 1072.
Proof.
  intros Hz. pose proof (after_contrast_bytes z Hz) as H.
  unfold after_contrast_ok in H. cbv zeta in H.
  apply andb_prop in H as [[[[[F L%Z.ltb_lt]%andb_prop U%Z.ltb_lt]%andb_prop
    _]%andb_prop _]%andb_prop _].
  by apply finiteb_finite in F.
Qed.

Lemma weight_below_spec w c k :
  weight_below w c k = true ->
  finite (Prim2SF (w * c)) /\ Z.abs (scaled (Prim2SF (w * c))) < k * 2 ^ 1074.
Proof.
  unfold weight_below. intros [F H%Z.ltb_lt]%andb_prop.
  by apply finiteb_finite in F.
Qed.

Lemma after_contrast_weights z :
  byte z ->
  weight_below 0.2989 (after_contrast (of_int z)) 77 = true
  /\ weight_below 0.5870 (after_contrast (of_int z)) 150 = true
  /\ weight_below 0.1140 (after_contrast (of_int z)) 30 = true.
Proof.
  intros Hz. pose proof (after_contrast_bytes z Hz) as H.
  unfold after_contrast_ok in H. cbv zeta in H.
  by apply andb_prop in H as [[[_ H1]%andb_prop H2]%andb_prop H3].
Qed.

Lemma slack_10 : slack 10 = 2 ^ 1033.
Proof. reflexivity. Qed.

Lemma moderate_sum (P s1 s2 s3 s12 s : Z) :
  0 < P ->
  Z.abs s1 < 77 * (2199023255552 * P) ->
  Z.abs s2 < 150 * (2199023255552 * P) ->
  Z.abs s3 < 30 * (2199023255552 * P) ->
  (Z.abs (s1 + s2) < 2251799813685248 * P -> Z.abs (s12 - (s1 + s2)) < P) ->
  (Z.abs (s12 + s3) < 2251799813685248 * P -> Z.abs (s - (s12 + s3)) < P) ->
  Z.abs (s1 + s2) < 2251799813685248 * P
  /\ Z.abs (s12 + s3) < 2251799813685248 * P
  /\ Z.abs s < 258 * (2199023255552 * P).
Proof. lia. Qed.

(** The luminance of three such channels is of moderate size. *)
Lemma neutral_gray_moderate r g b :
  byte r -> byte g -> byte b ->
  let gray := (0.2989 * after_contrast (of_int r)
               + 0.5870 * after_contrast (of_int g)
               + 0.1140 * after_contrast (of_int b))%float in
  finite (Prim2SF gray) /\ Z.abs (scaled (Prim2SF gray)) < 258 * 2 ^ 1074.
Proof.
  intros Hr Hg Hb gray.
  destruct (after_contrast_weights r Hr) as ([F1 B1]%weight_below_spec & _ & _).
  destruct (after_contrast_weights g Hg) as (_ & [F2 B2]%weight_below_spec & _).
  destruct (after_contrast_weights b Hb) as (_ & _ & [F3 B3]%weight_below_spec).
  set (t1 := (0.2989 * after_contrast (of_int r))%float) in *.
  set (t2 := (0.5870 * after_contrast (of_int g))%float) in *.
  set (t3 := (0.1140 * after_contrast (of_int b))%float) in *.
  clearbody t1 t2 t3.
  pose proof (add_scaled t1 t2 10 F1 F2 ltac:(lia)) as H12.
  assert (Z.abs (scaled (Prim2SF t1) + scaled (Prim2SF t2)) < 2 ^ (10 + 1074) ->
          finite (Prim2SF (t1 + t2))) as F12 by (intros H; by apply H12).
  pose proof (fun F => add_scaled (t1 + t2) t3 10 F F3 ltac:(lia)) as H123.
  rewrite slack_10 in H12, H123.
  change (2 ^ (10 + 1074)) with (2251799813685248 * 2 ^ 1033) in *.
  change (2 ^ 1074) with (2199023255552 * 2 ^ 1033) in *.
  assert (0 < 2 ^ 1033) as Hpos by (apply Z.pow_pos_nonneg; lia).
  destruct (moderate_sum (2 ^ 1033) (scaled (Prim2SF t1)) (scaled (Prim2SF t2))
              (scaled (Prim2SF t3)) (scaled (Prim2SF (t1 + t2)))
              (scaled (Prim2SF (t1 + t2 + t3))) Hpos B1 B2 B3)
    as (S12 & S123 & Hs).
  - intros H. by apply H12.
  - intros H. apply H123; [|done]. apply F12.
    destruct (Z_lt_le_dec (Z.abs (scaled (Prim2SF t1) + scaled (Prim2SF t2)))
                (2251799813685248 * 2 ^ 1033)); [done|]. lia.
  - split; [|done]. apply H123; [|done]. by apply F12.
Qed.

(** The saturation block at factor 1 gives back a channel that is within a
    quarter of a byte as a number near that byte, whatever the luminance of
    moderate size. *)
Lemma neutral_saturation_near z (gray c : float) :
  byte z ->
  finite (Prim2SF c) ->
  (4 * z - 1) * 2 ^ 1072 < scaled (Prim2SF c) < (4 * z + 1) * 2 ^ 1072 ->
  finite (Prim2SF gray) ->
  Z.abs (scaled (Prim2SF gray)) < 258 * 2 ^ 1074 ->
  near z (gray + 1 * (c - gray)) = true.
Proof.
  intros Hz Fc Hc Fg Hg.
  destruct (near_bounds z Hz) as (Flo & Fhi & Hlo & Hhi).
  unfold byte in Hz.
  change (2 ^ 1074) with (2199023255552 * 2 ^ 1033) in *.
  change (2 ^ 1073) with (1099511627776 * 2 ^ 1033) in *.
  change (2 ^ 1072) with (549755813888 * 2 ^ 1033) in *.
  assert (0 < 2 ^ 1033) as HP by (apply Z.pow_pos_nonneg; lia).
  assert (2 ^ (10 + 1074) = 2251799813685248 * 2 ^ 1033) as H10 by reflexivity.
  destruct (sub_scaled c gray 10) as [Fd Ed]; [done|done|lia| |].
  { rewrite H10. lia. }
  destruct (mul_one_scaled (c - gray) 10) as [Fm Em]; [done|lia| |].
  { rewrite H10, slack_10 in *. lia. }
  destruct (add_scaled gray (1 * (c - gray)) 10) as [Fr Er]; [done|done|lia| |].
  { rewrite H10, slack_10 in *. lia. }
  rewrite slack_10 in *.
  unfold near. apply andb_true_intro. split; apply ltb_scaled; try done.
  - rewrite Hlo. lia.
  - rewrite Hhi. lia.
Qed.

(** At the neutral settings the ES-module copy stores every pixel of bytes
    back as it was. *)
Lemma Esm_neutral_bytes (r g b : Z) (c : nat) :
  byte r -> byte g -> byte b -> (c < 3)%nat ->
  ToUint8Clamp (channel c (Esm.adjust neutral_levels (of_int r, of_int g, of_int b)))
  = match c with O => r | S O => g | _ => b end.
Proof.
  intros Hr Hg Hb Hc.
  destruct (neutral_gray_moderate r g b Hr Hg Hb) as [Fg Hgray].
  pose proof (after_contrast_bytes r Hr) as Tr.
  pose proof (after_contrast_bytes g Hg) as Tg.
  pose proof (after_contrast_bytes b Hb) as Tb.
  unfold after_contrast_ok in Tr, Tg, Tb. cbv zeta in Tr, Tg, Tb.
  apply andb_prop in Tr as [[[[[Fr Lr%Z.ltb_lt]%andb_prop Ur%Z.ltb_lt]%andb_prop
    _]%andb_prop _]%andb_prop _].
  apply andb_prop in Tg as [[[[[Fg' Lg%Z.ltb_lt]%andb_prop Ug%Z.ltb_lt]%andb_prop
    _]%andb_prop _]%andb_prop _].
  apply andb_prop in Tb as [[[[[Fb Lb%Z.ltb_lt]%andb_prop Ub%Z.ltb_lt]%andb_prop
    _]%andb_prop _]%andb_prop _].
  apply finiteb_finite in Fr, Fg', Fb.
  rewrite Esm_adjust_neutral. cbv zeta.
  destruct c as [|[|[|?]]]; try lia; cbn [channel fst snd];
    apply ToUint8Clamp_truncate_near; try done;
    by apply neutral_saturation_near.
Qed.

End Neutral.

(** C4.  For every buffer of whole pixels, the adjustment stage with every factor
    at its neutral value (brightness 100, contrast 100, saturation 100, grayscale
    0, invert 0, hue 0, sepia 0) leaves the buffer as it was, byte for byte, in
    both copies: [public/conv2ascii.js] skips every block; the ES-module copy runs
    its brightness, contrast and saturation blocks, whose rounding errors vanish
    when the result is stored. *)
Theorem neutral_settings_change_nothing (pixels : list Z) (settings : Settings.t) :
  neutral settings ->
  Forall byte pixels ->
  (length pixels mod 4 = 0)%nat ->
  Public.applyImageAdjustments pixels settings = pixels
  /\ Esm.applyImageAdjustments pixels settings = pixels.
Proof.
  intros Hn Hb Hlen. split.
  - apply adjusted_fixed; try done.
    intros r g b c Hr Hg Hbb Hc. rewrite Public_adjust_neutral by done.
    destruct c as [|[|[|?]]]; try lia; cbn [channel fst snd];
      by apply ToUint8Clamp_of_int.
  - unfold Esm.applyImageAdjustments. rewrite (Esm_levels_neutral _ Hn).
    apply adjusted_fixed; try done.
    intros r g b c. apply Esm_neutral_bytes.
Qed.

Lemma neutral_defaults : neutral defaults.
Proof. repeat split. Qed.

Lemma neutral_settings_change_nothing_witness :
  Public.applyImageAdjustments [12; 200; 77; 255; 0; 255; 128; 3] defaults
    = [12; 200; 77; 255; 0; 255; 128; 3]
  /\ Esm.applyImageAdjustments [12; 200; 77; 255; 0; 255; 128; 3] defaults
    = [12; 200; 77; 255; 0; 255; 128; 3].
Proof.
  apply (neutral_settings_change_nothing [12; 200; 77; 255; 0; 255; 128; 3] defaults
           neutral_defaults).
  - repeat constructor; unfold byte; lia.
  - reflexivity.
Defined.

(** * Further properties of the converter *)

(** Two functions of a byte that agree, as numbers, on the 256 bytes. *)
Lemma byte_cases_eq (f g : Z -> float) :
  forallb (fun z => PrimFloat.Leibniz.eqb (f z) (g z)) (seqZ 0 256) = true ->
  forall z, byte z -> f z = g z.
Proof.
  intros H z Hz. apply FloatAxioms.Leibniz.eqb_spec.
  by apply (byte_cases (fun z => PrimFloat.Leibniz.eqb (f z) (g z))).
Qed.

(** ** [truncate] *)

(** The ways [truncate] ends. *)
Lemma truncate_cases v :
  (truncate v = nan /\ is_nan v = true)
  \/ (is_nan v = false
      /\ (truncate v = 0%float \/ truncate v = 255%float \/ truncate v = v)).
Proof.
  unfold truncate, Math_max. change (is_nan 0) with false. cbn [orb].
  destruct (is_nan v) eqn:Hn; [left; done|right; split; [done|]].
  assert (forall x, is_nan x = false ->
            Math_min 255 x = 255%float \/ Math_min 255 x = x) as Hmin.
  { intros x Hx. unfold Math_min. change (is_nan 255) with false. rewrite Hx.
    cbn [orb]. destruct (x <? 255)%float; [auto|]. destruct (255 <? x)%float; [auto|].
    change (get_sign 255) with false. auto. }
  destruct (0 <? v)%float; [destruct (Hmin v Hn) as [->| ->]; auto|].
  destruct (v <? 0)%float; [left; reflexivity|].
  change (get_sign 0) with false. left. reflexivity.
Qed.

(** X1.  [truncate] is idempotent: clamping a clamped number changes nothing.  Its
    result is NaN exactly when its argument is, and every byte, read as a
    number, is left as it is. *)
Theorem truncate_idempotent (v : float) :
  truncate (truncate v) = truncate v
  /\ is_nan (truncate v) = is_nan v
  /\ (forall z, byte z -> truncate (of_int z) = of_int z).
Proof.
  split; [|split].
  - destruct (truncate_cases v) as [[E _]|[_ [E|[E|E]]]]; rewrite E;
      try reflexivity; try exact E.
  - destruct (truncate_cases v) as [[E Hn]|[Hn [E|[E|E]]]]; rewrite E, ?Hn;
      try reflexivity; try exact Hn.
  - apply (byte_cases_eq (fun z => truncate (of_int z)) of_int).
    vm_compute. reflexivity.
Qed.

(** ** Adjustments that act on each channel by itself *)

(** The seven factors of the adjustment stage. *)
Definition factors (settings : Settings.t)
  : float * float * float * float * float * float * float :=
  (Settings.brightness settings, Settings.contrast settings,
   Settings.saturation settings, Settings.grayscale settings,
   Settings.invert settings, Settings.hue settings, Settings.sepia settings).

(** The buffer in which every colour byte went through [c]; the fourth byte of
    every pixel stays. *)
Definition map_channels (c : Z -> Z) (pixels : list Z) : list Z :=
  imap (fun j z => if (j mod 4 =? 3)%nat then z else c z) pixels.

Lemma map_channels_length c pixels : length (map_channels c pixels) = length pixels.
Proof. apply length_imap. Qed.

Lemma map_channels_twice c pixels :
  (forall z, c (c z) = z) ->
  map_channels c (map_channels c pixels) = pixels.
Proof.
  intros Hc. apply list_eq. intros j. unfold map_channels.
  rewrite !list_lookup_imap. destruct (pixels !! j) as [z|]; [|done].
  cbn [fmap option_fmap option_map]. destruct (_ =? _)%nat; [done|].
  by rewrite Hc.
Qed.

Lemma map_channels_bytes c pixels :
  (forall z, byte z -> byte (c z)) ->
  Forall byte pixels -> Forall byte (map_channels c pixels).
Proof.
  intros Hc Hb. apply Forall_lookup. intros j z. unfold map_channels.
  rewrite list_lookup_imap. destruct (pixels !! j) as [y|] eqn:E; [|done].
  cbn [fmap option_fmap option_map]. intros [= <-].
  pose proof (Forall_lookup_1 _ _ _ _ Hb E). destruct (_ =? _)%nat; auto.
Qed.

(** A loop body that sends every pixel of bytes, up to the store, to the three
    values of [c] sends a buffer of whole pixels to [map_channels c]. *)
Lemma adjusted_channels (f : rgb -> rgb) (c : Z -> Z) pixels :
  Forall byte pixels ->
  (length pixels mod 4 = 0)%nat ->
  (forall r g b k, byte r -> byte g -> byte b -> (k < 3)%nat ->
     ToUint8Clamp (channel k (f (of_int r, of_int g, of_int b)))
     = c (match k with O => r | S O => g | _ => b end)) ->
  pixel_loop f (rounds pixels) 0 pixels = map_channels c pixels.
Proof.
  intros Hb Hlen Hf. apply list_eq. intros j. unfold map_channels.
  rewrite adjusted_lookup, list_lookup_imap.
  destruct (pixels !! j) as [z|] eqn:Hz; [|by case_decide].
  cbn [fmap option_fmap option_map].
  pose proof (lookup_lt_Some _ _ _ Hz) as Hj.
  pose proof (Nat.mod_upper_bound j 4 ltac:(lia)) as Hm.
  pose proof (Nat.Div0.div_mod j 4) as Hd.
  pose proof (Nat.Div0.div_mod (length pixels) 4) as Hl.
  destruct (Nat.eqb_spec (j mod 4) 3) as [E3|E3]; case_decide; try lia; [done|].
  f_equal.
  set (base := (j - j mod 4)%nat) in *.
  assert (base + 3 < length pixels)%nat as Hbase by (unfold base; lia).
  destruct (lookup_lt_is_Some_2 pixels base) as [r Hr]; [lia|].
  destruct (lookup_lt_is_Some_2 pixels (base + 1)) as [g Hg]; [lia|].
  destruct (lookup_lt_is_Some_2 pixels (base + 2)) as [b Hbl]; [lia|].
  unfold pixel_at. rewrite Hr, Hg, Hbl. cbn [to_number].
  pose proof (Forall_lookup_1 _ _ _ _ Hb Hr).
  pose proof (Forall_lookup_1 _ _ _ _ Hb Hg).
  pose proof (Forall_lookup_1 _ _ _ _ Hb Hbl).
  rewrite Hf by (done || lia). f_equal.
  assert (j = base + j mod 4)%nat as Hjj by (unfold base; lia).
  destruct (j mod 4)%nat as [|[|[|?]]] eqn:E; try lia.
  - rewrite Nat.add_0_r in Hjj. congruence.
  - congruence.
  - congruence.
Qed.

(** What [public/conv2ascii.js] does to a pixel when only [invert] is not
    neutral: one block runs. *)
Lemma Public_adjust_invert settings contrastFactor r g b :
  factors settings = (100, 100, 100, 0, 100, 0, 0)%float ->
  Public.adjust settings contrastFactor (r, g, b)
  = (truncate (r * (1 - 100 / 100) + (255 - r) * (100 / 100))%float,
     truncate (g * (1 - 100 / 100) + (255 - g) * (100 / 100))%float,
     truncate (b * (1 - 100 / 100) + (255 - b) * (100 / 100))%float).
Proof.
  intros [= Hb Hc Hs Hg Hi Hh Hse].
  unfold Public.adjust, Public.apply_brightness, Public.apply_contrast,
    Public.apply_saturation, Public.apply_grayscale, Public.apply_invert,
    Public.apply_sepia, Public.apply_hue.
  rewrite Hb, Hc, Hs, Hg, Hi, Hh, Hse. reflexivity.
Qed.

Lemma Public_invert_byte z :
  byte z ->
  ToUint8Clamp (truncate (of_int z * (1 - 100 / 100)
                          + (255 - of_int z) * (100 / 100))%float) = 255 - z.
Proof.
  intros Hz. apply Z.eqb_eq. revert z Hz.
  apply (byte_cases (fun z => ToUint8Clamp (truncate (of_int z * (1 - 100 / 100)
                          + (255 - of_int z) * (100 / 100))%float) =? 255 - z)).
  vm_compute. reflexivity.
Qed.

(** ** The ES-module copy after its first three blocks *)

Section AfterSaturation.

Local Open Scope float_scope.

(** How [truncate] ends on a number that is not NaN. *)
Lemma truncate_bounds v :
  is_nan v = false ->
  (truncate v = 0 /\ (0 <? v) = false)
  \/ (truncate v = 255 /\ (255 <? v) = true)
  \/ (truncate v = v /\ (0 <? v) = true /\ (255 <? v) = false).
Proof.
  intros Hn. unfold truncate, Math_max. change (is_nan 0) with false.
  rewrite Hn. cbn [orb].
  destruct (0 <? v) eqn:E0.
  - unfold Math_min. change (is_nan 255) with false. rewrite Hn. cbn [orb].
    destruct (v <? 255) eqn:E1.
    + right. right. repeat split; try done.
      destruct (255 <? v) eqn:E2; [|done].
      rewrite FloatAxioms.ltb_spec in E1, E2. unfold SFltb in E1, E2.
      destruct (SFcompare (Prim2SF v) (Prim2SF 255)) as [[]|] eqn:C1; try done.
      rewrite SFcompare_antisym, C1 in E2. done.
    + destruct (255 <? v) eqn:E2; [auto|].
      change (get_sign 255) with false. auto.
  - destruct (v <? 0); [left; split; reflexivity || done|].
    change (get_sign 0) with false. left. split; reflexivity || done.
Qed.

(** The three channels after the brightness, contrast and saturation blocks at
    the neutral levels. *)
Definition after_saturation (r g b : float) : rgb :=
  let gray := 0.2989 * after_contrast r + 0.5870 * after_contrast g
              + 0.1140 * after_contrast b in
  (truncate (gray + 1 * (after_contrast r - gray)),
   truncate (gray + 1 * (after_contrast g - gray)),
   truncate (gray + 1 * (after_contrast b - gray))).

Local Open Scope Z_scope.

(** A number that is finite, not below zero, and within a quarter (and a little)
    of the byte [z]. *)
Definition close_to (z : Z) (x : float) : Prop :=
  match Prim2SF x with
  | S754_zero false => z = 0
  | S754_finite false _ _ =>
      (4 * z - 1) * 2 ^ 1072 - 3 * 2 ^ 1033 < scaled (Prim2SF x)
      < (4 * z + 1) * 2 ^ 1072 + 3 * 2 ^ 1033
  | _ => False
  end.

(** Finite with the sign bit clear: +0 or a finite number above zero. *)
Definition plus_finite (x : spec_float) : Prop :=
  match x with
  | S754_zero false | S754_finite false _ _ => True
  | _ => False
  end.

Lemma close_to_spec z x :
  close_to z x ->
  finite (Prim2SF x) /\ plus_finite (Prim2SF x)
  /\ (4 * z - 1) * 2 ^ 1072 - 3 * 2 ^ 1033 < scaled (Prim2SF x)
     < (4 * z + 1) * 2 ^ 1072 + 3 * 2 ^ 1033.
Proof.
  unfold close_to. destruct (Prim2SF x) as [[]|[]| |[] m e]; try done.
  intros ->. cbn. split; [done|]. split; [done|].
  change (2 ^ 1072) with (549755813888 * 2 ^ 1033).
  assert (0 < 2 ^ 1033) by (apply Z.pow_pos_nonneg; lia). lia.
Qed.

Lemma saturation_close z (gray c : float) :
  byte z ->
  finite (Prim2SF c) ->
  (4 * z - 1) * 2 ^ 1072 < scaled (Prim2SF c) < (4 * z + 1) * 2 ^ 1072 ->
  finite (Prim2SF gray) ->
  Z.abs (scaled (Prim2SF gray)) < 258 * 2 ^ 1074 ->
  close_to z (truncate (gray + 1 * (c - gray))).
Proof.
  intros Hz Fc Hc Fg Hg.
  pose proof (neutral_saturation_near z gray c Hz Fc Hc Fg Hg) as Hnear.
  set (y := (gray + 1 * (c - gray))%float) in *.
  assert (finite (Prim2SF y)
          /\ (4 * z - 1) * 2 ^ 1072 - 3 * 2 ^ 1033 < scaled (Prim2SF y)
             < (4 * z + 1) * 2 ^ 1072 + 3 * 2 ^ 1033) as [Fy Hy].
  { unfold y, byte in *.
    change (2 ^ 1074) with (2199023255552 * 2 ^ 1033) in *.
    change (2 ^ 1072) with (549755813888 * 2 ^ 1033) in *.
    assert (0 < 2 ^ 1033) as HP by (apply Z.pow_pos_nonneg; lia).
    assert (2 ^ (10 + 1074) = 2251799813685248 * 2 ^ 1033) as H10 by reflexivity.
    destruct (sub_scaled c gray 10) as [Fd Ed]; [done|done|lia| |].
    { rewrite H10. lia. }
    destruct (mul_one_scaled (c - gray) 10) as [Fm Em]; [done|lia| |].
    { rewrite H10, slack_10 in *. lia. }
    destruct (add_scaled gray (1 * (c - gray)) 10) as [Fr Er];
      [done|done|lia| |].
    { rewrite H10, slack_10 in *. lia. }
    rewrite slack_10 in *. split; [done|]. lia. }
  clearbody y.
  assert (is_nan y = false) as Hn.
  { unfold near in Hnear. apply andb_prop in Hnear as [H1 _].
    by destruct (ltb_is_nan _ _ H1). }
  pose proof (Prim2SF_valid y) as Vy.
  assert (0 < 2 ^ 1033) as HP by (apply Z.pow_pos_nonneg; lia).
  unfold byte in Hz.
  destruct (truncate_bounds y Hn) as [[-> H0]|[[-> H255]|[-> [H0 H255]]]].
  - unfold close_to. cbn.
    rewrite FloatAxioms.ltb_spec in H0. unfold SFltb in H0.
    rewrite (SFcompare_scaled (Prim2SF 0) (Prim2SF y)) in H0 by done.
    change (scaled (Prim2SF 0)) with 0 in H0.
    destruct (0 ?= scaled (Prim2SF y)) eqn:E; try done.
    + apply Z.compare_eq in E.
      change (2 ^ 1072) with (549755813888 * 2 ^ 1033) in *. lia.
    + apply (proj1 (Z.compare_gt_iff _ _)) in E.
      change (2 ^ 1072) with (549755813888 * 2 ^ 1033) in *. lia.
  - unfold close_to. change (Prim2SF 255) with (S754_finite false 8972014882652160 (-45)).
    cbv iota.
    rewrite FloatAxioms.ltb_spec in H255. unfold SFltb in H255.
    rewrite (SFcompare_scaled (Prim2SF 255) (Prim2SF y)) in H255 by done.
    destruct (scaled (Prim2SF 255) ?= scaled (Prim2SF y)) eqn:E; try done.
    apply (proj1 (Z.compare_lt_iff _ _)) in E.
    change (scaled (Prim2SF 255)) with (560750930165760 * 2 ^ 1033) in E.
    change (scaled (S754_finite false 8972014882652160 (-45)))
      with (560750930165760 * 2 ^ 1033).
    change (2 ^ 1072) with (549755813888 * 2 ^ 1033) in *. lia.
  - unfold close_to.
    rewrite FloatAxioms.ltb_spec in H0. unfold SFltb in H0.
    rewrite (SFcompare_scaled (Prim2SF 0) (Prim2SF y)) in H0 by done.
    change (scaled (Prim2SF 0)) with 0 in H0.
    destruct (0 ?= scaled (Prim2SF y)) eqn:E; try done.
    apply (proj1 (Z.compare_lt_iff _ _)) in E.
    destruct (Prim2SF y) as [s|s| |s m e]; try done.
    destruct s; [|done]. apply valid_finite in Vy as (He & _).
    pose proof (scaled_sign true m e He) as Hs. cbv beta iota in Hs.
    cbn [scaled] in E. lia.
Qed.

(** After the first three blocks at the neutral levels, every channel of a pixel
    of bytes is close to the byte it was. *)
Lemma after_saturation_close r g b :
  byte r -> byte g -> byte b ->
  close_to r (after_saturation (of_int r) (of_int g) (of_int b)).1.1
  /\ close_to g (after_saturation (of_int r) (of_int g) (of_int b)).1.2
  /\ close_to b (after_saturation (of_int r) (of_int g) (of_int b)).2.
Proof.
  intros Hr Hg Hb.
  destruct (neutral_gray_moderate r g b Hr Hg Hb) as [Fgray Hgray].
  destruct (after_contrast_quarter r Hr) as [Fr Br].
  destruct (after_contrast_quarter g Hg) as [Fg Bg].
  destruct (after_contrast_quarter b Hb) as [Fb Bb].
  unfold after_saturation. cbv zeta. cbn [fst snd].
  repeat split; by apply saturation_close.
Qed.

End AfterSaturation.

Section EsmBlocks.

Lemma SFmul_one_r_scaled y B :
  valid_binary y = true -> finite y -> -1074 <= B <= 971 ->
  Z.abs (scaled y) < 2 ^ (B + 1074) ->
  finite (SF64mul y SF_one)
  /\ Z.abs (scaled (SF64mul y SF_one) - scaled y) < slack B.
Proof.
  intros Hy Fy HB Hs.
  assert (0 < slack B) as Hpos.
  { apply Z.pow_pos_nonneg; [lia|]. rewrite fexp_bounds. lia. }
  destruct y as [sy|sy| |sy my ey]; try done.
  apply valid_finite in Hy as (Hey & _).
  cbv [SF64mul SFmul SF_one]. rewrite xorb_false_r.
  assert (0 < 2 ^ (ey + 1074)) by (apply Z.pow_pos_nonneg; lia).
  assert (Z.abs (scaled (S754_finite sy my ey)) = Z.pos my * 2 ^ (ey + 1074))
    as Habs.
  { cbn [scaled]. destruct sy; cbn [signed];
      rewrite <- ?Pos2Z.opp_pos, ?Z.mul_opp_l; lia. }
  rewrite Habs in Hs.
  assert (forall s : bool,
            signed s (my * 4503599627370496) * 2 ^ (ey + -52 + 1074 + 52)
            = scaled (S754_finite s my ey) * 2 ^ 52) as Hval.
  { intros s. cbn [scaled].
    replace (ey + -52 + 1074 + 52) with (ey + 1074) by lia.
    destruct s; cbn [signed]; rewrite <- ?Pos2Z.opp_pos, ?Z.mul_opp_l;
      rewrite Pos2Z.inj_mul; change (Z.pos 4503599627370496) with (2 ^ 52);
      lia. }
  destruct (binary_round_aux_scaled sy (my * 4503599627370496) (ey + -52) 52 B)
    as [Hf Hb]; try lia.
  { rewrite (Z.pow_add_r 2 (B + 1074) 52) by lia. pose proof (Hval false) as Hv.
    cbn [signed scaled] in Hv. rewrite Hv.
    apply Z.mul_lt_mono_pos_r; [done|]. done. }
  split; [done|]. rewrite Hval in Hb. rewrite <- Z.mul_sub_distr_r in Hb.
  rewrite Z.abs_mul, (Z.abs_eq (2 ^ 52)) in Hb by done.
  apply (Z.mul_lt_mono_pos_r (2 ^ 52)); done.
Qed.

Local Open Scope float_scope.

Lemma mul_one_r_scaled y B :
  finite (Prim2SF y) -> (-1074 <= B <= 971)%Z ->
  (Z.abs (scaled (Prim2SF y)) < 2 ^ (B + 1074))%Z ->
  finite (Prim2SF (y * 1))
  /\ (Z.abs (scaled (Prim2SF (y * 1)) - scaled (Prim2SF y)) < slack B)%Z.
Proof.
  rewrite mul_spec. change (Prim2SF 1) with SF_one.
  apply SFmul_one_r_scaled. apply Prim2SF_valid.
Qed.

(** A finite number with the sign bit clear, times zero, is zero. *)
Lemma mul_zero_r x : plus_finite (Prim2SF x) -> x * 0 = 0.
Proof.
  intros Nx. apply Prim2SF_inj. rewrite mul_spec.
  change (Prim2SF 0) with (S754_zero false).
  by destruct (Prim2SF x) as [[]|[]| |[] m e].
Qed.

(** Zero plus a finite number has the value of that number. *)
Lemma add_zero_l x :
  finite (Prim2SF x) ->
  finite (Prim2SF (0 + x)) /\ scaled (Prim2SF (0 + x)) = scaled (Prim2SF x).
Proof.
  rewrite add_spec. change (Prim2SF 0) with (S754_zero false).
  destruct (Prim2SF x) as [[]|[]| |[] m e]; intros Fx; try done.
Qed.

Local Open Scope Z_scope.

(** The invert block at level 1 on a channel close to [z]. *)
Lemma invert_close z x :
  byte z -> close_to z x ->
  near (255 - z) (x * (1 - 1) + (255 - x) * 1)%float = true.
Proof.
  intros Hz (Fx & Nx & Hx)%close_to_spec.
  change (1 - 1)%float with 0%float. rewrite mul_zero_r by done.
  assert (byte (255 - z)) as Hz' by (unfold byte in *; lia).
  destruct (near_bounds (255 - z) Hz') as (Flo & Fhi & Hlo & Hhi).
  unfold byte in Hz.
  assert (0 < 2 ^ 1033) as HP by (apply Z.pow_pos_nonneg; lia).
  assert (2 ^ (10 + 1074) = 2251799813685248 * 2 ^ 1033) as H10 by reflexivity.
  assert (scaled (Prim2SF 255) = 560750930165760 * 2 ^ 1033) as H255
    by reflexivity.
  change (2 ^ 1073) with (1099511627776 * 2 ^ 1033) in *.
  change (2 ^ 1072) with (549755813888 * 2 ^ 1033) in *.
  destruct (sub_scaled 255 x 10) as [Fd Ed]; [done|done|lia| |].
  { rewrite H10, H255. lia. }
  rewrite slack_10, H255 in Ed.
  destruct (mul_one_r_scaled (255 - x) 10) as [Fm Em]; [done|lia| |].
  { rewrite H10. lia. }
  rewrite slack_10 in Em.
  destruct (add_zero_l ((255 - x) * 1)%float Fm) as [Fr Er].
  unfold near. apply andb_true_intro. split.
  - apply ltb_scaled; [exact Flo|exact Fr|]. rewrite Hlo, Er. lia.
  - apply ltb_scaled; [exact Fr|exact Fhi|]. rewrite Hhi, Er. lia.
Qed.

(** The levels of the ES-module copy when only [invert] is not neutral. *)
Definition invert_levels : Esm.Levels :=
  {| Esm.brightness := 0; Esm.contrast := 1; Esm.saturation := 1;
     Esm.grayscaleLevel := 0; Esm.invertLevel := 1; Esm.hueRotation := 0;
     Esm.sepiaLevel := 0 |}.

Lemma Esm_levels_invert settings :
  factors settings = (100, 100, 100, 0, 100, 0, 0)%float ->
  Esm.levels settings = invert_levels.
Proof.
  intros [= Hb Hc Hs Hg Hi Hh Hse]. unfold Esm.levels.
  rewrite Hb, Hc, Hs, Hg, Hi, Hh, Hse. reflexivity.
Qed.

Lemma Esm_adjust_invert r g b :
  Esm.adjust invert_levels (r, g, b)
  = (truncate ((after_saturation r g b).1.1 * (1 - 1)
               + (255 - (after_saturation r g b).1.1) * 1)%float,
     truncate ((after_saturation r g b).1.2 * (1 - 1)
               + (255 - (after_saturation r g b).1.2) * 1)%float,
     truncate ((after_saturation r g b).2 * (1 - 1)
               + (255 - (after_saturation r g b).2) * 1)%float).
Proof. reflexivity. Qed.

Lemma Esm_invert_bytes (r g b : Z) (k : nat) :
  byte r -> byte g -> byte b -> (k < 3)%nat ->
  ToUint8Clamp (channel k (Esm.adjust invert_levels (of_int r, of_int g, of_int b)))
  = 255 - match k with O => r | S O => g | _ => b end.
Proof.
  intros Hr Hg Hb Hk.
  destruct (after_saturation_close r g b Hr Hg Hb) as (Cr & Cg & Cb).
  rewrite Esm_adjust_invert.
  destruct k as [|[|[|?]]]; try lia; cbn [channel fst snd];
    (apply ToUint8Clamp_truncate_near; [unfold byte in *; lia|]);
    by apply invert_close.
Qed.

End EsmBlocks.

(** ** Pixels of bytes *)

(** A buffer of whole pixels of bytes, pixel by pixel: the loop stores at the three
    colour bytes of pixel [k] the channels its body computes from that pixel. *)
Lemma adjusted_pixel (f : rgb -> rgb) pixels (k : nat) :
  Forall byte pixels ->
  (length pixels mod 4 = 0)%nat ->
  (4 * k < length pixels)%nat ->
  exists r g b,
    byte r /\ byte g /\ byte b
    /\ pixels !! (4 * k)%nat = Some r
    /\ pixels !! (4 * k + 1)%nat = Some g
    /\ pixels !! (4 * k + 2)%nat = Some b
    /\ forall c, (c < 3)%nat ->
         pixel_loop f (rounds pixels) 0 pixels !! (4 * k + c)%nat
         = Some (ToUint8Clamp (channel c (f (of_int r, of_int g, of_int b)))).
Proof.
  intros Hb Hlen Hk.
  pose proof (Nat.Div0.div_mod (length pixels) 4) as Hl.
  destruct (lookup_lt_is_Some_2 pixels (4 * k)) as [r Hr]; [lia|].
  destruct (lookup_lt_is_Some_2 pixels (4 * k + 1)) as [g Hg]; [lia|].
  destruct (lookup_lt_is_Some_2 pixels (4 * k + 2)) as [b Hbl]; [lia|].
  exists r, g, b.
  pose proof (Forall_lookup_1 _ _ _ _ Hb Hr).
  pose proof (Forall_lookup_1 _ _ _ _ Hb Hg).
  pose proof (Forall_lookup_1 _ _ _ _ Hb Hbl).
  repeat (split; [done|]). intros c Hc.
  rewrite adjusted_lookup.
  assert ((4 * k + c) mod 4 = c)%nat as Hm.
  { replace (4 * k + c)%nat with (c + k * 4)%nat by lia.
    rewrite Nat.Div0.mod_add. apply Nat.mod_small. lia. }
  rewrite Hm. replace (4 * k + c - c)%nat with (4 * k)%nat by lia.
  case_decide; [|lia].
  assert (exists z, pixels !! (4 * k + c)%nat = Some z) as [z ->].
  { apply lookup_lt_is_Some_2. lia. }
  cbn [fmap option_fmap option_map]. unfold pixel_at.
  by rewrite Hr, Hg, Hbl.
Qed.

Lemma of_int_byte_plus z : byte z -> plus_finite (Prim2SF (of_int z)).
Proof.
  intros Hz.
  assert ((fun z => match Prim2SF (of_int z) with
                    | S754_zero false | S754_finite false _ _ => true
                    | _ => false
                    end) z = true) as H.
  { revert z Hz. apply byte_cases. vm_compute. reflexivity. }
  cbv beta in H. unfold plus_finite.
  by destruct (Prim2SF (of_int z)) as [[]|[]| |[] m e].
Qed.

(** ** Grayscale at 100 *)

Lemma Public_adjust_grayscale settings contrastFactor r g b :
  factors settings = (100, 100, 100, 100, 0, 0, 0)%float ->
  Public.adjust settings contrastFactor (r, g, b)
  = let gray := (0.2989 * r + 0.5870 * g + 0.1140 * b)%float in
    (truncate (r * 0 + gray * 1)%float, truncate (g * 0 + gray * 1)%float,
     truncate (b * 0 + gray * 1)%float).
Proof.
  intros [= Hb Hc Hs Hg Hi Hh Hse].
  unfold Public.adjust, Public.apply_brightness, Public.apply_contrast,
    Public.apply_saturation, Public.apply_grayscale, Public.apply_invert,
    Public.apply_sepia, Public.apply_hue.
  rewrite Hb, Hc, Hs, Hg, Hi, Hh, Hse. reflexivity.
Qed.

Definition grayscale_levels : Esm.Levels :=
  {| Esm.brightness := 0; Esm.contrast := 1; Esm.saturation := 1;
     Esm.grayscaleLevel := 1; Esm.invertLevel := 0; Esm.hueRotation := 0;
     Esm.sepiaLevel := 0 |}.

Lemma Esm_levels_grayscale settings :
  factors settings = (100, 100, 100, 100, 0, 0, 0)%float ->
  Esm.levels settings = grayscale_levels.
Proof.
  intros [= Hb Hc Hs Hg Hi Hh Hse]. unfold Esm.levels.
  rewrite Hb, Hc, Hs, Hg, Hi, Hh, Hse. reflexivity.
Qed.

Lemma Esm_adjust_grayscale r g b :
  Esm.adjust grayscale_levels (r, g, b)
  = let '(x, y, z) := after_saturation r g b in
    let grayPixel := (0.2989 * x + 0.5870 * y + 0.1140 * z)%float in
    (truncate (x * 0 + grayPixel * 1)%float,
     truncate (y * 0 + grayPixel * 1)%float,
     truncate (z * 0 + grayPixel * 1)%float).
Proof. reflexivity. Qed.

(** With grayscale at 100 the three channels of a pixel of bytes come out as one
    and the same number, in both copies. *)
Lemma grayscale_channels_equal settings cf r g b :
  factors settings = (100, 100, 100, 100, 0, 0, 0)%float ->
  byte r -> byte g -> byte b ->
  (exists v, Public.adjust settings cf (of_int r, of_int g, of_int b) = (v, v, v))
  /\ (exists v, Esm.adjust (Esm.levels settings) (of_int r, of_int g, of_int b)
                = (v, v, v)).
Proof.
  intros Hf Hr Hg Hb. split.
  - rewrite Public_adjust_grayscale by done. cbv zeta.
    rewrite !mul_zero_r by (by apply of_int_byte_plus). eauto.
  - rewrite (Esm_levels_grayscale _ Hf), Esm_adjust_grayscale.
    destruct (after_saturation_close r g b Hr Hg Hb)
      as ((_ & Px & _)%close_to_spec & (_ & Py & _)%close_to_spec
          & (_ & Pz & _)%close_to_spec).
    destruct (after_saturation (of_int r) (of_int g) (of_int b)) as [[x y] z].
    cbn [fst snd] in Px, Py, Pz. cbv zeta.
    rewrite !mul_zero_r by done. eauto.
Qed.

(** X2.  With grayscale at 100 and the six other factors neutral, every pixel of
    the result has the same byte in R, G and B, in both copies, for every buffer
    of whole pixels of bytes. *)
Theorem grayscale_100_makes_every_pixel_gray
    (pixels : list Z) (settings : Settings.t) (k : nat) :
  factors settings = (100, 100, 100, 100, 0, 0, 0)%float ->
  Forall byte pixels ->
  (length pixels mod 4 = 0)%nat ->
  (4 * k < length pixels)%nat ->
  (exists v, Public.applyImageAdjustments pixels settings !! (4 * k)%nat = Some v
     /\ Public.applyImageAdjustments pixels settings !! (4 * k + 1)%nat = Some v
     /\ Public.applyImageAdjustments pixels settings !! (4 * k + 2)%nat = Some v)
  /\ (exists v, Esm.applyImageAdjustments pixels settings !! (4 * k)%nat = Some v
     /\ Esm.applyImageAdjustments pixels settings !! (4 * k + 1)%nat = Some v
     /\ Esm.applyImageAdjustments pixels settings !! (4 * k + 2)%nat = Some v).
Proof.
  intros Hf Hb Hlen Hk. split.
  - destruct (adjusted_pixel
                (Public.adjust settings (Public.contrastFactor settings))
                pixels k Hb Hlen Hk)
      as (r & g & b & Hr & Hg & Hbb & _ & _ & _ & Hout).
    destruct (grayscale_channels_equal settings (Public.contrastFactor settings)
                r g b Hf Hr Hg Hbb) as [[v Hv] _].
    exists (ToUint8Clamp v). unfold Public.applyImageAdjustments.
    pose proof (Hout 0%nat ltac:(lia)) as H0.
    rewrite Nat.add_0_r in H0.
    rewrite H0, (Hout 1%nat), (Hout 2%nat), Hv by lia. done.
  - destruct (adjusted_pixel (Esm.adjust (Esm.levels settings))
                pixels k Hb Hlen Hk)
      as (r & g & b & Hr & Hg & Hbb & _ & _ & _ & Hout).
    destruct (grayscale_channels_equal settings 0%float r g b Hf Hr Hg Hbb)
      as [_ [v Hv]].
    exists (ToUint8Clamp v). unfold Esm.applyImageAdjustments.
    pose proof (Hout 0%nat ltac:(lia)) as H0.
    rewrite Nat.add_0_r in H0.
    rewrite H0, (Hout 1%nat), (Hout 2%nat), Hv by lia. done.
Qed.

Definition grayscale_only : Settings.t :=
  {| Settings.width := 100; Settings.height := 0; Settings.brightness := 100;
     Settings.contrast := 100; Settings.saturation := 100;
     Settings.grayscale := 100; Settings.invert := 0; Settings.hue := 0;
     Settings.sepia := 0; Settings.colorized := false;
     Settings.charSet := Ramp CHAR_SETS_standard; Settings.customChars := [];
     Settings.stretchWidth := 100; Settings.stretchHeight := 100;
     Settings.charSetType := None |}.

Lemma grayscale_100_makes_every_pixel_gray_witness :
  (exists v,
     Public.applyImageAdjustments [200; 30; 90; 255] grayscale_only !! (4 * 0)%nat
       = Some v
     /\ Public.applyImageAdjustments [200; 30; 90; 255] grayscale_only
          !! (4 * 0 + 1)%nat = Some v
     /\ Public.applyImageAdjustments [200; 30; 90; 255] grayscale_only
          !! (4 * 0 + 2)%nat = Some v)
  /\ (exists v,
     Esm.applyImageAdjustments [200; 30; 90; 255] grayscale_only !! (4 * 0)%nat
       = Some v
     /\ Esm.applyImageAdjustments [200; 30; 90; 255] grayscale_only
          !! (4 * 0 + 1)%nat = Some v
     /\ Esm.applyImageAdjustments [200; 30; 90; 255] grayscale_only
          !! (4 * 0 + 2)%nat = Some v).
Proof.
  apply (grayscale_100_makes_every_pixel_gray [200; 30; 90; 255] grayscale_only 0).
  - reflexivity.
  - repeat constructor; unfold byte; lia.
  - reflexivity.
  - simpl. lia.
Defined.

(** ** Invert at 100 *)

(** X3.  With [invert] at 100 and the six other factors neutral, the adjustment
    stage of both copies turns every colour byte [v] of a buffer of whole pixels
    of bytes into [255 - v] and leaves the alpha bytes; run twice, it gives the
    buffer back. *)
Theorem invert_100_is_an_involution (pixels : list Z) (settings : Settings.t) :
  factors settings = (100, 100, 100, 0, 100, 0, 0)%float ->
  Forall byte pixels ->
  (length pixels mod 4 = 0)%nat ->
  Public.applyImageAdjustments pixels settings
    = map_channels (fun v => 255 - v) pixels
  /\ Esm.applyImageAdjustments pixels settings
    = map_channels (fun v => 255 - v) pixels
  /\ Public.applyImageAdjustments
       (Public.applyImageAdjustments pixels settings) settings = pixels
  /\ Esm.applyImageAdjustments
       (Esm.applyImageAdjustments pixels settings) settings = pixels.
Proof.
  intros Hf Hb Hlen.
  assert (forall pixels, Forall byte pixels -> (length pixels mod 4 = 0)%nat ->
            Public.applyImageAdjustments pixels settings
            = map_channels (fun v => 255 - v) pixels) as Hpub.
  { intros l Hl Hlen'. apply adjusted_channels; try done.
    intros r g b k Hr Hg Hbb Hk. rewrite Public_adjust_invert by done.
    destruct k as [|[|[|?]]]; try lia; cbn [channel fst snd];
      by apply Public_invert_byte. }
  assert (forall pixels, Forall byte pixels -> (length pixels mod 4 = 0)%nat ->
            Esm.applyImageAdjustments pixels settings
            = map_channels (fun v => 255 - v) pixels) as Hesm.
  { intros l Hl Hlen'. unfold Esm.applyImageAdjustments.
    rewrite (Esm_levels_invert _ Hf). apply adjusted_channels; try done.
    intros r g b k. apply Esm_invert_bytes. }
  assert (Forall byte (map_channels (fun v => 255 - v) pixels)) as Hb'.
  { apply map_channels_bytes; [|done]. unfold byte. lia. }
  assert (length (map_channels (fun v => (255 - v)%Z) pixels) mod 4 = 0)%nat
    as Hlen' by (by rewrite map_channels_length).
  split; [by apply Hpub|]. split; [by apply Hesm|].
  rewrite (Hpub pixels), (Hesm pixels) by done. rewrite Hpub, Hesm by done.
  split; apply map_channels_twice; lia.
Qed.

Definition invert_only : Settings.t :=
  {| Settings.width := 100; Settings.height := 0; Settings.brightness := 100;
     Settings.contrast := 100; Settings.saturation := 100;
     Settings.grayscale := 0; Settings.invert := 100; Settings.hue := 0;
     Settings.sepia := 0; Settings.colorized := false;
     Settings.charSet := Ramp CHAR_SETS_standard; Settings.customChars := [];
     Settings.stretchWidth := 100; Settings.stretchHeight := 100;
     Settings.charSetType := None |}.

Lemma invert_100_is_an_involution_witness :
  Public.applyImageAdjustments [0; 100; 255; 7] invert_only
    = map_channels (fun v => 255 - v) [0; 100; 255; 7]
  /\ Esm.applyImageAdjustments [0; 100; 255; 7] invert_only
    = map_channels (fun v => 255 - v) [0; 100; 255; 7]
  /\ Public.applyImageAdjustments
       (Public.applyImageAdjustments [0; 100; 255; 7] invert_only) invert_only
     = [0; 100; 255; 7]
  /\ Esm.applyImageAdjustments
       (Esm.applyImageAdjustments [0; 100; 255; 7] invert_only) invert_only
     = [0; 100; 255; 7].
Proof.
  apply (invert_100_is_an_involution [0; 100; 255; 7] invert_only).
  - reflexivity.
  - repeat constructor; unfold byte; lia.
  - reflexivity.
Defined.

(** ** Brightness at 0 *)

Lemma Public_adjust_brightness_0 settings contrastFactor r g b :
  factors settings = (0, 100, 100, 0, 0, 0, 0)%float ->
  Public.adjust settings contrastFactor (r, g, b)
  = (truncate (r * (0 / 100))%float, truncate (g * (0 / 100))%float,
     truncate (b * (0 / 100))%float).
Proof.
  intros [= Hb Hc Hs Hg Hi Hh Hse].
  unfold Public.adjust, Public.apply_brightness, Public.apply_contrast,
    Public.apply_saturation, Public.apply_grayscale, Public.apply_invert,
    Public.apply_sepia, Public.apply_hue.
  rewrite Hb, Hc, Hs, Hg, Hi, Hh, Hse. reflexivity.
Qed.

(** The levels of the ES-module copy when only the brightness is not neutral, and
    is 0: the offset is [(0 - 100) * 2.55], a little above -255. *)
Definition dark_levels : Esm.Levels :=
  {| Esm.brightness := (0 - 100) * 2.55; Esm.contrast := 1; Esm.saturation := 1;
     Esm.grayscaleLevel := 0; Esm.invertLevel := 0; Esm.hueRotation := 0;
     Esm.sepiaLevel := 0 |}.

Lemma Esm_levels_dark settings :
  factors settings = (0, 100, 100, 0, 0, 0, 0)%float ->
  Esm.levels settings = dark_levels.
Proof.
  intros [= Hb Hc Hs Hg Hi Hh Hse]. unfold Esm.levels.
  rewrite Hb, Hc, Hs, Hg, Hi, Hh, Hse. reflexivity.
Qed.

(** A channel after the brightness and the contrast blocks of the ES-module copy
    at these levels. *)
Definition dark_contrast (x : float) : float :=
  truncate (((truncate (x + (0 - 100) * 2.55) / 255 - 0.5) * 1 + 0.5) * 255)%float.

Lemma Esm_adjust_dark r g b :
  Esm.adjust dark_levels (r, g, b)
  = let gray := (0.2989 * dark_contrast r + 0.5870 * dark_contrast g
                 + 0.1140 * dark_contrast b)%float in
    (truncate (gray + 1 * (dark_contrast r - gray))%float,
     truncate (gray + 1 * (dark_contrast g - gray))%float,
     truncate (gray + 1 * (dark_contrast b - gray))%float).
Proof. reflexivity. Qed.

(** Only the byte 255 is left above zero, by the rounding of the offset. *)
Lemma dark_contrast_bytes z :
  byte z ->
  dark_contrast (of_int z) = 0%float
  \/ dark_contrast (of_int z) = dark_contrast 255.
Proof.
  intros Hz.
  assert ((fun z => PrimFloat.Leibniz.eqb (dark_contrast (of_int z)) 0
                    || PrimFloat.Leibniz.eqb (dark_contrast (of_int z))
                         (dark_contrast 255)) z = true) as H.
  { revert z Hz. apply byte_cases. vm_compute. reflexivity. }
  cbv beta in H. apply orb_prop in H as [H|H];
    apply FloatAxioms.Leibniz.eqb_spec in H; auto.
Qed.

Lemma Esm_dark_bytes (r g b : Z) (k : nat) :
  byte r -> byte g -> byte b -> (k < 3)%nat ->
  ToUint8Clamp (channel k (Esm.adjust dark_levels (of_int r, of_int g, of_int b)))
  = 0.
Proof.
  intros Hr Hg Hb Hk. rewrite Esm_adjust_dark.
  destruct (dark_contrast_bytes r Hr) as [-> | ->],
    (dark_contrast_bytes g Hg) as [-> | ->],
    (dark_contrast_bytes b Hb) as [-> | ->];
    destruct k as [|[|[|?]]]; try lia; vm_compute; reflexivity.
Qed.

Lemma Public_dark_byte z :
  byte z -> ToUint8Clamp (truncate (of_int z * (0 / 100))%float) = 0.
Proof.
  intros Hz. apply Z.eqb_eq. revert z Hz.
  apply (byte_cases
           (fun z => ToUint8Clamp (truncate (of_int z * (0 / 100))%float) =? 0)).
  vm_compute. reflexivity.
Qed.

(** X4.  With the brightness at 0 and the six other factors neutral, the
    adjustment stage of both copies turns every colour byte of a buffer of whole
    pixels of bytes into 0 and leaves the alpha bytes: the picture is black. *)
Theorem brightness_0_is_black (pixels : list Z) (settings : Settings.t) :
  factors settings = (0, 100, 100, 0, 0, 0, 0)%float ->
  Forall byte pixels ->
  (length pixels mod 4 = 0)%nat ->
  Public.applyImageAdjustments pixels settings = map_channels (fun _ => 0) pixels
  /\ Esm.applyImageAdjustments pixels settings = map_channels (fun _ => 0) pixels.
Proof.
  intros Hf Hb Hlen. split.
  - apply adjusted_channels; try done.
    intros r g b k Hr Hg Hbb Hk. rewrite Public_adjust_brightness_0 by done.
    destruct k as [|[|[|?]]]; try lia; cbn [channel fst snd];
      by apply Public_dark_byte.
  - unfold Esm.applyImageAdjustments. rewrite (Esm_levels_dark _ Hf).
    apply adjusted_channels; try done.
    intros r g b k. apply Esm_dark_bytes.
Qed.

Definition dark : Settings.t :=
  {| Settings.width := 100; Settings.height := 0; Settings.brightness := 0;
     Settings.contrast := 100; Settings.saturation := 100;
     Settings.grayscale := 0; Settings.invert := 0; Settings.hue := 0;
     Settings.sepia := 0; Settings.colorized := false;
     Settings.charSet := Ramp CHAR_SETS_standard; Settings.customChars := [];
     Settings.stretchWidth := 100; Settings.stretchHeight := 100;
     Settings.charSetType := None |}.

Lemma brightness_0_is_black_witness :
  Public.applyImageAdjustments [255; 255; 255; 9] dark
    = map_channels (fun _ => 0) [255; 255; 255; 9]
  /\ Esm.applyImageAdjustments [255; 255; 255; 9] dark
    = map_channels (fun _ => 0) [255; 255; 255; 9].
Proof.
  apply (brightness_0_is_black [255; 255; 255; 9] dark).
  - reflexivity.
  - repeat constructor; unfold byte; lia.
  - reflexivity.
Defined.

(** ** The contrast of [public/conv2ascii.js] *)

(** The contrast block on one byte, for an integer setting. *)
Definition Public_contrast_byte (c v : Z) : Z :=
  ToUint8Clamp
    (truncate (((259 * (of_int c / 100 + 255)) / (255 * (259 - of_int c / 100)))
               * (of_int v - 128) + 128)%float).

Lemma Public_adjust_contrast settings c r g b :
  factors settings = (100, of_int c, 100, 0, 0, 0, 0)%float ->
  c <> 100 -> 0 <= c <= 200 ->
  Public.adjust settings (Public.contrastFactor settings) (r, g, b)
  = (truncate (((259 * (of_int c / 100 + 255)) / (255 * (259 - of_int c / 100)))
               * (r - 128) + 128)%float,
     truncate (((259 * (of_int c / 100 + 255)) / (255 * (259 - of_int c / 100)))
               * (g - 128) + 128)%float,
     truncate (((259 * (of_int c / 100 + 255)) / (255 * (259 - of_int c / 100)))
               * (b - 128) + 128)%float).
Proof.
  intros [= Hb Hc Hs Hg Hi Hh Hse] Hne Hr.
  unfold Public.adjust, Public.apply_brightness, Public.apply_contrast,
    Public.apply_saturation, Public.apply_grayscale, Public.apply_invert,
    Public.apply_sepia, Public.apply_hue, Public.contrastFactor.
  rewrite Hb, Hc, Hs, Hg, Hi, Hh, Hse.
  assert ((of_int c =? 100)%float = false) as ->; [|reflexivity].
  assert (forallb (fun c => negb ((of_int c =? 100)%float) || (c =? 100))
            (seqZ 0 201) = true) as Hall by (vm_compute; reflexivity).
  rewrite forallb_forall in Hall.
  specialize (Hall c ltac:(apply list_elem_of_In, elem_of_seqZ; lia)).
  cbv beta in Hall. apply orb_prop in Hall as [H|H].
  - by apply negb_true_iff in H.
  - apply Z.eqb_eq in H. lia.
Qed.

Lemma Public_contrast_small c v :
  0 <= c <= 200 -> byte v -> Z.abs (Public_contrast_byte c v - v) <= 2.
Proof.
  intros Hc Hv.
  assert (forallb (fun c => forallb (fun v =>
            Z.abs (Public_contrast_byte c v - v) <=? 2) (seqZ 0 256))
            (seqZ 0 201) = true) as H by (vm_compute; reflexivity).
  rewrite forallb_forall in H.
  specialize (H c ltac:(apply list_elem_of_In, elem_of_seqZ; lia)).
  rewrite forallb_forall in H.
  specialize (H v ltac:(apply list_elem_of_In, elem_of_seqZ; unfold byte in Hv; lia)).
  by apply Z.leb_le.
Qed.

Lemma Public_contrast_0 v : byte v -> Public_contrast_byte 0 v = v.
Proof.
  intros Hv. apply Z.eqb_eq. revert v Hv.
  apply (byte_cases (fun v => Public_contrast_byte 0 v =? v)).
  vm_compute. reflexivity.
Qed.

(** X5.  In [public/conv2ascii.js] the contrast setting hardly acts: for every
    integer contrast from 0 to 200, the other factors neutral, no byte of a
    buffer of whole pixels of bytes is moved by more than 2; at contrast 0 none
    is moved at all. *)
Theorem Public_contrast_moves_bytes_by_at_most_2
    (pixels : list Z) (settings : Settings.t) (c : Z) (j : nat) (v v' : Z) :
  factors settings = (100, of_int c, 100, 0, 0, 0, 0)%float ->
  0 <= c <= 200 ->
  Forall byte pixels ->
  (length pixels mod 4 = 0)%nat ->
  pixels !! j = Some v ->
  Public.applyImageAdjustments pixels settings !! j = Some v' ->
  Z.abs (v' - v) <= 2 /\ (c = 0 -> v' = v).
Proof.
  intros Hf Hc Hb Hlen Hv Hv'.
  pose proof (Forall_lookup_1 _ _ _ _ Hb Hv) as Bv.
  destruct (decide (c = 100)) as [->|Hne].
  { assert (Public.applyImageAdjustments pixels settings = pixels) as E.
    { apply adjusted_fixed; try done.
      intros r g b k Hr Hg Hbb Hk. rewrite Public_adjust_neutral.
      - destruct k as [|[|[|?]]]; try lia; cbn [channel fst snd];
          by apply ToUint8Clamp_of_int.
      - injection Hf as Hb1 Hc1 Hs1 Hg1 Hi1 Hh1 Hse1. by repeat split. }
    rewrite E in Hv'. assert (v' = v) as -> by congruence. split; lia. }
  assert (Public.applyImageAdjustments pixels settings
          = map_channels (Public_contrast_byte c) pixels) as E.
  { apply adjusted_channels; try done.
    intros r g b k Hr Hg Hbb Hk. rewrite (Public_adjust_contrast _ c) by done.
    destruct k as [|[|[|?]]]; try lia; cbn [channel fst snd]; reflexivity. }
  rewrite E in Hv'. unfold map_channels in Hv'.
  rewrite list_lookup_imap, Hv in Hv'. cbn [fmap option_fmap option_map] in Hv'.
  injection Hv' as <-.
  destruct (_ =? _)%nat; [split; lia|].
  split; [by apply Public_contrast_small|].
  intros ->. by apply Public_contrast_0.
Qed.

Definition contrast_200 : Settings.t :=
  {| Settings.width := 100; Settings.height := 0; Settings.brightness := 100;
     Settings.contrast := 200; Settings.saturation := 100;
     Settings.grayscale := 0; Settings.invert := 0; Settings.hue := 0;
     Settings.sepia := 0; Settings.colorized := false;
     Settings.charSet := Ramp CHAR_SETS_standard; Settings.customChars := [];
     Settings.stretchWidth := 100; Settings.stretchHeight := 100;
     Settings.charSetType := None |}.

Lemma Public_contrast_moves_bytes_by_at_most_2_witness :
  Z.abs (252 - 250) <= 2 /\ (200 = 0 -> 252 = 250).
Proof.
  apply (Public_contrast_moves_bytes_by_at_most_2
           [250; 128; 255; 255] contrast_200 200 0 250 252).
  - reflexivity.
  - lia.
  - repeat constructor; unfold byte; lia.
  - reflexivity.
  - reflexivity.
  - vm_compute. reflexivity.
Defined.

(** ** Gray pixels and the HSL conversions *)

(** From a gray pixel of bytes to HSL and back, and what the store keeps, in
    [public/conv2ascii.js]. *)
Definition Public_gray_round_trip (z : Z) : bool :=
  let '(h, s, l) := Public.rgbToHsl (of_int z) (of_int z) (of_int z) in
  let '(r, g, b) := Public.hslToRgb h s l in
  PrimFloat.Leibniz.eqb h 0 && PrimFloat.Leibniz.eqb s 0
  && (ToUint8Clamp r =? z) && (ToUint8Clamp g =? z) && (ToUint8Clamp b =? z).

(** The same in the ES-module copy, whose [hslToRgb] rounds. *)
Definition Esm_gray_round_trip (z : Z) : bool :=
  let '(h, s, l) := Esm.rgbToHsl (of_int z) (of_int z) (of_int z) in
  let '(r, g, b) := Esm.hslToRgb h s l in
  PrimFloat.Leibniz.eqb h 0 && PrimFloat.Leibniz.eqb s 0
  && PrimFloat.Leibniz.eqb r (of_int z) && PrimFloat.Leibniz.eqb g (of_int z)
  && PrimFloat.Leibniz.eqb b (of_int z).

(** X6.  For an achromatic colour of bytes, [r = g = b = z], [rgbToHsl] gives hue 0
    and saturation 0 in both copies, and [hslToRgb] of its result gives the colour
    back: in the ES-module copy the three numbers are exactly [z]; in
    [public/conv2ascii.js] they are the numbers the buffer stores as [z]. *)
Theorem gray_round_trips_through_hsl (z : Z) :
  byte z ->
  (let '(h, s, l) := Public.rgbToHsl (of_int z) (of_int z) (of_int z) in
   h = 0%float /\ s = 0%float
   /\ (let '(r, g, b) := Public.hslToRgb h s l in
       ToUint8Clamp r = z /\ ToUint8Clamp g = z /\ ToUint8Clamp b = z))
  /\ (let '(h, s, l) := Esm.rgbToHsl (of_int z) (of_int z) (of_int z) in
      h = 0%float /\ s = 0%float
      /\ Esm.hslToRgb h s l = (of_int z, of_int z, of_int z)).
Proof.
  intros Hz.
  pose proof (byte_cases Public_gray_round_trip
                ltac:(vm_compute; reflexivity) z Hz) as HP.
  pose proof (byte_cases Esm_gray_round_trip
                ltac:(vm_compute; reflexivity) z Hz) as HE.
  unfold Public_gray_round_trip in HP. unfold Esm_gray_round_trip in HE.
  split.
  - destruct (Public.rgbToHsl _ _ _) as [[h s] l].
    destruct (Public.hslToRgb h s l) as [[r g] b].
    repeat match goal with
           | H : _ && _ = true |- _ => apply andb_prop in H as [? ?]
           | H : PrimFloat.Leibniz.eqb _ _ = true |- _ =>
               apply FloatAxioms.Leibniz.eqb_spec in H
           | H : (_ =? _) = true |- _ => apply Z.eqb_eq in H
           end.
    done.
  - destruct (Esm.rgbToHsl _ _ _) as [[h s] l].
    destruct (Esm.hslToRgb h s l) as [[r g] b].
    repeat match goal with
           | H : _ && _ = true |- _ => apply andb_prop in H as [? ?]
           | H : PrimFloat.Leibniz.eqb _ _ = true |- _ =>
               apply FloatAxioms.Leibniz.eqb_spec in H
           end.
    subst. done.
Qed.

Lemma gray_round_trips_through_hsl_witness :
  (let '(h, s, l) := Public.rgbToHsl (of_int 77) (of_int 77) (of_int 77) in
   h = 0%float /\ s = 0%float
   /\ (let '(r, g, b) := Public.hslToRgb h s l in
       ToUint8Clamp r = 77 /\ ToUint8Clamp g = 77 /\ ToUint8Clamp b = 77))
  /\ (let '(h, s, l) := Esm.rgbToHsl (of_int 77) (of_int 77) (of_int 77) in
      h = 0%float /\ s = 0%float
      /\ Esm.hslToRgb h s l = (of_int 77, of_int 77, of_int 77)).
Proof. apply (gray_round_trips_through_hsl 77). unfold byte. lia. Defined.

(** ** The hue rotation on gray pixels *)

Lemma Public_adjust_hue settings contrastFactor hue p :
  factors settings = (100, 100, 100, 0, 0, hue, 0)%float ->
  Public.adjust settings contrastFactor p = Public.apply_hue settings p.
Proof.
  intros [= Hb Hc Hs Hg Hi Hh Hse]. destruct p as [[r g] b].
  unfold Public.adjust, Public.apply_brightness, Public.apply_contrast,
    Public.apply_saturation, Public.apply_grayscale, Public.apply_invert,
    Public.apply_sepia.
  rewrite Hb, Hc, Hs, Hg, Hi, Hse. reflexivity.
Qed.

(** With saturation 0 the hue is not looked at. *)
Lemma Public_hslToRgb_gray h l :
  Public.hslToRgb h 0 l
  = (truncate (l * 255)%float, truncate (l * 255)%float, truncate (l * 255)%float).
Proof. reflexivity. Qed.

Lemma Esm_hslToRgb_gray h l :
  Esm.hslToRgb h (0 * 100) l
  = (Math_round (l / 100 * 255)%float, Math_round (l / 100 * 255)%float,
     Math_round (l / 100 * 255)%float).
Proof. reflexivity. Qed.

(** A gray pixel of bytes through the hue block of [public/conv2ascii.js]. *)
Definition Public_gray_hue (z : Z) : bool :=
  let '(h, s, l) := Public.rgbToHsl (of_int z) (of_int z) (of_int z) in
  PrimFloat.Leibniz.eqb s 0 && (ToUint8Clamp (truncate (l * 255)%float) =? z).

Lemma Public_hue_gray settings z (c : nat) :
  byte z -> (c < 3)%nat ->
  ToUint8Clamp
    (channel c (Public.apply_hue settings (of_int z, of_int z, of_int z))) = z.
Proof.
  intros Hz Hc. unfold Public.apply_hue.
  destruct (negb _).
  - pose proof (byte_cases Public_gray_hue ltac:(vm_compute; reflexivity) z Hz)
      as H.
    unfold Public_gray_hue in H.
    destruct (Public.rgbToHsl _ _ _) as [[h s] l].
    apply andb_prop in H as [Hs%FloatAxioms.Leibniz.eqb_spec Hl%Z.eqb_eq].
    subst s. rewrite Public_hslToRgb_gray.
    by destruct c as [|[|[|?]]]; try lia.
  - destruct c as [|[|[|?]]]; try lia; by apply ToUint8Clamp_of_int.
Qed.

(** The levels of the ES-module copy when only the hue is not neutral. *)
Definition hue_levels (hue : float) : Esm.Levels :=
  {| Esm.brightness := 0; Esm.contrast := 1; Esm.saturation := 1;
     Esm.grayscaleLevel := 0; Esm.invertLevel := 0;
     Esm.hueRotation := (hue * 3.6)%float; Esm.sepiaLevel := 0 |}.

Lemma Esm_levels_hue settings hue :
  factors settings = (100, 100, 100, 0, 0, hue, 0)%float ->
  Esm.levels settings = hue_levels hue.
Proof.
  intros [= Hb Hc Hs Hg Hi Hh Hse]. unfold Esm.levels.
  rewrite Hb, Hc, Hs, Hg, Hi, Hh, Hse. reflexivity.
Qed.

Lemma Esm_adjust_hue hue r g b :
  Esm.adjust (hue_levels hue) (r, g, b)
  = Esm.apply_hue (hue_levels hue) (after_saturation r g b).
Proof.
  unfold Esm.adjust.
  change (Esm.apply_invert (hue_levels hue)
            (Esm.apply_grayscale (hue_levels hue)
               (Esm.apply_saturation (hue_levels hue)
                  (Esm.apply_contrast (hue_levels hue)
                     (Esm.apply_brightness (hue_levels hue) (r, g, b))))))
    with (after_saturation r g b).
  by destruct (Esm.apply_hue _ _) as [[x y] z].
Qed.

(** A gray pixel of bytes after the first three blocks of the ES-module copy, and
    through its hue block. *)
Definition Esm_gray_hue (z : Z) : bool :=
  let '(x, y, w) := after_saturation (of_int z) (of_int z) (of_int z) in
  PrimFloat.Leibniz.eqb x y && PrimFloat.Leibniz.eqb y w
  && (ToUint8Clamp x =? z)
  && (let '(h, s, l) := Esm.rgbToHsl x x x in
      PrimFloat.Leibniz.eqb s (0 * 100)
      && (ToUint8Clamp (Math_round (l / 100 * 255)%float) =? z)).

Lemma Esm_hue_gray hue z (c : nat) :
  byte z -> (c < 3)%nat ->
  ToUint8Clamp
    (channel c (Esm.adjust (hue_levels hue) (of_int z, of_int z, of_int z))) = z.
Proof.
  intros Hz Hc. rewrite Esm_adjust_hue.
  pose proof (byte_cases Esm_gray_hue ltac:(vm_compute; reflexivity) z Hz) as H.
  unfold Esm_gray_hue in H.
  destruct (after_saturation _ _ _) as [[x y] w].
  apply andb_prop in H as [[[Hxy%FloatAxioms.Leibniz.eqb_spec
    Hyw%FloatAxioms.Leibniz.eqb_spec]%andb_prop Hx%Z.eqb_eq]%andb_prop H].
  subst y w. unfold Esm.apply_hue.
  destruct (negb _).
  - destruct (Esm.rgbToHsl x x x) as [[h s] l].
    apply andb_prop in H as [Hs%FloatAxioms.Leibniz.eqb_spec Hl%Z.eqb_eq].
    subst s. rewrite Esm_hslToRgb_gray.
    by destruct c as [|[|[|?]]]; try lia.
  - by destruct c as [|[|[|?]]]; try lia.
Qed.

(** X7.  A hue rotation by any amount, the six other factors neutral, leaves every
    gray pixel (R = G = B) of a buffer of whole pixels of bytes as it is, in both
    copies. *)
Theorem hue_rotation_keeps_gray_pixels
    (pixels : list Z) (settings : Settings.t) (hue : float) (k c : nat) (z : Z) :
  factors settings = (100, 100, 100, 0, 0, hue, 0)%float ->
  Forall byte pixels ->
  (length pixels mod 4 = 0)%nat ->
  pixels !! (4 * k)%nat = Some z ->
  pixels !! (4 * k + 1)%nat = Some z ->
  pixels !! (4 * k + 2)%nat = Some z ->
  (c < 3)%nat ->
  Public.applyImageAdjustments pixels settings !! (4 * k + c)%nat = Some z
  /\ Esm.applyImageAdjustments pixels settings !! (4 * k + c)%nat = Some z.
Proof.
  intros Hf Hb Hlen H0 H1 H2 Hc.
  pose proof (lookup_lt_Some _ _ _ H0) as Hk.
  split.
  - destruct (adjusted_pixel
                (Public.adjust settings (Public.contrastFactor settings))
                pixels k Hb Hlen Hk)
      as (r & g & b & Hr & _ & _ & Er & Eg & Eb & Hout).
    assert (r = z) as -> by congruence. assert (g = z) as -> by congruence.
    assert (b = z) as -> by congruence.
    unfold Public.applyImageAdjustments. rewrite Hout by done.
    rewrite (Public_adjust_hue _ _ hue) by done.
    by rewrite Public_hue_gray.
  - destruct (adjusted_pixel (Esm.adjust (Esm.levels settings))
                pixels k Hb Hlen Hk)
      as (r & g & b & Hr & _ & _ & Er & Eg & Eb & Hout).
    assert (r = z) as -> by congruence. assert (g = z) as -> by congruence.
    assert (b = z) as -> by congruence.
    unfold Esm.applyImageAdjustments. rewrite Hout by done.
    rewrite (Esm_levels_hue _ hue) by done.
    by rewrite Esm_hue_gray.
Qed.

Definition hue_90 : Settings.t :=
  {| Settings.width := 100; Settings.height := 0; Settings.brightness := 100;
     Settings.contrast := 100; Settings.saturation := 100;
     Settings.grayscale := 0; Settings.invert := 0; Settings.hue := 90;
     Settings.sepia := 0; Settings.colorized := false;
     Settings.charSet := Ramp CHAR_SETS_standard; Settings.customChars := [];
     Settings.stretchWidth := 100; Settings.stretchHeight := 100;
     Settings.charSetType := None |}.

Lemma hue_rotation_keeps_gray_pixels_witness :
  Public.applyImageAdjustments [10; 200; 30; 255; 99; 99; 99; 255] hue_90
    !! (4 * 1 + 2)%nat = Some 99
  /\ Esm.applyImageAdjustments [10; 200; 30; 255; 99; 99; 99; 255] hue_90
       !! (4 * 1 + 2)%nat = Some 99.
Proof.
  apply (hue_rotation_keeps_gray_pixels
           [10; 200; 30; 255; 99; 99; 99; 255] hue_90 90 1 2 99);
    try reflexivity.
  - repeat constructor; unfold byte; lia.
  - lia.
Defined.

(** ** The shape of the text *)

(** Rows, each closed by a newline. *)
Definition rows_text (rows : list jsstring) : jsstring :=
  concat (map (fun r => r ++ [newline]) rows).

(** A text of [h] rows of [w] characters of [chars]. *)
Definition grid_of (chars : jsstring) (w h : Z) (t : jsstring) : Prop :=
  exists rows,
    t = rows_text rows
    /\ length rows = Z.to_nat h
    /\ Forall (fun r => length r = Z.to_nat w /\ Forall (fun c => c ∈ chars) r) rows.

Lemma concat_singletons {A} (P : Z -> Prop) (g : A -> jsstring) (l : list A) :
  (forall a, a ∈ l -> exists c, g a = [c] /\ P c) ->
  length (concat (map g l)) = length l /\ Forall P (concat (map g l)).
Proof.
  induction l as [|a l IH]; intros H; [done|].
  destruct (H a ltac:(left)) as (c & Hc & Pc).
  destruct IH as [IH1 IH2]; [intros b Hb; apply H; by right|].
  cbn [map concat]. rewrite Hc. cbn [app length].
  split; [by rewrite IH1|by constructor].
Qed.

Lemma grid_text_rows chars glyph w h :
  (forall x y, 0 <= x < w -> 0 <= y < h ->
     exists c, glyph x y = [c] /\ c ∈ chars) ->
  grid_of chars w h (grid_text glyph w h).
Proof.
  intros Hg.
  exists (map (fun y => concat (map (fun x => glyph x y) (seqZ 0 w))) (seqZ 0 h)).
  split; [|split].
  - unfold grid_text, rows_text. by rewrite map_map.
  - by rewrite length_map, length_seqZ.
  - apply Forall_map, Forall_forall. intros y Hy%elem_of_seqZ.
    destruct (concat_singletons (fun c => c ∈ chars)
                (fun x => glyph x y) (seqZ 0 w)) as [H1 H2].
    + intros x Hx%elem_of_seqZ. apply Hg; lia.
    + unfold compose. split; [|done].
      etrans; [exact H1|]. apply length_seqZ.
Qed.

Lemma Public_glyph_single chars pixels w h x y :
  chars <> [] -> Forall byte pixels -> 4 * w * h <= Z.of_nat (length pixels) ->
  0 <= x < w -> 0 <= y < h ->
  exists c, Public_glyph (Ramp chars) pixels w x y = [c] /\ c ∈ chars.
Proof.
  intros Hne Hb Hlen Hx Hy. unfold Public_glyph.
  destruct (cell_rgb_bytes pixels w h x y) as (r & g & b & Hr & Hg & Hbb & ->);
    try done.
  cbn [chars_length chars_get index_from].
  destruct (Public_glyph_in_ramp chars
              (Math_round_int (weighted_luminance (of_int r) (of_int g) (of_int b))))
    as (c & Hc & Hin); [done|by apply Public_brightness_nonneg|].
  rewrite Hc. by exists c.
Qed.

Lemma Esm_glyph_single chars pixels w h x y :
  chars <> [] -> str_length chars < 2 ^ 53 ->
  Forall byte pixels -> 4 * w * h <= Z.of_nat (length pixels) ->
  0 <= x < w -> 0 <= y < h ->
  exists c, Esm_glyph (Ramp chars) pixels w x y = [c] /\ c ∈ chars.
Proof.
  intros Hne Hlt Hb Hlen Hx Hy. unfold Esm_glyph.
  destruct (cell_rgb_bytes pixels w h x y) as (r & g & b & Hr & Hg & Hbb & ->);
    try done.
  cbn [chars_length chars_get index_from].
  destruct (Esm_glyph_in_ramp chars
              (Math_floor_int (mean (of_int r) (of_int g) (of_int b) / 256
                               * of_int (str_length chars))%float))
    as (c & Hc & Hin); [done| |].
  - apply Esm_charIdx_nonneg; try done.
    unfold str_length in *. destruct chars; [done|]. simpl length in *. lia.
  - rewrite Hc. by exists c.
Qed.

(** X8.  When the head of the conversion succeeds on an image whose canvas buffer
    is made of bytes and covers the grid, and the active ramp is a string, the
    text of the result is a grid: one row per grid row, each of exactly
    [effectiveWidth] characters of the ramp and closed by a newline.  This holds
    of every result of [public/conv2ascii.js] with a ramp that is not empty, and
    of the ES-module copy, which always returns one and whose ramp is never the
    empty string. *)
Theorem text_is_a_grid
    (confirm : bool) (imgSource : ImageSource) (options : Options.t) (p : Prepared)
    (chars : jsstring) :
  prepare confirm imgSource options = Return p ->
  Forall byte (p_pixels p) ->
  4 * p_width p * p_height p <= Z.of_nat (length (p_pixels p)) ->
  (Public.active_chars (p_settings p) = Ramp chars -> chars <> [] ->
   forall t, result_text (Public.convertToAscii confirm imgSource options) = Some t ->
             grid_of chars (p_width p) (p_height p) t)
  /\ (Esm.active_chars (p_settings p) = Ramp chars -> str_length chars < 2 ^ 53 ->
      chars <> []
      /\ exists t, result_text (Esm.convertToAscii confirm imgSource options) = Some t
                   /\ grid_of chars (p_width p) (p_height p) t).
Proof.
  intros Hp Hb Hlen.
  unfold Public.convertToAscii, Esm.convertToAscii. rewrite Hp. split.
  - intros Ha Hne t Ht. apply Public_text_grid in Ht. subst t. rewrite Ha.
    apply grid_text_rows. intros x y Hx Hy.
    apply (Public_glyph_single _ _ _ (p_height p)); try done.
    + by apply adjusted_bytes.
    + unfold Public.applyImageAdjustments. by rewrite pixel_loop_length.
  - intros Ha Hlt.
    pose proof (Esm_active_chars_nonempty (p_settings p)) as Hne.
    rewrite Ha in Hne.
    assert (chars <> []) as Hne' by congruence.
    split; [done|].
    rewrite Esm_convert_text, Ha. eexists. split; [done|].
    apply grid_text_rows. intros x y Hx Hy.
    apply (Esm_glyph_single _ _ _ (p_height p)); try done.
    + by apply adjusted_bytes.
    + unfold Esm.applyImageAdjustments. by rewrite pixel_loop_length.
Qed.

Lemma text_is_a_grid_witness :
  (forall t, result_text (Public.convertToAscii false (Element white_black)
                            (with_ramp 2 CHAR_SETS_simple)) = Some t ->
             grid_of CHAR_SETS_simple 2 1 t)
  /\ (exists t, result_text (Esm.convertToAscii false (Element white_black)
                               (with_ramp 2 CHAR_SETS_simple)) = Some t
                /\ grid_of CHAR_SETS_simple 2 1 t).
Proof.
  destruct (text_is_a_grid false (Element white_black) (with_ramp 2 CHAR_SETS_simple)
              {| p_img := white_black;
                 p_settings :=
                   with_height white_black
                     (spread defaults
                        (high_resolution_check false (with_ramp 2 CHAR_SETS_simple)));
                 p_width := 2; p_height := 1;
                 p_pixels := [255; 255; 255; 255; 0; 0; 0; 255] |}
              CHAR_SETS_simple) as [H1 H2].
  - vm_compute. reflexivity.
  - repeat constructor; unfold byte; lia.
  - vm_compute. discriminate.
  - split.
    + apply H1; [vm_compute; reflexivity|discriminate].
    + apply H2; [vm_compute; reflexivity|vm_compute; reflexivity].
Defined.

(** ** The image of a monochrome run *)

Lemma split_lines_row (r s : jsstring) :
  newline ∉ r -> split_lines (r ++ newline :: s) = r :: split_lines s.
Proof.
  induction r as [|c r IH]; intros Hr; cbn [app split_lines].
  - by rewrite Z.eqb_refl.
  - apply not_elem_of_cons in Hr as [Hc Hr].
    destruct (Z.eqb_spec newline c) as [E|_]; [done|].
    destruct (Z.eqb_spec c newline) as [E|_]; [done|].
    by rewrite IH.
Qed.

(** The lines of a text of rows: the rows, and the empty line after the last
    newline. *)
Lemma split_lines_rows rows :
  Forall (fun r => newline ∉ r) rows ->
  split_lines (rows_text rows) = rows ++ [[]].
Proof.
  induction 1 as [|r rows Hr _ IH]; [done|].
  unfold rows_text in *. cbn [map concat]. rewrite <- app_assoc. cbn [app].
  by rewrite split_lines_row, IH.
Qed.

Lemma concat_imap_singleton {A B} (f : nat -> A -> B) (l : list A) :
  concat (imap (fun i a => [f i a]) l) = imap f l.
Proof.
  revert f. induction l as [|a l IH]; intros f; [done|].
  cbn [imap concat app]. f_equal. apply (IH (f ∘ S)).
Qed.

(** X9.  For a text made of rows that hold no newline, each closed by a newline, a
    run that is not colorized draws on a white canvas one black line of text per
    row, and one more, empty, for what follows the last newline.  In
    [public/conv2ascii.js] the font size is min(12, floor(12 w / (h + 1))), for
    [h] rows the first of which has [w] characters, and line [i] is drawn at
    height [i] times the font size; in the ES-module copy the font size is the
    height setting divided by [h + 1], and line [i] is drawn at [i + 1] times
    it. *)
Theorem monochrome_image_draws_each_line
    (rows : list jsstring) (originalWidth originalHeight : Z)
    (settings : Settings.t) (colorMap : Public.ColorMap)
    (rowColors : Esm.ColorMap) :
  Forall (fun r => newline ∉ r) rows ->
  Settings.colorized settings = false ->
  let w := match rows with r :: _ => str_length r | [] => 0 end in
  let h := Z.of_nat (length rows) in
  let fontSize := Z.min 12 (w * 12 / (h + 1)) in
  let size := (Settings.height settings / of_int (h + 1))%float in
  Public.createAsciiImage (rows_text rows) originalWidth originalHeight
    settings colorMap
  = [Resize (of_int w * (of_int fontSize * 0.6))%float
       (of_int (h + 1) * of_int fontSize)%float;
     Font (of_int fontSize);
     FillRect White 0 0 (of_int w * (of_int fontSize * 0.6))%float
       (of_int (h + 1) * of_int fontSize)%float]
    ++ imap (fun i line =>
               FillText Black line 0 (of_int (Z.of_nat i) * of_int fontSize)%float)
            (rows ++ [[]])
  /\ Esm.createAsciiImage (rows_text rows) originalWidth originalHeight
       settings rowColors
  = [Resize (Settings.width settings * 2)%float (Settings.height settings);
     FillRect White 0 0 (Settings.width settings * 2)%float
       (Settings.height settings);
     Font size]
    ++ imap (fun i line =>
               FillText Black line 0 (of_int (Z.of_nat i + 1) * size)%float)
            (rows ++ [[]]).
Proof.
  intros Hrows Hc w h fontSize size.
  unfold Public.createAsciiImage, Esm.createAsciiImage.
  rewrite (split_lines_rows rows Hrows), Hc. cbn [andb].
  assert (Z.of_nat (length (rows ++ [[]])) = h + 1) as ->
    by (rewrite length_app; cbn [length]; lia).
  assert (match rows ++ [[]] with l :: _ => str_length l | [] => 0 end = w) as ->
    by (by destruct rows).
  split; [done|]. by rewrite concat_imap_singleton.
Qed.

Lemma monochrome_image_draws_each_line_witness :
  Public.createAsciiImage (rows_text [str " #"]) 2 1 defaults []
  = [Resize (of_int 2 * (of_int 12 * 0.6))%float (of_int 2 * of_int 12)%float;
     Font (of_int 12);
     FillRect White 0 0 (of_int 2 * (of_int 12 * 0.6))%float
       (of_int 2 * of_int 12)%float]
    ++ [FillText Black (str " #") 0 (of_int 0 * of_int 12)%float;
        FillText Black [] 0 (of_int 1 * of_int 12)%float]
  /\ Esm.createAsciiImage (rows_text [str " #"]) 2 1 defaults []
  = [Resize (100 * 2)%float 0%float; FillRect White 0 0 (100 * 2)%float 0%float;
     Font (0 / of_int 2)%float]
    ++ [FillText Black (str " #") 0 (of_int 1 * (0 / of_int 2))%float;
        FillText Black [] 0 (of_int 2 * (0 / of_int 2))%float].
Proof.
  apply (monochrome_image_draws_each_line [str " #"] 2 1 defaults [] []).
  - constructor; [|constructor]. apply (bool_decide_unpack _). vm_compute. exact I.
  - reflexivity.
Defined.

(** ** The high-resolution prompt *)

Lemma Math_min_above w : (500 <? w)%float = true -> Math_min w 500 = 500%float.
Proof.
  intros H. unfold Math_min. destruct (ltb_is_nan _ _ H) as [_ ->].
  change (is_nan 500) with false. cbn [orb]. by rewrite H.
Qed.

(** X10.  The prompt at the head of [convertToAscii] is asked at most once for an
    options object: checking the options it leaves behind changes nothing more,
    whatever the answers.  After a declined prompt the width is not above 500;
    after an accepted one the width is the one asked for. *)
Theorem high_resolution_prompt_is_asked_once (o : Options.t) (first second : bool) :
  high_resolution_check second (high_resolution_check first o)
    = high_resolution_check first o
  /\ (forall w, Options.width (high_resolution_check false o) = Some w ->
                Options._highResolutionConfirmed o = false ->
                (500 <? w)%float = false)
  /\ Options.width (high_resolution_check true o) = Options.width o.
Proof.
  unfold high_resolution_check.
  destruct (Options.width o) as [w|] eqn:Ew; [|by rewrite ?Ew].
  destruct (500 <? w)%float eqn:E500, (Options._highResolutionConfirmed o) eqn:Ec;
    cbn [andb negb]; rewrite ?Ew, ?E500, ?Ec; cbn [andb negb].
  - split; [done|]. split; [congruence|done].
  - split; [|split].
    + destruct first; cbn [Options.width Options.set_confirmed Options.set_width
                           Options._highResolutionConfirmed].
      * rewrite Ew, E500. done.
      * rewrite (Math_min_above w E500). done.
    + cbn [Options.width Options.set_width]. intros w' [= <-] _.
      by rewrite (Math_min_above w E500).
    + cbn [Options.width Options.set_confirmed]. done.
  - split; [done|]. split; [|done]. by intros w' [= <-].
  - split; [done|]. split; [|done]. by intros w' [= <-].
Qed.

(** ** The order of the ramp *)

(** X11.  In [public/conv2ascii.js] a ramp of [n] characters is used in order: a
    brighter cell never gets an earlier character, luminance 0 gets the first
    one, and the index always lies in the ramp.  When the ramp has at most 256
    characters, luminance 255 gets the last one and every character is the glyph
    of some luminance. *)
Theorem ramp_is_used_in_order (n : Z) :
  1 <= n ->
  (forall L1 L2, 0 <= L1 -> L1 <= L2 -> L2 <= 255 ->
     exists i1 i2, Public.charIndex n (Int L1) = Int i1
                   /\ Public.charIndex n (Int L2) = Int i2
                   /\ 0 <= i1 /\ i1 <= i2 /\ i2 <= n - 1)
  /\ Public.charIndex n (Int 0) = Int 0
  /\ (n <= 256 ->
      Public.charIndex n (Int 255) = Int (n - 1)
      /\ forall i, 0 <= i < n ->
           exists L, 0 <= L <= 255 /\ Public.charIndex n (Int L) = Int i).
Proof.
  intros Hn. cbn [Public.charIndex]. split; [|split].
  - intros L1 L2 H1 H12 H2. eexists _, _. split; [done|]. split; [done|].
    assert (0 <= n * L1 / 256) by (apply Z.div_pos; nia).
    assert (n * L1 / 256 <= n * L2 / 256) by (apply Z.div_le_mono; nia).
    lia.
  - rewrite Z.mul_0_r. change (0 / 256) with 0. f_equal. lia.
  - intros H256. split.
    + f_equal. assert (n - 1 <= n * 255 / 256); [|lia].
      apply Z.div_le_lower_bound; lia.
    + intros i Hi. exists ((256 * i + n - 1) / n).
      pose proof (Z.div_mod (256 * i + n - 1) n ltac:(lia)) as Hdm.
      pose proof (Z.mod_pos_bound (256 * i + n - 1) n ltac:(lia)) as Hb.
      set (L := (256 * i + n - 1) / n) in *.
      set (r := (256 * i + n - 1) mod n) in *.
      assert (0 <= L <= 255) as HL by nia.
      split; [done|]. f_equal.
      assert (n * L / 256 = i) as ->; [|lia].
      symmetry. apply (Z.div_unique _ _ _ (n * L - 256 * i)); lia.
Qed.

Lemma ramp_is_used_in_order_witness :
  (forall L1 L2, 0 <= L1 -> L1 <= L2 -> L2 <= 255 ->
     exists i1 i2, Public.charIndex 3 (Int L1) = Int i1
                   /\ Public.charIndex 3 (Int L2) = Int i2
                   /\ 0 <= i1 /\ i1 <= i2 /\ i2 <= 3 - 1)
  /\ Public.charIndex 3 (Int 0) = Int 0
  /\ (3 <= 256 ->
      Public.charIndex 3 (Int 255) = Int (3 - 1)
      /\ forall i, 0 <= i < 3 ->
           exists L, 0 <= L <= 255 /\ Public.charIndex 3 (Int L) = Int i).
Proof. apply (ramp_is_used_in_order 3). lia. Defined.

(** ** Explicit sizes *)

Definition sized (w h : Z) (o : Options.t) : Options.t :=
  {| Options.width := Some (of_int w); Options.height := Some (of_int h);
     Options.brightness := Options.brightness o;
     Options.contrast := Options.contrast o;
     Options.saturation := Options.saturation o;
     Options.grayscale := Options.grayscale o;
     Options.invert := Options.invert o; Options.hue := Options.hue o;
     Options.sepia := Options.sepia o; Options.colorized := Options.colorized o;
     Options.charSet := Options.charSet o;
     Options.customChars := Options.customChars o;
     Options.stretchWidth := None; Options.stretchHeight := None;
     Options.charSetType := Options.charSetType o;
     Options._highResolutionConfirmed := Options._highResolutionConfirmed o |}.

(** What the head computes from an integer size at the default stretch, and the
    test of the prompt. *)
Definition size_kept (n : Z) : bool :=
  match Math_round_int (of_int n * (100 / 100))%float with
  | Int k => (k =? n) && truthy (of_int n)
  | _ => false
  end.

Lemma size_kept_all n : 1 <= n <= 800 -> size_kept n = true.
Proof.
  intros Hn.
  assert (forallb size_kept (seqZ 1 800) = true) as H by (vm_compute; reflexivity).
  rewrite forallb_forall in H. apply H.
  apply list_elem_of_In, elem_of_seqZ. lia.
Qed.

Lemma no_prompt_below n : 1 <= n <= 500 -> (500 <? of_int n)%float = false.
Proof.
  intros Hn.
  assert (forallb (fun n => negb (500 <? of_int n)%float) (seqZ 1 500) = true)
    as H by (vm_compute; reflexivity).
  rewrite forallb_forall in H. apply negb_true_iff, H.
  apply list_elem_of_In, elem_of_seqZ. lia.
Qed.

(** X12.  With the default stretch factors, explicit integer sizes are honoured:
    for a width from 1 to 500 and a height from 1 to 800 in the options, the head
    of the conversion asks no question, reads a canvas of exactly that width and
    height from the image, and fails only if that read does. *)
Theorem explicit_sizes_are_honoured
    (confirm : bool) (img : HTMLImageElement) (o : Options.t) (w h : Z) :
  1 <= w <= 500 -> 1 <= h <= 800 ->
  prepare confirm (Element img) (sized w h o)
  = match drawn img w h with
    | Some pixels =>
        Return {| p_img := img; p_settings := spread defaults (sized w h o);
                  p_width := w; p_height := h; p_pixels := pixels |}
    | None => Throw CanvasError
    end.
Proof.
  intros Hw Hh.
  pose proof (size_kept_all w ltac:(lia)) as Kw.
  pose proof (size_kept_all h ltac:(lia)) as Kh.
  unfold size_kept in Kw, Kh.
  destruct (Math_round_int (of_int w * (100 / 100))%float) as [kw| | |] eqn:Ew;
    try done.
  destruct (Math_round_int (of_int h * (100 / 100))%float) as [kh| | |] eqn:Eh;
    try done.
  apply andb_prop in Kw as [->%Z.eqb_eq _].
  apply andb_prop in Kh as [->%Z.eqb_eq Th].
  unfold prepare, high_resolution_check.
  cbn [Options.width sized]. rewrite (no_prompt_below w Hw). cbn [andb].
  unfold with_height.
  cbn [spread Settings.height Options.height sized default from_option id].
  rewrite Th. cbn [negb].
  unfold effectiveWidth, effectiveHeight.
  cbn [spread Settings.height Settings.width Settings.stretchWidth
       Settings.stretchHeight Options.height Options.width Options.stretchWidth
       Options.stretchHeight sized default from_option defaults id].
  rewrite Ew, Eh. done.
Qed.

Lemma explicit_sizes_are_honoured_witness :
  prepare false (Element white_black) (sized 2 1 Options.empty)
  = match drawn white_black 2 1 with
    | Some pixels =>
        Return {| p_img := white_black;
                  p_settings := spread defaults (sized 2 1 Options.empty);
                  p_width := 2; p_height := 1; p_pixels := pixels |}
    | None => Throw CanvasError
    end.
Proof.
  apply (explicit_sizes_are_honoured false white_black Options.empty 2 1); lia.
Defined.

(** ** The colour map *)

(** Generic facts on the loops. *)
Lemma for_loop_fold {St : Type} (body : Z -> St -> St) n i s :
  for_loop n i body s = foldl (fun s x => body x s) s (seqZ i (Z.of_nat n)).
Proof.
  revert i s. induction n as [|n IH]; intros i s; [done|].
  cbn [for_loop]. rewrite IH.
  rewrite (seqZ_cons i (Z.of_nat (S n))) by lia.
  replace (Z.pred (Z.of_nat (S n))) with (Z.of_nat n) by lia.
  replace (Z.succ i) with (i + 1) by lia. done.
Qed.

Lemma seqZ_seq n : seqZ 0 (Z.of_nat n) = Z.of_nat <$> seq 0 n.
Proof. unfold seqZ. rewrite Nat2Z.id. apply list_fmap_ext. intros; lia. Qed.

(** Writing every index of a list once, in order. *)
Lemma foldl_insert_all {A} (g : nat -> A) (l : list A) :
  foldl (fun r x => <[x := g x]> r) l (seq 0 (length l)) = g <$> seq 0 (length l).
Proof.
  assert (forall k (l : list A), (k <= length l)%nat ->
            foldl (fun r x => <[x := g x]> r) l (seq 0 k)
            = (g <$> seq 0 k) ++ drop k l) as H.
  { induction k as [|k IH]; intros l' Hk; [by rewrite drop_0|].
    rewrite seq_S, foldl_app, IH by lia. cbn [foldl Nat.add].
    rewrite fmap_app. cbn [fmap list_fmap].
    rewrite insert_app_r_alt by (rewrite length_fmap, length_seq; lia).
    rewrite length_fmap, length_seq, Nat.sub_diag, <- app_assoc. f_equal.
    destruct (drop k l') as [|a t] eqn:E.
    - apply (f_equal length) in E. rewrite length_drop in E. cbn in E. lia.
    - cbn [insert list_insert app]. f_equal.
      replace (S k) with (k + 1)%nat by lia. rewrite <- drop_drop, E. done. }
  rewrite H by done. by rewrite drop_all, app_nil_r.
Qed.

Lemma foldl_alter_all {A} (g : nat -> A -> A) (l : list A) :
  foldl (fun m k => alter (g k) k m) l (seq 0 (length l)) = imap g l.
Proof.
  assert (forall k (l : list A), (k <= length l)%nat ->
            foldl (fun m k => alter (g k) k m) l (seq 0 k)
            = imap g (take k l) ++ drop k l) as H.
  { induction k as [|k IH]; intros l' Hk; [by rewrite drop_0|].
    rewrite seq_S, foldl_app, IH by lia. cbn [foldl Nat.add].
    assert (length (imap g (take k l')) = k) as Hl
      by (rewrite length_imap, length_take; lia).
    rewrite alter_app_r_alt by lia. rewrite Hl, Nat.sub_diag.
    destruct (drop k l') as [|a t] eqn:E.
    { apply (f_equal length) in E. rewrite length_drop in E. cbn in E. lia. }
    cbn [alter list_alter].
    assert (take (S k) l' = take k l' ++ [a]) as ->.
    { rewrite (take_S_r _ _ a); [done|].
      rewrite <- (Nat.add_0_r k), <- lookup_drop, E. done. }
    rewrite imap_app, <- app_assoc. cbn [imap app]. rewrite length_take.
    replace (k `min` length l')%nat with k by lia. rewrite Nat.add_0_r.
    do 2 f_equal. replace (S k) with (k + 1)%nat by lia.
    by rewrite <- drop_drop, E. }
  rewrite H by done. by rewrite firstn_all, drop_all, app_nil_r.
Qed.

(** The colour of cell [(x, y)] in a buffer [w] cells wide. *)
Definition color_at (pixels : list Z) (w x y : Z) : Color :=
  let idx := Z.to_nat ((y * w + x) * 4) in
  {| c_r := pixels !! idx; c_g := pixels !! (idx + 1)%nat;
     c_b := pixels !! (idx + 2)%nat |}.

(** The colour map of [public/conv2ascii.js] and that of the ES-module copy, for
    a buffer. *)
Definition Public_color_map (pixels : list Z) (w h : Z) : Public.ColorMap :=
  map (fun y => map (fun x => Some (color_at pixels w x y)) (seqZ 0 w)) (seqZ 0 h).

Definition Esm_color_map (pixels : list Z) (w h : Z) : Esm.ColorMap :=
  map (fun y => map (fun x => color_at pixels w x y) (seqZ 0 w)) (seqZ 0 h).

Lemma Public_cell_snd chars pixels originalPixels w y x s :
  (Public.cell chars pixels originalPixels true w y x s).2
  = alter (fun row => <[Z.to_nat x := Some (color_at originalPixels w x y)]> row)
          (Z.to_nat y) s.2.
Proof. by destruct s. Qed.

Lemma Public_row_snd chars pixels originalPixels w y s :
  0 <= w -> 0 <= y ->
  (Public.row chars pixels originalPixels true w y s).2
  = alter (fun row =>
             foldl (fun r x =>
                      <[x := Some (color_at originalPixels w (Z.of_nat x) y)]> r)
                   row (seq 0 (Z.to_nat w)))
          (Z.to_nat y) s.2.
Proof.
  intros Hw Hy. unfold Public.row. rewrite for_loop_fold, seqZ_seq.
  assert (forall l (st : jsstring * Public.ColorMap),
            (foldl (fun s x =>
                      Public.cell chars pixels originalPixels true w y x s)
                   st (Z.of_nat <$> l)).2
            = alter (fun row =>
                 foldl (fun r x =>
                    <[x := Some (color_at originalPixels w (Z.of_nat x) y)]> r)
                   row l) (Z.to_nat y) st.2) as H.
  { induction l as [|x l IH]; intros st; cbn [fmap list_fmap foldl].
    - symmetry. by apply list_alter_id.
    - rewrite IH, Public_cell_snd.
      etrans; [apply list_alter_alter_eq|]. unfold compose.
      by rewrite Nat2Z.id. }
  specialize (H (seq 0 (Z.to_nat w)) s).
  destruct (foldl _ s _) as [a m]. cbn [snd] in *. done.
Qed.

Lemma Public_rows_snd chars pixels originalPixels w h :
  0 <= w -> 0 <= h ->
  (for_loop (Z.to_nat h) 0 (Public.row chars pixels originalPixels true w)
     ([], replicate (Z.to_nat h) (replicate (Z.to_nat w) None))).2
  = Public_color_map originalPixels w h.
Proof.
  intros Hw Hh. rewrite for_loop_fold, seqZ_seq.
  set (g := fun (y : nat) (row : list (option Color)) =>
              foldl (fun r x =>
                 <[x := Some (color_at originalPixels w (Z.of_nat x) (Z.of_nat y))]> r)
                row (seq 0 (Z.to_nat w))).
  assert (forall l (st : jsstring * Public.ColorMap),
            (foldl (fun s y => Public.row chars pixels originalPixels true w y s)
                   st (Z.of_nat <$> l)).2
            = foldl (fun m k => alter (g k) k m) st.2 l) as H.
  { induction l as [|y l IH]; intros st; cbn [fmap list_fmap foldl]; [done|].
    rewrite IH, Public_row_snd by lia. rewrite Nat2Z.id. done. }
  rewrite H. cbn [snd].
  set (M := replicate (Z.to_nat h) (replicate (Z.to_nat w) (@None Color))).
  assert (length M = Z.to_nat h) as HM by apply length_replicate.
  replace (seq 0 (Z.to_nat h)) with (seq 0 (length M)) by (by rewrite HM).
  etrans; [apply foldl_alter_all|].
  unfold Public_color_map. apply list_eq. intros y.
  rewrite list_lookup_imap.
  rewrite <- (Z2Nat.id h) at 1 by done. rewrite seqZ_seq, <- list_fmap_compose.
  rewrite !list_lookup_fmap. unfold M.
  destruct (decide (y < Z.to_nat h)%nat) as [Hy|Hy].
  - rewrite lookup_replicate_2 by done. rewrite lookup_seq_lt by done.
    cbn [fmap option_fmap option_map Nat.add compose]. f_equal. unfold g.
    replace (seq 0 (Z.to_nat w))
      with (seq 0 (length (replicate (Z.to_nat w) (@None Color))))
      by (by rewrite length_replicate).
    etrans; [apply (foldl_insert_all
               (fun x => Some (color_at originalPixels w (Z.of_nat x) (Z.of_nat y))))|].
    rewrite length_replicate.
    rewrite <- (Z2Nat.id w) at 2 by done. rewrite seqZ_seq.
    by rewrite <- list_fmap_compose.
  - rewrite (proj1 (lookup_replicate_None _ _ _)) by lia.
    rewrite lookup_seq_ge by lia. done.
Qed.

Lemma Esm_cell_snd chars pixels w y x s :
  (Esm.cell chars pixels true w y x s).2 = s.2 ++ [color_at pixels w x y].
Proof. by destruct s. Qed.

Lemma for_loop_snd_append {A C : Type} (g : Z -> C) (body : Z -> A * list C -> A * list C) :
  (forall i s, (body i s).2 = s.2 ++ [g i]) ->
  forall n i s, (for_loop n i body s).2 = s.2 ++ map g (seqZ i (Z.of_nat n)).
Proof.
  intros Hbody. induction n as [|n IH]; intros i s.
  - simpl. by rewrite app_nil_r.
  - cbn [for_loop]. rewrite IH, Hbody.
    rewrite (seqZ_cons i (Z.of_nat (S n))) by lia.
    replace (Z.pred (Z.of_nat (S n))) with (Z.of_nat n) by lia.
    replace (Z.succ i) with (i + 1) by lia.
    simpl. by rewrite <- app_assoc.
Qed.

Lemma Esm_row_snd chars pixels w y s :
  (Esm.row chars pixels true w y s).2
  = s.2 ++ [map (fun x => color_at pixels w x y) (seqZ 0 w)].
Proof.
  unfold Esm.row. destruct s as [ascii colorMap].
  pose proof (for_loop_snd_append (fun x => color_at pixels w x y)
                (Esm.cell chars pixels true w y)
                (Esm_cell_snd chars pixels w y) (Z.to_nat w) 0 ([], [])) as H.
  destruct (for_loop _ _ _ _) as [row rowColors]. cbn [snd] in *.
  by rewrite H, seqZ_of_to_nat.
Qed.

(** X13.  In a colorized run over a grid of valid sizes, the two copies colour
    the glyphs differently: [public/conv2ascii.js] hands [createAsciiImage] the
    colours the canvas had before the adjustments, cell by cell, and the
    ES-module copy the colours after them.  The text is the grid of the glyphs of
    the adjusted buffer, the same as the text of the run that is not colorized. *)
Theorem colorized_image_colours
    (img : HTMLImageElement) (settings : Settings.t) (w h : Z) (pixels : list Z) :
  Settings.colorized settings = true ->
  0 <= w < 4294967296 -> 0 <= h < 4294967296 ->
  (let t := grid_text
              (Public_glyph (Public.active_chars settings)
                 (Public.applyImageAdjustments pixels settings) w) w h in
   Public.convert img settings w h pixels
   = Return {| text := t;
               image := Public.createAsciiImage t (img_width img) (img_height img)
                          settings (Public_color_map pixels w h) |}
   /\ result_text
        (Public.convert img (Settings.set_colorized false settings) w h pixels)
      = Some t)
  /\ (let t := grid_text
                 (Esm_glyph (Esm.active_chars settings)
                    (Esm.applyImageAdjustments pixels settings) w) w h in
      Esm.convert settings w h pixels
      = Return {| text := t;
                  image := Esm.createAsciiImage t w h settings
                             (Esm_color_map
                                (Esm.applyImageAdjustments pixels settings) w h) |}
      /\ result_text
           (Esm.convert (Settings.set_colorized false settings) w h pixels)
         = Some t).
Proof.
  intros Hc Hw Hh. split.
  - cbv zeta. split; [|by rewrite Public_convert_text].
    pose proof (Public_convert_text img settings w h pixels) as Ht.
    unfold Public.convert in *. rewrite Hc in *.
    assert (valid_array_length h = true) as Vh
      by (unfold valid_array_length; apply andb_true_intro; split;
          [apply Z.leb_le|apply Z.ltb_lt]; lia).
    assert (valid_array_length w = true) as Vw
      by (unfold valid_array_length; apply andb_true_intro; split;
          [apply Z.leb_le|apply Z.ltb_lt]; lia).
    rewrite Vh, Vw in *. cbn [negb andb orb] in *. rewrite andb_false_r in *.
    pose proof (Public_rows_snd (Public.active_chars settings)
                  (Public.applyImageAdjustments pixels settings) pixels w h
                  ltac:(lia) ltac:(lia)) as Hs.
    destruct (for_loop _ _ _ _) as [ascii colorMap].
    cbn [snd result_text text] in *. injection Ht as ->. by rewrite Hs.
  - cbv zeta. split; [|by rewrite Esm_convert_text].
    pose proof (Esm_convert_text settings w h pixels) as Ht.
    unfold Esm.convert in *. rewrite Hc in *.
    pose proof (for_loop_snd_append
                  (fun y => map (fun x =>
                     color_at (Esm.applyImageAdjustments pixels settings) w x y)
                     (seqZ 0 w))
                  (Esm.row (Esm.active_chars settings)
                     (Esm.applyImageAdjustments pixels settings) true w)
                  (Esm_row_snd _ _ w) (Z.to_nat h) 0 ([], [])) as Hs.
    destruct (for_loop _ _ _ _) as [ascii colorMap].
    cbn [snd result_text text app] in *. injection Ht as ->.
    rewrite Hs, seqZ_of_to_nat. done.
Qed.

Definition extreme_colorized : Settings.t :=
  Settings.set_colorized true extreme_settings.

Lemma colorized_image_colours_witness :
  (let t := grid_text
              (Public_glyph (Public.active_chars extreme_colorized)
                 (Public.applyImageAdjustments [250; 251; 252; 255] extreme_colorized)
                 1) 1 1 in
   Public.convert green_pixel extreme_colorized 1 1 [250; 251; 252; 255]
   = Return {| text := t;
               image := Public.createAsciiImage t (img_width green_pixel)
                          (img_height green_pixel) extreme_colorized
                          (Public_color_map [250; 251; 252; 255] 1 1) |}
   /\ result_text
        (Public.convert green_pixel (Settings.set_colorized false extreme_colorized)
           1 1 [250; 251; 252; 255])
      = Some t)
  /\ (let t := grid_text
                 (Esm_glyph (Esm.active_chars extreme_colorized)
                    (Esm.applyImageAdjustments [250; 251; 252; 255]
                       extreme_colorized) 1) 1 1 in
      Esm.convert extreme_colorized 1 1 [250; 251; 252; 255]
      = Return {| text := t;
                  image := Esm.createAsciiImage t 1 1 extreme_colorized
                             (Esm_color_map
                                (Esm.applyImageAdjustments [250; 251; 252; 255]
                                   extreme_colorized) 1 1) |}
      /\ result_text
           (Esm.convert (Settings.set_colorized false extreme_colorized)
              1 1 [250; 251; 252; 255])
         = Some t).
Proof.
  apply (colorized_image_colours green_pixel extreme_colorized 1 1
           [250; 251; 252; 255]); [reflexivity|lia|lia].
Defined.

(** ** A level that is not a number *)

Section NotANumber.

Local Open Scope float_scope.

Lemma is_nan_eq x : is_nan x = true -> x = nan.
Proof.
  intros H. apply Prim2SF_inj. change (Prim2SF nan) with S754_nan.
  destruct (Prim2SF x) as [s|s| |s m e] eqn:E; [| |done|];
    exfalso; revert H; unfold is_nan; rewrite FloatAxioms.eqb_spec, E;
    unfold SFeqb, SFcompare.
  - done.
  - by destruct s.
  - rewrite Z.compare_refl, Pos.compare_refl. by destruct s.
Qed.

Lemma nan_add_l y : nan + y = nan.
Proof.
  apply Prim2SF_inj. rewrite FloatAxioms.add_spec.
  change (Prim2SF nan) with S754_nan. done.
Qed.

Lemma nan_add_r x : x + nan = nan.
Proof.
  apply Prim2SF_inj. rewrite FloatAxioms.add_spec.
  change (Prim2SF nan) with S754_nan. by destruct (Prim2SF x).
Qed.

Lemma nan_sub_l y : nan - y = nan.
Proof.
  apply Prim2SF_inj. rewrite FloatAxioms.sub_spec.
  change (Prim2SF nan) with S754_nan. done.
Qed.

Lemma nan_sub_r x : x - nan = nan.
Proof.
  apply Prim2SF_inj. rewrite FloatAxioms.sub_spec.
  change (Prim2SF nan) with S754_nan. by destruct (Prim2SF x).
Qed.

Lemma nan_mul_l y : nan * y = nan.
Proof.
  apply Prim2SF_inj. rewrite FloatAxioms.mul_spec.
  change (Prim2SF nan) with S754_nan. done.
Qed.

Lemma nan_mul_r x : x * nan = nan.
Proof.
  apply Prim2SF_inj. rewrite FloatAxioms.mul_spec.
  change (Prim2SF nan) with S754_nan. by destruct (Prim2SF x).
Qed.

Lemma nan_div_l y : nan / y = nan.
Proof.
  apply Prim2SF_inj. rewrite FloatAxioms.div_spec.
  change (Prim2SF nan) with S754_nan. done.
Qed.

Lemma nan_div_r x : x / nan = nan.
Proof.
  apply Prim2SF_inj. rewrite FloatAxioms.div_spec.
  change (Prim2SF nan) with S754_nan. by destruct (Prim2SF x).
Qed.

End NotANumber.

(** Not-a-number goes through every operation. *)
Ltac nan_through :=
  repeat first
    [ rewrite nan_add_l | rewrite nan_add_r | rewrite nan_sub_l | rewrite nan_sub_r
    | rewrite nan_mul_l | rewrite nan_mul_r | rewrite nan_div_l | rewrite nan_div_r ].

Definition nan3 : rgb := (nan, nan, nan).

(** Once a pixel is not a number, no block of [public/conv2ascii.js] brings it
    back. *)
Lemma Public_blocks_keep_nan settings cf :
  Public.apply_contrast settings cf nan3 = nan3
  /\ Public.apply_saturation settings nan3 = nan3
  /\ Public.apply_grayscale settings nan3 = nan3
  /\ Public.apply_invert settings nan3 = nan3
  /\ Public.apply_sepia settings nan3 = nan3
  /\ Public.apply_hue settings nan3 = nan3.
Proof.
  unfold Public.apply_contrast, Public.apply_saturation, Public.apply_grayscale,
    Public.apply_invert, Public.apply_sepia, Public.apply_hue, nan3.
  repeat split;
    try (match goal with |- (if ?c then _ else _) = _ => destruct c end; [|done];
         nan_through; reflexivity).
  destruct (negb _); [|done].
  change (Public.rgbToHsl nan nan nan) with (nan, nan, nan). cbv beta iota.
  nan_through. reflexivity.
Qed.

Lemma Public_adjust_nan settings p :
  is_nan (Settings.brightness settings) = true
  \/ is_nan (Settings.contrast settings) = true
  \/ is_nan (Settings.saturation settings) = true ->
  Public.adjust settings (Public.contrastFactor settings) p = nan3.
Proof.
  intros H. unfold Public.adjust.
  destruct (Public_blocks_keep_nan settings (Public.contrastFactor settings))
    as (Hc & Hs & Hg & Hi & Hp & Hh).
  assert (Public.apply_saturation settings
            (Public.apply_contrast settings (Public.contrastFactor settings)
               (Public.apply_brightness settings p)) = nan3) as ->.
  { destruct p as [[r g] b].
    destruct H as [H|[H|H]]; apply is_nan_eq in H.
    - assert (forall q, Public.apply_brightness settings q = nan3) as Hq.
      { intros [[r' g'] b']. unfold Public.apply_brightness.
        rewrite H. change (negb (nan =? 100)%float) with true. cbv iota.
        nan_through. reflexivity. }
      by rewrite Hq, Hc, Hs.
    - assert (forall q, Public.apply_contrast settings
                          (Public.contrastFactor settings) q = nan3) as Hq.
      { intros [[r' g'] b']. unfold Public.apply_contrast, Public.contrastFactor.
        rewrite H. change (negb (nan =? 100)%float) with true. cbv iota.
        nan_through. reflexivity. }
      by rewrite Hq, Hs.
    - assert (forall q, Public.apply_saturation settings q = nan3) as Hq.
      { intros [[r' g'] b']. unfold Public.apply_saturation.
        rewrite H. change (negb (nan =? 100)%float) with true. cbv iota.
        nan_through. reflexivity. }
      by rewrite Hq. }
  by rewrite Hg, Hi, Hp, Hh.
Qed.

Lemma Esm_blocks_keep_nan c :
  Esm.apply_contrast c nan3 = nan3
  /\ Esm.apply_saturation c nan3 = nan3
  /\ Esm.apply_grayscale c nan3 = nan3
  /\ Esm.apply_invert c nan3 = nan3
  /\ Esm.apply_hue c nan3 = nan3
  /\ Esm.apply_sepia c nan3 = nan3.
Proof.
  unfold Esm.apply_contrast, Esm.apply_saturation, Esm.apply_grayscale,
    Esm.apply_invert, Esm.apply_sepia, Esm.apply_hue, nan3.
  repeat split;
    try (nan_through; reflexivity);
    try (match goal with |- (if ?c then _ else _) = _ => destruct c end; [|done];
         nan_through; reflexivity).
  destruct (negb _); [|done].
  change (Esm.rgbToHsl nan nan nan) with (nan, nan, nan). cbv beta iota.
  nan_through. reflexivity.
Qed.

Lemma Esm_adjust_nan settings p :
  is_nan (Settings.brightness settings) = true
  \/ is_nan (Settings.contrast settings) = true
  \/ is_nan (Settings.saturation settings) = true ->
  Esm.adjust (Esm.levels settings) p = nan3.
Proof.
  intros H. unfold Esm.adjust.
  destruct (Esm_blocks_keep_nan (Esm.levels settings))
    as (Hc & Hs & Hg & Hi & Hh & Hp).
  assert (Esm.apply_saturation (Esm.levels settings)
            (Esm.apply_contrast (Esm.levels settings)
               (Esm.apply_brightness (Esm.levels settings) p)) = nan3) as ->.
  { destruct p as [[r g] b].
    destruct H as [H|[H|H]]; apply is_nan_eq in H.
    - assert (forall q, Esm.apply_brightness (Esm.levels settings) q = nan3) as Hq.
      { intros [[r' g'] b']. unfold Esm.apply_brightness, Esm.levels.
        cbn [Esm.brightness]. rewrite H. nan_through. reflexivity. }
      by rewrite Hq, Hc, Hs.
    - assert (forall q, Esm.apply_contrast (Esm.levels settings) q = nan3) as Hq.
      { intros [[r' g'] b']. unfold Esm.apply_contrast, Esm.levels.
        cbn [Esm.contrast]. rewrite H. nan_through. reflexivity. }
      by rewrite Hq, Hs.
    - assert (forall q, Esm.apply_saturation (Esm.levels settings) q = nan3) as Hq.
      { intros [[r' g'] b']. unfold Esm.apply_saturation, Esm.levels.
        cbn [Esm.saturation]. rewrite H. nan_through. reflexivity. }
      by rewrite Hq. }
  by rewrite Hg, Hi, Hh, Hp.
Qed.

(** A loop whose body gives no number writes 0 to every colour byte. *)
Lemma adjusted_nan (f : rgb -> rgb) pixels :
  (forall p, f p = nan3) ->
  pixel_loop f (rounds pixels) 0 pixels = map_channels (fun _ => 0) pixels.
Proof.
  intros Hf. apply list_eq. intros j. unfold map_channels.
  rewrite adjusted_lookup, list_lookup_imap, Hf.
  destruct (pixels !! j) as [z|]; [|by case_decide].
  cbn [fmap option_fmap option_map].
  pose proof (Nat.mod_upper_bound j 4 ltac:(lia)) as Hm.
  destruct (Nat.eqb_spec (j mod 4) 3) as [E3|E3]; case_decide; try lia; [done|].
  f_equal. by destruct (j mod 4)%nat as [|[|[|?]]].
Qed.

(** X14.  A brightness, contrast or saturation that is not a number blackens the
    image: in both copies, for every buffer, the adjustment stage writes 0 to the
    three colour bytes of every pixel and leaves the alpha bytes alone, whatever
    the other settings are. *)
Theorem not_a_number_blackens (pixels : list Z) (settings : Settings.t) :
  is_nan (Settings.brightness settings) = true
  \/ is_nan (Settings.contrast settings) = true
  \/ is_nan (Settings.saturation settings) = true ->
  Public.applyImageAdjustments pixels settings = map_channels (fun _ => 0) pixels
  /\ Esm.applyImageAdjustments pixels settings = map_channels (fun _ => 0) pixels.
Proof.
  intros H. split.
  - apply adjusted_nan. intros p. by apply Public_adjust_nan.
  - apply adjusted_nan. intros p. by apply Esm_adjust_nan.
Qed.

(** The options of a caller who passes a brightness that is not a number. *)
Definition without_brightness : Options.t :=
  {| Options.width := Some 2%float; Options.height := None;
     Options.brightness := Some nan; Options.contrast := None;
     Options.saturation := None; Options.grayscale := None;
     Options.invert := None; Options.hue := None;
     Options.sepia := None; Options.colorized := None;
     Options.charSet := Some (Ramp CHAR_SETS_simple); Options.customChars := None;
     Options.stretchWidth := None; Options.stretchHeight := None;
     Options.charSetType := None;
     Options._highResolutionConfirmed := false |}.


Lemma not_a_number_blackens_witness :
  Public.applyImageAdjustments [255; 255; 255; 9] (spread defaults without_brightness)
    = [0; 0; 0; 9]
  /\ Esm.applyImageAdjustments [255; 255; 255; 9] (spread defaults without_brightness)
    = [0; 0; 0; 9].
Proof.
  apply (not_a_number_blackens [255; 255; 255; 9]
           (spread defaults without_brightness)).
  left. vm_compute. reflexivity.
Defined.

(** The text of [h] rows of [w] times the character [c]. *)
Definition one_glyph_text (c : Z) (w h : Z) : jsstring :=
  rows_text (replicate (Z.to_nat h) (replicate (Z.to_nat w) c)).

Lemma concat_map_const {A} (c : Z) (g : A -> jsstring) (l : list A) :
  (forall a, a ∈ l -> g a = [c]) ->
  concat (map g l) = replicate (length l) c.
Proof.
  induction l as [|a l IH]; intros H; [done|].
  cbn [map concat length replicate]. rewrite (H a) by left.
  rewrite IH; [done|]. intros b Hb. apply H. by right.
Qed.

Lemma map_const {A B} (b : B) (g : A -> B) (l : list A) :
  (forall a, a ∈ l -> g a = b) -> map g l = replicate (length l) b.
Proof.
  induction l as [|a l IH]; intros H; [done|].
  cbn [map length replicate]. rewrite (H a) by left.
  rewrite IH; [done|]. intros a' Ha. apply H. by right.
Qed.

Lemma grid_text_one_glyph c glyph w h :
  (forall x y, 0 <= x < w -> 0 <= y < h -> glyph x y = [c]) ->
  grid_text glyph w h = one_glyph_text c w h.
Proof.
  intros Hg. unfold grid_text, one_glyph_text, rows_text.
  f_equal.
  transitivity (map (fun r => r ++ [newline])
                  (map (fun y => concat (map (fun x => glyph x y) (seqZ 0 w)))
                     (seqZ 0 h))); [by rewrite map_map|].
  f_equal. rewrite <- (length_seqZ 0 h). apply map_const. intros y Hy%elem_of_seqZ.
  rewrite <- (length_seqZ 0 w). apply concat_map_const.
  intros x Hx%elem_of_seqZ. apply Hg; lia.
Qed.

(** A cell of a blackened buffer that covers the grid. *)
Lemma cell_rgb_black pixels w h x y :
  4 * w * h <= Z.of_nat (length pixels) ->
  0 <= x < w -> 0 <= y < h ->
  cell_rgb (map_channels (fun _ => 0) pixels) w x y = (of_int 0, of_int 0, of_int 0).
Proof.
  intros Hlen Hx Hy. unfold cell_rgb, pixel_at, map_channels.
  set (idx := Z.to_nat ((y * w + x) * 4)).
  assert (idx + 3 < length pixels)%nat as Hidx by (unfold idx; nia).
  assert (idx mod 4 = 0)%nat as Hm.
  { unfold idx. rewrite Z2Nat.inj_mul by nia.
    change (Z.to_nat 4) with 4%nat. apply Nat.Div0.mod_mul. }
  pose proof (Nat.Div0.div_mod idx 4) as Hd.
  rewrite !list_lookup_imap.
  destruct (lookup_lt_is_Some_2 pixels idx) as [r ->]; [lia|].
  destruct (lookup_lt_is_Some_2 pixels (idx + 1)) as [g ->]; [lia|].
  destruct (lookup_lt_is_Some_2 pixels (idx + 2)) as [b ->]; [lia|].
  cbn [fmap option_fmap option_map to_number].
  assert ((idx + 1) mod 4 = 1)%nat as ->.
  { replace (idx + 1)%nat with (1 + idx / 4 * 4)%nat by lia.
    by rewrite Nat.Div0.mod_add. }
  assert ((idx + 2) mod 4 = 2)%nat as ->.
  { replace (idx + 2)%nat with (2 + idx / 4 * 4)%nat by lia.
    by rewrite Nat.Div0.mod_add. }
  rewrite Hm. done.
Qed.

Lemma Public_glyph_black c cs pixels w h x y :
  4 * w * h <= Z.of_nat (length pixels) ->
  0 <= x < w -> 0 <= y < h ->
  Public_glyph (Ramp (c :: cs)) (map_channels (fun _ => 0) pixels) w x y = [c].
Proof.
  intros Hlen Hx Hy. unfold Public_glyph.
  rewrite (cell_rgb_black pixels w h) by done.
  cbn [chars_length chars_get index_from].
  change (Math_round_int (weighted_luminance (of_int 0) (of_int 0) (of_int 0)))
    with (Int 0).
  unfold Public.charIndex, str_length. cbn [length].
  rewrite Z.mul_0_r. change (0 / 256) with 0.
  rewrite Z.min_r by lia. done.
Qed.

Lemma Esm_glyph_black c cs pixels w h x y :
  str_length (c :: cs) < 2 ^ 53 ->
  4 * w * h <= Z.of_nat (length pixels) ->
  0 <= x < w -> 0 <= y < h ->
  Esm_glyph (Ramp (c :: cs)) (map_channels (fun _ => 0) pixels) w x y = [c].
Proof.
  intros Hlt Hlen Hx Hy. unfold Esm_glyph.
  rewrite (cell_rgb_black pixels w h) by done.
  cbn [chars_length chars_get index_from].
  change (mean (of_int 0) (of_int 0) (of_int 0) / 256)%float with 0%float.
  assert (Math_floor_int (0 * of_int (str_length (c :: cs)))%float = Int 0) as ->.
  { unfold Math_floor_int. rewrite FloatAxioms.mul_spec.
    change (Prim2SF 0) with (S754_zero false).
    pose proof (of_int_pos_fin (str_length (c :: cs))) as Hp.
    destruct (Prim2SF (of_int (str_length (c :: cs)))) as [s|s| |s m e];
      try (exfalso; apply Hp; unfold str_length in *; cbn [length] in *; lia).
    done. }
  unfold Esm.min_index, str_length. cbn [length].
  rewrite Z.min_r by lia. done.
Qed.

(** X15.  A conversion whose brightness, contrast or saturation is not a number
    gives a text of one glyph: when the head of the conversion succeeds, the
    canvas buffer covers the grid and the active ramp is a string that is not
    empty, every cell of the text is the first character of the ramp, in both
    copies. *)
Theorem not_a_number_gives_one_glyph
    (confirm : bool) (imgSource : ImageSource) (options : Options.t) (p : Prepared)
    (c : Z) (cs : jsstring) :
  prepare confirm imgSource options = Return p ->
  is_nan (Settings.brightness (p_settings p)) = true
  \/ is_nan (Settings.contrast (p_settings p)) = true
  \/ is_nan (Settings.saturation (p_settings p)) = true ->
  4 * p_width p * p_height p <= Z.of_nat (length (p_pixels p)) ->
  (Public.active_chars (p_settings p) = Ramp (c :: cs) ->
   forall t, result_text (Public.convertToAscii confirm imgSource options) = Some t ->
             t = one_glyph_text c (p_width p) (p_height p))
  /\ (Esm.active_chars (p_settings p) = Ramp (c :: cs) ->
      str_length (c :: cs) < 2 ^ 53 ->
      result_text (Esm.convertToAscii confirm imgSource options)
      = Some (one_glyph_text c (p_width p) (p_height p))).
Proof.
  intros Hp Hn Hlen.
  unfold Public.convertToAscii, Esm.convertToAscii. rewrite Hp. split.
  - intros Hc t Ht. apply Public_text_grid in Ht. subst t. rewrite Hc.
    apply grid_text_one_glyph. intros x y Hx Hy.
    unfold Public.applyImageAdjustments.
    rewrite (adjusted_nan _ _ (fun q => Public_adjust_nan _ q Hn)).
    by apply (Public_glyph_black _ _ _ _ (p_height p)).
  - intros Hc Hlt. rewrite Esm_convert_text, Hc. f_equal.
    apply grid_text_one_glyph. intros x y Hx Hy.
    unfold Esm.applyImageAdjustments.
    rewrite (adjusted_nan _ _ (fun q => Esm_adjust_nan _ q Hn)).
    by apply (Esm_glyph_black _ _ _ _ (p_height p)).
Qed.

Lemma not_a_number_gives_one_glyph_witness :
  result_text (Esm.convertToAscii false (Element white_black) without_brightness)
  = Some (str "##" ++ [newline]).
Proof.
  refine (proj2 (not_a_number_gives_one_glyph false (Element white_black)
            without_brightness
            {| p_img := white_black;
               p_settings := with_height white_black (spread defaults without_brightness);
               p_width := 2; p_height := 1;
               p_pixels := [255; 255; 255; 255; 0; 0; 0; 255] |}
            35 (str ". ") _ _ _) _ _).
  - vm_compute. reflexivity.
  - left. vm_compute. reflexivity.
  - vm_compute. discriminate.
  - vm_compute. reflexivity.
  - vm_compute. reflexivity.
Defined.


(** ** The settings read from the page *)

(** What [getSettingsFromUI] reads of a control of the page. *)
Record Control := { value : jsstring; checked : bool }.

(** The page: the control with a given id, [None] where [getElementById] gives
    [null]. *)
Definition Document := string -> option Control.

Definition getElementById (document : Document) (id : string) : option Control :=
  document id.

(** White space and line terminators, which [parseInt] skips at the start. *)
Definition is_white_space (c : Z) : bool :=
  existsb (Z.eqb c)
    [9; 10; 11; 12; 13; 32; 160; 5760; 8232; 8233; 8239; 8287; 12288; 65279]
  || ((8192 <=? c) && (c <=? 8202)).

Fixpoint trim_start (s : jsstring) : jsstring :=
  match s with
  | c :: s' => if is_white_space c then trim_start s' else s
  | [] => []
  end.

(** The integer written by the longest prefix of decimal digits, [None] when
    there is no digit; [acc] is the value of the digits read so far. *)
Fixpoint leading_digits (acc : option Z) (s : jsstring) : option Z :=
  match s with
  | c :: s' =>
      if (48 <=? c) && (c <=? 57)
      then leading_digits (Some (10 * default 0 acc + (c - 48))) s'
      else acc
  | [] => acc
  end.

(** The number nearest to an integer: ties to even, infinite past the range. *)
Definition number_of_Z (z : Z) : float :=
  SF2Prim (binary_normalize prec emax z 0 false).

(** [parseInt(v, 10)] of a string or of [undefined] ([None]), whose text is
    "undefined": leading white space, an optional sign, then the leading decimal
    digits; NaN when there is none.  An implementation may read the digits after
    the 20th significant one as zeros; here the integer is taken exactly. *)
Definition parseInt (v : option jsstring) : float :=
  let s := trim_start (default (str "undefined") v) in
  let '(negative, s) :=
    match s with
    | c :: s' =>
        if c =? 45 then (true, s') else if c =? 43 then (false, s') else (false, s)
    | [] => (false, s)
    end in
  match leading_digits None s with
  | None => nan
  | Some 0 => if negative then neg_zero else zero
  | Some n => number_of_Z (if negative then - n else n)
  end.

(** [a || b] on numbers. *)
Definition or_else (a b : float) : float := if truthy a then a else b.

(** [getSettingsFromUI()] of [public/conv2ascii.js]; [None] is the TypeError of
    reading a property of [null]. *)
Definition getSettingsFromUI (document : Document) : option Options.t :=
  charSetType ← value <$> getElementById document "ascii-charSetType";
  let charSet :=
    if decide (charSetType = str "custom") then Ramp CHAR_SETS_standard
    else default (Ramp CHAR_SETS_standard) (CHAR_SETS charSetType) in
  width ← value <$> getElementById document "ascii-width";
  let height := value <$> getElementById document "ascii-height" in
  brightness ← value <$> getElementById document "ascii-brightness";
  contrast ← value <$> getElementById document "ascii-contrast";
  saturation ← value <$> getElementById document "ascii-saturation";
  grayscale ← value <$> getElementById document "ascii-grayscale";
  invert ← value <$> getElementById document "ascii-invert";
  hue ← value <$> getElementById document "ascii-hue";
  sepia ← value <$> getElementById document "ascii-sepia";
  colorized ← checked <$> getElementById document "ascii-colorized";
  customChars ← value <$> getElementById document "ascii-customChars";
  stretchWidth ← value <$> getElementById document "ascii-stretchWidth";
  stretchHeight ← value <$> getElementById document "ascii-stretchHeight";
  Some {| Options.width :=
            Some (or_else (parseInt (Some width)) (Settings.width defaults));
          Options.height := Some (or_else (parseInt height) (Settings.height defaults));
          Options.brightness := Some (parseInt (Some brightness));
          Options.contrast := Some (parseInt (Some contrast));
          Options.saturation := Some (parseInt (Some saturation));
          Options.grayscale := Some (parseInt (Some grayscale));
          Options.invert := Some (parseInt (Some invert));
          Options.hue := Some (parseInt (Some hue));
          Options.sepia := Some (parseInt (Some sepia));
          Options.colorized := Some colorized;
          Options.charSet := Some charSet;
          Options.customChars := Some customChars;
          Options.stretchWidth :=
            Some (or_else (parseInt (Some stretchWidth)) (Settings.stretchWidth defaults));
          Options.stretchHeight :=
            Some (or_else (parseInt (Some stretchHeight))
                    (Settings.stretchHeight defaults));
          Options.charSetType := None;
          Options._highResolutionConfirmed := false |}.

(** The values the select of [initAsciiConverterUI] offers. *)
Definition offered : list jsstring :=
  [str "standard"; str "extended"; str "blocks"; str "simple"; str "custom"].

(** The controls [getSettingsFromUI] cannot do without. *)
Definition required_controls : list string :=
  ["ascii-charSetType"; "ascii-width"; "ascii-brightness"; "ascii-contrast";
   "ascii-saturation"; "ascii-grayscale"; "ascii-invert"; "ascii-hue";
   "ascii-sepia"; "ascii-colorized"; "ascii-customChars"; "ascii-stretchWidth";
   "ascii-stretchHeight"]%string.

(** A page given by the list of its controls. *)
Fixpoint control_of (controls : list (string * Control)) (id : string) : option Control :=
  match controls with
  | (id', c) :: rest => if String.eqb id id' then Some c else control_of rest id
  | [] => None
  end.

Definition input (v : string) : Control := {| value := str v; checked := false |}.

(** A page with every control of [initAsciiConverterUI]: 'simple' selected, a
    width of 2 followed by a unit, a stretch of 0 for the width, and the given
    text in the brightness field. *)
Definition example_page (brightness : string) : Document :=
  control_of
    [("ascii-width", input " 2px"); ("ascii-stretchWidth", input "0");
     ("ascii-stretchHeight", input "100"); ("ascii-brightness", input brightness);
     ("ascii-contrast", input "100"); ("ascii-saturation", input "100");
     ("ascii-grayscale", input "0"); ("ascii-invert", input "0");
     ("ascii-hue", input "0"); ("ascii-sepia", input "0");
     ("ascii-charSetType", input "simple"); ("ascii-customChars", input "");
     ("ascii-colorized", {| value := str "on"; checked := false |})]%string.

(** Reading one required control in [getSettingsFromUI]. *)
Ltac read_control id :=
  destruct (getElementById _ id) eqn:?;
  cbn [mbind option_bind fmap option_fmap option_map]; [|discriminate].

(** What [getSettingsFromUI] returns, control by control. *)
Lemma getSettingsFromUI_Some document o :
  getSettingsFromUI document = Some o ->
  (exists sel, getElementById document "ascii-charSetType" = Some sel
     /\ Options.charSet o
        = Some (if decide (value sel = str "custom") then Ramp CHAR_SETS_standard
                else default (Ramp CHAR_SETS_standard) (CHAR_SETS (value sel))))
  /\ (exists text, getElementById document "ascii-customChars" = Some text
        /\ Options.customChars o = Some (value text))
  /\ (exists c, getElementById document "ascii-width" = Some c
        /\ Options.width o = Some (or_else (parseInt (Some (value c))) 100))
  /\ (exists c, getElementById document "ascii-stretchWidth" = Some c
        /\ Options.stretchWidth o = Some (or_else (parseInt (Some (value c))) 100))
  /\ (exists c, getElementById document "ascii-stretchHeight" = Some c
        /\ Options.stretchHeight o = Some (or_else (parseInt (Some (value c))) 100))
  /\ Options.height o
     = Some (or_else (parseInt (value <$> getElementById document "ascii-height")) 0)
  /\ Options.charSetType o = None
  /\ Options._highResolutionConfirmed o = false.
Proof.
  unfold getSettingsFromUI.
  read_control "ascii-charSetType"%string.
  read_control "ascii-width"%string.
  read_control "ascii-brightness"%string.
  read_control "ascii-contrast"%string.
  read_control "ascii-saturation"%string.
  read_control "ascii-grayscale"%string.
  read_control "ascii-invert"%string.
  read_control "ascii-hue"%string.
  read_control "ascii-sepia"%string.
  read_control "ascii-colorized"%string.
  read_control "ascii-customChars"%string.
  read_control "ascii-stretchWidth"%string.
  read_control "ascii-stretchHeight"%string.
  intros [= <-].
  cbn [Options.charSet Options.customChars Options.width Options.stretchWidth
       Options.stretchHeight Options.height Options.charSetType
       Options._highResolutionConfirmed].
  repeat split; try (eexists; split; [reflexivity|]); reflexivity.
Qed.

(** The head of [convertToAscii] hands the two ramps on as they are. *)
Lemma prepare_keeps confirm imgSource options p :
  prepare confirm imgSource options = Return p ->
  Settings.charSet (p_settings p)
    = default (Ramp CHAR_SETS_standard) (Options.charSet options)
  /\ Settings.customChars (p_settings p) = default [] (Options.customChars options).
Proof.
  unfold prepare.
  set (o := high_resolution_check confirm options).
  assert (Options.charSet o = Options.charSet options
          /\ Options.customChars o = Options.customChars options) as (E1 & E2).
  { unfold o, high_resolution_check. destruct (Options.width options); [|done].
    destruct (_ && _); [|done]. by destruct confirm. }
  rewrite <- E1, <- E2. clearbody o.
  destruct (match imgSource with Element img => Some img | Url loaded => loaded end)
    as [img|]; [|done].
  assert (Settings.charSet (with_height img (spread defaults o))
            = default (Ramp CHAR_SETS_standard) (Options.charSet o)
          /\ Settings.customChars (with_height img (spread defaults o))
             = default [] (Options.customChars o)) as Hs.
  { unfold with_height. by destruct (negb _). }
  destruct (effectiveWidth _) as [w| | |]; try done.
  destruct (effectiveHeight _) as [h| | |]; try done.
  destruct (drawn img w h); [|done].
  by intros [= <-].
Qed.

Lemma getSettingsFromUI_required document o id :
  getSettingsFromUI document = Some o ->
  id ∈ required_controls -> is_Some (getElementById document id).
Proof.
  unfold getSettingsFromUI, required_controls.
  read_control "ascii-charSetType"%string.
  read_control "ascii-width"%string.
  read_control "ascii-brightness"%string.
  read_control "ascii-contrast"%string.
  read_control "ascii-saturation"%string.
  read_control "ascii-grayscale"%string.
  read_control "ascii-invert"%string.
  read_control "ascii-hue"%string.
  read_control "ascii-sepia"%string.
  read_control "ascii-colorized"%string.
  read_control "ascii-customChars"%string.
  read_control "ascii-stretchWidth"%string.
  read_control "ascii-stretchHeight"%string.
  intros _ Hid.
  repeat (apply elem_of_cons in Hid as [->|Hid]; [by eexists|]).
  by apply elem_of_nil in Hid.
Qed.

Lemma getSettingsFromUI_None document :
  getSettingsFromUI document = None ->
  exists id, id ∈ required_controls /\ getElementById document id = None.
Proof.
  unfold getSettingsFromUI, required_controls.
  repeat match goal with
         | |- context [(?f <$> getElementById document ?id) ≫= _] =>
             destruct (getElementById document id) eqn:?;
             cbn [mbind option_bind fmap option_fmap option_map];
             [|intros _; exists id; split; [|done];
              apply list_elem_of_In; cbn [In];
              repeat first [left; reflexivity | right]]
         end.
  discriminate.
Qed.

Lemma or_else_truthy a b : truthy b = true -> truthy (or_else a b) = true.
Proof. intros Hb. unfold or_else. by destruct (truthy a) eqn:E. Qed.

(** X16.  [getSettingsFromUI] of [public/conv2ascii.js] throws exactly when one of
    its thirteen controls is missing from the page; the height control is the one
    it can do without, and the height is then 0.  The settings it returns never
    hold a width or a stretch factor that is 0 or not a number (the default 100
    stands in), a height that is not a number, a [charSetType] or the
    confirmation of the high-resolution prompt. *)
Theorem page_settings_fallbacks (document : Document) :
  (getSettingsFromUI document = None
   <-> exists id, id ∈ required_controls /\ getElementById document id = None)
  /\ (forall o, getSettingsFromUI document = Some o ->
        exists w h sw sh,
          Options.width o = Some w /\ Options.height o = Some h
          /\ Options.stretchWidth o = Some sw /\ Options.stretchHeight o = Some sh
          /\ truthy w = true /\ truthy sw = true /\ truthy sh = true
          /\ (truthy h = true \/ h = 0%float)
          /\ (getElementById document "ascii-height" = None -> h = 0%float)
          /\ Options.charSetType o = None
          /\ Options._highResolutionConfirmed o = false).
Proof.
  split; [split|].
  - apply getSettingsFromUI_None.
  - intros (id & Hid & Hnone).
    destruct (getSettingsFromUI document) as [o|] eqn:E; [|done].
    destruct (getSettingsFromUI_required document o id E Hid) as [c Hc]. congruence.
  - intros o Ho.
    destruct (getSettingsFromUI_Some document o Ho)
      as (_ & _ & (cw & _ & Hw) & (csw & _ & Hsw) & (csh & _ & Hsh) & Hh & Ht & Hc).
    eexists _, _, _, _.
    split; [exact Hw|]. split; [exact Hh|]. split; [exact Hsw|]. split; [exact Hsh|].
    split; [by apply or_else_truthy|]. split; [by apply or_else_truthy|].
    split; [by apply or_else_truthy|]. split; [|split; [|done]].
    + unfold or_else. destruct (truthy (parseInt _)) eqn:E; [by left|by right].
    + by intros ->.
Qed.

Lemma page_settings_fallbacks_witness :
  exists w h sw sh,
    Options.width (default Options.empty (getSettingsFromUI (example_page "")))
    = Some w
    /\ Options.height (default Options.empty (getSettingsFromUI (example_page "")))
       = Some h
    /\ Options.stretchWidth
         (default Options.empty (getSettingsFromUI (example_page ""))) = Some sw
    /\ Options.stretchHeight
         (default Options.empty (getSettingsFromUI (example_page ""))) = Some sh
    /\ truthy w = true /\ truthy sw = true /\ truthy sh = true
    /\ (truthy h = true \/ h = 0%float)
    /\ (getElementById (example_page "") "ascii-height" = None -> h = 0%float)
    /\ Options.charSetType
         (default Options.empty (getSettingsFromUI (example_page ""))) = None
    /\ Options._highResolutionConfirmed
         (default Options.empty (getSettingsFromUI (example_page ""))) = false.
Proof.
  apply (proj2 (page_settings_fallbacks (example_page ""))).
  vm_compute. reflexivity.
Defined.

(** X17.  A conversion by [public/conv2ascii.js] with the settings read from the
    page always has a ramp: the text of the custom field when it is not empty,
    else the set the select names, the standard set for 'custom'.  So when the head
    of the conversion succeeds on a canvas buffer of bytes that covers the grid,
    the text is a grid of characters of that ramp. *)
Theorem page_settings_carry_a_ramp
    (document : Document) (o : Options.t) (sel text : Control)
    (confirm : bool) (imgSource : ImageSource) (p : Prepared) :
  getSettingsFromUI document = Some o ->
  getElementById document "ascii-charSetType" = Some sel ->
  getElementById document "ascii-customChars" = Some text ->
  value sel ∈ offered ->
  prepare confirm imgSource o = Return p ->
  Forall byte (p_pixels p) ->
  4 * p_width p * p_height p <= Z.of_nat (length (p_pixels p)) ->
  exists chars,
    Public.active_chars (p_settings p) = Ramp chars
    /\ chars <> []
    /\ (value text <> [] -> chars = value text)
    /\ (value text = [] -> value sel <> str "custom" ->
        CHAR_SETS (value sel) = Some (Ramp chars))
    /\ (value text = [] -> value sel = str "custom" -> chars = CHAR_SETS_standard)
    /\ (forall t, result_text (Public.convertToAscii confirm imgSource o) = Some t ->
                  grid_of chars (p_width p) (p_height p) t).
Proof.
  intros Ho Hsel Htext Hoff Hp Hb Hlen.
  destruct (getSettingsFromUI_Some document o Ho)
    as ((sel' & Hsel' & Hcs) & (text' & Htext' & Hcc) & _).
  assert (sel' = sel) as -> by congruence.
  assert (text' = text) as -> by congruence.
  destruct (prepare_keeps _ _ _ _ Hp) as (Ecs & Ecc).
  rewrite Hcs in Ecs. rewrite Hcc in Ecc. cbn [default from_option id] in Ecs, Ecc.
  assert (exists named,
            named <> []
            /\ Settings.charSet (p_settings p) = Ramp named
            /\ (value sel <> str "custom" ->
                CHAR_SETS (value sel) = Some (Ramp named))
            /\ (value sel = str "custom" -> named = CHAR_SETS_standard))
    as (named & Hnn & Hn & Hn1 & Hn2).
  { rewrite Ecs. destruct (decide (value sel = str "custom")) as [Hcu|Hcu].
    - by exists CHAR_SETS_standard.
    - unfold offered in Hoff.
      repeat (apply elem_of_cons in Hoff as [Hv|Hoff];
              [first [congruence
                     | rewrite Hv; eexists; split; [|split; [reflexivity|]];
                       [discriminate|done]]|]).
      by apply elem_of_nil in Hoff. }
  assert (forall chars t,
            Public.active_chars (p_settings p) = Ramp chars -> chars <> [] ->
            result_text (Public.convertToAscii confirm imgSource o) = Some t ->
            grid_of chars (p_width p) (p_height p) t) as Hgrid.
  { intros chars t Ha Hne Ht. unfold Public.convertToAscii in Ht. rewrite Hp in Ht.
    apply Public_text_grid in Ht. subst t. rewrite Ha.
    apply grid_text_rows. intros x y Hx Hy.
    apply (Public_glyph_single _ _ _ (p_height p)); try done.
    - by apply adjusted_bytes.
    - unfold Public.applyImageAdjustments. by rewrite pixel_loop_length. }
  destruct (value text) as [|c0 cs0] eqn:Et.
  - exists named.
    assert (Public.active_chars (p_settings p) = Ramp named) as Ha
      by (unfold Public.active_chars; by rewrite Ecc).
    split; [done|]. split; [done|]. split; [done|].
    split; [by intros _|]. split; [by intros _|].
    intros t. by apply Hgrid.
  - exists (c0 :: cs0).
    assert (Public.active_chars (p_settings p) = Ramp (c0 :: cs0)) as Ha
      by (unfold Public.active_chars; by rewrite Ecc).
    split; [done|]. split; [done|]. split; [done|].
    split; [done|]. split; [done|].
    intros t. by apply Hgrid.
Qed.

(** The settings read from the example page. *)
Definition example_options : Options.t :=
  default Options.empty (getSettingsFromUI (example_page "100")).

Lemma page_settings_carry_a_ramp_witness :
  CHAR_SETS (str "simple") = Some (Ramp CHAR_SETS_simple)
  /\ (forall t,
        result_text (Public.convertToAscii false (Element white_black) example_options)
        = Some t ->
        grid_of CHAR_SETS_simple 2 1 t).
Proof.
  pose proof (page_settings_carry_a_ramp (example_page "100") example_options
                (input "simple") (input "") false (Element white_black)
                {| p_img := white_black;
                   p_settings :=
                     with_height white_black (spread defaults example_options);
                   p_width := 2; p_height := 1;
                   p_pixels := [255; 255; 255; 255; 0; 0; 0; 255] |}) as H.
  destruct H as (chars & _ & _ & _ & H3 & _ & H5).
  - vm_compute. reflexivity.
  - vm_compute. reflexivity.
  - vm_compute. reflexivity.
  - apply (bool_decide_unpack _). vm_compute. exact I.
  - vm_compute. reflexivity.
  - repeat constructor; unfold byte; lia.
  - vm_compute. discriminate.
  - assert (CHAR_SETS (str "simple") = Some (Ramp chars)) as E.
    { apply H3; [reflexivity|]. vm_compute. discriminate. }
    assert (chars = CHAR_SETS_simple) as ->
      by (vm_compute in E; injection E as <-; reflexivity).
    split; [done|exact H5].
Defined.

(** ** Products and quotients, up to rounding *)

Section Quotients.

Lemma shr_fexp_stay_loc m e l :
  fexp prec emax (Zdigits2 m + e) <= e ->
  shr_fexp prec emax m e l = (shr_record_of_loc m l, e).
Proof.
  intros H. unfold shr_fexp, shr.
  destruct (_ - e) as [|p|p] eqn:E; try done. lia.
Qed.

Lemma loc_of_shr_record_of_loc m l :
  loc_of_shr_record (shr_record_of_loc m l) = l.
Proof. by destruct l as [|[]]. Qed.

(** [binary_round_aux_crude] for a mantissa that comes with a location: the result
    is within two units of its last place of [m * 2^e]. *)
Lemma binary_round_aux_crude_loc s m e l B :
  -1074 <= B <= 971 -> Z.pos m < 2 ^ (B - e) ->
  exists mf ef,
    binary_round_aux prec emax s (Z.pos m) e l = rounded s mf ef
    /\ 0 <= mf /\ e <= ef /\ -1074 <= ef /\ ef <= Z.max e (fexp prec emax (B + 1))
    /\ Z.abs (mf * 2 ^ (ef - e) - Z.pos m) <= 2 * 2 ^ (ef - e) - 1.
Proof.
  intros HB Hm.
  assert (e < B) as HeB.
  { destruct (decide (e < B)); [done|].
    assert (2 ^ (B - e) <= 2 ^ 0); [|change (2 ^ 0) with 1 in *; lia].
    destruct (decide (B - e = 0)) as [->|]; [done|].
    rewrite Z.pow_neg_r by lia. done. }
  pose proof (digits_le m (B - e) ltac:(lia) Hm) as Hd.
  unfold binary_round_aux.
  set (fe := fexp prec emax (Zdigits2 (Z.pos m) + e)).
  assert (fe = Z.max (Z.pos (digits2_pos m) + e - 53) (-1074)) as Hfe by done.
  rewrite !fexp_bounds.
  destruct (Z_lt_le_dec e fe) as [Hlt|Hle].
  - destruct (shr_fexp_shift (Z.pos m) e l ltac:(lia) Hlt)
      as (mrs' & -> & Hm1). fold fe in Hm1 |- *.
    set (N := 2 ^ (fe - e)) in *.
    assert (2 <= N) as HN.
    { change 2 with (2 ^ 1). apply Z.pow_le_mono_r; lia. }
    pose proof (Z.div_mod (Z.pos m) N ltac:(lia)) as Hdm.
    pose proof (Z.mod_pos_bound (Z.pos m) N ltac:(lia)) as Hb.
    rewrite <- Hm1 in Hdm.
    assert (0 <= shr_m mrs') as Hm1pos.
    { rewrite Hm1. apply Z.div_pos; lia. }
    set (m1 := shr_m mrs') in *. set (b := Z.pos m mod N) in *.
    set (m2 := round_nearest_even m1 (loc_of_shr_record mrs')).
    assert (m2 = m1 \/ m2 = m1 + 1) as Hm2 by apply round_nearest_even_cases.
    set (f2 := fexp prec emax (Zdigits2 m2 + fe)).
    assert (f2 = Z.max (Zdigits2 m2 + fe - 53) (-1074)) as Hf2 by done.
    assert (N <= 2 ^ (B - e)) as HNB.
    { apply Z.pow_le_mono_r; lia. }
    assert (2 ^ (B + 1 - fe) * N = 2 * 2 ^ (B - e)) as Hsplit.
    { unfold N. rewrite <- Z.pow_add_r by lia.
      replace (B + 1 - fe + (fe - e)) with (1 + (B - e)) by lia.
      rewrite Z.pow_add_r by lia. done. }
    assert (m2 < 2 ^ (B + 1 - fe)) as Hm2B.
    { apply (Z.mul_lt_mono_pos_r N); [lia|]. rewrite Hsplit. nia. }
    assert (Zdigits2 m2 + fe <= B + 1) as Hd2.
    { destruct m2 as [|q|q] eqn:Eq; cbn [Zdigits2]; [lia| |lia].
      pose proof (digits_le q (B + 1 - fe) ltac:(lia) Hm2B). lia. }
    destruct (Z_lt_le_dec fe f2) as [Hlt2|Hle2].
    + destruct (shr_fexp_shift m2 fe loc_Exact ltac:(lia) Hlt2)
        as (mrs'' & -> & Hm3). fold f2 in Hm3 |- *.
      set (N2 := 2 ^ (f2 - fe)) in *.
      assert (2 <= N2) as HN2.
      { change 2 with (2 ^ 1). apply Z.pow_le_mono_r; lia. }
      pose proof (Z.div_mod m2 N2 ltac:(lia)) as Hdm2.
      pose proof (Z.mod_pos_bound m2 N2 ltac:(lia)) as Hb2.
      rewrite <- Hm3 in Hdm2.
      assert (0 <= shr_m mrs'') as Hm3pos.
      { rewrite Hm3. apply Z.div_pos; lia. }
      set (m3 := shr_m mrs'') in *. set (a := m2 mod N2) in *.
      exists m3, f2.
      assert (2 ^ (f2 - e) = N2 * N) as Hpow.
      { unfold N2, N. rewrite <- Z.pow_add_r by lia. f_equal. lia. }
      split; [|split; [done|split; [lia|split; [lia|split; [lia|]]]]].
      * destruct m3 as [|q|q]; cbn [rounded]; [done| |lia].
        replace (f2 <=? emax - prec) with true; [done|].
        symmetry. apply Z.leb_le. unfold emax, prec. lia.
      * rewrite Hpow.
        assert (m3 * (N2 * N) - Z.pos m = (m2 - a - m1) * N - b) as -> by nia.
        assert (4 <= N2 * N) by nia.
        assert (- (N2 * N) < (m2 - a - m1) * N - b <= N) by nia.
        nia.
    + rewrite (shr_fexp_stay m2 fe) by (fold f2; done). cbn [shr_m].
      exists m2, fe.
      split; [|split; [lia|split; [lia|split; [lia|split; [lia|]]]]].
      * destruct m2 as [|q|q]; cbn [rounded]; [done| |lia].
        replace (fe <=? emax - prec) with true; [done|].
        symmetry. apply Z.leb_le. unfold emax, prec. lia.
      * fold N. nia.
  - rewrite (shr_fexp_stay_loc (Z.pos m) e l) by done.
    rewrite loc_of_shr_record_of_loc.
    assert (shr_m (shr_record_of_loc (Z.pos m) l) = Z.pos m) as ->
      by (by destruct l as [|[]]).
    set (m2 := round_nearest_even (Z.pos m) l).
    assert (m2 = Z.pos m \/ m2 = Z.pos m + 1) as Hm2
      by apply round_nearest_even_cases.
    set (f2 := fexp prec emax (Zdigits2 m2 + e)).
    assert (f2 = Z.max (Zdigits2 m2 + e - 53) (-1074)) as Hf2 by done.
    assert (m2 < 2 ^ (B + 1 - e)) as Hm2B.
    { replace (B + 1 - e) with (1 + (B - e)) by lia.
      rewrite Z.pow_add_r by lia. change (2 ^ 1) with 2. lia. }
    assert (Zdigits2 m2 + e <= B + 1) as Hd2.
    { destruct m2 as [|q|q] eqn:Eq; cbn [Zdigits2]; [lia| |lia].
      pose proof (digits_le q (B + 1 - e) ltac:(lia) Hm2B). lia. }
    destruct (Z_lt_le_dec e f2) as [Hlt2|Hle2].
    + destruct (shr_fexp_shift m2 e loc_Exact ltac:(lia) Hlt2)
        as (mrs'' & -> & Hm3). fold f2 in Hm3 |- *.
      set (N2 := 2 ^ (f2 - e)) in *.
      assert (2 <= N2) as HN2.
      { change 2 with (2 ^ 1). apply Z.pow_le_mono_r; lia. }
      pose proof (Z.div_mod m2 N2 ltac:(lia)) as Hdm2.
      pose proof (Z.mod_pos_bound m2 N2 ltac:(lia)) as Hb2.
      rewrite <- Hm3 in Hdm2.
      assert (0 <= shr_m mrs'') as Hm3pos.
      { rewrite Hm3. apply Z.div_pos; lia. }
      set (m3 := shr_m mrs'') in *. set (a := m2 mod N2) in *.
      exists m3, f2.
      split; [|split; [done|split; [lia|split; [lia|split; [lia|]]]]].
      * destruct m3 as [|q|q]; cbn [rounded]; [done| |lia].
        replace (f2 <=? emax - prec) with true; [done|].
        symmetry. apply Z.leb_le. unfold emax, prec. lia.
      * fold N2. nia.
    + rewrite (shr_fexp_stay m2 e) by (fold f2; done). cbn [shr_m].
      exists m2, e.
      split; [|split; [lia|split; [lia|split; [lia|split; [lia|]]]]].
      * destruct m2 as [|q|q]; cbn [rounded]; [done| |lia].
        replace (e <=? emax - prec) with true; [done|].
        symmetry. apply Z.leb_le. unfold emax, prec. lia.
      * rewrite Z.sub_diag. change (2 ^ 0) with 1. lia.
Qed.

End Quotients.

Section Quotients2.

Lemma scaled_abs s m e :
  Z.abs (scaled (S754_finite s m e)) = Z.pos m * 2 ^ (e + 1074).
Proof.
  cbn [scaled]. destruct s; cbn [signed];
    rewrite <- ?Pos2Z.opp_pos, ?Z.mul_opp_l, ?Z.abs_opp;
    apply Z.abs_eq; apply Z.mul_nonneg_nonneg; try lia; apply Z.pow_nonneg; lia.
Qed.

Lemma signed_xorb_mul sx sy a b :
  signed (xorb sx sy) (a * b) = signed sx a * signed sy b.
Proof. destruct sx, sy; cbn [xorb signed]; lia. Qed.

(** The product of two finite numbers, of size below [2^B]. *)
Lemma SFmul_scaled x y B :
  valid_binary x = true -> valid_binary y = true -> finite x -> finite y ->
  -1074 <= B <= 971 ->
  Z.abs (scaled x * scaled y) < 2 ^ (B + 1074 + 1074) ->
  finite (SF64mul x y)
  /\ Z.abs (scaled (SF64mul x y) * 2 ^ 1074 - scaled x * scaled y)
     < slack B * 2 ^ 1074.
Proof.
  intros Hx Hy Fx Fy HB Hs.
  assert (0 < slack B * 2 ^ 1074) as Hpos.
  { apply Z.mul_pos_pos; [|done].
    apply Z.pow_pos_nonneg; [lia|]. rewrite fexp_bounds. lia. }
  destruct x as [sx|sx| |sx mx ex], y as [sy|sy| |sy my ey]; try done;
    try (split; [done|]; cbn [SF64mul SFmul scaled];
         rewrite ?Z.mul_0_l, ?Z.mul_0_r; cbn [Z.sub Z.opp Z.abs Z.add]; exact Hpos).
  apply valid_finite in Hx as (Hex & _). apply valid_finite in Hy as (Hey & _).
  cbv [SF64mul SFmul].
  assert (signed (xorb sx sy) (mx * my) * 2 ^ (ex + ey + 1074 + 1074)
          = scaled (S754_finite sx mx ex) * scaled (S754_finite sy my ey)) as Hval.
  { cbn [scaled]. rewrite signed_xorb_mul.
    replace (ex + ey + 1074 + 1074) with ((ex + 1074) + (ey + 1074)) by lia.
    rewrite Z.pow_add_r by lia. lia. }
  destruct (binary_round_aux_scaled (xorb sx sy) (mx * my) (ex + ey) 1074 B)
    as [Hf Hb]; try lia.
  { rewrite Z.abs_mul, !scaled_abs in Hs.
    replace (ex + ey + 1074 + 1074) with ((ex + 1074) + (ey + 1074)) by lia.
    rewrite Z.pow_add_r, Pos2Z.inj_mul by lia. lia. }
  split; [done|]. by rewrite Hval in Hb.
Qed.


Lemma lt_chain p m A D m2 p2 C :
  0 < A -> 0 < D -> 0 < C -> 0 < p -> 0 < m2 ->
  p <= m -> m * A < D * (m2 * C) -> m2 < p2 -> p * A < D * (p2 * C).
Proof.
  intros HA HD HC Hp Hm2 H1 H2 H3.
  assert (p * A <= m * A) by (apply Z.mul_le_mono_nonneg_r; lia).
  assert (m2 * C < p2 * C) by (apply Z.mul_lt_mono_pos_r; lia).
  assert (D * (m2 * C) < D * (p2 * C)) by (apply Z.mul_lt_mono_pos_l; lia).
  lia.
Qed.

Lemma le_chain p m A D m2 p2 C :
  0 < A -> 0 < D -> 0 < C -> 0 < p -> 0 < m2 ->
  p <= m -> m * A <= D * (m2 * C) -> m2 < p2 -> p * A < D * (p2 * C).
Proof.
  intros HA HD HC Hp Hm2 H1 H2 H3.
  assert (p * A <= m * A) by (apply Z.mul_le_mono_nonneg_r; lia).
  assert (m2 * C < p2 * C) by (apply Z.mul_lt_mono_pos_r; lia).
  assert (D * (m2 * C) < D * (p2 * C)) by (apply Z.mul_lt_mono_pos_l; lia).
  lia.
Qed.

Lemma quotient_error_sign (sx sy : bool) mf E my C mx A K W U m' :
  E * C = W * U -> Z.pos mx * A * K = m' * U -> 0 < U ->
  Z.abs ((if xorb sx sy then - mf else mf) * E * (signed sy my * C)
         - signed sx mx * A * K)
  = Z.abs (mf * W * Z.pos my - m') * U.
Proof.
  intros HR HX HU.
  replace (Z.abs (mf * W * Z.pos my - m') * U)
    with (Z.abs ((mf * W * Z.pos my - m') * U))
    by (rewrite Z.abs_mul, (Z.abs_eq U); lia).
  destruct sx, sy; cbn [xorb signed]; rewrite <- ?Pos2Z.opp_pos.
  - replace (mf * E * (- Z.pos my * C) - - Z.pos mx * A * K)
      with (- (mf * Z.pos my * (E * C) - Z.pos mx * A * K)) by ring.
    rewrite HR, HX, Z.abs_opp. f_equal. ring.
  - replace (- mf * E * (Z.pos my * C) - - Z.pos mx * A * K)
      with (- (mf * Z.pos my * (E * C) - Z.pos mx * A * K)) by ring.
    rewrite HR, HX, Z.abs_opp. f_equal. ring.
  - replace (- mf * E * (- Z.pos my * C) - Z.pos mx * A * K)
      with (mf * Z.pos my * (E * C) - Z.pos mx * A * K) by ring.
    rewrite HR, HX. f_equal. ring.
  - replace (mf * E * (Z.pos my * C) - Z.pos mx * A * K)
      with (mf * Z.pos my * (E * C) - Z.pos mx * A * K) by ring.
    rewrite HR, HX. f_equal. ring.
Qed.

(** The quotient of two finite numbers, of size below [2^B] and not below
    [2^-900] unless it is zero. *)
Lemma SFdiv_scaled x y B :
  valid_binary x = true -> valid_binary y = true -> finite x -> finite y ->
  scaled y <> 0 ->
  -1074 <= B <= 971 ->
  Z.abs (scaled x) * 2 ^ 1074 < 2 ^ (B + 1074) * Z.abs (scaled y) ->
  scaled x = 0 \/ Z.abs (scaled y) <= Z.abs (scaled x) * 2 ^ 900 ->
  finite (SF64div x y)
  /\ Z.abs (scaled (SF64div x y) * scaled y - scaled x * 2 ^ 1074)
     < slack B * Z.abs (scaled y).
Proof.
  intros Hx Hy Fx Fy Hy0 HB Hup Hlow.
  assert (0 < slack B) as Hpos.
  { apply Z.pow_pos_nonneg; [lia|]. rewrite fexp_bounds. lia. }
  destruct y as [sy|sy| |sy my ey]; try done.
  destruct x as [sx|sx| |sx mx ex]; try done.
  { split; [done|]. cbn [SF64div SFdiv scaled]. rewrite !Z.mul_0_l.
    cbn [Z.sub Z.opp Z.abs Z.add]. apply Z.mul_pos_pos; [done|by apply Z.abs_pos]. }
  apply valid_finite in Hx as (Hex & Hmx & _).
  apply valid_finite in Hy as (Hey & Hmy & _).
  rewrite !scaled_abs in *.
  destruct Hlow as [Hz|Hlow].
  { exfalso. cbn [scaled] in Hz.
    assert (0 < 2 ^ (ex + 1074)) by (apply Z.pow_pos_nonneg; lia).
    destruct sx; cbn [signed] in Hz; nia. }
  set (a := ex + 1074) in *. set (b := ey + 1074) in *.
  assert (0 < 2 ^ a) as Ha by (apply Z.pow_pos_nonneg; lia).
  assert (0 < 2 ^ b) as Hb by (apply Z.pow_pos_nonneg; lia).
  pose proof (digits2_pos_lower mx) as Hd1l. pose proof (digits2_pos_upper mx) as Hd1u.
  pose proof (digits2_pos_lower my) as Hd2l. pose proof (digits2_pos_upper my) as Hd2u.
  set (d1 := Z.pos (digits2_pos mx)) in *. set (d2 := Z.pos (digits2_pos my)) in *.
  assert (1 <= d1 <= 53) as Hd1.
  { split; [unfold d1; lia|]. apply (digits_le mx 53); [lia|done]. }
  assert (1 <= d2 <= 53) as Hd2.
  { split; [unfold d2; lia|]. apply (digits_le my 53); [lia|done]. }
  (* the position of the quotient *)
  assert (d1 + ex - (d2 + ey) <= B) as HqB.
  { assert (d1 - 1 + a + 1074 < d2 + B + 1074 + b); [|lia].
    apply pow2_lt_inv; [lia|].
    rewrite (Z.pow_add_r 2 (d1 - 1 + a) 1074), (Z.pow_add_r 2 (d1 - 1) a) by lia.
    replace (d2 + B + 1074 + b) with (B + 1074 + (d2 + b)) by lia.
    rewrite (Z.pow_add_r 2 (B + 1074) (d2 + b)), (Z.pow_add_r 2 d2 b) by lia.
    assert (0 < 2 ^ (B + 1074)) by (apply Z.pow_pos_nonneg; lia).
    assert (0 < 2 ^ 1074) by done.
    assert (0 < 2 ^ (d1 - 1)) by (apply Z.pow_pos_nonneg; lia).
    rewrite <- Z.mul_assoc.
    apply (lt_chain _ (Z.pos mx) _ _ (Z.pos my)); lia. }
  assert (-900 <= d1 + ex - (d2 + ey)) as HqL.
  { assert (d2 - 1 + b < d1 + a + 900); [|lia].
    apply pow2_lt_inv; [lia|].
    rewrite (Z.pow_add_r 2 (d2 - 1) b) by lia.
    rewrite (Z.pow_add_r 2 (d1 + a) 900), (Z.pow_add_r 2 d1 a) by lia.
    assert (0 < 2 ^ 900) by done.
    assert (0 < 2 ^ (d2 - 1)) by (apply Z.pow_pos_nonneg; lia).
    rewrite <- (Z.mul_1_l (2 ^ d1 * 2 ^ a * 2 ^ 900)).
    replace (2 ^ d1 * 2 ^ a * 2 ^ 900) with (2 ^ d1 * (2 ^ a * 2 ^ 900)) by lia.
    apply (le_chain _ (Z.pos my) _ _ (Z.pos mx)); lia. }
  cbv [SF64div SFdiv SFdiv_core_binary]. cbn [Zdigits2]. fold d1 d2.
  rewrite fexp_bounds.
  replace (Z.max (d1 + ex - (d2 + ey) - 53) (-1074))
    with (d1 + ex - (d2 + ey) - 53) by lia.
  set (e' := Z.min (d1 + ex - (d2 + ey) - 53) (ex - ey)).
  set (s := ex - ey - e').
  assert (d2 - d1 + 53 <= s) as Hs by (unfold s, e'; lia).
  destruct s as [|sp|sp] eqn:Es; try lia.
  rewrite Z.shiftl_mul_pow2 by lia. rewrite <- Es in *. clear Es sp.
  set (m' := Z.pos mx * 2 ^ s).
  pose proof (Z_div_mod m' (Z.pos my) ltac:(lia)) as Hdiv.
  destruct (Z.div_eucl m' (Z.pos my)) as [q r]. destruct Hdiv as [Hm' Hr].
  assert (0 < 2 ^ s) as Hs2 by (apply Z.pow_pos_nonneg; lia).
  assert (Z.pos my * 2 ^ 52 <= m') as Hbig.
  { unfold m'.
    assert (2 ^ (d2 - d1 + 53) <= 2 ^ s) by (apply Z.pow_le_mono_r; lia).
    assert (2 ^ (d1 - 1) * 2 ^ (d2 - d1 + 53) = 2 ^ d2 * 2 ^ 52) as Hp.
    { rewrite <- !Z.pow_add_r by lia. f_equal. lia. }
    assert (0 < 2 ^ (d1 - 1)) by (apply Z.pow_pos_nonneg; lia).
    assert (0 < 2 ^ 52) by done.
    nia. }
  assert (2 ^ 52 <= q) as Hq.
  { assert (0 < 2 ^ 52) by done. nia. }
  destruct q as [|qp|qp]; try lia.
  (* the size of the quotient *)
  assert (e' + ey + 2148 >= 0) as HU0 by (unfold e'; lia).
  set (U := 2 ^ (e' + ey + 2148)).
  assert (0 < U) as HU by (apply Z.pow_pos_nonneg; lia).
  assert (Z.pos mx * 2 ^ a * 2 ^ 1074 = m' * U) as HX.
  { unfold m', U. rewrite <- !Z.mul_assoc, <- !Z.pow_add_r by lia.
    f_equal. f_equal. unfold a, s. lia. }
  assert (e' <= B) as He'B by (unfold e'; lia).
  assert (2 ^ (B + 1074) * 2 ^ b = 2 ^ (B - e') * U) as HY.
  { unfold U. rewrite <- !Z.pow_add_r by lia. f_equal. unfold b. lia. }
  assert (Z.pos qp < 2 ^ (B - e')) as HqB'.
  { assert (m' * U < 2 ^ (B - e') * U * Z.pos my) by (rewrite <- HX, <- HY; lia).
    assert (m' < 2 ^ (B - e') * Z.pos my) by nia.
    nia. }
  destruct (binary_round_aux_crude_loc (xorb sx sy) qp e'
              (new_location (Z.pos my) r) B HB HqB')
    as (mf & ef & -> & Hmf & Hef1 & Hef2 & Hef3 & Herr).
  split; [by apply rounded_finite|].
  rewrite rounded_scaled by done.
  assert (ef <= fexp prec emax (B + 1)) as HefF.
  { rewrite fexp_bounds in *. unfold e' in *. lia. }
  set (W := 2 ^ (ef - e')) in *.
  assert (1 <= W) as HW.
  { change 1 with (2 ^ 0). apply Z.pow_le_mono_r; lia. }
  assert (2 ^ (ef + 1074) * 2 ^ b = W * U) as HR.
  { unfold W, U. rewrite <- !Z.pow_add_r by lia. f_equal. unfold b. lia. }
  assert (Z.abs ((if xorb sx sy then - mf else mf) * 2 ^ (ef + 1074)
                 * scaled (S754_finite sy my ey)
                 - scaled (S754_finite sx mx ex) * 2 ^ 1074)
          = Z.abs (mf * W * Z.pos my - m') * U) as ->.
  { cbn [scaled]. fold a b. by apply quotient_error_sign. }
  assert (Z.abs (mf * W * Z.pos my - m') < 2 * W * Z.pos my) as Hfin.
  { rewrite Hm'. set (t := mf * W - Z.pos qp) in *.
    assert (mf * W * Z.pos my - (Z.pos my * Z.pos qp + r) = Z.pos my * t - r) as ->
      by (unfold t; ring).
    assert (- (2 * W - 1) <= t <= 2 * W - 1) as Ht by lia.
    assert (Z.pos my * t <= Z.pos my * (2 * W - 1))
      by (apply Z.mul_le_mono_nonneg_l; lia).
    assert (Z.pos my * - (2 * W - 1) <= Z.pos my * t)
      by (apply Z.mul_le_mono_nonneg_l; lia).
    replace (2 * W * Z.pos my) with (Z.pos my * (2 * W - 1) + Z.pos my) by ring.
    rewrite Z.mul_opp_r in *. lia. }
  assert (2 * W * U <= slack B * 2 ^ b) as Hsl.
  { unfold slack. rewrite <- Z.mul_assoc, <- HR.
    assert (2 * 2 ^ (ef + 1074) <= 2 ^ (fexp prec emax (B + 1) + 1075)).
    { change 2 with (2 ^ 1) at 1. rewrite <- Z.pow_add_r by lia.
      apply Z.pow_le_mono_r; lia. }
    rewrite Z.mul_assoc. apply Z.mul_le_mono_nonneg_r; lia. }
  set (X := Z.abs (mf * W * Z.pos my - m')) in *.
  assert (X * U < 2 * W * Z.pos my * U) by (apply Z.mul_lt_mono_pos_r; lia).
  assert (2 * W * U * Z.pos my <= slack B * 2 ^ b * Z.pos my)
    by (apply Z.mul_le_mono_nonneg_r; lia).
  lia.
Qed.

End Quotients2.

(** * The round trip through HSL *)

From Stdlib Require Import Reals Lra.


(** ** The value of a number, as a real *)

Section Values.

Local Open Scope R_scope.

(** 2^1074, the number of units of the smallest positive number in 1. *)
Definition units : R := IZR (2 ^ 1074).

(** The value of a finite number. *)
Definition val (x : float) : R := IZR (scaled (Prim2SF x)) / units.

Definition fin (x : float) : Prop := finite (Prim2SF x).

(** The rounding error allowed to one operation whose result is below 256. *)
Definition eps : R := / 8796093022208.

Lemma units_pos : 0 < units.
Proof. apply IZR_lt. done. Qed.

Lemma eps_pos : 0 < eps.
Proof. unfold eps. lra. Qed.

Lemma slack_units : IZR (slack 8) = eps * units.
Proof.
  unfold eps, units.
  change (slack 8) with (2 ^ 1031)%Z.
  change (2 ^ 1074)%Z with (8796093022208 * 2 ^ 1031)%Z.
  rewrite mult_IZR. field.
Qed.

Lemma bound_units : IZR (2 ^ (8 + 1074)) = 256 * units.
Proof.
  unfold units. change (2 ^ (8 + 1074))%Z with (256 * 2 ^ 1074)%Z.
  by rewrite mult_IZR.
Qed.

Lemma Rabs_div_units a : Rabs (a / units) = Rabs a / units.
Proof.
  unfold Rdiv. rewrite Rabs_mult, (Rabs_pos_eq (/ units)); [done|].
  left. apply Rinv_0_lt_compat, units_pos.
Qed.

Lemma lt_div_units a b : a < b * units -> a / units < b.
Proof.
  intros H. pose proof units_pos.
  apply (Rmult_lt_reg_r units); [done|]. unfold Rdiv.
  rewrite Rmult_assoc, Rinv_l by lra. lra.
Qed.

Lemma div_units_lt a b : a / units < b -> a < b * units.
Proof.
  intros H. pose proof units_pos.
  apply (Rmult_lt_compat_r units) in H; [|done]. unfold Rdiv in H.
  rewrite Rmult_assoc, Rinv_l in H by lra. lra.
Qed.

End Values.

Section ValueOperations.

Local Open Scope R_scope.

Lemma val_IZR x z : scaled (Prim2SF x) = (z * 2 ^ 1074)%Z -> val x = IZR z.
Proof.
  intros H. unfold val, units. rewrite H, mult_IZR. field.
  apply not_0_IZR. done.
Qed.

Lemma Rabs_IZR_lt a b : Rabs (IZR a) < IZR b -> (Z.abs a < b)%Z.
Proof. rewrite <- abs_IZR. apply lt_IZR. Qed.

Lemma IZR_Rabs_lt a b : (Z.abs a < b)%Z -> Rabs (IZR a) < IZR b.
Proof. rewrite <- abs_IZR. apply IZR_lt. Qed.

(** One addition. *)
Lemma val_add (x y : float) :
  fin x -> fin y -> Rabs (val x + val y) < 256 ->
  fin (x + y) /\ Rabs (val (x + y) - (val x + val y)) < eps.
Proof.
  intros Fx Fy H. unfold val in *.
  destruct (add_scaled x y 8) as [Ff Hb]; [done|done|lia| |].
  - apply Rabs_IZR_lt. rewrite plus_IZR, bound_units.
    apply div_units_lt. rewrite <- Rabs_div_units.
    replace ((IZR (scaled (Prim2SF x)) + IZR (scaled (Prim2SF y))) / units)
      with (IZR (scaled (Prim2SF x)) / units + IZR (scaled (Prim2SF y)) / units)
      by (unfold Rdiv; ring).
    done.
  - split; [done|]. apply IZR_Rabs_lt in Hb.
    rewrite minus_IZR, plus_IZR, slack_units in Hb.
    apply lt_div_units in Hb. rewrite <- Rabs_div_units in Hb.
    replace (IZR (scaled (Prim2SF (x + y))) / units
             - (IZR (scaled (Prim2SF x)) / units + IZR (scaled (Prim2SF y)) / units))
      with ((IZR (scaled (Prim2SF (x + y)))
             - (IZR (scaled (Prim2SF x)) + IZR (scaled (Prim2SF y)))) / units)
      by (unfold Rdiv; ring).
    done.
Qed.

(** One subtraction. *)
Lemma val_sub (x y : float) :
  fin x -> fin y -> Rabs (val x - val y) < 256 ->
  fin (x - y) /\ Rabs (val (x - y) - (val x - val y)) < eps.
Proof.
  intros Fx Fy H. unfold val in *.
  destruct (sub_scaled x y 8) as [Ff Hb]; [done|done|lia| |].
  - apply Rabs_IZR_lt. rewrite minus_IZR, bound_units.
    apply div_units_lt. rewrite <- Rabs_div_units.
    replace ((IZR (scaled (Prim2SF x)) - IZR (scaled (Prim2SF y))) / units)
      with (IZR (scaled (Prim2SF x)) / units - IZR (scaled (Prim2SF y)) / units)
      by (unfold Rdiv; ring).
    done.
  - split; [done|]. apply IZR_Rabs_lt in Hb.
    rewrite !minus_IZR, slack_units in Hb.
    apply lt_div_units in Hb. rewrite <- Rabs_div_units in Hb.
    replace (IZR (scaled (Prim2SF (x - y))) / units
             - (IZR (scaled (Prim2SF x)) / units - IZR (scaled (Prim2SF y)) / units))
      with ((IZR (scaled (Prim2SF (x - y)))
             - (IZR (scaled (Prim2SF x)) - IZR (scaled (Prim2SF y)))) / units)
      by (unfold Rdiv; ring).
    done.
Qed.

(** One multiplication. *)
Lemma val_mul (x y : float) :
  fin x -> fin y -> Rabs (val x * val y) < 256 ->
  fin (x * y) /\ Rabs (val (x * y) - val x * val y) < eps.
Proof.
  intros Fx Fy H. unfold val in *. pose proof units_pos as HU.
  unfold fin. rewrite mul_spec.
  destruct (SFmul_scaled (Prim2SF x) (Prim2SF y) 8) as [Ff Hb];
    [apply Prim2SF_valid|apply Prim2SF_valid|done|done|lia| |].
  - apply Rabs_IZR_lt. rewrite mult_IZR.
    replace (IZR (2 ^ (8 + 1074 + 1074))) with (256 * units * units).
    2:{ unfold units. rewrite <- !mult_IZR. f_equal. }
    apply div_units_lt, div_units_lt. rewrite <- !Rabs_div_units.
    replace (IZR (scaled (Prim2SF x)) * IZR (scaled (Prim2SF y)) / units / units)
      with (IZR (scaled (Prim2SF x)) / units * (IZR (scaled (Prim2SF y)) / units))
      by (field; lra).
    done.
  - split; [done|]. apply IZR_Rabs_lt in Hb.
    rewrite minus_IZR, !mult_IZR, slack_units in Hb. fold units in Hb.
    apply lt_div_units, lt_div_units in Hb. rewrite <- !Rabs_div_units in Hb.
    replace (IZR (scaled (SF64mul (Prim2SF x) (Prim2SF y))) / units
             - IZR (scaled (Prim2SF x)) / units * (IZR (scaled (Prim2SF y)) / units))
      with ((IZR (scaled (SF64mul (Prim2SF x) (Prim2SF y))) * units
             - IZR (scaled (Prim2SF x)) * IZR (scaled (Prim2SF y))) / units / units)
      by (field; lra).
    done.
Qed.

(** One division, of a number that is zero or not 2^40 times smaller than the
    divisor. *)
Lemma val_div (x y : float) :
  fin x -> fin y -> val y <> 0 ->
  Rabs (val x) < 256 * Rabs (val y) ->
  val x = 0 \/ Rabs (val y) <= Rabs (val x) * 1099511627776 ->
  fin (x / y) /\ Rabs (val (x / y) - val x / val y) < eps.
Proof.
  intros Fx Fy Hy0 H Hl. unfold val in *. pose proof units_pos as HU.
  unfold fin. rewrite div_spec.
  set (X := scaled (Prim2SF x)) in *. set (Y := scaled (Prim2SF y)) in *.
  assert (IZR Y <> 0) as HY.
  { intros E. apply Hy0. rewrite E. unfold Rdiv. ring. }
  assert (Y <> 0%Z) as HYz by (intros E; apply HY; by rewrite E).
  assert (0 < Rabs (IZR Y)) as HYa by (by apply Rabs_pos_lt).
  rewrite !Rabs_div_units in H, Hl.
  destruct (SFdiv_scaled (Prim2SF x) (Prim2SF y) 8) as [Ff Hb];
    [apply Prim2SF_valid|apply Prim2SF_valid|done|done|done|lia| | |].
  - apply lt_IZR. rewrite !mult_IZR, !abs_IZR, bound_units. fold units X Y.
    assert (Rabs (IZR X) < 256 * Rabs (IZR Y)).
    { unfold Rdiv in H. 
      apply (Rmult_lt_reg_r (/ units)); [by apply Rinv_0_lt_compat|]. lra. }
    nra.
  - destruct Hl as [Hl|Hl].
    + left. apply eq_IZR. unfold Rdiv in Hl.
      apply Rmult_integral in Hl as [Hl|Hl]; [done|].
      exfalso. apply (Rinv_neq_0_compat units); [lra|done].
    + right. apply le_IZR. rewrite mult_IZR, !abs_IZR. fold X Y.
      assert (Rabs (IZR Y) <= Rabs (IZR X) * 1099511627776).
      { apply (Rmult_le_reg_r (/ units)); [by apply Rinv_0_lt_compat|].
        unfold Rdiv in Hl. lra. }
      assert (IZR (2 ^ 900) >= 1099511627776).
      { apply Rle_ge. apply IZR_le. done. }
      pose proof (Rabs_pos (IZR X)). nra.
  - split; [done|]. fold X Y in Hb. apply IZR_lt in Hb.
    rewrite mult_IZR, !abs_IZR, minus_IZR, !mult_IZR, slack_units in Hb.
    fold units in Hb.
    set (Q := IZR (scaled (SF64div (Prim2SF x) (Prim2SF y)))) in *.
    replace (Q / units - IZR X / units / (IZR Y / units))
      with ((Q * IZR Y - IZR X * units) / (units * IZR Y)) by (field; lra).
    unfold Rdiv. rewrite Rabs_mult.
    rewrite Rabs_inv, Rabs_mult, (Rabs_pos_eq units) by lra.
    apply (Rmult_lt_reg_r (units * Rabs (IZR Y))); [nra|].
    rewrite Rmult_assoc, Rinv_l by nra. lra.
Qed.

(** The order of finite numbers is the order of their values. *)
Lemma val_ltb (x y : float) :
  fin x -> fin y -> (x <? y)%float = true <-> val x < val y.
Proof.
  intros Fx Fy. rewrite FloatAxioms.ltb_spec. unfold SFltb.
  rewrite SFcompare_scaled by (done || apply Prim2SF_valid).
  pose proof units_pos as HU. unfold val.
  destruct (_ ?= _)%Z eqn:E.
  - apply Z.compare_eq in E. rewrite E. split; [done|]. lra.
  - apply (proj1 (Z.compare_lt_iff _ _)) in E. apply IZR_lt in E.
    split; [|done]. intros _. unfold Rdiv.
    apply Rmult_lt_compat_r; [by apply Rinv_0_lt_compat|done].
  - apply (proj1 (Z.compare_gt_iff _ _)) in E. apply IZR_lt in E.
    split; [done|]. intros H. exfalso.
    assert (IZR (scaled (Prim2SF y)) / units < IZR (scaled (Prim2SF x)) / units).
    { unfold Rdiv. apply Rmult_lt_compat_r; [by apply Rinv_0_lt_compat|done]. }
    lra.
Qed.

Lemma val_eqb (x y : float) :
  fin x -> fin y -> (x =? y)%float = true <-> val x = val y.
Proof.
  intros Fx Fy. rewrite FloatAxioms.eqb_spec. unfold SFeqb.
  rewrite SFcompare_scaled by (done || apply Prim2SF_valid).
  pose proof units_pos as HU. unfold val.
  destruct (_ ?= _)%Z eqn:E.
  - apply Z.compare_eq in E. rewrite E. done.
  - apply (proj1 (Z.compare_lt_iff _ _)) in E. apply IZR_lt in E.
    split; [done|]. intros H. exfalso.
    assert (IZR (scaled (Prim2SF x)) / units < IZR (scaled (Prim2SF y)) / units).
    { unfold Rdiv. apply Rmult_lt_compat_r; [by apply Rinv_0_lt_compat|done]. }
    lra.
  - apply (proj1 (Z.compare_gt_iff _ _)) in E. apply IZR_lt in E.
    split; [done|]. intros H. exfalso.
    assert (IZR (scaled (Prim2SF y)) / units < IZR (scaled (Prim2SF x)) / units).
    { unfold Rdiv. apply Rmult_lt_compat_r; [by apply Rinv_0_lt_compat|done]. }
    lra.
Qed.

End ValueOperations.

Section BasicValues.

Local Open Scope R_scope.

Lemma fin_not_nan x : fin x -> is_nan x = false.
Proof.
  unfold fin. intros H. destruct (is_nan x) eqn:E; [|done].
  apply is_nan_eq in E. subst x. done.
Qed.

Lemma val_0 : val 0 = 0.
Proof. apply (val_IZR 0 0). reflexivity. Qed.

Lemma val_1 : val 1 = 1.
Proof. apply (val_IZR 1 1). reflexivity. Qed.

Lemma val_2 : val 2 = 2.
Proof. apply (val_IZR 2 2). reflexivity. Qed.

Lemma val_3 : val 3 = 3.
Proof. apply (val_IZR 3 3). reflexivity. Qed.

Lemma val_4 : val 4 = 4.
Proof. apply (val_IZR 4 4). reflexivity. Qed.

Lemma val_6 : val 6 = 6.
Proof. apply (val_IZR 6 6). reflexivity. Qed.

Lemma val_255 : val 255 = 255.
Proof. apply (val_IZR 255 255). reflexivity. Qed.

Lemma val_half : val 0.5 = / 2.
Proof.
  unfold val, units. change (scaled (Prim2SF 0.5)) with (2 ^ 1073)%Z.
  change (2 ^ 1074)%Z with (2 * 2 ^ 1073)%Z. rewrite mult_IZR.
  field. apply not_0_IZR. done.
Qed.

(** A byte read as a number. *)
Lemma val_of_int z : byte z -> fin (of_int z) /\ val (of_int z) = IZR z.
Proof.
  intros Hz.
  assert ((fun z => match Prim2SF (of_int z) with
                    | S754_zero _ | S754_finite _ _ _ =>
                        (scaled (Prim2SF (of_int z)) =? z * 2 ^ 1074)%Z
                    | _ => false
                    end) z = true) as H.
  { revert z Hz. apply byte_cases. vm_compute. reflexivity. }
  cbv beta in H. unfold fin.
  destruct (Prim2SF (of_int z)) eqn:E; try done;
    (split; [done|]; apply val_IZR; rewrite E; by apply Z.eqb_eq).
Qed.

(** The quotient of two small integers. *)
Lemma val_ratio (x y : float) (a b : Z) :
  fin x -> fin y -> val x = IZR a -> val y = IZR b ->
  (0 <= a <= 255)%Z -> (1 <= b <= 255)%Z ->
  fin (x / y) /\ Rabs (val (x / y) - IZR a / IZR b) < eps.
Proof.
  intros Fx Fy Hx Hy Ha Hb.
  assert (1 <= IZR b <= 255) as Hb' by (split; apply IZR_le; lia).
  assert (0 <= IZR a <= 255) as Ha' by (split; apply IZR_le; lia).
  destruct (val_div x y) as [F H]; try done.
  - rewrite Hy. lra.
  - rewrite Hx, Hy, !Rabs_pos_eq by lra. lra.
  - rewrite Hx, Hy, !Rabs_pos_eq by lra.
    destruct (decide (a = 0%Z)) as [->|Hne]; [by left|right].
    assert (1 <= IZR a) by (apply IZR_le; lia). lra.
  - split; [done|]. by rewrite Hx, Hy in H.
Qed.

Lemma val_sixth : fin (1 / 6) /\ Rabs (val (1 / 6) - / 6) < eps.
Proof.
  destruct (val_ratio 1 6 1 6) as [F H]; try done; try lia.
  - exact val_1.
  - exact val_6.
  - split; [done|]. replace (/ 6) with (1 / 6) by lra. done.
Qed.

Lemma val_third : fin (1 / 3) /\ Rabs (val (1 / 3) - / 3) < eps.
Proof.
  destruct (val_ratio 1 3 1 3) as [F H]; try done; try lia.
  - exact val_1.
  - exact val_3.
  - split; [done|]. replace (/ 3) with (1 / 3) by lra. done.
Qed.

Lemma val_two_thirds : fin (2 / 3) /\ Rabs (val (2 / 3) - 2 / 3) < eps.
Proof.
  destruct (val_ratio 2 3 2 3) as [F H]; try done; try lia.
  - exact val_2.
  - exact val_3.
Qed.

Lemma val_one_half : fin (1 / 2) /\ val (1 / 2) = / 2.
Proof. split; [done|]. change (1 / 2)%float with 0.5%float. exact val_half. Qed.

(** A channel divided by 255. *)
Lemma val_channel z :
  byte z ->
  fin (of_int z / 255) /\ Rabs (val (of_int z / 255) - IZR z / 255) < eps.
Proof.
  intros Hz. destruct (val_of_int z Hz) as [F V].
  apply (val_ratio (of_int z) 255 z 255); try done; try lia.
  exact val_255.
Qed.

(** [Math.max] and [Math.min] of finite numbers. *)
Lemma val_Math_max a b :
  fin a -> fin b ->
  fin (Math_max a b) /\ val (Math_max a b) = Rmax (val a) (val b).
Proof.
  intros Fa Fb. unfold Math_max.
  rewrite (fin_not_nan a), (fin_not_nan b) by done. cbn [orb].
  pose proof (val_ltb a b Fa Fb) as Hab. pose proof (val_ltb b a Fb Fa) as Hba.
  destruct (a <? b)%float.
  - split; [done|]. rewrite Rmax_right; [done|]. left. by apply Hab.
  - destruct (b <? a)%float.
    + split; [done|]. rewrite Rmax_left; [done|]. left. by apply Hba.
    + assert (val a = val b) as E.
      { destruct (Rtotal_order (val a) (val b)) as [H|[H|H]]; [|done|].
        - apply Hab in H. done.
        - apply Hba in H. done. }
      destruct (get_sign a); (split; [done|]); rewrite E, Rmax_left; lra.
Qed.

Lemma val_Math_min a b :
  fin a -> fin b ->
  fin (Math_min a b) /\ val (Math_min a b) = Rmin (val a) (val b).
Proof.
  intros Fa Fb. unfold Math_min.
  rewrite (fin_not_nan a), (fin_not_nan b) by done. cbn [orb].
  pose proof (val_ltb a b Fa Fb) as Hab. pose proof (val_ltb b a Fb Fa) as Hba.
  destruct (b <? a)%float.
  - split; [done|]. rewrite Rmin_right; [done|]. left. by apply Hba.
  - destruct (a <? b)%float.
    + split; [done|]. rewrite Rmin_left; [done|]. left. by apply Hab.
    + assert (val a = val b) as E.
      { destruct (Rtotal_order (val a) (val b)) as [H|[H|H]]; [|done|].
        - apply Hab in H. done.
        - apply Hba in H. done. }
      destruct (get_sign a); (split; [done|]); rewrite E, Rmin_left; lra.
Qed.

(** A number within a third of a byte is stored as that byte, clamped or not. *)
Lemma stored_near z x :
  byte z -> fin x -> Rabs (val x - IZR z) < / 3 ->
  ToUint8Clamp (truncate x) = z.
Proof.
  intros Hz Fx H. apply ToUint8Clamp_truncate_near; [done|].
  destruct (near_bounds z Hz) as (Flo & Fhi & Slo & Shi).
  assert (val (of_int z - 0.5) = IZR z - / 2) as Vlo.
  { unfold val, units. rewrite Slo.
    change (2 ^ 1074)%Z with (2 * 2 ^ 1073)%Z.
    rewrite !mult_IZR, minus_IZR, mult_IZR. field. apply not_0_IZR. done. }
  assert (val (of_int z + 0.5) = IZR z + / 2) as Vhi.
  { unfold val, units. rewrite Shi.
    change (2 ^ 1074)%Z with (2 * 2 ^ 1073)%Z.
    rewrite !mult_IZR, plus_IZR, mult_IZR. field. apply not_0_IZR. done. }
  apply Rabs_def2 in H as [H1 H2].
  unfold near. apply andb_true_intro. split.
  - apply val_ltb; [done|done|]. rewrite Vlo. lra.
  - apply val_ltb; [done|done|]. rewrite Vhi. lra.
Qed.

End BasicValues.

(** ** Approximations *)

Section Within.

Local Open Scope R_scope.

(** [x] is [X], up to [e]. *)
Definition within (e x X : R) : Prop := X - e <= x <= X + e.

Lemma eps_small : eps < / 1000000000000.
Proof. unfold eps. lra. Qed.

Lemma Rabs_within e x X : Rabs (x - X) < e -> within e x X.
Proof. intros [H1 H2]%Rabs_def2. unfold within. lra. Qed.

Lemma within_Rabs e x X : within e x X -> Rabs (x - X) <= e.
Proof. unfold within. intros H. apply Rabs_le. lra. Qed.

Lemma within_weaken e e' x X : within e x X -> e <= e' -> within e' x X.
Proof. unfold within. lra. Qed.

Lemma Rabs_lt_bound x b : - b < x < b -> Rabs x < b.
Proof. intros H. apply Rabs_def1; lra. Qed.

(** The sum of two approximations. *)
Lemma within_add (x y : float) X Y ex ey :
  fin x -> fin y -> within ex (val x) X -> within ey (val y) Y ->
  -100 <= X <= 100 -> -100 <= Y <= 100 -> 0 <= ex <= 1 -> 0 <= ey <= 1 ->
  fin (x + y) /\ within (ex + ey + eps) (val (x + y)) (X + Y).
Proof.
  unfold within. intros Fx Fy Hx Hy BX BY Bx By.
  destruct (val_add x y Fx Fy) as [F H%Rabs_within].
  - apply Rabs_lt_bound. lra.
  - split; [done|]. unfold within in *. lra.
Qed.

(** The difference of two approximations. *)
Lemma within_sub (x y : float) X Y ex ey :
  fin x -> fin y -> within ex (val x) X -> within ey (val y) Y ->
  -100 <= X <= 100 -> -100 <= Y <= 100 -> 0 <= ex <= 1 -> 0 <= ey <= 1 ->
  fin (x - y) /\ within (ex + ey + eps) (val (x - y)) (X - Y).
Proof.
  unfold within. intros Fx Fy Hx Hy BX BY Bx By.
  destruct (val_sub x y Fx Fy) as [F H%Rabs_within].
  - apply Rabs_lt_bound. lra.
  - split; [done|]. unfold within in *. lra.
Qed.

(** The product of two approximations, of numbers bounded by [BX] and [BY]. *)
Lemma within_mul (x y : float) X Y ex ey BX BY :
  fin x -> fin y -> within ex (val x) X -> within ey (val y) Y ->
  - BX <= X <= BX -> - BY <= Y <= BY -> 0 <= ex <= 1 -> 0 <= ey <= 1 ->
  BX <= 14 -> BY <= 14 ->
  fin (x * y)
  /\ within (ex * (BY + 1) + BX * ey + eps) (val (x * y)) (X * Y).
Proof.
  unfold within. intros Fx Fy Hx Hy HBX HBY Bx By HB1 HB2.
  set (a := val x) in *. set (b := val y) in *.
  assert (0 <= BX) as HBX0 by lra. assert (0 <= BY) as HBY0 by lra.
  assert (- (BX + 1) <= a <= BX + 1) as Ha by lra.
  assert (- (BY + 1) <= b <= BY + 1) as Hb by lra.
  assert (- 225 <= a * b <= 225) as Hab.
  { clear -Ha Hb HB1 HB2 HBX0 HBY0.
    assert (- 15 <= a <= 15) by lra. assert (- 15 <= b <= 15) by lra.
    split; nra. }
  assert (a * b - X * Y = (a - X) * b + X * (b - Y)) as Hsplit by ring.
  assert (- (ex * (BY + 1)) <= (a - X) * b <= ex * (BY + 1)) as H1.
  { clear -Hx Hb Bx HBY0. set (u := a - X) in *.
    assert (- ex <= u <= ex) by (unfold u; lra).
    assert (0 <= ex * (BY + 1)) by nra.
    destruct (Rle_dec 0 u), (Rle_dec 0 b); split; nra. }
  assert (- (BX * ey) <= X * (b - Y) <= BX * ey) as H2.
  { clear -Hy HBX By HBX0. set (u := b - Y) in *.
    assert (- ey <= u <= ey) by (unfold u; lra).
    assert (0 <= BX * ey) by nra.
    destruct (Rle_dec 0 u), (Rle_dec 0 X); split; nra. }
  destruct (val_mul x y Fx Fy) as [F Hr%Rabs_within].
  - fold a b. apply Rabs_lt_bound. lra.
  - split; [done|]. unfold within in Hr. fold a b in Hr. lra.
Qed.

(** The product of an approximation of a number in [0,1] with 255. *)
Lemma within_mul_255 (x : float) X ex :
  fin x -> within ex (val x) X -> 0 <= X <= 1 -> 0 <= ex <= / 1000 ->
  fin (x * 255) /\ within (255 * ex + eps) (val (x * 255)) (X * 255).
Proof.
  unfold within. intros Fx Hx HX Bx.
  destruct (val_mul x 255 Fx I) as [F Hr%Rabs_within].
  - rewrite val_255. apply Rabs_lt_bound. lra.
  - split; [done|]. unfold within in Hr. rewrite val_255 in Hr. lra.
Qed.

(** The quotient of two approximations: the divisor is at least [c], the
    quotient at most [Q] in size, and the dividend is zero or not small. *)
Lemma within_div_c (x y : float) X Y ex ey c Q :
  fin x -> fin y -> within ex (val x) X -> within ey (val y) Y ->
  / 1000 <= c -> c <= Y - ey -> Y + ey <= 1000 ->
  0 <= Q <= 100 -> - Q * Y <= X <= Q * Y ->
  0 <= ex <= / 1000000 -> 0 <= ey <= / 1000000 ->
  val x = 0 \/ / 100000 <= X \/ X <= - / 100000 ->
  fin (x / y)
  /\ within ((ex + Q * ey) / c + eps) (val (x / y)) (X / Y).
Proof.
  unfold within. intros Fx Fy Hx Hy Hc HcY HY HQ HX Bx By Hnz.
  set (a := val x) in *. set (b := val y) in *.
  assert (0 < c) as Hc0 by lra.
  assert (c <= b) as Hb by lra.
  assert (0 < Y) as HY0 by lra.
  assert (a / b - X / Y = ((a - X) - (X / Y) * (b - Y)) / b) as Hsplit
    by (field; lra).
  assert (- Q <= X / Y <= Q) as HXY.
  { split.
    - apply (Rmult_le_reg_r Y); [done|]. unfold Rdiv.
      rewrite Rmult_assoc, Rinv_l by lra. lra.
    - apply (Rmult_le_reg_r Y); [done|]. unfold Rdiv.
      rewrite Rmult_assoc, Rinv_l by lra. lra. }
  set (r := X / Y) in *. set (db := b - Y) in *.
  assert (- ey <= db <= ey) as Hdb by (unfold db; lra).
  assert (- (Q * ey) <= r * db <= Q * ey) as H2.
  { clear -HXY Hdb HQ By.
    assert (0 <= Q * ey) by (apply Rmult_le_pos; lra).
    destruct (Rle_dec 0 r), (Rle_dec 0 db); split; nra. }
  set (n := (a - X) - r * db) in *.
  assert (- (ex + Q * ey) <= n <= ex + Q * ey) as Hn by (unfold n; lra).
  set (E := ex + Q * ey) in *.
  assert (0 <= Q * ey) as HQe by (apply Rmult_le_pos; lra).
  assert (0 <= E) as He by (unfold E; lra).
  assert (0 < / b) as Hib by (apply Rinv_0_lt_compat; lra).
  assert (/ b <= / c) as Hbc by (apply Rinv_le_contravar; lra).
  assert (- (E / c) <= n / b <= E / c) as Hq.
  { unfold Rdiv. clear -Hn He Hib Hbc.
    assert (E * / b <= E * / c) by (apply Rmult_le_compat_l; lra).
    assert (n * / b <= E * / b) by (apply Rmult_le_compat_r; lra).
    assert (- E * / b <= n * / b) by (apply Rmult_le_compat_r; lra).
    lra. }
  assert (Q * ey <= 100 * ey) as HQ100 by (apply Rmult_le_compat_r; lra).
  assert (Q * Y <= Q * b + Q * ey) as HQY.
  { replace (Q * b + Q * ey) with (Q * (b + ey)) by ring.
    apply Rmult_le_compat_l; unfold db in *; lra. }
  assert (Q * b <= 100 * b) as HQb by (apply Rmult_le_compat_r; lra).
  destruct (val_div x y Fx Fy) as [F Hr%Rabs_within].
  - fold b. lra.
  - fold a b. rewrite (Rabs_pos_eq b) by lra.
    apply Rabs_lt_bound. lra.
  - fold a b. rewrite (Rabs_pos_eq b) by lra.
    destruct Hnz as [Hz|Hnz]; [by left|right].
    assert (/ 200000 <= Rabs a) as Ha.
    { destruct Hnz as [Hp|Hm].
      - rewrite Rabs_pos_eq by lra. lra.
      - rewrite Rabs_left by lra. lra. }
    assert (b <= 1001) by lra. lra.
  - split; [done|]. unfold within in Hr. fold a b in Hr.
    fold E. lra.
Qed.

(** The same, the divisor being at least [1/k]. *)
Lemma within_div (x y : float) X Y ex ey k Q :
  fin x -> fin y -> within ex (val x) X -> within ey (val y) Y ->
  0 < k <= 1000 -> / k <= Y - ey -> Y + ey <= 1000 ->
  0 <= Q <= 100 -> - Q * Y <= X <= Q * Y ->
  0 <= ex <= / 1000000 -> 0 <= ey <= / 1000000 ->
  val x = 0 \/ / 100000 <= X \/ X <= - / 100000 ->
  fin (x / y)
  /\ within ((ex + Q * ey) * k + eps) (val (x / y)) (X / Y).
Proof.
  intros Fx Fy Hx Hy Hk HkY HY HQ HX Bx By Hnz.
  destruct (within_div_c x y X Y ex ey (/ k) Q) as [F H]; try done.
  - apply Rinv_le_contravar; lra.
  - split; [done|]. unfold Rdiv in H. rewrite Rinv_inv in H. done.
Qed.

End Within.

(** ** Lightness and saturation *)

Section Chroma.

Local Open Scope R_scope.

Lemma within_exact (x : float) X : val x = X -> within 0 (val x) X.
Proof. intros ->. unfold within. lra. Qed.

(** What [rgbToHsl] makes of the largest and the smallest channel, and what
    [hslToRgb] makes of that again: [q] is the largest channel, [p] the
    smallest, up to rounding. *)
Lemma chroma_ends (mx mn : float) (zM zm : Z) :
  fin mx -> fin mn ->
  within eps (val mx) (IZR zM / 255) -> within eps (val mn) (IZR zm / 255) ->
  (0 <= zm)%Z -> (zm < zM)%Z -> (zM <= 255)%Z ->
  let l := ((mx + mn) / 2)%float in
  let d := (mx - mn)%float in
  let s := (if 0.5 <? l then d / (2 - mx - mn) else d / (mx + mn))%float in
  let q := (if l <? 0.5 then l * (1 + s) else l + s - l * s)%float in
  let p := (2 * l - q)%float in
  fin d /\ within (3 * eps) (val d) ((IZR zM - IZR zm) / 255)
  /\ fin s /\ (s =? 0)%float = false
  /\ fin q /\ within (4000 * eps) (val q) (IZR zM / 255)
  /\ fin p /\ within (4000 * eps) (val p) (IZR zm / 255).
Proof.
  intros Fmx Fmn Hmx Hmn Hz0 Hz1 Hz2.
  pose proof eps_pos as He. pose proof eps_small as Hes.
  assert (0 <= IZR zm) as HB0 by (apply IZR_le; lia).
  assert (IZR zm + 1 <= IZR zM) as HAB.
  { rewrite <- plus_IZR. apply IZR_le. lia. }
  assert (IZR zM <= 255) as HA1 by (apply IZR_le; lia).
  set (A := IZR zM / 255) in *. set (B := IZR zm / 255) in *.
  assert (0 <= B) as HB by (unfold B; lra).
  assert (B + / 255 <= A) as HAB' by (unfold A, B; lra).
  assert (A <= 1) as HA by (unfold A; lra).
  replace ((IZR zM - IZR zm) / 255) with (A - B) by (unfold A, B; lra).
  intros l d s q p.
  (* the sum, the lightness and the difference *)
  destruct (within_add mx mn A B eps eps) as [Fsum Hsum]; try done; try lra.
  destruct (within_div (mx + mn) 2 (A + B) 2 (eps + eps + eps) 0 1 1)
    as [Fl Hl]; try done; try lra.
  { apply within_exact, val_2. }
  fold l in Fl, Hl.
  assert (within (4 * eps) (val l) ((A + B) / 2)) as Hl'.
  { eapply within_weaken; [exact Hl|]. lra. }
  clear Hl.
  destruct (within_sub mx mn A B eps eps) as [Fd Hd]; try done; try lra.
  fold d in Fd, Hd.
  assert (within (3 * eps) (val d) (A - B)) as Hd'.
  { eapply within_weaken; [exact Hd|]. lra. }
  clear Hd.
  split; [done|]. split; [done|].
  (* twice the lightness *)
  destruct (within_mul 2 l 2 ((A + B) / 2) 0 (4 * eps) 2 1) as [F2l H2l];
    try done; try lra.
  { apply within_exact, val_2. }
  assert (within (9 * eps) (val (2 * l)) (A + B)) as H2l'.
  { replace (A + B) with (2 * ((A + B) / 2)) by lra.
    eapply within_weaken; [exact H2l|]. lra. }
  clear H2l.
  (* the saturation *)
  assert (exists S,
            fin s /\ within (1800 * eps) (val s) S /\ / 510 <= S <= 1
            /\ ((0.5 <? l)%float = true -> S * (2 - A - B) = A - B)
            /\ ((0.5 <? l)%float = false -> S * (A + B) = A - B)) as
    (S & Fs & Hs & HS & HS1 & HS2).
  { unfold s. destruct (0.5 <? l)%float eqn:E.
    - destruct (within_sub 2 mx 2 A 0 eps) as [Ft1 Ht1]; try done; try lra.
      { apply within_exact, val_2. }
      destruct (within_sub (2 - mx) mn (2 - A) B (0 + eps + eps) eps)
        as [Ft2 Ht2]; try done; try lra.
      assert (/ 255 <= 2 - A - B) as HY.
      { assert (IZR zM + IZR zm <= 509); [|unfold A, B; lra].
        rewrite <- plus_IZR. apply IZR_le. lia. }
      destruct (within_div d (2 - mx - mn) (A - B) (2 - A - B)
                  (3 * eps) (0 + eps + eps + eps + eps) 256 1)
        as [Fs Hs]; try done; try lra.
      exists ((A - B) / (2 - A - B)).
      split; [done|]. split; [eapply within_weaken; [exact Hs|]; lra|].
      assert ((A - B) / (2 - A - B) * (2 - A - B) = A - B) as Hid by (field; lra).
      split; [|split; [done|done]].
      set (S := (A - B) / (2 - A - B)) in *.
      split; nra.
    - destruct (within_div d (mx + mn) (A - B) (A + B)
                  (3 * eps) (eps + eps + eps) 256 1)
        as [Fs Hs]; try done; try lra.
      exists ((A - B) / (A + B)).
      split; [done|]. split; [eapply within_weaken; [exact Hs|]; lra|].
      assert ((A - B) / (A + B) * (A + B) = A - B) as Hid by (field; lra).
      split; [|split; [done|done]].
      set (S := (A - B) / (A + B)) in *.
      split; nra. }
  split; [done|]. split.
  { destruct (s =? 0)%float eqn:E; [|done]. exfalso.
    apply (val_eqb s 0 Fs I) in E. rewrite val_0 in E.
    unfold within in Hs. lra. }
  (* the two ends *)
  assert (fin q /\ within (3990 * eps) (val q) A) as [Fq Hq].
  { unfold q. destruct (l <? 0.5)%float eqn:E1.
    - apply (val_ltb l 0.5 Fl I) in E1. rewrite val_half in E1.
      assert ((0.5 <? l)%float = false) as E2.
      { destruct (0.5 <? l)%float eqn:E; [|done].
        apply (val_ltb 0.5 l I Fl) in E. rewrite val_half in E. lra. }
      specialize (HS2 E2).
      destruct (within_add 1 s 1 S 0 (1800 * eps)) as [F1s H1s]; try done; try lra.
      { apply within_exact, val_1. }
      destruct (within_mul l (1 + s) ((A + B) / 2) (1 + S)
                  (4 * eps) (0 + 1800 * eps + eps) 1 2) as [Fq Hq];
        try done; try lra.
      split; [done|].
      replace A with ((A + B) / 2 * (1 + S)) by nra.
      eapply within_weaken; [exact Hq|]. lra.
    - destruct (within_add l s ((A + B) / 2) S (4 * eps) (1800 * eps))
        as [Fls Hls]; try done; try lra.
      destruct (within_mul l s ((A + B) / 2) S (4 * eps) (1800 * eps) 1 1)
        as [Fm Hm]; try done; try lra.
      destruct (within_sub (l + s) (l * s) ((A + B) / 2 + S) ((A + B) / 2 * S)
                  (4 * eps + 1800 * eps + eps)
                  (4 * eps * (1 + 1) + 1 * (1800 * eps) + eps))
        as [Fq Hq]; try done; try lra.
      { split; nra. }
      split; [done|].
      destruct (0.5 <? l)%float eqn:E2.
      + specialize (HS1 eq_refl).
        replace A with ((A + B) / 2 + S - (A + B) / 2 * S) by nra.
        eapply within_weaken; [exact Hq|]. lra.
      + specialize (HS2 eq_refl).
        (* the lightness is one half *)
        assert (val l = / 2) as Hhalf.
        { destruct (Rtotal_order (val l) (/ 2)) as [H|[H|H]]; [|done|].
          - rewrite <- val_half in H. apply (val_ltb l 0.5 Fl I) in H. congruence.
          - rewrite <- val_half in H. apply (val_ltb 0.5 l I Fl) in H. congruence. }
        unfold within in Hl'. rewrite Hhalf in Hl'.
        assert (- (8 * eps) <= (A + B) / 2 + S - (A + B) / 2 * S - A <= 8 * eps)
          as Hoff.
        { assert ((A + B) / 2 + S - (A + B) / 2 * S - A
                  = S * (1 - (A + B))) as -> by nra.
          assert (- (8 * eps) <= 1 - (A + B) <= 8 * eps) by lra.
          destruct HS as [HS HS']. split; nra. }
        unfold within in *. lra. }
  split; [done|]. split; [eapply within_weaken; [exact Hq|]; lra|].
  destruct (within_sub (2 * l) q (A + B) A (9 * eps) (3990 * eps))
    as [Fp Hp]; try done; try lra.
  fold p in Fp, Hp. split; [done|].
  replace B with (A + B - A) by lra.
  eapply within_weaken; [exact Hp|]. lra.
Qed.

End Chroma.

(** ** The hue *)

Section Hue.

Local Open Scope R_scope.

(** A finite number whose value is zero is a zero. *)
Lemma val_zero x :
  fin x -> val x = 0 -> exists s, Prim2SF x = S754_zero s.
Proof.
  unfold fin, val. intros F H. pose proof (Prim2SF_valid x) as V.
  destruct (Prim2SF x) as [s|s| |s m e]; try done; [by exists s|].
  exfalso. apply valid_finite in V as (He & _).
  pose proof (scaled_sign s m e He) as Hs.
  assert (IZR (scaled (S754_finite s m e)) = 0) as Hz.
  { pose proof units_pos. unfold Rdiv in H.
    apply Rmult_integral in H as [H|H]; [done|].
    exfalso. apply (Rinv_neq_0_compat units); [lra|done]. }
  apply eq_IZR in Hz. cbn [scaled] in Hz. destruct s; lia.
Qed.

Lemma zero_val x s : Prim2SF x = S754_zero s -> fin x /\ val x = 0.
Proof.
  intros H. unfold fin, val. rewrite H. split; [done|].
  cbn [scaled]. unfold Rdiv. ring.
Qed.

(** A number minus itself. *)
Lemma val_sub_self x : fin x -> fin (x - x) /\ val (x - x) = 0.
Proof.
  unfold fin. intros F.
  assert (exists s, Prim2SF (x - x) = S754_zero s) as [s Hs].
  { rewrite sub_spec. destruct (Prim2SF x) as [s|s| |s m e]; try done.
    - exists false. by destruct s.
    - exists false. cbv [SF64sub SFsub]. rewrite Z.sub_diag. reflexivity. }
  by apply (zero_val _ s).
Qed.

(** Zero divided by a number that is not zero. *)
Lemma val_div_zero x y :
  fin x -> val x = 0 -> fin y -> val y <> 0 -> fin (x / y) /\ val (x / y) = 0.
Proof.
  intros Fx Hx Fy Hy. destruct (val_zero x Fx Hx) as [s Hs].
  assert (exists s', Prim2SF (x / y) = S754_zero s') as [s' Hs'].
  { rewrite div_spec, Hs. unfold fin in Fy.
    destruct (Prim2SF y) as [sy|sy| |sy my ey] eqn:E; try done.
    - exfalso. apply Hy. by apply (zero_val y sy).
    - by eexists. }
  by apply (zero_val _ s').
Qed.

(** Zero plus zero. *)
Lemma val_add_zero x : fin x -> val x = 0 -> fin (x + 0) /\ val (x + 0) = 0.
Proof.
  intros Fx Hx. destruct (val_zero x Fx Hx) as [s Hs].
  assert (exists s', Prim2SF (x + 0) = S754_zero s') as [s' Hs'].
  { rewrite add_spec, Hs. change (Prim2SF 0) with (S754_zero false).
    destruct s; by eexists. }
  by apply (zero_val _ s').
Qed.

(** The hue of a sector: [((x - y) / d + off) / 6] for two channels [x] and [y],
    the chroma [d] and the offset [off] of the sector. *)
Lemma hue_sector (x y d off : float) (zx zy zM zm k : Z) :
  byte zx -> byte zy -> fin x -> fin y -> fin d ->
  within eps (val x) (IZR zx / 255) -> within eps (val y) (IZR zy / 255) ->
  within (3 * eps) (val d) ((IZR zM - IZR zm) / 255) ->
  (zx = zy -> x = y) ->
  (zm < zM)%Z -> (zM - zm <= 255)%Z -> (Z.abs (zx - zy) <= zM - zm)%Z ->
  (off = 0%float /\ k = 0%Z) \/ (off = 2%float /\ k = 2%Z)
  \/ (off = 4%float /\ k = 4%Z) \/ (off = 6%float /\ k = 6%Z /\ (zx < zy)%Z) ->
  fin (((x - y) / d + off) / 6)
  /\ within (2000 * eps) (val (((x - y) / d + off) / 6))
       (((IZR zx - IZR zy) / (IZR zM - IZR zm) + IZR k) / 6).
Proof.
  intros Bzx Bzy Fx Fy Fd Hx Hy Hd Hsame Hz1 Hz2 Hz3 Hoff.
  assert (0 <= IZR zx <= 255) as Hzx by (split; apply IZR_le; unfold byte in *; lia).
  assert (0 <= IZR zy <= 255) as Hzy by (split; apply IZR_le; unfold byte in *; lia).
  pose proof eps_pos as He. pose proof eps_small as Hes.
  assert (1 <= IZR zM - IZR zm <= 255) as HD.
  { rewrite <- minus_IZR. split; apply IZR_le; lia. }
  assert (- (IZR zM - IZR zm) <= IZR zx - IZR zy <= IZR zM - IZR zm) as HN.
  { rewrite <- !minus_IZR, <- opp_IZR. split; apply IZR_le; lia. }
  set (Dz := IZR zM - IZR zm) in *. set (N := IZR zx - IZR zy) in *.
  assert (fin off /\ val off = IZR k /\ (0 <= IZR k <= 6)) as (Foff & Voff & Hk).
  { destruct Hoff as [[-> ->]|[[-> ->]|[[-> ->]|(-> & -> & _)]]].
    - split; [done|]. split; [exact val_0|]. lra.
    - split; [done|]. split; [exact val_2|]. lra.
    - split; [done|]. split; [exact val_4|]. lra.
    - split; [done|]. split; [exact val_6|]. lra. }
  assert (val d <> 0) as Hd0 by (unfold within in Hd; lra).
  assert (fin 6 /\ within 0 (val 6) 6) as [F6 H6].
  { split; [done|]. apply within_exact, val_6. }
  destruct (decide (zx = zy)) as [Heq|Hne].
  - (* the two channels are the same number *)
    rewrite <- (Hsame Heq). subst zy.
    assert (N = 0) as HN0 by (unfold N; lra).
    rewrite HN0. replace (0 / Dz) with 0 by (unfold Rdiv; ring).
    destruct (val_sub_self x Fx) as [Fn Vn].
    destruct (val_div_zero (x - x) d Fn Vn Fd Hd0) as [Fu Vu].
    destruct Hoff as [[-> ->]|Hoff].
    + destruct (val_add_zero _ Fu Vu) as [Fh Vh].
      destruct (val_div_zero _ 6 Fh Vh I) as [Fr Vr].
      { rewrite val_6. lra. }
      split; [done|]. rewrite Vr. unfold within. lra.
    + assert (2 <= IZR k) as Hk2.
      { destruct Hoff as [[_ ->]|[[_ ->]|(_ & -> & _)]]; lra. }
      destruct (within_add ((x - x) / d) off 0 (IZR k) 0 0) as [Fh Hh];
        try done; try lra.
      { by apply within_exact. }
      { by apply within_exact. }
      destruct (within_div ((x - x) / d + off) 6 (0 + IZR k) 6 (0 + 0 + eps) 0 1 2)
        as [Fr Hr]; try done; try lra.
      split; [done|]. eapply within_weaken; [exact Hr|]. lra.
  - assert (1 <= N \/ N <= -1) as HN1.
    { unfold N. rewrite <- minus_IZR.
      destruct (Z_lt_le_dec zx zy).
      - right. change (-1) with (IZR (-1)). apply IZR_le. lia.
      - left. apply IZR_le. lia. }
    destruct (within_sub x y (IZR zx / 255) (IZR zy / 255) eps eps)
      as [Fn Hn]; try done; try lra.
    assert (within (3 * eps) (val (x - y)) (N / 255)) as Hn'.
    { replace (N / 255) with (IZR zx / 255 - IZR zy / 255) by (unfold N; lra).
      eapply within_weaken; [exact Hn|]. lra. }
    clear Hn.
    destruct (within_div (x - y) d (N / 255) (Dz / 255) (3 * eps) (3 * eps) 256 1)
      as [Fu Hu]; try done; try lra.
    assert (N / 255 / (Dz / 255) = N / Dz) as HU by (field; lra).
    rewrite HU in Hu.
    assert (-1 <= N / Dz <= 1) as HU1.
    { split.
      - apply (Rmult_le_reg_r Dz); [lra|]. unfold Rdiv.
        rewrite Rmult_assoc, Rinv_l by lra. lra.
      - apply (Rmult_le_reg_r Dz); [lra|]. unfold Rdiv.
        rewrite Rmult_assoc, Rinv_l by lra. lra. }
    assert (/ 255 <= N / Dz \/ N / Dz <= - / 255) as HU2.
    { destruct HN1 as [H1|H1].
      - left. apply (Rmult_le_reg_r Dz); [lra|]. unfold Rdiv.
        rewrite Rmult_assoc, Rinv_l by lra. lra.
      - right. apply (Rmult_le_reg_r Dz); [lra|]. unfold Rdiv.
        rewrite Rmult_assoc, Rinv_l by lra. lra. }
    set (U := N / Dz) in *.
    destruct (within_add ((x - y) / d) off U (IZR k)
                ((3 * eps + 1 * (3 * eps)) * 256 + eps) 0)
      as [Fh Hh]; try done; try lra.
    { by apply within_exact. }
    assert (/ 100000 <= U + IZR k \/ U + IZR k <= - / 100000) as Hnz.
    { destruct Hoff as [[_ ->]|[[_ ->]|[[_ ->]|(_ & -> & Hlt)]]]; lra. }
    destruct (within_div ((x - y) / d + off) 6 (U + IZR k) 6
                ((3 * eps + 1 * (3 * eps)) * 256 + eps + 0 + eps) 0 1 2)
      as [Fr Hr]; try done; try lra.
    split; [done|]. eapply within_weaken; [exact Hr|]. lra.
Qed.

End Hue.

(** ** [hue2rgb] *)

Section Ramp.

Local Open Scope R_scope.

(** The hue brought back into [0,1], as [hue2rgb] does first. *)
Definition wrap (t : R) : R :=
  let t1 := if Rlt_dec t 0 then t + 1 else t in
  if Rlt_dec 1 t1 then t1 - 1 else t1.

(** The share of [q] in the result of [hue2rgb], with the two thresholds that
    are not binary fractions as parameters. *)
Definition ramp_at (c6 c23 x : R) : R :=
  if Rlt_dec x c6 then 6 * x
  else if Rlt_dec x (/ 2) then 1
  else if Rlt_dec x c23 then (2 / 3 - x) * 6
  else 0.

Definition ramp (x : R) : R := ramp_at (/ 6) (2 / 3) x.

(** [hue2rgb] on the reals. *)
Definition hue2rgb_R (p q t : R) : R := p + (q - p) * ramp (wrap t).

Lemma wrap_range t : -1 <= t <= 2 -> 0 <= wrap t <= 1.
Proof.
  intros H. unfold wrap.
  destruct (Rlt_dec t 0); destruct (Rlt_dec 1 _); lra.
Qed.

(** The ramp is continuous, also around the circle, and the thresholds may be
    off by [eps]. *)
Lemma ramp_close c6 c23 x y s :
  within eps c6 (/ 6) -> within eps c23 (2 / 3) ->
  0 <= s <= / 100 -> 0 <= x <= 1 -> - s <= y <= 1 + s ->
  within s y x \/ within s y (x + 1) \/ within s y (x - 1) ->
  within (12 * s + 6 * eps) (ramp_at c6 c23 y) (ramp x).
Proof.
  unfold within, ramp, ramp_at. intros H6 H23 Hs Hx Hy Hc.
  pose proof eps_pos. pose proof eps_small.
  destruct (Rlt_dec y c6), (Rlt_dec y (/ 2)), (Rlt_dec y c23),
    (Rlt_dec x (/ 6)), (Rlt_dec x (/ 2)), (Rlt_dec x (2 / 3));
    destruct Hc as [Hc|[Hc|Hc]]; lra.
Qed.

End Ramp.

Section Hue2rgb.

Local Open Scope R_scope.

(** The wrapping of the hue, on numbers. *)
Lemma wrap_close (t : float) T e :
  fin t -> within e (val t) T -> - / 2 <= T <= 3 / 2 -> 0 <= e <= / 1000 ->
  let t1 := (if t <? 0 then t + 1 else t)%float in
  let t2 := (if 1 <? t1 then t1 - 1 else t1)%float in
  fin t2
  /\ - (e + 2 * eps) <= val t2 <= 1 + (e + 2 * eps)
  /\ (within (e + 2 * eps) (val t2) (wrap T)
      \/ within (e + 2 * eps) (val t2) (wrap T + 1)
      \/ within (e + 2 * eps) (val t2) (wrap T - 1)).
Proof.
  intros Ft Ht HT He t1 t2.
  pose proof eps_pos. pose proof eps_small.
  assert (fin t1 /\ ((val t < 0 /\ within eps (val t1) (val t + 1))
                     \/ (0 <= val t /\ val t1 = val t))) as [Ft1 H1].
  { unfold t1. destruct (t <? 0)%float eqn:E.
    - apply (val_ltb t 0 Ft I) in E. rewrite val_0 in E.
      destruct (within_add t 1 (val t) 1 0 0) as [F Hw]; try done.
      + unfold within. lra.
      + by apply within_exact, val_1.
      + unfold within in Ht. lra.
      + lra.
      + lra.
      + lra.
      + split; [done|]. left. split; [done|].
        eapply within_weaken; [exact Hw|]. lra.
    - split; [done|]. right. split; [|done].
      destruct (Rlt_dec (val t) 0) as [Hlt|]; [|lra].
      rewrite <- val_0 in Hlt. apply (val_ltb t 0 Ft I) in Hlt. congruence. }
  assert (fin t2 /\ ((1 < val t1 /\ within eps (val t2) (val t1 - 1))
                     \/ (val t1 <= 1 /\ val t2 = val t1))) as [Ft2 H2].
  { unfold t2. destruct (1 <? t1)%float eqn:E.
    - apply (val_ltb 1 t1 I Ft1) in E. rewrite val_1 in E.
      destruct (within_sub t1 1 (val t1) 1 0 0) as [F Hw]; try done.
      + unfold within. lra.
      + by apply within_exact, val_1.
      + unfold within in *. lra.
      + lra.
      + lra.
      + lra.
      + split; [done|]. left. split; [done|].
        eapply within_weaken; [exact Hw|]. lra.
    - split; [done|]. right. split; [|done].
      destruct (Rlt_dec 1 (val t1)) as [Hlt|]; [|lra].
      rewrite <- val_1 in Hlt. apply (val_ltb 1 t1 I Ft1) in Hlt. congruence. }
  split; [done|].
  unfold within in *. unfold wrap.
  destruct (Rlt_dec T 0); destruct (Rlt_dec 1 _);
    destruct H1 as [[? ?]|[? ?]], H2 as [[? ?]|[? ?]]; lra.
Qed.

(** The four branches of [hue2rgb], for a hue already in range. *)
Lemma hue2rgb_branches (p q t2 : float) P Q e :
  fin p -> fin q -> fin t2 -> within e (val p) P -> within e (val q) Q ->
  0 <= P -> P <= Q -> Q <= 1 -> - / 10 <= val t2 <= 11 / 10 -> 0 <= e <= / 1000000 ->
  let r := (if t2 <? 1 / 6 then p + (q - p) * 6 * t2
            else if t2 <? 1 / 2 then q
            else if t2 <? 2 / 3 then p + (q - p) * (2 / 3 - t2) * 6
            else p)%float in
  fin r
  /\ within (43 * e + 44 * eps) (val r)
       (P + (Q - P) * ramp_at (val (1 / 6)) (val (2 / 3)) (val t2)).
Proof.
  intros Fp Fq Ft Hp Hq HP HPQ HQ Ht He r.
  pose proof eps_pos. pose proof eps_small.
  destruct val_sixth as [F6 H6%Rabs_within].
  destruct val_two_thirds as [F23 H23%Rabs_within].
  destruct val_one_half as [F2 H2].
  destruct (within_sub q p Q P e e) as [Fd Hd]; try done; try lra.
  set (tau := val t2) in *.
  unfold r, ramp_at.
  destruct (t2 <? 1 / 6)%float eqn:E1.
  - apply (val_ltb t2 (1 / 6) Ft F6) in E1. fold tau in E1.
    destruct (Rlt_dec tau (val (1 / 6))) as [_|Hn]; [|done].
    destruct (within_mul (q - p) 6 (Q - P) 6 (e + e + eps) 0 1 6)
      as [Fk Hk]; try done; try lra.
    { by apply within_exact, val_6. }
    destruct (within_mul ((q - p) * 6) t2 ((Q - P) * 6) tau
                ((e + e + eps) * (6 + 1) + 1 * 0 + eps) 0 6 2)
      as [Fm Hm]; try done; try lra.
    { by apply within_exact. }
    destruct (within_add p ((q - p) * 6 * t2) P ((Q - P) * 6 * tau) e
                (((e + e + eps) * (6 + 1) + 1 * 0 + eps) * (2 + 1) + 6 * 0 + eps))
      as [Fr Hr]; try done; try lra.
    { split; nra. }
    split; [done|].
    replace (P + (Q - P) * (6 * tau)) with (P + (Q - P) * 6 * tau) by ring.
    eapply within_weaken; [exact Hr|]. lra.
  - assert (~ tau < val (1 / 6)) as N1.
    { intros Hlt. apply (val_ltb t2 (1 / 6) Ft F6) in Hlt. congruence. }
    destruct (Rlt_dec tau (val (1 / 6))) as [|_]; [done|].
    destruct (t2 <? 1 / 2)%float eqn:E2.
    + apply (val_ltb t2 (1 / 2) Ft F2) in E2. fold tau in E2. rewrite H2 in E2.
      destruct (Rlt_dec tau (/ 2)) as [_|Hn]; [|done].
      split; [done|]. unfold within in *. lra.
    + assert (~ tau < / 2) as N2.
      { intros Hlt. rewrite <- H2 in Hlt.
        apply (val_ltb t2 (1 / 2) Ft F2) in Hlt. congruence. }
      destruct (Rlt_dec tau (/ 2)) as [|_]; [done|].
      destruct (t2 <? 2 / 3)%float eqn:E3.
      * apply (val_ltb t2 (2 / 3) Ft F23) in E3. fold tau in E3.
        destruct (Rlt_dec tau (val (2 / 3))) as [_|Hn]; [|done].
        destruct (within_sub (2 / 3) t2 (2 / 3) tau eps 0) as [Fs Hs];
          try done; try lra.
        { by apply within_exact. }
        destruct (within_mul (q - p) (2 / 3 - t2) (Q - P) (2 / 3 - tau)
                    (e + e + eps) (eps + 0 + eps) 1 2)
          as [Fm Hm]; try done; try lra.
        destruct (within_mul ((q - p) * (2 / 3 - t2)) 6
                    ((Q - P) * (2 / 3 - tau)) 6
                    ((e + e + eps) * (2 + 1) + 1 * (eps + 0 + eps) + eps) 0 2 6)
          as [Fk Hk]; try done; try lra.
        { by apply within_exact, val_6. }
        { split; nra. }
        destruct (within_add p ((q - p) * (2 / 3 - t2) * 6) P
                    ((Q - P) * (2 / 3 - tau) * 6) e
                    (((e + e + eps) * (2 + 1) + 1 * (eps + 0 + eps) + eps) * (6 + 1)
                     + 2 * 0 + eps))
          as [Fr Hr]; try done; try lra.
        { split; nra. }
        split; [done|].
        replace (P + (Q - P) * ((2 / 3 - tau) * 6))
          with (P + (Q - P) * (2 / 3 - tau) * 6) by ring.
        eapply within_weaken; [exact Hr|]. lra.
      * assert (~ tau < val (2 / 3)) as N3.
        { intros Hlt. apply (val_ltb t2 (2 / 3) Ft F23) in Hlt. congruence. }
        destruct (Rlt_dec tau (val (2 / 3))) as [|_]; [done|].
        split; [done|]. unfold within in *. lra.
Qed.

(** [hue2rgb] on numbers is [hue2rgb] on the reals, up to rounding. *)
Lemma hue2rgb_close (p q t : float) P Q T e :
  fin p -> fin q -> fin t ->
  within e (val p) P -> within e (val q) Q -> within e (val t) T ->
  0 <= P -> P <= Q -> Q <= 1 -> - / 2 <= T <= 3 / 2 -> 0 <= e <= / 1000000 ->
  fin (hue2rgb p q t)
  /\ within (60 * e + 80 * eps) (val (hue2rgb p q t)) (hue2rgb_R P Q T).
Proof.
  intros Fp Fq Ft Hp Hq Ht HP HPQ HQ HT He.
  pose proof eps_pos. pose proof eps_small.
  destruct (wrap_close t T e Ft Ht HT ltac:(lra)) as (Ft2 & Hr2 & Hc).
  unfold hue2rgb. cbv zeta.
  set (t2 := (if 1 <? (if t <? 0 then t + 1 else t)
              then (if t <? 0 then t + 1 else t) - 1
              else (if t <? 0 then t + 1 else t))%float) in *.
  destruct (hue2rgb_branches p q t2 P Q e) as [Fr Hr]; try done; try lra.
  split; [done|].
  destruct val_sixth as [F6 H6%Rabs_within].
  destruct val_two_thirds as [F23 H23%Rabs_within].
  pose proof (wrap_range T ltac:(lra)) as Hw.
  pose proof (ramp_close (val (1 / 6)) (val (2 / 3)) (wrap T) (val t2)
                (e + 2 * eps) H6 H23 ltac:(lra) Hw Hr2 Hc) as Hramp.
  unfold hue2rgb_R.
  set (a := ramp_at (val (1 / 6)) (val (2 / 3)) (val t2)) in *.
  set (b := ramp (wrap T)) in *.
  unfold within in *.
  assert (- (12 * (e + 2 * eps) + 6 * eps) <= (Q - P) * (a - b)
          <= 12 * (e + 2 * eps) + 6 * eps) as Hm.
  { assert (0 <= Q - P <= 1) by lra. split; nra. }
  assert ((Q - P) * a = (Q - P) * b + (Q - P) * (a - b)) as Hs by ring.
  lra.
Qed.

End Hue2rgb.

(** ** Back to the channels *)

Section Channels.

Local Open Scope R_scope.

(** What the ramp is at the hues of the three channels, sector by sector; [U] is
    the position of the middle channel between the smallest and the largest. *)
Lemma ramp_sector_r_up U :
  0 <= U <= 1 ->
  ramp (wrap (U / 6 + / 3)) = 1
  /\ ramp (wrap (U / 6)) = U
  /\ ramp (wrap (U / 6 - / 3)) = 0.
Proof.
  intros H. unfold ramp, ramp_at, wrap.
  repeat split; repeat destruct (Rlt_dec _ _); lra.
Qed.

Lemma ramp_sector_r_down U :
  -1 <= U < 0 ->
  ramp (wrap ((U + 6) / 6 + / 3)) = 1
  /\ ramp (wrap ((U + 6) / 6)) = 0
  /\ ramp (wrap ((U + 6) / 6 - / 3)) = - U.
Proof.
  intros H. unfold ramp, ramp_at, wrap.
  repeat split; repeat destruct (Rlt_dec _ _); lra.
Qed.

Lemma ramp_sector_g U :
  -1 <= U <= 1 ->
  ramp (wrap ((U + 2) / 6 + / 3)) = Rmax 0 (- U)
  /\ ramp (wrap ((U + 2) / 6)) = 1
  /\ ramp (wrap ((U + 2) / 6 - / 3)) = Rmax 0 U.
Proof.
  intros H. unfold ramp, ramp_at, wrap, Rmax.
  repeat split; repeat destruct (Rlt_dec _ _); repeat destruct (Rle_dec _ _); lra.
Qed.

Lemma ramp_sector_b U :
  -1 < U < 1 ->
  ramp (wrap ((U + 4) / 6 + / 3)) = Rmax 0 U
  /\ ramp (wrap ((U + 4) / 6)) = Rmax 0 (- U)
  /\ ramp (wrap ((U + 4) / 6 - / 3)) = 1.
Proof.
  intros H. unfold ramp, ramp_at, wrap, Rmax.
  repeat split; repeat destruct (Rlt_dec _ _); repeat destruct (Rle_dec _ _); lra.
Qed.

(** One channel of [hslToRgb], stored: the byte [c] whose place between the
    smallest and the largest channel the ramp gives. *)
Lemma channel_back (p q t : float) (zm zM c : Z) T :
  fin p -> fin q -> fin t ->
  within (4000 * eps) (val p) (IZR zm / 255) ->
  within (4000 * eps) (val q) (IZR zM / 255) ->
  within (4000 * eps) (val t) T ->
  (0 <= zm)%Z -> (zm < zM)%Z -> (zM <= 255)%Z -> byte c ->
  - / 2 <= T <= 3 / 2 ->
  ramp (wrap T) * (IZR zM - IZR zm) = IZR c - IZR zm ->
  ToUint8Clamp (truncate (hue2rgb p q t * 255)) = c.
Proof.
  intros Fp Fq Ft Hp Hq Ht Hz0 Hz1 Hz2 Hc HT Hramp.
  pose proof eps_pos. pose proof eps_small.
  assert (0 <= IZR zm) by (apply IZR_le; lia).
  assert (IZR zm + 1 <= IZR zM) by (rewrite <- plus_IZR; apply IZR_le; lia).
  assert (IZR zM <= 255) by (apply IZR_le; lia).
  assert (0 <= IZR c <= 255) by (split; apply IZR_le; unfold byte in Hc; lia).
  destruct (hue2rgb_close p q t (IZR zm / 255) (IZR zM / 255) T (4000 * eps))
    as [Fr Hr]; try done; try lra.
  assert (hue2rgb_R (IZR zm / 255) (IZR zM / 255) T = IZR c / 255) as Hid.
  { unfold hue2rgb_R.
    replace (IZR zM / 255 - IZR zm / 255) with ((IZR zM - IZR zm) / 255) by lra.
    set (w := ramp (wrap T)) in *.
    replace ((IZR zM - IZR zm) / 255 * w) with (w * (IZR zM - IZR zm) / 255) by lra.
    rewrite Hramp. lra. }
  rewrite Hid in Hr.
  destruct (within_mul_255 (hue2rgb p q t) (IZR c / 255)
              (60 * (4000 * eps) + 80 * eps)) as [Fm Hm]; try done; try lra.
  apply stored_near; [done|done|].
  apply Rabs_lt_bound. unfold within in Hm. lra.
Qed.

End Channels.

Section PublicRoundTrip.

Local Open Scope R_scope.

(** The three channels of [hslToRgb] for a hue [h] close to [H]. *)
Lemma channels_back (p q h : float) (zm zM cr cg cb : Z) H :
  fin p -> fin q -> fin h ->
  within (4000 * eps) (val p) (IZR zm / 255) ->
  within (4000 * eps) (val q) (IZR zM / 255) ->
  within (2000 * eps) (val h) H ->
  (0 <= zm)%Z -> (zm < zM)%Z -> (zM <= 255)%Z ->
  byte cr -> byte cg -> byte cb ->
  0 <= H <= 1 ->
  ramp (wrap (H + / 3)) * (IZR zM - IZR zm) = IZR cr - IZR zm ->
  ramp (wrap H) * (IZR zM - IZR zm) = IZR cg - IZR zm ->
  ramp (wrap (H - / 3)) * (IZR zM - IZR zm) = IZR cb - IZR zm ->
  ToUint8Clamp (truncate (hue2rgb p q (h + 1 / 3) * 255)) = cr
  /\ ToUint8Clamp (truncate (hue2rgb p q h * 255)) = cg
  /\ ToUint8Clamp (truncate (hue2rgb p q (h - 1 / 3) * 255)) = cb.
Proof.
  intros Fp Fq Fh Hp Hq Hh Hz0 Hz1 Hz2 Hcr Hcg Hcb HH Hr Hg Hb.
  pose proof eps_pos. pose proof eps_small.
  destruct val_third as [F3 H3%Rabs_within].
  destruct (within_add h (1 / 3) H (/ 3) (2000 * eps) eps) as [Ftr Htr];
    try done; try lra.
  destruct (within_sub h (1 / 3) H (/ 3) (2000 * eps) eps) as [Ftb Htb];
    try done; try lra.
  split; [|split].
  - apply (channel_back p q _ zm zM cr (H + / 3)); try done; try lra.
    eapply within_weaken; [exact Htr|]. lra.
  - apply (channel_back p q _ zm zM cg H); try done; try lra.
    eapply within_weaken; [exact Hh|]. lra.
  - apply (channel_back p q _ zm zM cb (H - / 3)); try done; try lra.
    eapply within_weaken; [exact Htb|]. lra.
Qed.

(** A channel of bytes, divided by 255, keeps the order of the bytes. *)
Lemma channel_lt a b :
  byte a -> byte b -> (a < b)%Z -> val (of_int a / 255) < val (of_int b / 255).
Proof.
  intros Ha Hb Hab. pose proof eps_pos. pose proof eps_small.
  destruct (val_channel a Ha) as [_ H1%Rabs_within].
  destruct (val_channel b Hb) as [_ H2%Rabs_within].
  assert (IZR a + 1 <= IZR b) by (rewrite <- plus_IZR; apply IZR_le; lia).
  unfold within in *. lra.
Qed.

Lemma channel_le a b :
  byte a -> byte b -> (a <= b)%Z -> val (of_int a / 255) <= val (of_int b / 255).
Proof.
  intros Ha Hb Hab. destruct (decide (a = b)) as [->|Hne]; [lra|].
  left. apply channel_lt; try done. lia.
Qed.

Lemma channel_max a b :
  byte a -> byte b ->
  Rmax (val (of_int a / 255)) (val (of_int b / 255))
  = val (of_int (Z.max a b) / 255).
Proof.
  intros Ha Hb. destruct (Z_lt_le_dec a b).
  - rewrite Z.max_r by lia. apply Rmax_right. apply channel_le; try done. lia.
  - rewrite Z.max_l by lia. apply Rmax_left. by apply channel_le.
Qed.

Lemma channel_min a b :
  byte a -> byte b ->
  Rmin (val (of_int a / 255)) (val (of_int b / 255))
  = val (of_int (Z.min a b) / 255).
Proof.
  intros Ha Hb. destruct (Z_lt_le_dec a b).
  - rewrite Z.min_l by lia. apply Rmin_left. apply channel_le; try done. lia.
  - rewrite Z.min_r by lia. apply Rmin_right. by apply channel_le.
Qed.

Lemma channel_eq a b :
  byte a -> byte b -> val (of_int a / 255) = val (of_int b / 255) -> a = b.
Proof.
  intros Ha Hb H. destruct (Z.lt_total a b) as [Hlt|[->|Hlt]]; [|done|].
  - apply (channel_lt a b Ha Hb) in Hlt. lra.
  - apply (channel_lt b a Hb Ha) in Hlt. lra.
Qed.

Lemma byte_max a b : byte a -> byte b -> byte (Z.max a b).
Proof. unfold byte. lia. Qed.

Lemma byte_min a b : byte a -> byte b -> byte (Z.min a b).
Proof. unfold byte. lia. Qed.

(** The largest and the smallest of three channels. *)
Lemma channel_max3 r g b :
  byte r -> byte g -> byte b ->
  fin (Math_max3 (of_int r / 255) (of_int g / 255) (of_int b / 255))
  /\ val (Math_max3 (of_int r / 255) (of_int g / 255) (of_int b / 255))
     = val (of_int (Z.max (Z.max r g) b) / 255).
Proof.
  intros Hr Hg Hb. unfold Math_max3.
  destruct (val_channel r Hr) as [Fr _]. destruct (val_channel g Hg) as [Fg _].
  destruct (val_channel b Hb) as [Fb _].
  destruct (val_Math_max _ _ Fr Fg) as [F1 V1].
  destruct (val_Math_max _ _ F1 Fb) as [F2 V2].
  split; [done|]. rewrite V2, V1, channel_max by done.
  apply channel_max; [by apply byte_max|done].
Qed.

Lemma channel_min3 r g b :
  byte r -> byte g -> byte b ->
  fin (Math_min3 (of_int r / 255) (of_int g / 255) (of_int b / 255))
  /\ val (Math_min3 (of_int r / 255) (of_int g / 255) (of_int b / 255))
     = val (of_int (Z.min (Z.min r g) b) / 255).
Proof.
  intros Hr Hg Hb. unfold Math_min3.
  destruct (val_channel r Hr) as [Fr _]. destruct (val_channel g Hg) as [Fg _].
  destruct (val_channel b Hb) as [Fb _].
  destruct (val_Math_min _ _ Fr Fg) as [F1 V1].
  destruct (val_Math_min _ _ F1 Fb) as [F2 V2].
  split; [done|]. rewrite V2, V1, channel_min by done.
  apply channel_min; [by apply byte_min|done].
Qed.

(** The round trip of a pixel that is not gray, in the sector whose hue is
    [((x - y) / d + off) / 6]. *)
Lemma sector_round_trip (mx mn x y off : float) (rz gz bz zM zm zx zy k : Z) :
  byte rz -> byte gz -> byte bz -> byte zx -> byte zy ->
  fin mx -> fin mn ->
  within eps (val mx) (IZR zM / 255) -> within eps (val mn) (IZR zm / 255) ->
  (0 <= zm)%Z -> (zm < zM)%Z -> (zM <= 255)%Z ->
  x = (of_int zx / 255)%float -> y = (of_int zy / 255)%float ->
  (Z.abs (zx - zy) <= zM - zm)%Z ->
  (off = 0%float /\ k = 0%Z) \/ (off = 2%float /\ k = 2%Z)
  \/ (off = 4%float /\ k = 4%Z) \/ (off = 6%float /\ k = 6%Z /\ (zx < zy)%Z) ->
  let H := ((IZR zx - IZR zy) / (IZR zM - IZR zm) + IZR k) / 6 in
  0 <= H <= 1 ->
  ramp (wrap (H + / 3)) * (IZR zM - IZR zm) = IZR rz - IZR zm ->
  ramp (wrap H) * (IZR zM - IZR zm) = IZR gz - IZR zm ->
  ramp (wrap (H - / 3)) * (IZR zM - IZR zm) = IZR bz - IZR zm ->
  let l := ((mx + mn) / 2)%float in
  let d := (mx - mn)%float in
  let s := (if 0.5 <? l then d / (2 - mx - mn) else d / (mx + mn))%float in
  let h := (((x - y) / d + off) / 6)%float in
  ToUint8Clamp (Public.hslToRgb h s l).1.1 = rz
  /\ ToUint8Clamp (Public.hslToRgb h s l).1.2 = gz
  /\ ToUint8Clamp (Public.hslToRgb h s l).2 = bz.
Proof.
  intros Hrz Hgz Hbz Hzx Hzy Fmx Fmn Hmx Hmn Hz0 Hz1 Hz2 -> -> Habs Hoff H HH
    Hr Hg Hb l d s h.
  destruct (chroma_ends mx mn zM zm Fmx Fmn Hmx Hmn Hz0 Hz1 Hz2)
    as (Fd & Hd & Fs & Hs0 & Fq & Hq & Fp & Hp).
  fold l d in Fd, Hd, Fs, Hs0, Fq, Hq, Fp, Hp. fold s in Fs, Hs0, Fq, Hq, Fp, Hp.
  destruct (val_channel zx Hzx) as [Fx Hx%Rabs_within].
  destruct (val_channel zy Hzy) as [Fy Hy%Rabs_within].
  destruct (hue_sector (of_int zx / 255) (of_int zy / 255) d off zx zy zM zm k)
    as [Fh Hh]; try done.
  { by intros ->. }
  { lia. }
  fold h in Fh, Hh. fold H in Hh.
  assert (Public.hslToRgb h s l
          = (truncate (hue2rgb (2 * l - (if l <? 0.5 then l * (1 + s)
                                         else l + s - l * s))
                         (if l <? 0.5 then l * (1 + s) else l + s - l * s)
                         (h + 1 / 3) * 255),
             truncate (hue2rgb (2 * l - (if l <? 0.5 then l * (1 + s)
                                         else l + s - l * s))
                         (if l <? 0.5 then l * (1 + s) else l + s - l * s)
                         h * 255),
             truncate (hue2rgb (2 * l - (if l <? 0.5 then l * (1 + s)
                                         else l + s - l * s))
                         (if l <? 0.5 then l * (1 + s) else l + s - l * s)
                         (h - 1 / 3) * 255))%float) as E.
  { unfold Public.hslToRgb. rewrite Hs0. reflexivity. }
  rewrite E. cbn [fst snd].
  apply (channels_back _ _ h zm zM rz gz bz H); try done.
Qed.

(** The hues of the four kinds of sector, on bytes. *)
Lemma sector_r_up_bytes (M c m : Z) :
  (m <= c)%Z -> (c <= M)%Z -> (m < M)%Z ->
  let H := ((IZR c - IZR m) / (IZR M - IZR m) + 0) / 6 in
  0 <= H <= 1
  /\ ramp (wrap (H + / 3)) * (IZR M - IZR m) = IZR M - IZR m
  /\ ramp (wrap H) * (IZR M - IZR m) = IZR c - IZR m
  /\ ramp (wrap (H - / 3)) * (IZR M - IZR m) = IZR m - IZR m.
Proof.
  intros H1 H2 H3 H.
  assert (IZR m <= IZR c) by (by apply IZR_le).
  assert (IZR c <= IZR M) by (by apply IZR_le).
  assert (IZR m < IZR M) by (by apply IZR_lt).
  set (D := IZR M - IZR m) in *.
  assert (0 < D) by (unfold D; lra).
  assert (IZR c - IZR m <= D) by (unfold D; lra).
  set (U := (IZR c - IZR m) / D).
  assert (U * D = IZR c - IZR m) as HU by (unfold U; field; lra).
  assert (0 <= U <= 1) as HU1 by (split; nra).
  assert (H = U / 6) as -> by (unfold H; fold U; lra).
  destruct (ramp_sector_r_up U HU1) as (-> & -> & ->).
  repeat split; lra.
Qed.

Lemma sector_r_down_bytes (M c m : Z) :
  (m < c)%Z -> (c <= M)%Z ->
  let H := ((IZR m - IZR c) / (IZR M - IZR m) + 6) / 6 in
  0 <= H <= 1
  /\ ramp (wrap (H + / 3)) * (IZR M - IZR m) = IZR M - IZR m
  /\ ramp (wrap H) * (IZR M - IZR m) = IZR m - IZR m
  /\ ramp (wrap (H - / 3)) * (IZR M - IZR m) = IZR c - IZR m.
Proof.
  intros H1 H2 H.
  assert (IZR m < IZR c) by (by apply IZR_lt).
  assert (IZR c <= IZR M) by (by apply IZR_le).
  set (D := IZR M - IZR m) in *.
  assert (0 < D) by (unfold D; lra).
  assert (- D <= IZR m - IZR c) by (unfold D; lra).
  set (U := (IZR m - IZR c) / D).
  assert (U * D = IZR m - IZR c) as HU by (unfold U; field; lra).
  assert (-1 <= U < 0) as HU1 by (split; nra).
  assert (H = (U + 6) / 6) as -> by (unfold H; fold U; lra).
  destruct (ramp_sector_r_down U HU1) as (-> & -> & ->).
  repeat split; lra.
Qed.

Lemma sector_g_bytes (M r b : Z) :
  (r <= M)%Z -> (b <= M)%Z -> (Z.min r b < M)%Z ->
  let m := Z.min r b in
  let H := ((IZR b - IZR r) / (IZR M - IZR m) + 2) / 6 in
  0 <= H <= 1
  /\ ramp (wrap (H + / 3)) * (IZR M - IZR m) = IZR r - IZR m
  /\ ramp (wrap H) * (IZR M - IZR m) = IZR M - IZR m
  /\ ramp (wrap (H - / 3)) * (IZR M - IZR m) = IZR b - IZR m.
Proof.
  intros H1 H2 H3 m H.
  assert (IZR r <= IZR M) by (by apply IZR_le).
  assert (IZR b <= IZR M) by (by apply IZR_le).
  assert (IZR m < IZR M) by (by apply IZR_lt).
  assert ((IZR m = IZR r /\ IZR r <= IZR b) \/ (IZR m = IZR b /\ IZR b < IZR r))
    as Hm.
  { unfold m. destruct (Z_lt_le_dec b r).
    - right. rewrite Z.min_r by lia. split; [done|by apply IZR_lt].
    - left. rewrite Z.min_l by lia. split; [done|by apply IZR_le]. }
  set (D := IZR M - IZR m) in *.
  assert (0 < D) by (unfold D; lra).
  assert (- D <= IZR b - IZR r <= D) by (unfold D; lra).
  set (U := (IZR b - IZR r) / D).
  assert (U * D = IZR b - IZR r) as HU by (unfold U; field; lra).
  assert (-1 <= U <= 1) as HU1 by (split; nra).
  assert (H = (U + 2) / 6) as -> by (unfold H; fold U; lra).
  destruct (ramp_sector_g U HU1) as (-> & -> & ->).
  unfold Rmax. repeat destruct (Rle_dec _ _); repeat split; nra.
Qed.

Lemma sector_b_bytes (M r g : Z) :
  (r < M)%Z -> (g < M)%Z ->
  let m := Z.min r g in
  let H := ((IZR r - IZR g) / (IZR M - IZR m) + 4) / 6 in
  0 <= H <= 1
  /\ ramp (wrap (H + / 3)) * (IZR M - IZR m) = IZR r - IZR m
  /\ ramp (wrap H) * (IZR M - IZR m) = IZR g - IZR m
  /\ ramp (wrap (H - / 3)) * (IZR M - IZR m) = IZR M - IZR m.
Proof.
  intros H1 H2 m H.
  assert (IZR r < IZR M) by (by apply IZR_lt).
  assert (IZR g < IZR M) by (by apply IZR_lt).
  assert ((IZR m = IZR r /\ IZR r <= IZR g) \/ (IZR m = IZR g /\ IZR g < IZR r))
    as Hm.
  { unfold m. destruct (Z_lt_le_dec g r).
    - right. rewrite Z.min_r by lia. split; [done|by apply IZR_lt].
    - left. rewrite Z.min_l by lia. split; [done|by apply IZR_le]. }
  set (D := IZR M - IZR m) in *.
  assert (0 < D) by (unfold D; lra).
  assert (- D < IZR r - IZR g < D) by (unfold D; lra).
  set (U := (IZR r - IZR g) / D).
  assert (U * D = IZR r - IZR g) as HU by (unfold U; field; lra).
  assert (-1 < U < 1) as HU1 by (split; nra).
  assert (H = (U + 4) / 6) as -> by (unfold H; fold U; lra).
  destruct (ramp_sector_b U HU1) as (-> & -> & ->).
  unfold Rmax. repeat destruct (Rle_dec _ _); repeat split; nra.
Qed.

End PublicRoundTrip.

Section PublicTheorem.

Local Open Scope R_scope.

Lemma channel_eqb a b :
  byte a -> byte b ->
  ((of_int a / 255 =? of_int b / 255)%float = true <-> a = b).
Proof.
  intros Ha Hb.
  destruct (val_channel a Ha) as [Fa _]. destruct (val_channel b Hb) as [Fb _].
  rewrite (val_eqb _ _ Fa Fb). split; [by apply channel_eq|by intros ->].
Qed.

Lemma channel_ltb a b :
  byte a -> byte b ->
  ((of_int a / 255 <? of_int b / 255)%float = true <-> (a < b)%Z).
Proof.
  intros Ha Hb.
  destruct (val_channel a Ha) as [Fa _]. destruct (val_channel b Hb) as [Fb _].
  rewrite (val_ltb _ _ Fa Fb). split; [|by apply channel_lt].
  intros H. destruct (Z_lt_le_dec a b) as [|Hle]; [done|].
  apply (channel_le b a Hb Ha) in Hle. lra.
Qed.

(** [hslToRgb] of [rgbToHsl]. *)
Definition Public_round_trip (r g b : Z) : rgb :=
  let '(h, s, l) := Public.rgbToHsl (of_int r) (of_int g) (of_int b) in
  Public.hslToRgb h s l.

Lemma Public_round_trip_gray z :
  byte z ->
  ToUint8Clamp (Public_round_trip z z z).1.1 = z
  /\ ToUint8Clamp (Public_round_trip z z z).1.2 = z
  /\ ToUint8Clamp (Public_round_trip z z z).2 = z.
Proof.
  intros Hz.
  pose proof (byte_cases Public_gray_round_trip
                ltac:(vm_compute; reflexivity) z Hz) as HP.
  unfold Public_gray_round_trip in HP. unfold Public_round_trip.
  destruct (Public.rgbToHsl _ _ _) as [[h s] l].
  destruct (Public.hslToRgb h s l) as [[r g] b].
  repeat match goal with
         | H : _ && _ = true |- _ => apply andb_prop in H as [? ?]
         | H : (_ =? _)%Z = true |- _ => apply Z.eqb_eq in H
         end.
  done.
Qed.

Lemma Public_round_trip_coloured rz gz bz :
  byte rz -> byte gz -> byte bz ->
  (Z.min (Z.min rz gz) bz < Z.max (Z.max rz gz) bz)%Z ->
  ToUint8Clamp (Public_round_trip rz gz bz).1.1 = rz
  /\ ToUint8Clamp (Public_round_trip rz gz bz).1.2 = gz
  /\ ToUint8Clamp (Public_round_trip rz gz bz).2 = bz.
Proof.
  intros Hr Hg Hb Hlt. pose proof eps_pos. pose proof eps_small.
  unfold Public_round_trip, Public.rgbToHsl.
  destruct (channel_max3 rz gz bz Hr Hg Hb) as [Fmx Vmx].
  destruct (channel_min3 rz gz bz Hr Hg Hb) as [Fmn Vmn].
  set (zM := Z.max (Z.max rz gz) bz) in *.
  set (zm := Z.min (Z.min rz gz) bz) in *.
  assert (byte zM) as HzM by (unfold zM, byte in *; lia).
  assert (byte zm) as Hzm by (unfold zm, byte in *; lia).
  destruct (val_channel zM HzM) as [_ HM%Rabs_within].
  destruct (val_channel zm Hzm) as [_ Hm%Rabs_within].
  rewrite <- Vmx in HM. rewrite <- Vmn in Hm.
  assert (forall z, byte z ->
            (Math_max3 (of_int rz / 255) (of_int gz / 255) (of_int bz / 255)
              =? of_int z / 255)%float
            = bool_decide (zM = z)) as Hsec.
  { intros z Hz. destruct (val_channel z Hz) as [Fz _].
    case_bool_decide as E.
    - apply (val_eqb _ _ Fmx Fz). rewrite Vmx. by rewrite E.
    - apply not_true_is_false. intros HE%(val_eqb _ _ Fmx Fz).
      rewrite Vmx in HE. by apply channel_eq in HE. }
  assert ((Math_max3 (of_int rz / 255) (of_int gz / 255) (of_int bz / 255)
           =? Math_min3 (of_int rz / 255) (of_int gz / 255) (of_int bz / 255))%float
          = false) as Hgray.
  { apply not_true_is_false. intros HE%(val_eqb _ _ Fmx Fmn).
    rewrite Vmx, Vmn in HE. apply channel_eq in HE; [lia|done..]. }
  assert ((of_int gz / 255 <? of_int bz / 255)%float = bool_decide (gz < bz)%Z)
    as Hgb.
  { case_bool_decide as E.
    - by apply channel_ltb.
    - apply not_true_is_false. by intros HE%channel_ltb. }
  cbv zeta. rewrite Hgray, !Hsec, Hgb by done.
  set (R' := (of_int rz / 255)%float) in *.
  set (G' := (of_int gz / 255)%float) in *.
  set (B' := (of_int bz / 255)%float) in *.
  set (mx := Math_max3 R' G' B') in *. set (mn := Math_min3 R' G' B') in *.
  destruct (decide (zM = rz)) as [Er|Er];
    [rewrite (bool_decide_eq_true_2 _ Er);
     destruct (decide (gz < bz)%Z) as [Egb|Egb];
     [rewrite (bool_decide_eq_true_2 _ Egb)
     |rewrite (bool_decide_eq_false_2 _ Egb)]
    |rewrite (bool_decide_eq_false_2 _ Er);
     destruct (decide (zM = gz)) as [Eg|Eg];
     [rewrite (bool_decide_eq_true_2 _ Eg)
     |rewrite (bool_decide_eq_false_2 _ Eg);
      destruct (decide (zM = bz)) as [Eb|Eb];
      [rewrite (bool_decide_eq_true_2 _ Eb)
      |rewrite (bool_decide_eq_false_2 _ Eb)]]].
  - (* red is largest, green below blue *)
    assert (zm = gz) as Em by (unfold zM, zm in *; lia).
    assert (bz <= zM)%Z by (unfold zM; lia).
    clearbody zM zm. subst zM zm.
    destruct (sector_r_down_bytes rz bz gz) as (S1 & S2 & S3 & S4); [lia..|].
    apply (sector_round_trip mx mn G' B' 6 rz gz bz rz gz gz bz 6);
      try done; try (unfold byte in *; lia).
    repeat right. done.
  - (* red is largest, blue not above green *)
    assert (zm = bz) as Em by (unfold zM, zm in *; lia).
    assert (gz <= zM)%Z by (unfold zM; lia).
    clearbody zM zm. subst zM zm.
    destruct (sector_r_up_bytes rz gz bz) as (S1 & S2 & S3 & S4); [lia..|].
    apply (sector_round_trip mx mn G' B' 0 rz gz bz rz bz gz bz 0);
      try done; try (unfold byte in *; lia).
    by left.
  - (* green is largest *)
    assert (zm = Z.min rz bz) as Em by (unfold zM, zm in *; lia).
    assert (rz <= zM)%Z by (unfold zM; lia).
    assert (bz <= zM)%Z by (unfold zM; lia).
    clearbody zM zm. subst zM zm.
    destruct (sector_g_bytes gz rz bz) as (S1 & S2 & S3 & S4); [lia..|].
    apply (sector_round_trip mx mn B' R' 2 rz gz bz gz (Z.min rz bz) bz rz 2);
      try done; try (unfold byte in *; lia).
    right. by left.
  - (* blue is largest *)
    assert (zm = Z.min rz gz) as Em by (unfold zM, zm in *; lia).
    assert (rz < zM)%Z by (unfold zM in *; lia).
    assert (gz < zM)%Z by (unfold zM in *; lia).
    clearbody zM zm. subst zM zm.
    destruct (sector_b_bytes bz rz gz) as (S1 & S2 & S3 & S4); [lia..|].
    apply (sector_round_trip mx mn R' G' 4 rz gz bz bz (Z.min rz gz) rz gz 4);
      try done; try (unfold byte in *; lia).
    right. right. by left.
  - exfalso. unfold zM in *. lia.
Qed.

Lemma Public_round_trip_bytes rz gz bz :
  byte rz -> byte gz -> byte bz ->
  ToUint8Clamp (Public_round_trip rz gz bz).1.1 = rz
  /\ ToUint8Clamp (Public_round_trip rz gz bz).1.2 = gz
  /\ ToUint8Clamp (Public_round_trip rz gz bz).2 = bz.
Proof.
  intros Hr Hg Hb.
  destruct (Z_lt_le_dec (Z.min (Z.min rz gz) bz) (Z.max (Z.max rz gz) bz)).
  - by apply Public_round_trip_coloured.
  - assert (gz = rz) as -> by lia. assert (bz = rz) as -> by lia.
    by apply Public_round_trip_gray.
Qed.

End PublicTheorem.

(** X18.  In [public/conv2ascii.js] the round trip through HSL gives every
    colour of bytes back: for all bytes [r], [g], [b], the three numbers
    [hslToRgb] makes of the result of [rgbToHsl(r, g, b)] are the numbers the
    buffer stores as [r], [g] and [b] again. The rounding errors of the
    divisions and products never reach the next byte, in any hue sector. *)
Theorem Public_hsl_round_trip (rz gz bz : Z) :
  byte rz -> byte gz -> byte bz ->
  let '(h, s, l) := Public.rgbToHsl (of_int rz) (of_int gz) (of_int bz) in
  let '(r, g, b) := Public.hslToRgb h s l in
  ToUint8Clamp r = rz /\ ToUint8Clamp g = gz /\ ToUint8Clamp b = bz.
Proof.
  intros Hr Hg Hb.
  pose proof (Public_round_trip_bytes rz gz bz Hr Hg Hb) as H.
  unfold Public_round_trip in H.
  destruct (Public.rgbToHsl _ _ _) as [[h s] l].
  by destruct (Public.hslToRgb h s l) as [[r g] b].
Qed.

Lemma Public_hsl_round_trip_witness :
  byte 200 /\ byte 30 /\ byte 120
  /\ (let '(h, s, l) := Public.rgbToHsl (of_int 200) (of_int 30) (of_int 120) in
      let '(r, g, b) := Public.hslToRgb h s l in
      ToUint8Clamp r = 200 /\ ToUint8Clamp g = 30 /\ ToUint8Clamp b = 120).
Proof.
  assert (byte 200) as H1 by (unfold byte; lia).
  assert (byte 30) as H2 by (unfold byte; lia).
  assert (byte 120) as H3 by (unfold byte; lia).
  split; [exact H1|]. split; [exact H2|]. split; [exact H3|].
  exact (Public_hsl_round_trip 200 30 120 H1 H2 H3).
Defined.

(** ** The index in the ramp *)

Section RampIndex.

Local Open Scope R_scope.

(** The value of a number between two fractions, by its scaled value. *)
Lemma val_between (x : float) (a b c : Z) :
  (0 < c)%Z ->
  (a * 2 ^ 1074 <= scaled (Prim2SF x) * c)%Z ->
  (scaled (Prim2SF x) * c <= b * 2 ^ 1074)%Z ->
  IZR a / IZR c <= val x <= IZR b / IZR c.
Proof.
  intros Hc Ha Hb. unfold val, units.
  assert (0 < IZR c) as Hc' by (by apply IZR_lt).
  assert (0 < IZR (2 ^ 1074)) as HU by (by apply IZR_lt).
  apply IZR_le in Ha, Hb. rewrite !mult_IZR in Ha, Hb.
  set (U := IZR (2 ^ 1074)) in *. set (X := IZR (scaled (Prim2SF x))) in *.
  assert (0 < / (U * IZR c)) as Hi
    by (apply Rinv_0_lt_compat, Rmult_lt_0_compat; lra).
  split.
  - replace (X / U) with (IZR a / IZR c + (X * IZR c - IZR a * U) * / (U * IZR c))
      by (field; lra).
    assert (0 <= (X * IZR c - IZR a * U) * / (U * IZR c))
      by (apply Rmult_le_pos; lra).
    lra.
  - replace (IZR b / IZR c) with (X / U + (IZR b * U - X * IZR c) * / (U * IZR c))
      by (field; lra).
    assert (0 <= (IZR b * U - X * IZR c) * / (U * IZR c))
      by (apply Rmult_le_pos; lra).
    lra.
Qed.

(** [Math.round] gives the integer within one half of the value. *)
Lemma Math_round_int_val x :
  fin x ->
  exists k, Math_round_int x = Int k /\ IZR k - / 2 <= val x < IZR k + / 2.
Proof.
  unfold fin, Math_round_int, val, units. intros Fx.
  pose proof (FloatAxioms.Prim2SF_valid x) as Hv.
  assert (0 < IZR (2 ^ 1074)) as HU by (by apply IZR_lt).
  destruct (Prim2SF x) as [s|s| |s m e]; try done.
  - exists 0%Z. split; [done|]. cbn [scaled]. unfold Rdiv. rewrite Rmult_0_l. lra.
  - destruct (valid_finite s m e Hv) as (He & _ & _). cbn [scaled].
    destruct (0 <=? e)%Z eqn:E.
    + apply Z.leb_le in E. eexists. split; [reflexivity|].
      rewrite Z.shiftl_mul_pow2 by done.
      replace (signed s m * 2 ^ (e + 1074))%Z
        with (signed s m * 2 ^ e * 2 ^ 1074)%Z
        by (rewrite Z.pow_add_r by lia; lia).
      rewrite (mult_IZR _ (2 ^ 1074)).
      replace (IZR (signed s m * 2 ^ e) * IZR (2 ^ 1074) / IZR (2 ^ 1074))
        with (IZR (signed s m * 2 ^ e)) by (field; lra).
      lra.
    + apply Z.leb_gt in E. eexists. split; [reflexivity|].
      rewrite Z.shiftr_div_pow2, Z.shiftl_mul_pow2, Z.mul_1_l by lia.
      set (H := (2 ^ (- e - 1))%Z). set (D := (2 ^ (- e))%Z).
      set (W := (2 ^ (e + 1074))%Z).
      assert (D = 2 * H)%Z as HD.
      { unfold D, H. replace (- e)%Z with (1 + (- e - 1))%Z at 1 by lia.
        rewrite Z.pow_add_r by lia. done. }
      assert (0 < H)%Z as HH by (apply Z.pow_pos_nonneg; lia).
      assert (0 < W)%Z as HW by (apply Z.pow_pos_nonneg; lia).
      assert (2 ^ 1074 = W * D)%Z as HWD.
      { unfold W, D. rewrite <- Z.pow_add_r by lia. f_equal. lia. }
      set (M := signed s m) in *.
      set (k := ((M + H) / D)%Z).
      assert (k * D <= M + H < k * D + D)%Z as Hk.
      { pose proof (Z.div_mod (M + H) D ltac:(lia)) as H1.
        pose proof (Z.mod_pos_bound (M + H) D ltac:(lia)) as H2.
        fold k in H1. lia. }
      rewrite HWD, !mult_IZR.
      assert (0 < IZR W) by (by apply IZR_lt).
      assert (0 < IZR H) as HH' by (by apply IZR_lt).
      assert (IZR D = 2 * IZR H) as HD' by (rewrite HD, mult_IZR; done).
      replace (IZR M * IZR W / (IZR W * IZR D)) with (IZR M / IZR D)
        by (field; lra).
      destruct Hk as [Hk1 Hk2]. apply IZR_le in Hk1. apply IZR_lt in Hk2.
      rewrite plus_IZR, mult_IZR in Hk1. rewrite !plus_IZR, mult_IZR in Hk2.
      rewrite HD' in *.
      assert (0 < / (2 * IZR H)) as Hi by (apply Rinv_0_lt_compat; lra).
      replace (IZR M / (2 * IZR H))
        with (IZR k - / 2 + (IZR M + IZR H - IZR k * (2 * IZR H)) * / (2 * IZR H))
        by (field; lra).
      assert (0 <= (IZR M + IZR H - IZR k * (2 * IZR H)) * / (2 * IZR H))
        by (apply Rmult_le_pos; lra).
      assert ((IZR M + IZR H - IZR k * (2 * IZR H)) * / (2 * IZR H) < 1).
      { replace 1 with (2 * IZR H * / (2 * IZR H)) by (field; lra).
        apply Rmult_lt_compat_r; lra. }
      lra.
Qed.

(** The three weights of the luminance. *)
Lemma val_weights :
  (fin 0.299 /\ 2989999 / 10000000 <= val 0.299 <= 2990001 / 10000000)
  /\ (fin 0.587 /\ 5869999 / 10000000 <= val 0.587 <= 5870001 / 10000000)
  /\ (fin 0.114 /\ 1139999 / 10000000 <= val 0.114 <= 1140001 / 10000000).
Proof.
  split; [|split]; (split; [done|]).
  - apply val_between; [done|vm_compute; discriminate|vm_compute; discriminate].
  - apply val_between; [done|vm_compute; discriminate|vm_compute; discriminate].
  - apply val_between; [done|vm_compute; discriminate|vm_compute; discriminate].
Qed.

(** The luminance [public/conv2ascii.js] computes for a cell of bytes is an
    integer from 0 to 255. *)
Lemma Public_brightness_byte r g b :
  byte r -> byte g -> byte b ->
  exists L, Public.brightness_of (of_int r) (of_int g) (of_int b) = Int L
            /\ (0 <= L < 256)%Z.
Proof.
  intros Hr Hg Hb. unfold Public.brightness_of.
  pose proof eps_pos. pose proof eps_small.
  destruct val_weights as ((F1 & W1) & (F2 & W2) & (F3 & W3)).
  destruct (val_of_int r Hr) as [Fr Vr]. destruct (val_of_int g Hg) as [Fg Vg].
  destruct (val_of_int b Hb) as [Fb Vb].
  assert (0 <= IZR r <= 255) as Br by (split; apply IZR_le; unfold byte in *; lia).
  assert (0 <= IZR g <= 255) as Bg by (split; apply IZR_le; unfold byte in *; lia).
  assert (0 <= IZR b <= 255) as Bb by (split; apply IZR_le; unfold byte in *; lia).
  assert (forall c x lo hi, lo <= c <= hi -> 0 <= lo -> hi <= 1 -> 0 <= x <= 255 ->
            0 <= c * x <= hi * 255) as Hprod.
  { intros c x lo hi Hc Hlo Hhi Hx. split; [apply Rmult_le_pos; lra|].
    apply Rmult_le_compat; lra. }
  pose proof (Hprod _ _ _ _ W1 ltac:(lra) ltac:(lra) Br) as P1.
  pose proof (Hprod _ _ _ _ W2 ltac:(lra) ltac:(lra) Bg) as P2.
  pose proof (Hprod _ _ _ _ W3 ltac:(lra) ltac:(lra) Bb) as P3.
  destruct (val_mul 0.299 (of_int r) F1 Fr) as [Ft1 E1%Rabs_within].
  { rewrite Vr. apply Rabs_lt_bound. lra. }
  destruct (val_mul 0.587 (of_int g) F2 Fg) as [Ft2 E2%Rabs_within].
  { rewrite Vg. apply Rabs_lt_bound. lra. }
  destruct (val_mul 0.114 (of_int b) F3 Fb) as [Ft3 E3%Rabs_within].
  { rewrite Vb. apply Rabs_lt_bound. lra. }
  rewrite Vr in E1. rewrite Vg in E2. rewrite Vb in E3. unfold within in *.
  destruct (val_add _ _ Ft1 Ft2) as [Fs1 S1%Rabs_within].
  { apply Rabs_lt_bound. lra. }
  unfold within in S1.
  destruct (val_add _ _ Fs1 Ft3) as [Fs2 S2%Rabs_within].
  { apply Rabs_lt_bound. lra. }
  unfold within in S2.
  destruct (Math_round_int_val _ Fs2) as (k & Hk & Hv).
  exists k. split; [done|].
  split.
  - assert (-1 < IZR k) as H1 by lra. apply lt_IZR in H1. lia.
  - assert (IZR k < 256) as H1 by lra. by apply lt_IZR in H1.
Qed.

Local Open Scope Z_scope.

(** Sums of bytes are exact. *)
Lemma byte_sum_exact r g :
  byte r -> byte g -> (of_int r + of_int g)%float = of_int (r + g).
Proof.
  intros Hr Hg.
  assert (forallb (fun r => forallb (fun g =>
            PrimFloat.Leibniz.eqb (of_int r + of_int g)%float (of_int (r + g)))
            (seqZ 0 256)) (seqZ 0 256) = true) as H by (vm_compute; reflexivity).
  rewrite forallb_forall in H.
  specialize (H r). rewrite forallb_forall in H.
  apply FloatAxioms.Leibniz.eqb_spec, H.
  - apply list_elem_of_In, elem_of_seqZ. unfold byte in *. lia.
  - apply list_elem_of_In, elem_of_seqZ. unfold byte in *. lia.
Qed.

Lemma byte_sum3_exact s b :
  0 <= s <= 510 -> byte b -> (of_int s + of_int b)%float = of_int (s + b).
Proof.
  intros Hs Hb.
  assert (forallb (fun s => forallb (fun b =>
            PrimFloat.Leibniz.eqb (of_int s + of_int b)%float (of_int (s + b)))
            (seqZ 0 256)) (seqZ 0 511) = true) as H by (vm_compute; reflexivity).
  rewrite forallb_forall in H.
  specialize (H s). rewrite forallb_forall in H.
  apply FloatAxioms.Leibniz.eqb_spec, H.
  - apply list_elem_of_In, elem_of_seqZ. lia.
  - apply list_elem_of_In, elem_of_seqZ. unfold byte in *. lia.
Qed.

(** The index the ES-module copy selects in a ramp of [n] characters for a cell
    whose channels add up to [S], against [min(n - 1, floor(S n / 768))]. *)
Definition Esm_index_agrees (n S : Z) : bool :=
  match Esm.min_index n (Esm.charIdx_of n (of_int S / 3)%float) with
  | Int k => k =? Z.min (n - 1) (S * n / 768)
  | _ => false
  end.

Lemma Esm_index_agrees_all n S :
  1 <= n <= 215 -> 0 <= S <= 765 -> Esm_index_agrees n S = true.
Proof.
  intros Hn HS.
  assert (forallb (fun n => forallb (Esm_index_agrees n) (seqZ 0 766)) (seqZ 1 215)
          = true) as H by (vm_compute; reflexivity).
  rewrite forallb_forall in H.
  specialize (H n). rewrite forallb_forall in H. apply H.
  - apply list_elem_of_In, elem_of_seqZ. lia.
  - apply list_elem_of_In, elem_of_seqZ. lia.
Qed.

Lemma Esm_index_byte n r g b :
  1 <= n <= 215 -> byte r -> byte g -> byte b ->
  Esm.min_index n
    (Esm.charIdx_of n (Esm.brightness_of (of_int r) (of_int g) (of_int b)))
  = Int (Z.min (n - 1) ((r + g + b) * n / 768)).
Proof.
  intros Hn Hr Hg Hb. unfold Esm.brightness_of.
  rewrite (byte_sum_exact r g Hr Hg).
  rewrite (byte_sum3_exact (r + g) b) by (unfold byte in *; done || lia).
  pose proof (Esm_index_agrees_all n (r + g + b) Hn
                ltac:(unfold byte in *; lia)) as H.
  unfold Esm_index_agrees in H.
  destruct (Esm.min_index _ _) as [k| | |]; try done.
  by apply Z.eqb_eq in H as ->.
Qed.

(** One pixel as a buffer, and the cell it is. *)
Lemma cell_rgb_one r g b a :
  cell_rgb [r; g; b; a] 1 0 0 = (of_int r, of_int g, of_int b).
Proof. reflexivity. Qed.

Lemma string_get_lookup (chars : jsstring) i :
  0 <= i < str_length chars ->
  exists c, chars !! Z.to_nat i = Some c /\ string_get chars (Int i) = Some c.
Proof.
  intros Hi. unfold str_length in Hi.
  destruct (lookup_lt_is_Some_2 chars (Z.to_nat i)) as [c Hc]; [lia|].
  exists c. split; [done|]. cbn [string_get].
  destruct (i <? 0) eqn:E; [lia|done].
Qed.

(** C2 (amended).  For every cell of bytes and every ramp of n >= 1 characters,
    [public/conv2ascii.js] selects the glyph at index min(n-1, floor(L n / 256)),
    where L, its luminance of the cell, is an integer from 0 to 255.  The
    ES-module copy, whose luminance of the cell is the mean L = (R + G + B) / 3,
    selects the glyph at index min(n-1, floor(L n / 256)), that is
    min(n-1, floor((R + G + B) n / 768)), for every ramp of at most 215
    characters; with a ramp of 216 characters and the cell (138, 139, 139) it
    selects index 116 where the formula gives 117, because the quotients and the
    product are rounded.  The 2-by-1 image of one white pixel (left) and one black
    pixel (right), converted with default settings, width 2 and the ramp "#. ",
    gives the text " #" and a newline in both copies: the glyph ' ' of the white
    pixel (index 2) first, then the glyph '#' of the black pixel (index 0). *)
Theorem ramp_index (chars : jsstring) (r g b : Z) :
  chars <> [] -> byte r -> byte g -> byte b ->
  let n := str_length chars in
  (exists L c,
     Public.brightness_of (of_int r) (of_int g) (of_int b) = Int L
     /\ 0 <= L < 256
     /\ Public.charIndex n (Int L) = Int (Z.min (n - 1) (L * n / 256))
     /\ chars !! Z.to_nat (Z.min (n - 1) (L * n / 256)) = Some c
     /\ Public_glyph (Ramp chars) [r; g; b; 255] 1 0 0 = [c])
  /\ (n <= 215 ->
      exists c,
        Esm.min_index n
          (Esm.charIdx_of n (Esm.brightness_of (of_int r) (of_int g) (of_int b)))
        = Int (Z.min (n - 1) ((r + g + b) * n / 768))
        /\ chars !! Z.to_nat (Z.min (n - 1) ((r + g + b) * n / 768)) = Some c
        /\ Esm_glyph (Ramp chars) [r; g; b; 255] 1 0 0 = [c])
  /\ (Esm.min_index 216
        (Esm.charIdx_of 216
           (Esm.brightness_of (of_int 138) (of_int 139) (of_int 139)))
      = Int 116
      /\ Z.min (216 - 1) ((138 + 139 + 139) * 216 / 768) = 117)
  /\ result_text (Public.convertToAscii false (Element white_black)
                    (with_ramp 2 CHAR_SETS_simple))
     = Some (str " #" ++ [newline])
  /\ result_text (Esm.convertToAscii false (Element white_black)
                    (with_ramp 2 CHAR_SETS_simple))
     = Some (str " #" ++ [newline]).
Proof.
  intros Hne Hr Hg Hb n.
  assert (0 < n) as Hn by (unfold n, str_length; destruct chars; [done|simpl; lia]).
  split; [|split; [|split; [|split]]].
  - destruct (Public_brightness_byte r g b Hr Hg Hb) as (L & HL & HLb).
    assert (0 <= L * n / 256) by (apply Z.div_pos; lia).
    destruct (string_get_lookup chars (Z.min (n - 1) (L * n / 256)))
      as (c & Hc & Hget); [fold n; lia|].
    assert (Public.charIndex n (Int L) = Int (Z.min (n - 1) (L * n / 256))) as Hi.
    { cbn [Public.charIndex]. by rewrite (Z.mul_comm n L). }
    exists L, c. split; [done|]. split; [done|]. split; [done|]. split; [done|].
    unfold Public_glyph. rewrite cell_rgb_one.
    cbn [chars_length chars_get index_from]. fold n.
    change (Math_round_int (weighted_luminance (of_int r) (of_int g) (of_int b)))
      with (Public.brightness_of (of_int r) (of_int g) (of_int b)).
    by rewrite HL, Hi, Hget.
  - intros Hn215.
    pose proof (Esm_index_byte n r g b ltac:(lia) Hr Hg Hb) as Hi.
    assert (0 <= (r + g + b) * n / 768)
      by (apply Z.div_pos; unfold byte in *; nia).
    destruct (string_get_lookup chars (Z.min (n - 1) ((r + g + b) * n / 768)))
      as (c & Hc & Hget); [fold n; lia|].
    exists c. split; [done|]. split; [done|].
    unfold Esm_glyph. rewrite cell_rgb_one.
    cbn [chars_length chars_get index_from]. fold n.
    change (Math_floor_int (mean (of_int r) (of_int g) (of_int b) / 256 * of_int n))
      with (Esm.charIdx_of n (Esm.brightness_of (of_int r) (of_int g) (of_int b))).
    by rewrite Hi, Hget.
  - split; vm_compute; reflexivity.
  - vm_compute. reflexivity.
  - vm_compute. reflexivity.
Qed.

Lemma ramp_index_witness :
  exists L c,
    Public.brightness_of (of_int 0) (of_int 255) (of_int 0) = Int L
    /\ 0 <= L < 256
    /\ Public.charIndex 3 (Int L) = Int (Z.min (3 - 1) (L * 3 / 256))
    /\ CHAR_SETS_simple !! Z.to_nat (Z.min (3 - 1) (L * 3 / 256)) = Some c
    /\ Public_glyph (Ramp CHAR_SETS_simple) [0; 255; 0; 255] 1 0 0 = [c].
Proof.
  refine (proj1 (ramp_index CHAR_SETS_simple 0 255 0 _ _ _ _)).
  - discriminate.
  - unfold byte. lia.
  - unfold byte. lia.
  - unfold byte. lia.
Defined.

End RampIndex.
